(** * 21cmFAST: ionisation excursion-set solver, halo-box gridder and
      spin-temperature shell schedule

    A shallow embedding of the C kernels of [IonisationBox.c], [HaloBox.c]
    and [SpinTemperatureBox.c], and the properties of them that the
    specification states.

    Modelling conventions.
    - C [double] and [float] quantities of the ionisation and halo-box code
      are exact rationals ([Q]); rounding, infinities and NaN are not
      represented, so the [isfinite] checks of the source never fire.
      Comparisons ([>], [<], [<=]) are the booleans [Qltb] and [Qle_bool].
    - The shell schedule of the spin-temperature code calls [pow] with a
      fractional exponent; that module works over the reals ([Rpower]).
    - A lattice buffer ([float *] of [HII_TOT_NUM_PIXELS] entries) is a total
      map from the linear cell index to its value; the triple loop over
      [(x,y,z)] with [HII_R_INDEX] is a loop over the linear index in
      increasing order.  The OpenMP parallel-for is run sequentially.
    - Functions of other translation units (cosmology, mass-function
      integrals, FFT filtering, libm) are fields of [Externals]; macros of
      headers that are not part of the sources are fields of [Macros].
    - A local that the source declares without initialiser and then reads is
      an explicit input ([Indeterminate]). *)

From Stdlib Require Import QArith Qminmax Qabs ZArith List Bool Lia Psatz.
From Stdlib Require Import Reals.
Import ListNotations.

Local Open Scope Q_scope.

(** ** Numbers and lattice buffers *)

(** [x < y] on doubles. *)
Definition Qltb (x y : Q) : bool := negb (Qle_bool y x).

Definition grid := nat -> Q.

Definition upd (g : grid) (i : nat) (v : Q) : grid :=
  fun j => if Nat.eqb j i then v else g j.

(** [for (ct = 0; ct < n; ct++) body(ct)] over a state. *)
Definition for_cells {S : Type} (n : nat) (body : nat -> S -> S) (s : S) : S :=
  fold_left (fun acc ct => body ct acc) (seq 0 n) s.

(** The sum of a buffer over the first [n] cells. *)
Fixpoint sum_cells (n : nat) (g : grid) : Q :=
  match n with
  | O => 0
  | S k => sum_cells k g + g k
  end.

(** ** Parameter structures *)

Record FlagOptions := mkFlagOptions {
  USE_HALO_FIELD : bool;
  USE_MINI_HALOS : bool;
  USE_MASS_DEPENDENT_ZETA : bool;
  USE_TS_FLUCT : bool;
  INHOMO_RECO : bool;
  CELL_RECOMB : bool;
  USE_EXP_FILTER : bool;
  FIX_VCB_AVG : bool;
  FIXED_HALO_GRIDS : bool;
  PHOTON_CONS_TYPE : Z
}.

Record UserParams := mkUserParams {
  HII_DIM : nat;
  HII_D_PARA : nat;
  BOX_LEN : Q;
  NO_RNG : bool;
  AVG_BELOW_SAMPLER : bool;
  USE_RELATIVE_VELOCITIES : bool;
  SAMPLER_MIN_MASS : Q
}.

Definition HII_TOT_NUM_PIXELS (u : UserParams) : nat :=
  (HII_DIM u * HII_DIM u * HII_D_PARA u)%nat.

Definition Qnat (n : nat) : Q := inject_Z (Z.of_nat n).

Record CosmoParams := mkCosmoParams {
  hlittle : Q;
  OMb : Q;
  OMm : Q
}.

Record AstroParams := mkAstroParams {
  F_STAR10 : Q;
  ALPHA_STAR : Q;
  F_STAR7_MINI : Q;
  ALPHA_STAR_MINI : Q;
  t_STAR : Q;
  ALPHA_ESC : Q;
  F_ESC10 : Q;
  F_ESC7_MINI : Q;
  M_TURN : Q;
  HII_EFF_FACTOR : Q;
  SIGMA_STAR : Q;
  UPPER_STELLAR_TURNOVER_INDEX : Q;
  UPPER_STELLAR_TURNOVER_MASS : Q;
  SIGMA_SFR_LIM : Q;
  SIGMA_SFR_INDEX : Q;
  L_X : Q;
  L_X_MINI : Q;
  SIGMA_LX : Q
}.

Record GlobalParams := mkGlobalParams {
  ZPRIME_STEP_FACTOR : Q;
  VAVG : Q;
  M_MIN_INTEGRAL : Q;
  M_MAX_INTEGRAL : Q;
  Pop2_ion : Q;
  Pop3_ion : Q;
  ALPHA_UVB : Q;
  Z_HEAT_MAX : Q;
  HII_ROUND_ERR : Q;
  FIND_BUBBLE_ALGORITHM : Z;
  N_POISSON : Z
}.

(** Macros of [Constants.h] and [indexing.h]. *)
Record Macros := mkMacros {
  FRACT_FLOAT_ERR : Q;
  TINY : Q;
  RHOcrit : Q;
  CMperMPC : Q;
  SIGMA_HI : Q;
  N_b0 : Q;
  VOLUME : Q
}.

(** ** External collaborators

    Functions of [cosmology.c], [hmf.c], [interp_tables.c], [thermochem.c],
    [recombinations.c], [photoncons.c], [bubble_helper_progs.c], libm and
    GSL that the modelled kernels call.  The generator state of GSL is a
    natural number; [gsl_ran_poisson] returns the draw and the next state. *)
Record Externals := mkExternals {
  pow : Q -> Q -> Q;
  log : Q -> Q;
  log10 : Q -> Q;
  dtdz : Q -> Q;
  dicke : Q -> Q;
  t_hubble : Q -> Q;
  get_fesc_fit : Q -> Q;
  atomic_cooling_threshold : Q -> Q;
  lyman_werner_threshold : Q -> Q -> Q -> AstroParams -> Q;
  reionization_feedback : Q -> Q -> Q -> Q;
  Mass_limit_bisection : Q -> Q -> Q -> Q -> Q;
  minimum_source_mass : Q -> bool -> AstroParams -> FlagOptions -> Q;
  sigma_z0 : Q -> Q;
  RtoM : Q -> Q;
  T_RECFAST : Q -> Z -> Q;
  xion_RECFAST : Q -> Z -> Q;
  cT_approx : Q -> Q;
  Nion_General : Q -> Q -> Q -> Q -> Q -> Q -> Q -> Q -> Q -> Q -> Q;
  Nion_General_MINI :
    Q -> Q -> Q -> Q -> Q -> Q -> Q -> Q -> Q -> Q -> Q -> Q;
  Fcoll_General : Q -> Q -> Q -> Q;
  EvaluateNion_Conditional :
    Q -> Q -> Q -> Q -> Q -> Q -> Q -> Q -> Q -> bool -> Q;
  EvaluateNion_Conditional_MINI :
    Q -> Q -> Q -> Q -> Q -> Q -> Q -> Q -> Q -> Q -> bool -> Q;
  EvaluateFcoll_delta : Q -> Q -> Q -> Q -> Q;
  ComputePartiallyIoinizedTemperature : Q -> Q -> Q;
  ComputeFullyIoinizedTemperature : Q -> Q -> Q -> Q;
  splined_recombination_rate : Q -> Q -> Q;
  gsl_ran_poisson : nat -> Q -> Z * nat;
  adjust_redshifts_for_photoncons :
    AstroParams -> FlagOptions -> Q -> Q * Q * Q;
  in_sphere : Q -> nat -> nat -> bool;
  HII_R_INDEX : UserParams -> Z -> Z -> Z -> nat
}.

(** Modelled from the spec: [update_in_sphere] of [bubble_helper_progs.c]
    is not part of the sources.  The spec has the sphere algorithm paint
    "all cells within the sphere of radius R around (x,y,z)"; which cells
    those are is the external predicate [in_sphere], given the radius in
    box units and the centre cell; painting sets the cell to [0]. *)
Definition update_in_sphere (E : Externals) (box : grid) (Rbox : Q)
           (centre : nat) : grid :=
  fun j => if in_sphere E Rbox centre j then 0 else box j.

Inductive error : Type :=
| ValueError
| InfinityorNaNError
| PhotonConsError.

(** * The ionisation excursion-set solver ([IonisationBox.c]) *)
Module IonisationBox.

Record IonBoxConstants := mkIonBoxConstants {
  redshift : Q;
  stored_redshift : Q;
  prev_redshift : Q;
  growth_factor : Q;
  prev_growth_factor : Q;
  photoncons_adjustment_factor : Q;
  dz : Q;
  fabs_dtdz : Q;
  fix_mean : bool;
  filter_recombinations : bool;
  fstar_10 : Q;
  alpha_star : Q;
  fstar_7 : Q;
  alpha_star_mini : Q;
  t_h : Q;
  t_star_sec : Q;
  fesc_10 : Q;
  alpha_esc : Q;
  fesc_7 : Q;
  vcb_norel : Q;
  mturn_a_nofb : Q;
  mturn_m_nofb : Q;
  ion_eff_factor : Q;
  ion_eff_factor_mini : Q;
  ion_eff_factor_gl : Q;
  ion_eff_factor_mini_gl : Q;
  mfp_meandens : Q;
  gamma_prefactor : Q;
  gamma_prefactor_mini : Q;
  TK_nofluct : Q;
  adia_TK_term : Q;
  Mlim_Fstar : Q;
  Mlim_Fesc : Q;
  Mlim_Fstar_mini : Q;
  Mlim_Fesc_mini : Q;
  M_min : Q;
  lnMmin : Q;
  M_max_gl : Q;
  lnMmax_gl : Q;
  sigma_minmass : Q;
  pixel_length : Q;
  pixel_mass : Q
}.

Record RadiusSpec := mkRadiusSpec {
  R : Q;
  M_max_R : Q;
  ln_M_max_R : Q;
  sigma_maxmass : Q;
  R_index : nat;
  f_coll_grid_mean : Q;
  f_coll_grid_mean_MINI : Q
}.

(** The real-space content of the [*_filtered] buffers. *)
Record FilteredGrids := mkFilteredGrids {
  deltax_filtered : grid;
  xe_filtered : grid;
  N_rec_filtered : grid;
  prev_deltax_filtered : grid;
  log10_Mturnover_filtered : grid;
  log10_Mturnover_MINI_filtered : grid;
  stars_filtered : grid;
  sfr_filtered : grid
}.

Record IonizedBox := mkIonizedBox {
  xH_box : grid;
  z_re_box : grid;
  Gamma12_box : grid;
  MFP_box : grid;
  dNrec_box : grid;
  temp_kinetic_all_gas : grid;
  Fcoll : grid;
  Fcoll_MINI : grid;
  mean_f_coll : Q;
  mean_f_coll_MINI : Q;
  log10_Mturnover_ave : Q;
  log10_Mturnover_MINI_ave : Q
}.

Record TsBox := mkTsBox {
  x_e_box : grid;
  Tk_box : grid;
  J_21_LW_box : grid
}.

Record PerturbedField := mkPerturbedField {
  density : grid
}.

(** Field assignments [box->f = v]. *)
Definition set_xH_box (b : IonizedBox) (g : grid) : IonizedBox :=
  mkIonizedBox g (z_re_box b) (Gamma12_box b) (MFP_box b) (dNrec_box b)
    (temp_kinetic_all_gas b) (Fcoll b) (Fcoll_MINI b) (mean_f_coll b)
    (mean_f_coll_MINI b) (log10_Mturnover_ave b) (log10_Mturnover_MINI_ave b).

Definition set_z_re_box (b : IonizedBox) (g : grid) : IonizedBox :=
  mkIonizedBox (xH_box b) g (Gamma12_box b) (MFP_box b) (dNrec_box b)
    (temp_kinetic_all_gas b) (Fcoll b) (Fcoll_MINI b) (mean_f_coll b)
    (mean_f_coll_MINI b) (log10_Mturnover_ave b) (log10_Mturnover_MINI_ave b).

Definition set_Gamma12_box (b : IonizedBox) (g : grid) : IonizedBox :=
  mkIonizedBox (xH_box b) (z_re_box b) g (MFP_box b) (dNrec_box b)
    (temp_kinetic_all_gas b) (Fcoll b) (Fcoll_MINI b) (mean_f_coll b)
    (mean_f_coll_MINI b) (log10_Mturnover_ave b) (log10_Mturnover_MINI_ave b).

Definition set_MFP_box (b : IonizedBox) (g : grid) : IonizedBox :=
  mkIonizedBox (xH_box b) (z_re_box b) (Gamma12_box b) g (dNrec_box b)
    (temp_kinetic_all_gas b) (Fcoll b) (Fcoll_MINI b) (mean_f_coll b)
    (mean_f_coll_MINI b) (log10_Mturnover_ave b) (log10_Mturnover_MINI_ave b).

Definition set_dNrec_box (b : IonizedBox) (g : grid) : IonizedBox :=
  mkIonizedBox (xH_box b) (z_re_box b) (Gamma12_box b) (MFP_box b) g
    (temp_kinetic_all_gas b) (Fcoll b) (Fcoll_MINI b) (mean_f_coll b)
    (mean_f_coll_MINI b) (log10_Mturnover_ave b) (log10_Mturnover_MINI_ave b).

Definition set_temp_kinetic_all_gas (b : IonizedBox) (g : grid) : IonizedBox :=
  mkIonizedBox (xH_box b) (z_re_box b) (Gamma12_box b) (MFP_box b)
    (dNrec_box b) g (Fcoll b) (Fcoll_MINI b) (mean_f_coll b)
    (mean_f_coll_MINI b) (log10_Mturnover_ave b) (log10_Mturnover_MINI_ave b).

Definition set_Fcoll (b : IonizedBox) (g : grid) : IonizedBox :=
  mkIonizedBox (xH_box b) (z_re_box b) (Gamma12_box b) (MFP_box b)
    (dNrec_box b) (temp_kinetic_all_gas b) g (Fcoll_MINI b) (mean_f_coll b)
    (mean_f_coll_MINI b) (log10_Mturnover_ave b) (log10_Mturnover_MINI_ave b).

Definition set_Fcoll_MINI (b : IonizedBox) (g : grid) : IonizedBox :=
  mkIonizedBox (xH_box b) (z_re_box b) (Gamma12_box b) (MFP_box b)
    (dNrec_box b) (temp_kinetic_all_gas b) (Fcoll b) g (mean_f_coll b)
    (mean_f_coll_MINI b) (log10_Mturnover_ave b) (log10_Mturnover_MINI_ave b).

Definition set_mean_f_coll (b : IonizedBox) (v : Q) : IonizedBox :=
  mkIonizedBox (xH_box b) (z_re_box b) (Gamma12_box b) (MFP_box b)
    (dNrec_box b) (temp_kinetic_all_gas b) (Fcoll b) (Fcoll_MINI b) v
    (mean_f_coll_MINI b) (log10_Mturnover_ave b) (log10_Mturnover_MINI_ave b).

Definition set_mean_f_coll_MINI (b : IonizedBox) (v : Q) : IonizedBox :=
  mkIonizedBox (xH_box b) (z_re_box b) (Gamma12_box b) (MFP_box b)
    (dNrec_box b) (temp_kinetic_all_gas b) (Fcoll b) (Fcoll_MINI b)
    (mean_f_coll b) v (log10_Mturnover_ave b) (log10_Mturnover_MINI_ave b).

Definition set_log10_Mturnover_aves (b : IonizedBox) (a m : Q) : IonizedBox :=
  mkIonizedBox (xH_box b) (z_re_box b) (Gamma12_box b) (MFP_box b)
    (dNrec_box b) (temp_kinetic_all_gas b) (Fcoll b) (Fcoll_MINI b)
    (mean_f_coll b) (mean_f_coll_MINI b) a m.

(** Two boxes agree on everything but the collapse-fraction buffers, the
    recombination count and the kinetic temperature. *)
Definition same_cells (b1 b2 : IonizedBox) : Prop :=
  xH_box b1 = xH_box b2 /\ z_re_box b1 = z_re_box b2
  /\ Gamma12_box b1 = Gamma12_box b2 /\ MFP_box b1 = MFP_box b2
  /\ mean_f_coll b1 = mean_f_coll b2
  /\ mean_f_coll_MINI b1 = mean_f_coll_MINI b2.

(** Assignments to the clipped [*_filtered] buffers. *)
Definition set_deltax_filtered (fg : FilteredGrids) (g : grid) : FilteredGrids :=
  mkFilteredGrids g (xe_filtered fg) (N_rec_filtered fg)
    (prev_deltax_filtered fg) (log10_Mturnover_filtered fg)
    (log10_Mturnover_MINI_filtered fg) (stars_filtered fg) (sfr_filtered fg).

Definition set_xe_filtered (fg : FilteredGrids) (g : grid) : FilteredGrids :=
  mkFilteredGrids (deltax_filtered fg) g (N_rec_filtered fg)
    (prev_deltax_filtered fg) (log10_Mturnover_filtered fg)
    (log10_Mturnover_MINI_filtered fg) (stars_filtered fg) (sfr_filtered fg).

Definition set_N_rec_filtered (fg : FilteredGrids) (g : grid) : FilteredGrids :=
  mkFilteredGrids (deltax_filtered fg) (xe_filtered fg) g
    (prev_deltax_filtered fg) (log10_Mturnover_filtered fg)
    (log10_Mturnover_MINI_filtered fg) (stars_filtered fg) (sfr_filtered fg).

Definition set_prev_deltax_filtered (fg : FilteredGrids) (g : grid)
  : FilteredGrids :=
  mkFilteredGrids (deltax_filtered fg) (xe_filtered fg) (N_rec_filtered fg)
    g (log10_Mturnover_filtered fg)
    (log10_Mturnover_MINI_filtered fg) (stars_filtered fg) (sfr_filtered fg).

Definition set_log10_Mturnover_filtered (fg : FilteredGrids) (g : grid)
  : FilteredGrids :=
  mkFilteredGrids (deltax_filtered fg) (xe_filtered fg) (N_rec_filtered fg)
    (prev_deltax_filtered fg) g
    (log10_Mturnover_MINI_filtered fg) (stars_filtered fg) (sfr_filtered fg).

Definition set_log10_Mturnover_MINI_filtered (fg : FilteredGrids) (g : grid)
  : FilteredGrids :=
  mkFilteredGrids (deltax_filtered fg) (xe_filtered fg) (N_rec_filtered fg)
    (prev_deltax_filtered fg) (log10_Mturnover_filtered fg)
    g (stars_filtered fg) (sfr_filtered fg).

Definition set_stars_filtered (fg : FilteredGrids) (g : grid) : FilteredGrids :=
  mkFilteredGrids (deltax_filtered fg) (xe_filtered fg) (N_rec_filtered fg)
    (prev_deltax_filtered fg) (log10_Mturnover_filtered fg)
    (log10_Mturnover_MINI_filtered fg) g (sfr_filtered fg).

Definition set_sfr_filtered (fg : FilteredGrids) (g : grid) : FilteredGrids :=
  mkFilteredGrids (deltax_filtered fg) (xe_filtered fg) (N_rec_filtered fg)
    (prev_deltax_filtered fg) (log10_Mturnover_filtered fg)
    (log10_Mturnover_MINI_filtered fg) (stars_filtered fg) g.

(** Values of the locals that the source reads without having assigned
    them: the stack struct [ionbox_constants], the out-parameter
    [f_limit_mcg], the reduction accumulators of [calculate_fcoll_grid]
    (one pair per call, indexed by the radius), its per-cell temporaries
    and the flag [finite_error] of [set_recombination_rates]. *)
Record Indeterminate := mkIndeterminate {
  ionbox_constants_0 : IonBoxConstants;
  f_limit_mcg_0 : Q;
  f_coll_total_0 : nat -> Q;
  f_coll_MINI_total_0 : nat -> Q;
  Splined_Fcoll_MINI_0 : Q;
  prev_Splined_Fcoll_0 : Q;
  prev_Splined_Fcoll_MINI_0 : Q;
  Mturnover_global_avg_0 : Q;
  Mturnover_global_avg_MINI_0 : Q;
  finite_error_0 : bool
}.

Section Kernels.

Variable E : Externals.
Variable mac : Macros.
Variable global_params : GlobalParams.
Variable user_params : UserParams.
Variable cosmo_params : CosmoParams.
Variable astro_params : AstroParams.
Variable flag_options : FlagOptions.

Local Abbreviation npix := (HII_TOT_NUM_PIXELS user_params).

(** [set_ionbox_constants]: the fields are assigned in the order of the
    source; a field that no branch assigns keeps the value of [consts]. *)
Definition set_ionbox_constants (redshift' prev_redshift' : Q)
           (consts : IonBoxConstants) : IonBoxConstants :=
  let dz' :=
    if Qltb prev_redshift' 1
    then (1 + redshift') * (ZPRIME_STEP_FACTOR global_params - 1)
    else redshift' - prev_redshift' in
  let fabs_dtdz' := Qabs (dtdz E redshift') / 1e15 in
  let t_h' := t_hubble E redshift' in
  let t_star_sec' := t_STAR astro_params * t_h' in
  let pct := PHOTON_CONS_TYPE flag_options in
  let alpha_esc' :=
    if (pct =? 2)%Z then get_fesc_fit E redshift' else ALPHA_ESC astro_params in
  let fesc_10' :=
    if (pct =? 2)%Z then F_ESC10 astro_params
    else if (pct =? 3)%Z then get_fesc_fit E redshift'
         else F_ESC10 astro_params in
  let mturn_a0 :=
    if USE_MINI_HALOS flag_options
    then atomic_cooling_threshold E redshift' else M_TURN astro_params in
  let vcb_norel' :=
    if USE_MINI_HALOS flag_options
    then (if FIX_VCB_AVG flag_options then VAVG global_params else 0)
    else vcb_norel consts in
  let mturn_m0 :=
    if USE_MINI_HALOS flag_options
    then lyman_werner_threshold E redshift' 0 vcb_norel' astro_params
    else 0 in
  let mturn_m' :=
    if Qltb mturn_m0 (M_TURN astro_params) then M_TURN astro_params
    else mturn_m0 in
  let mturn_a' :=
    if Qltb mturn_a0 (M_TURN astro_params) then M_TURN astro_params
    else mturn_a0 in
  let tables := FIXED_HALO_GRIDS flag_options || AVG_BELOW_SAMPLER user_params in
  let bisect := Mass_limit_bisection E (M_MIN_INTEGRAL global_params)
                                     (M_MAX_INTEGRAL global_params) in
  let Mlim_Fstar' :=
    if tables then bisect (ALPHA_STAR astro_params) (F_STAR10 astro_params)
    else Mlim_Fstar consts in
  let Mlim_Fesc' :=
    if tables then bisect alpha_esc' fesc_10' else Mlim_Fesc consts in
  let Mlim_Fstar_mini' :=
    if tables && USE_MINI_HALOS flag_options
    then bisect (ALPHA_STAR_MINI astro_params)
                (F_STAR7_MINI astro_params
                 * pow E 1e3 (ALPHA_STAR_MINI astro_params))
    else Mlim_Fstar_mini consts in
  let Mlim_Fesc_mini' :=
    if tables && USE_MINI_HALOS flag_options
    then bisect alpha_esc' (F_ESC7_MINI astro_params * pow E 1e3 alpha_esc')
    else Mlim_Fesc_mini consts in
  let ion_eff_factor_gl' :=
    if USE_MASS_DEPENDENT_ZETA flag_options
    then Pop2_ion global_params * F_STAR10 astro_params * fesc_10'
    else HII_EFF_FACTOR astro_params in
  let ion_eff_factor_mini_gl' :=
    if USE_MASS_DEPENDENT_ZETA flag_options
    then Pop3_ion global_params * F_STAR7_MINI astro_params
         * F_ESC7_MINI astro_params
    else 0 in
  let ion_eff_factor' :=
    if USE_HALO_FIELD flag_options then 1 else ion_eff_factor_gl' in
  let ion_eff_factor_mini' :=
    if USE_HALO_FIELD flag_options then 1 else ion_eff_factor_mini_gl' in
  let mfp_meandens' :=
    if USE_EXP_FILTER flag_options
    then (if Qltb 6 redshift'
          then 25.483241248322766 / hlittle cosmo_params
          else 112 / hlittle cosmo_params
               * pow E ((1 + redshift') / 5) (- 4.4))
    else mfp_meandens consts in
  let M_min' := minimum_source_mass E redshift' false astro_params flag_options in
  let TK_nofluct' :=
    if USE_TS_FLUCT flag_options then TK_nofluct consts
    else T_RECFAST E redshift' 0 in
  let adia_TK_term' :=
    if USE_TS_FLUCT flag_options then adia_TK_term consts
    else cT_approx E redshift' in
  let pixel_length' := BOX_LEN user_params / Qnat (HII_DIM user_params) in
  let pixel_mass' :=
    OMm cosmo_params * RHOcrit mac * pow E pixel_length' 3 in
  let gamma0 :=
    pow E (1 + redshift') 2 * CMperMPC mac * SIGMA_HI mac
    * ALPHA_UVB global_params / (ALPHA_UVB global_params + 2.75)
    * N_b0 mac * ion_eff_factor' / 1.0e-12 in
  let gamma_prefactor' :=
    if USE_HALO_FIELD flag_options
    then gamma0 / (RHOcrit mac * OMb cosmo_params)
    else gamma0 / t_star_sec' in
  {| redshift := redshift';
     stored_redshift := redshift';
     prev_redshift := prev_redshift consts;
     growth_factor := dicke E redshift';
     prev_growth_factor := dicke E prev_redshift';
     photoncons_adjustment_factor := 1;
     dz := dz';
     fabs_dtdz := fabs_dtdz';
     fix_mean := negb (USE_HALO_FIELD flag_options);
     filter_recombinations :=
       INHOMO_RECO flag_options && negb (CELL_RECOMB flag_options);
     fstar_10 := F_STAR10 astro_params;
     alpha_star := ALPHA_STAR astro_params;
     fstar_7 := F_STAR7_MINI astro_params;
     alpha_star_mini := ALPHA_STAR_MINI astro_params;
     t_h := t_h';
     t_star_sec := t_star_sec';
     fesc_10 := fesc_10';
     alpha_esc := alpha_esc';
     fesc_7 := F_ESC7_MINI astro_params;
     vcb_norel := vcb_norel';
     mturn_a_nofb := mturn_a';
     mturn_m_nofb := mturn_m';
     ion_eff_factor := ion_eff_factor';
     ion_eff_factor_mini := ion_eff_factor_mini';
     ion_eff_factor_gl := ion_eff_factor_gl';
     ion_eff_factor_mini_gl := ion_eff_factor_mini_gl';
     mfp_meandens := mfp_meandens';
     gamma_prefactor := gamma_prefactor';
     gamma_prefactor_mini :=
       gamma_prefactor' * ion_eff_factor_mini' / ion_eff_factor';
     TK_nofluct := TK_nofluct';
     adia_TK_term := adia_TK_term';
     Mlim_Fstar := Mlim_Fstar';
     Mlim_Fesc := Mlim_Fesc';
     Mlim_Fstar_mini := Mlim_Fstar_mini';
     Mlim_Fesc_mini := Mlim_Fesc_mini';
     M_min := M_min';
     lnMmin := log E M_min';
     M_max_gl := M_max_gl consts;
     lnMmax_gl := log E (M_MAX_INTEGRAL global_params);
     sigma_minmass := sigma_z0 E M_min';
     pixel_length := pixel_length';
     pixel_mass := pixel_mass' |}.

(** [setup_first_z_prevbox]: the dummy previous box of the first snapshot.
    [calloc] gives zeros; the loops then write the cells of the lattice. *)
Definition setup_first_z_prevbox (previous_ionize_box : IonizedBox)
           (previous_perturb : PerturbedField)
  : IonizedBox * PerturbedField :=
  let zeros : grid := fun _ => 0 in
  let b1 :=
    set_z_re_box previous_ionize_box
      (for_cells npix (fun ct g => upd g ct (- (1))) zeros) in
  let b2 :=
    if INHOMO_RECO flag_options then set_dNrec_box b1 zeros else b1 in
  if USE_MINI_HALOS flag_options
  then
    let b3 := set_Gamma12_box b2 zeros in
    let b4 := set_Fcoll_MINI (set_Fcoll b3 zeros) zeros in
    let b5 := set_mean_f_coll_MINI (set_mean_f_coll b4 0) 0 in
    (b5, mkPerturbedField
           (for_cells npix (fun ct g => upd g ct (- (1.5))) zeros))
  else (b2, previous_perturb).

(** [set_mean_fcoll]: returns the box with its global means set and the two
    lower limits.  [f_limit_mcg] is written only with mini-halos. *)
Definition set_mean_fcoll (c : IonBoxConstants) (prev_box curr_box : IonizedBox)
           (mturn_acg mturn_mcg : Q) (f_limit_mcg : Q)
  : IonizedBox * Q * Q :=
  if USE_MASS_DEPENDENT_ZETA flag_options
  then
    let f_coll_curr :=
      Nion_General E (redshift c) (lnMmin c) (lnMmax_gl c) mturn_acg
        (alpha_star c) (alpha_esc c) (fstar_10 c) (fesc_10 c)
        (Mlim_Fstar c) (Mlim_Fesc c) in
    let f_limit_acg :=
      Nion_General E (Z_HEAT_MAX global_params) (lnMmin c) (lnMmax_gl c)
        mturn_acg (alpha_star c) (alpha_esc c) (fstar_10 c) (fesc_10 c)
        (Mlim_Fstar c) (Mlim_Fesc c) in
    if USE_MINI_HALOS flag_options
    then
      let mean_acg :=
        if Qltb (mean_f_coll prev_box * ion_eff_factor_gl c) 1e-4
        then f_coll_curr
        else
          let f_coll_prev :=
            Nion_General E (prev_redshift c) (lnMmin c) (lnMmax_gl c)
              mturn_acg (alpha_star c) (alpha_esc c) (fstar_10 c) (fesc_10 c)
              (Mlim_Fstar c) (Mlim_Fesc c) in
          mean_f_coll prev_box + f_coll_curr - f_coll_prev in
      let f_coll_curr_mini :=
        Nion_General_MINI E (redshift c) (lnMmin c) (lnMmax_gl c) mturn_mcg
          mturn_acg (alpha_star_mini c) (alpha_esc c) (fstar_7 c) (fesc_7 c)
          (Mlim_Fstar_mini c) (Mlim_Fesc_mini c) in
      let mean_mcg :=
        if Qltb (mean_f_coll_MINI prev_box * ion_eff_factor_gl c) 1e-4
        then f_coll_curr_mini
        else
          let f_coll_prev_mini :=
            Nion_General_MINI E (prev_redshift c) (lnMmin c) (lnMmax_gl c)
              mturn_mcg mturn_acg (alpha_star_mini c) (alpha_esc c)
              (fstar_7 c) (fesc_7 c) (Mlim_Fstar_mini c) (Mlim_Fesc_mini c) in
          mean_f_coll_MINI prev_box + f_coll_curr_mini - f_coll_prev_mini in
      let f_limit_mcg' :=
        Nion_General_MINI E (Z_HEAT_MAX global_params) (lnMmin c)
          (lnMmax_gl c) mturn_mcg mturn_acg (alpha_star_mini c) (alpha_esc c)
          (fstar_7 c) (fesc_7 c) (Mlim_Fstar_mini c) (Mlim_Fesc_mini c) in
      (set_mean_f_coll_MINI (set_mean_f_coll curr_box mean_acg) mean_mcg,
       f_limit_acg, f_limit_mcg')
    else
      (set_mean_f_coll_MINI (set_mean_f_coll curr_box f_coll_curr) 0,
       f_limit_acg, f_limit_mcg)
  else
    (set_mean_f_coll curr_box
       (Fcoll_General E (redshift c) (lnMmin c) (lnMmax_gl c)),
     Fcoll_General E (Z_HEAT_MAX global_params) (lnMmin c) (lnMmax_gl c),
     f_limit_mcg).

(** [set_fully_neutral_box]; the returned mean [global_xH] is only logged
    by the caller and is not carried. *)
Definition set_fully_neutral_box (box : IonizedBox) (spin_temp : TsBox)
           (perturbed_field : PerturbedField) (consts : IonBoxConstants)
  : IonizedBox :=
  if USE_TS_FLUCT flag_options
  then
    for_cells npix
      (fun ct b =>
         let b1 := set_xH_box b (upd (xH_box b) ct (1 - x_e_box spin_temp ct)) in
         set_temp_kinetic_all_gas b1
           (upd (temp_kinetic_all_gas b1) ct (Tk_box spin_temp ct)))
      box
  else
    let global_xH := 1 - xion_RECFAST E (redshift consts) 0 in
    for_cells npix
      (fun ct b =>
         let b1 := set_xH_box b (upd (xH_box b) ct global_xH) in
         set_temp_kinetic_all_gas b1
           (upd (temp_kinetic_all_gas b1) ct
              (TK_nofluct consts
               * (1 + adia_TK_term consts * density perturbed_field ct))))
      box.

(** The clamp applied to each interpolated collapse fraction before the
    trapezoidal update: [if (f > 1.) f = 1.; if (f < 0.) f = 1e-40;]. *)
Definition clip_Splined (f : Q) : Q :=
  let f1 := if Qltb 1 f then 1 else f in
  if Qltb f1 0 then 1e-40 else f1.

(** State of the cell loop of [calculate_fcoll_grid]. *)
Record FcollLoop := mkFcollLoop {
  fl_box : IonizedBox;
  fl_fg : FilteredGrids;
  fl_f_coll_total : Q;
  fl_f_coll_MINI_total : Q
}.

(** The clipping of the filtered grids of one cell to physical values. *)
Definition clip_filtered_cell (consts : IonBoxConstants) (ct : nat)
           (fg0 : FilteredGrids) : FilteredGrids :=
  (* delta cannot be less than -1 *)
  let fg1 :=
    set_deltax_filtered fg0
      (upd (deltax_filtered fg0) ct
           (Qmax (deltax_filtered fg0 ct) (- (1) + FRACT_FLOAT_ERR mac))) in
  (* <N_rec> cannot be less than zero *)
  let fg2 :=
    if filter_recombinations consts
    then set_N_rec_filtered fg1
           (upd (N_rec_filtered fg1) ct (Qmax (N_rec_filtered fg1 ct) 0))
    else fg1 in
  (* x_e has to be between zero and unity *)
  let fg3 :=
    if USE_TS_FLUCT flag_options
    then set_xe_filtered fg2
           (upd (xe_filtered fg2) ct
                (Qmin (Qmax (xe_filtered fg2 ct) 0) 0.999))
    else fg2 in
  (* stellar mass & sfr cannot be less than zero *)
  if USE_HALO_FIELD flag_options
  then
    let s1 := set_stars_filtered fg3
                (upd (stars_filtered fg3) ct (Qmax (stars_filtered fg3 ct) 0)) in
    set_sfr_filtered s1 (upd (sfr_filtered s1) ct (Qmax (sfr_filtered s1 ct) 0))
  else fg3.

(** The four collapse fractions of a cell: at the current and at the
    previous redshift, for atomic and for mini-halos. *)
Record Splined := mkSplined {
  Splined_Fcoll : Q;
  Splined_Fcoll_MINI : Q;
  prev_Splined_Fcoll : Q;
  prev_Splined_Fcoll_MINI : Q
}.

Definition splined_fcolls (ind : Indeterminate)
           (previous_ionize_box : IonizedBox) (consts : IonBoxConstants)
           (rspec : RadiusSpec) (fg : FilteredGrids) (ct : nat) : Splined :=
  let curr_dens := deltax_filtered fg ct in
  let log10_Mturnover :=
    if USE_MINI_HALOS flag_options
    then log10_Mturnover_filtered fg ct
    else log10 E (mturn_a_nofb consts) in
  let log10_Mturnover_MINI := log10_Mturnover_MINI_filtered fg ct in
  let need_prev :=
    Qltb 1e-4
         (mean_f_coll_MINI previous_ionize_box * ion_eff_factor_mini_gl consts
          + mean_f_coll previous_ionize_box * ion_eff_factor_gl consts) in
  let prev_dens := prev_deltax_filtered fg ct in
  let mdz := USE_MASS_DEPENDENT_ZETA flag_options in
  let mini := USE_MINI_HALOS flag_options in
  if USE_HALO_FIELD flag_options
  then mkSplined (stars_filtered fg ct) 0 0 0
  else
    {| Splined_Fcoll :=
         if mdz
         then EvaluateNion_Conditional E curr_dens log10_Mturnover
                (growth_factor consts) (M_min consts) (M_max_R rspec)
                (M_max_R rspec) (sigma_maxmass rspec) (Mlim_Fstar consts)
                (Mlim_Fesc consts) true
         else EvaluateFcoll_delta E curr_dens (growth_factor consts)
                (sigma_minmass consts) (sigma_maxmass rspec);
       Splined_Fcoll_MINI :=
         if mdz && mini
         then EvaluateNion_Conditional_MINI E curr_dens log10_Mturnover_MINI
                (growth_factor consts) (M_min consts) (M_max_R rspec)
                (M_max_R rspec) (sigma_maxmass rspec) (mturn_a_nofb consts)
                (Mlim_Fstar_mini consts) (Mlim_Fesc consts) false
         else Splined_Fcoll_MINI_0 ind;
       prev_Splined_Fcoll :=
         if mdz && mini
         then (if need_prev
               then EvaluateNion_Conditional E prev_dens log10_Mturnover
                      (prev_growth_factor consts) (M_min consts)
                      (M_max_R rspec) (M_max_R rspec) (sigma_maxmass rspec)
                      (Mlim_Fstar consts) (Mlim_Fesc consts) true
               else 0)
         else prev_Splined_Fcoll_0 ind;
       prev_Splined_Fcoll_MINI :=
         if mdz && mini
         then (if need_prev
               then EvaluateNion_Conditional_MINI E prev_dens
                      log10_Mturnover_MINI (prev_growth_factor consts)
                      (M_min consts) (M_max_R rspec) (M_max_R rspec)
                      (sigma_maxmass rspec) (mturn_a_nofb consts)
                      (Mlim_Fstar_mini consts) (Mlim_Fesc_mini consts) true
               else 0)
         else prev_Splined_Fcoll_MINI_0 ind |}.

(** One cell of [calculate_fcoll_grid]. *)
Definition calculate_fcoll_cell (ind : Indeterminate)
           (previous_ionize_box : IonizedBox) (consts : IonBoxConstants)
           (rspec : RadiusSpec) (ct : nat) (st : FcollLoop) : FcollLoop :=
  let fc_r_idx := if USE_MINI_HALOS flag_options then R_index rspec else O in
  let idx := (fc_r_idx * npix + ct)%nat in
  let box := fl_box st in
  let fg := clip_filtered_cell consts ct (fl_fg st) in
  let sp := splined_fcolls ind previous_ionize_box consts rspec fg ct in
  if USE_MINI_HALOS flag_options && negb (USE_HALO_FIELD flag_options)
  then
    (* trapezoidal update, upper clamp only *)
    let v := Fcoll previous_ionize_box idx
             + clip_Splined (Splined_Fcoll sp)
             - clip_Splined (prev_Splined_Fcoll sp) in
    let v' := if Qltb 1 v then 1 else v in
    let vm := Fcoll_MINI previous_ionize_box idx
              + clip_Splined (Splined_Fcoll_MINI sp)
              - clip_Splined (prev_Splined_Fcoll_MINI sp) in
    let vm' := if Qltb 1 vm then 1 else vm in
    let b1 := set_Fcoll box (upd (Fcoll box) idx v') in
    let b2 := set_Fcoll_MINI b1 (upd (Fcoll_MINI b1) idx vm') in
    mkFcollLoop b2 fg (fl_f_coll_total st + v')
                (fl_f_coll_MINI_total st + vm')
  else
    mkFcollLoop (set_Fcoll box (upd (Fcoll box) idx (Splined_Fcoll sp))) fg
                (fl_f_coll_total st + Splined_Fcoll sp)
                (fl_f_coll_MINI_total st).

(** [calculate_fcoll_grid]: returns the box, the clipped grids and the
    radius record with its two grid means. *)
Definition calculate_fcoll_grid (ind : Indeterminate) (box : IonizedBox)
           (previous_ionize_box : IonizedBox) (fg : FilteredGrids)
           (consts : IonBoxConstants) (rspec : RadiusSpec)
  : IonizedBox * FilteredGrids * RadiusSpec :=
  let st :=
    for_cells npix
      (calculate_fcoll_cell ind previous_ionize_box consts rspec)
      (mkFcollLoop box fg (f_coll_total_0 ind (R_index rspec))
                   (f_coll_MINI_total_0 ind (R_index rspec))) in
  (fl_box st, fl_fg st,
   mkRadiusSpec (R rspec) (M_max_R rspec) (ln_M_max_R rspec)
     (sigma_maxmass rspec) (R_index rspec)
     (fl_f_coll_total st / Qnat npix)
     (fl_f_coll_MINI_total st / Qnat npix)).

(** *** [find_ionised_regions] *)

(** The per-cell quantities that enter the ionisation test. *)
Record CellTerms := mkCellTerms {
  curr_dens : Q;
  curr_fcoll : Q;
  curr_fcoll_mini : Q;
  rec : Q;
  xHII_from_xrays : Q
}.

Definition cell_terms (box previous_ionize_box : IonizedBox)
           (perturbed_field : PerturbedField) (rspec : RadiusSpec)
           (consts : IonBoxConstants) (fg : FilteredGrids)
           (f_limit_acg f_limit_mcg : Q)
           (mean_fix_term_acg mean_fix_term_mcg : Q) (ct : nat) : CellTerms :=
  let fc_r_idx := if USE_MINI_HALOS flag_options then R_index rspec else O in
  let idx := (fc_r_idx * npix + ct)%nat in
  let curr_dens' :=
    if CELL_RECOMB flag_options
    then density perturbed_field ct * photoncons_adjustment_factor consts
    else deltax_filtered fg ct in
  let f0 := mean_fix_term_acg * Fcoll box idx in
  let f1 :=
    if USE_HALO_FIELD flag_options
    then f0 * (1 / (RHOcrit mac * OMb cosmo_params * (1 + curr_dens')))
    else f0 in
  let m1 :=
    if USE_MINI_HALOS flag_options && negb (USE_HALO_FIELD flag_options)
    then mean_fix_term_mcg * Fcoll_MINI box idx
    else 0 in
  let f2 :=
    if USE_MASS_DEPENDENT_ZETA flag_options
    then (if Qltb f1 f_limit_acg then f_limit_acg else f1)
    else f1 in
  let m2 :=
    if USE_MASS_DEPENDENT_ZETA flag_options && USE_MINI_HALOS flag_options
    then (if Qltb m1 f_limit_mcg then f_limit_mcg else m1)
    else m1 in
  let rec' :=
    if INHOMO_RECO flag_options
    then (if CELL_RECOMB flag_options
          then dNrec_box previous_ionize_box ct
          else N_rec_filtered fg ct) / (1 + curr_dens')
    else 0 in
  let xHII :=
    if USE_TS_FLUCT flag_options then xe_filtered fg ct else 0 in
  mkCellTerms curr_dens' f2 m2 rec' xHII.

(** [curr_fcoll * ion_eff_factor + curr_fcoll_mini * ion_eff_factor_mini
     > (1. - xHII_from_xrays)*(1.0+rec)]: "check if fully ionized!". *)
Definition is_ionized (consts : IonBoxConstants) (t : CellTerms) : bool :=
  Qltb ((1 - xHII_from_xrays t) * (1 + rec t))
       (curr_fcoll t * ion_eff_factor consts
        + curr_fcoll_mini t * ion_eff_factor_mini consts).

(** The halo count of the cell-scale partial ionisation and the next
    generator state. *)
Definition draw_N_halos_in_cell (rng : nat) : Z * nat :=
  if NO_RNG user_params then (1%Z, rng)
  else gsl_ran_poisson E rng (inject_Z (N_POISSON global_params)).

(** The collapse fractions of a partially ionised cell without the halo
    field, given the halo count. *)
Definition partial_fcolls (consts : IonBoxConstants) (t : CellTerms)
           (N_halos_in_cell : Z) : Q * Q :=
  let ave_M_coll_cell :=
    (curr_fcoll t + curr_fcoll_mini t) * pixel_mass consts
    * (1 + curr_dens t) in
  let ave_N_min_cell := ave_M_coll_cell / M_min consts in
  let f1 := if Qltb 1 (curr_fcoll t) then 1 else curr_fcoll t in
  let m1 := if Qltb 1 (curr_fcoll_mini t) then 1 else curr_fcoll_mini t in
  let '(f2, m2) :=
    if Qltb ave_N_min_cell (inject_Z (N_POISSON global_params))
    then
      let f := inject_Z N_halos_in_cell
               * (ave_M_coll_cell / inject_Z (N_POISSON global_params))
               / (pixel_mass consts * (1 + curr_dens t)) in
      if USE_MINI_HALOS flag_options
      then
        let m := f * (m1 * ion_eff_factor consts)
                 / (f * ion_eff_factor consts + m1 * ion_eff_factor_mini consts) in
        (f - m, m)
      else (f, 0)
    else (f1, m1) in
  let '(f3, m3) :=
    if Qltb ave_M_coll_cell (M_min consts / 5) then (0, 0) else (f2, m2) in
  (if Qltb 1 f3 then 1 else f3, if Qltb 1 m3 then 1 else m3).

Record IonLoop := mkIonLoop {
  il_box : IonizedBox;
  il_rng : nat
}.

(** The redshift of reionisation that an ionised cell records: the one of
    the previous box when it has one, the current redshift otherwise. *)
Definition z_re_mark (previous_ionize_box : IonizedBox)
           (consts : IonBoxConstants) (ct : nat) : Q :=
  if Qltb (z_re_box previous_ionize_box ct) 0
  then redshift consts
  else z_re_box previous_ionize_box ct.

Definition find_ionised_cell (previous_ionize_box : IonizedBox)
           (perturbed_field : PerturbedField) (spin_temp : TsBox)
           (rspec : RadiusSpec) (consts : IonBoxConstants)
           (fg : FilteredGrids) (f_limit_acg f_limit_mcg : Q)
           (mean_fix_term_acg mean_fix_term_mcg : Q)
           (ct : nat) (st : IonLoop) : IonLoop :=
  let box := il_box st in
  let t := cell_terms box previous_ionize_box perturbed_field rspec consts fg
                      f_limit_acg f_limit_mcg
                      mean_fix_term_acg mean_fix_term_mcg ct in
  if is_ionized consts t
  then
    (* first crossing of the barrier for this cell: record the gamma *)
    let box1 :=
      if INHOMO_RECO flag_options && Qltb (FRACT_FLOAT_ERR mac) (xH_box box ct)
      then
        let gamma :=
          if USE_HALO_FIELD flag_options
          then R rspec * gamma_prefactor consts / (1 + curr_dens t)
               * sfr_filtered fg ct
          else R rspec * gamma_prefactor consts * curr_fcoll t
               + gamma_prefactor_mini consts * curr_fcoll_mini t in
        let b := set_Gamma12_box box (upd (Gamma12_box box) ct gamma) in
        set_MFP_box b (upd (MFP_box b) ct (R rspec))
      else box in
    (* keep track of the first time this cell is ionized *)
    let box2 :=
      set_z_re_box box1
        (upd (z_re_box box1) ct (z_re_mark previous_ionize_box consts ct)) in
    (* flag cell(s) as ionized *)
    let box3 :=
      if (FIND_BUBBLE_ALGORITHM global_params =? 2)%Z
      then set_xH_box box2 (upd (xH_box box2) ct 0)
      else box2 in
    let box4 :=
      if (FIND_BUBBLE_ALGORITHM global_params =? 1)%Z
      then set_xH_box box3
             (update_in_sphere E (xH_box box3)
                (R rspec / BOX_LEN user_params) ct)
      else box3 in
    mkIonLoop box4 (il_rng st)
  else if (R_index rspec =? 0)%nat && Qltb (TINY mac) (xH_box box ct)
  then
    (* partial ionisation at the last filtering step *)
    let '(N_halos_in_cell, rng') :=
      if USE_HALO_FIELD flag_options then (0%Z, il_rng st)
      else draw_N_halos_in_cell (il_rng st) in
    let '(f, m) :=
      if USE_HALO_FIELD flag_options then (curr_fcoll t, curr_fcoll_mini t)
      else partial_fcolls consts t N_halos_in_cell in
    let res_xH0 :=
      1 - f * ion_eff_factor consts - m * ion_eff_factor_mini consts in
    let T_HI :=
      if USE_TS_FLUCT flag_options then Tk_box spin_temp ct
      else TK_nofluct consts
           * (1 + adia_TK_term consts * density perturbed_field ct) in
    let box1 :=
      set_temp_kinetic_all_gas box
        (upd (temp_kinetic_all_gas box) ct
             (ComputePartiallyIoinizedTemperature E T_HI res_xH0)) in
    let res_xH1 := res_xH0 - xHII_from_xrays t in
    let res_xH :=
      if Qltb res_xH1 0 then 0
      else if Qltb 1 res_xH1 then 1 else res_xH1 in
    mkIonLoop (set_xH_box box1 (upd (xH_box box1) ct res_xH)) rng'
  else st.

(** The ratios of the global mean to the grid mean that rescale the
    collapse fractions when the mean is fixed. *)
Definition mean_fix_term_acg (box : IonizedBox) (rspec : RadiusSpec)
           (consts : IonBoxConstants) : Q :=
  if fix_mean consts then mean_f_coll box / f_coll_grid_mean rspec else 1.

Definition mean_fix_term_mcg (box : IonizedBox) (rspec : RadiusSpec)
           (consts : IonBoxConstants) : Q :=
  if fix_mean consts
  then mean_f_coll_MINI box / f_coll_grid_mean_MINI rspec else 1.

Definition find_ionised_regions (box previous_ionize_box : IonizedBox)
           (perturbed_field : PerturbedField) (spin_temp : TsBox)
           (rspec : RadiusSpec) (consts : IonBoxConstants)
           (fg : FilteredGrids) (cell_rng : nat)
           (f_limit_acg f_limit_mcg : Q) : IonLoop :=
  let box0 :=
    if fix_mean consts then box
    else
      (* make the mean_f_coll in the output reflect the box *)
      set_mean_f_coll_MINI (set_mean_f_coll box (f_coll_grid_mean rspec))
                           (f_coll_grid_mean_MINI rspec) in
  for_cells npix
    (find_ionised_cell previous_ionize_box perturbed_field spin_temp rspec
                       consts fg f_limit_acg f_limit_mcg
                       (mean_fix_term_acg box rspec consts)
                       (mean_fix_term_mcg box rspec consts))
    (mkIonLoop box0 cell_rng).

(** *** The remaining steps of [ComputeIonizedBox] *)

(** The effect of [clip_and_get_extrema] on the buffer:
    [fmaxf(fmin(curr,upper_limit),lower_limit)] in every cell. *)
Definition clip_grid (g : grid) (lower_limit upper_limit : Q) : grid :=
  for_cells npix
    (fun ct g' => upd g' ct (Qmax (Qmin (g' ct) upper_limit) lower_limit)) g.

(** [setup_integration_tables], as far as the filtered buffers go: the
    interpolation tables themselves live behind the [Evaluate*] externals. *)
Definition setup_integration_tables (fg : FilteredGrids) : FilteredGrids :=
  if USE_MASS_DEPENDENT_ZETA flag_options
  then
    let fg1 := set_deltax_filtered fg (clip_grid (deltax_filtered fg) (- (1)) 1e6) in
    if USE_MINI_HALOS flag_options
    then
      let fg2 := set_prev_deltax_filtered fg1
                   (clip_grid (prev_deltax_filtered fg1) (- (1)) 1e6) in
      let fg3 := set_log10_Mturnover_filtered fg2
                   (clip_grid (log10_Mturnover_filtered fg2) 0 10) in
      set_log10_Mturnover_MINI_filtered fg3
        (clip_grid (log10_Mturnover_MINI_filtered fg3) 0 10)
    else fg1
  else fg.

(** [calculate_mcrit_boxes]: the two box averages of the log10 turnover
    masses, or [ValueError] when a Lyman-Werner threshold is zero.  The
    turnover grids it fills are inputs of the filtering. *)
Definition calculate_mcrit_boxes (prev_ionbox : IonizedBox) (spin_temp : TsBox)
           (lowres_vcb : grid) (consts : IonBoxConstants) : error + Q * Q :=
  let body ct (acc : Q * Q * bool) :=
    let '(ave, ave_MINI, err) := acc in
    let Mcrit_RE :=
      reionization_feedback E (redshift consts) (Gamma12_box prev_ionbox ct)
                            (z_re_box prev_ionbox ct) in
    let curr_vcb :=
      if USE_RELATIVE_VELOCITIES user_params && negb (FIX_VCB_AVG flag_options)
      then lowres_vcb ct else vcb_norel consts in
    let Mcrit_LW :=
      lyman_werner_threshold E (redshift consts) (J_21_LW_box spin_temp ct)
                             curr_vcb astro_params in
    let curr_Mt := log10 E (Qmax Mcrit_RE (mturn_a_nofb consts)) in
    let curr_Mt_MINI :=
      log10 E (Qmax Mcrit_RE (Qmax Mcrit_LW (mturn_m_nofb consts))) in
    (ave + curr_Mt, ave_MINI + curr_Mt_MINI, err || Qeq_bool Mcrit_LW 0) in
  let '(ave, ave_MINI, err) := for_cells npix body (0, 0, false) in
  if err then inl ValueError
  else inr (ave / Qnat npix, ave_MINI / Qnat npix).

Definition set_ionized_temperatures (box : IonizedBox)
           (perturbed_field : PerturbedField) (spin_temp : TsBox)
           (consts : IonBoxConstants) : IonizedBox :=
  for_cells npix
    (fun ct b =>
       if Qltb 0 (z_re_box b ct) && Qltb (xH_box b ct) (TINY mac)
       then
         let T := ComputeFullyIoinizedTemperature E (z_re_box b ct)
                    (stored_redshift consts) (density perturbed_field ct) in
         let floor :=
           if USE_TS_FLUCT flag_options then Tk_box spin_temp ct
           else TK_nofluct consts
                * (1 + adia_TK_term consts * density perturbed_field ct) in
         set_temp_kinetic_all_gas b
           (upd (temp_kinetic_all_gas b) ct (if Qltb T floor then floor else T))
       else b)
    box.

(** The increment of the recombination count of one cell. *)
Definition dNrec_cell (box : IonizedBox) (perturbed_field : PerturbedField)
           (consts : IonBoxConstants) (ct : nat) : Q :=
  let curr_dens' := 1 + density perturbed_field ct in
  let z_eff := pow E curr_dens' (1 / 3) * (1 + stored_redshift consts) in
  splined_recombination_rate E (z_eff - 1) (Gamma12_box box ct)
  * fabs_dtdz consts * dz consts * (1 - xH_box box ct).

(** [set_recombination_rates]: [finite_error] is set only by a non-finite
    increment, which the rationals do not have; it keeps its initial value. *)
Definition set_recombination_rates (ind : Indeterminate) (box : IonizedBox)
           (previous_ionize_box : IonizedBox)
           (perturbed_field : PerturbedField) (consts : IonBoxConstants)
  : error + IonizedBox :=
  let box' :=
    for_cells npix
      (fun ct b =>
         set_dNrec_box b
           (upd (dNrec_box b) ct
                (dNrec_box previous_ionize_box ct
                 + dNrec_cell b perturbed_field consts ct)))
      box in
  if finite_error_0 ind then inl InfinityorNaNError else inr box'.

(** The photon-conservation overwrite of three fields of the constants. *)
Definition set_photoncons (c : IonBoxConstants) (redshift_pc stored_pc : Q)
  : IonBoxConstants :=
  mkIonBoxConstants redshift_pc stored_pc (prev_redshift c) (growth_factor c)
    (prev_growth_factor c) (dicke E redshift_pc / dicke E stored_pc)
    (dz c) (fabs_dtdz c) (fix_mean c) (filter_recombinations c) (fstar_10 c)
    (alpha_star c) (fstar_7 c) (alpha_star_mini c) (t_h c) (t_star_sec c)
    (fesc_10 c) (alpha_esc c) (fesc_7 c) (vcb_norel c) (mturn_a_nofb c)
    (mturn_m_nofb c) (ion_eff_factor c) (ion_eff_factor_mini c)
    (ion_eff_factor_gl c) (ion_eff_factor_mini_gl c) (mfp_meandens c)
    (gamma_prefactor c) (gamma_prefactor_mini c) (TK_nofluct c)
    (adia_TK_term c) (Mlim_Fstar c) (Mlim_Fesc c) (Mlim_Fstar_mini c)
    (Mlim_Fesc_mini c) (M_min c) (lnMmin c) (M_max_gl c) (lnMmax_gl c)
    (sigma_minmass c) (pixel_length c) (pixel_mass c).

(** [if (x <= limit) x = limit;]. *)
Definition raise_to (limit x : Q) : Q :=
  if Qle_bool x limit then limit else x.

(** The lower limits imposed on the grid means of a radius before they
    are used for the mean adjustment. *)
Definition floor_grid_means (rspec : RadiusSpec) (f_limit_acg f_limit_mcg : Q)
  : RadiusSpec :=
  if USE_MASS_DEPENDENT_ZETA flag_options
  then
    mkRadiusSpec (R rspec) (M_max_R rspec) (ln_M_max_R rspec)
      (sigma_maxmass rspec) (R_index rspec)
      (raise_to f_limit_acg (f_coll_grid_mean rspec))
      (if USE_MINI_HALOS flag_options
       then raise_to f_limit_mcg (f_coll_grid_mean_MINI rspec)
       else f_coll_grid_mean_MINI rspec)
  else
    mkRadiusSpec (R rspec) (M_max_R rspec) (ln_M_max_R rspec)
      (sigma_maxmass rspec) (R_index rspec)
      (raise_to (FRACT_FLOAT_ERR mac) (f_coll_grid_mean rspec))
      (f_coll_grid_mean_MINI rspec).

Section RLoop.

(** The result of [copy_filter_transform] at a radius: the unfiltered
    k-space grids built from the inputs of the snapshot, filtered at [R]
    and transformed back.  The FFT machinery is external. *)
Variable copy_filter_transform : RadiusSpec -> FilteredGrids.

Variable ind : Indeterminate.
Variable previous_ionize_box : IonizedBox.
Variable perturbed_field : PerturbedField.
Variable spin_temp : TsBox.
Variable consts : IonBoxConstants.
Variables f_limit_acg f_limit_mcg : Q.

(** The radius record and the buffers that [find_ionised_regions] receives
    in the iteration of [curr_radius]. *)
Definition radius_inputs (curr_radius : RadiusSpec) (box : IonizedBox)
  : IonizedBox * FilteredGrids * RadiusSpec :=
  let fg0 := copy_filter_transform curr_radius in
  let fg1 :=
    if USE_HALO_FIELD flag_options then fg0 else setup_integration_tables fg0 in
  let '(box1, fg2, rspec1) :=
    calculate_fcoll_grid ind box previous_ionize_box fg1 consts curr_radius in
  (box1, fg2, floor_grid_means rspec1 f_limit_acg f_limit_mcg).

(** One iteration of the loop over the filter radii. *)
Definition R_step (curr_radius : RadiusSpec) (st : IonLoop) : IonLoop :=
  let '(box1, fg2, rspec2) := radius_inputs curr_radius (il_box st) in
  find_ionised_regions box1 previous_ionize_box perturbed_field spin_temp
                       rspec2 consts fg2 (il_rng st) f_limit_acg f_limit_mcg.

(** [for(R_ct=n_radii;R_ct--;)] over the radii from the largest down, with
    the [break] at the first radius whose mass is below [M_min]. *)
Fixpoint R_loop (radii : list RadiusSpec) (st : IonLoop) : IonLoop :=
  match radii with
  | [] => st
  | curr_radius :: rest =>
      if Qltb (RtoM E (R curr_radius)) (M_min consts) then st
      else R_loop rest (R_step curr_radius st)
  end.

(** The radii whose iteration runs: those before the [break]. *)
Fixpoint executed_radii (radii : list RadiusSpec) : list RadiusSpec :=
  match radii with
  | [] => []
  | curr_radius :: rest =>
      if Qltb (RtoM E (R curr_radius)) (M_min consts) then []
      else curr_radius :: executed_radii rest
  end.

(** The state of the loop after its first [i] executed iterations. *)
Definition state_after (radii : list RadiusSpec) (st : IonLoop) (i : nat)
  : IonLoop :=
  fold_left (fun s r => R_step r s) (firstn i (executed_radii radii)) st.

(** The cell [ct] passes the ionisation test in the iteration of
    [curr_radius] that is entered with the box [box]. *)
Definition crosses (curr_radius : RadiusSpec) (box : IonizedBox) (ct : nat)
  : bool :=
  let '(box1, fg2, rspec2) := radius_inputs curr_radius box in
  is_ionized consts
    (cell_terms box1 previous_ionize_box perturbed_field rspec2 consts fg2
                f_limit_acg f_limit_mcg
                (mean_fix_term_acg box1 rspec2 consts)
                (mean_fix_term_mcg box1 rspec2 consts) ct).

End RLoop.

(** What [ComputeIonizedBox] has established when it reaches the early-out
    test: the constants, the previous box (the dummy one at the first
    snapshot), the output box with its buffers initialised and its global
    means set, and the two lower limits. *)
Record IonSetup := mkIonSetup {
  su_consts : IonBoxConstants;
  su_prev_box : IonizedBox;
  su_box : IonizedBox;
  su_f_limit_acg : Q;
  su_f_limit_mcg : Q
}.

(** [ComputeIonizedBox] from its entry to the call of [set_mean_fcoll]. *)
Definition ionbox_setup (ind : Indeterminate)
           (redshift' prev_redshift' : Q)
           (previous_perturbed_field : PerturbedField)
           (previous_ionize_box : IonizedBox) (spin_temp : TsBox)
           (lowres_vcb : grid) (box : IonizedBox) : error + IonSetup :=
  let alg := FIND_BUBBLE_ALGORITHM global_params in
  if negb (alg =? 2)%Z && negb (alg =? 1)%Z then inl ValueError
  else
    let c0 := set_ionbox_constants redshift' prev_redshift'
                                   (ionbox_constants_0 ind) in
    let zeros_in g := for_cells npix (fun ct g' => upd g' ct 0) g in
    let box1 :=
      if INHOMO_RECO flag_options
      then set_MFP_box (set_Gamma12_box box (zeros_in (Gamma12_box box)))
                       (zeros_in (MFP_box box))
      else box in
    let box2 :=
      set_z_re_box box1
        (for_cells npix (fun ct g' => upd g' ct (- (1))) (z_re_box box1)) in
    let consts :=
      if (PHOTON_CONS_TYPE flag_options =? 1)%Z
      then
        let '(redshift_pc, stored_redshift_pc, _) :=
          adjust_redshifts_for_photoncons E astro_params flag_options
                                          redshift' in
        set_photoncons c0 redshift_pc stored_redshift_pc
      else c0 in
    let prev_box :=
      if Qltb prev_redshift' 1
      then fst (setup_first_z_prevbox previous_ionize_box
                                      previous_perturbed_field)
      else previous_ionize_box in
    let turnovers : error + IonizedBox * Q * Q :=
      if USE_MASS_DEPENDENT_ZETA flag_options
      then
        if USE_MINI_HALOS flag_options
        then
          match calculate_mcrit_boxes prev_box spin_temp lowres_vcb consts with
          | inl e => inl e
          | inr (a, m) =>
              inr (set_log10_Mturnover_aves box2 a m,
                   pow E 10 a, pow E 10 m)
          end
        else
          let l := log10 E (M_TURN astro_params) in
          inr (set_log10_Mturnover_aves box2 l l, M_TURN astro_params,
               Mturnover_global_avg_MINI_0 ind)
      else inr (box2, Mturnover_global_avg_0 ind,
                Mturnover_global_avg_MINI_0 ind) in
    match turnovers with
    | inl e => inl e
    | inr (box3, Mturnover_global_avg, Mturnover_global_avg_MINI) =>
        let '(box4, f_limit_acg, f_limit_mcg) :=
          set_mean_fcoll consts prev_box box3 Mturnover_global_avg
                         Mturnover_global_avg_MINI (f_limit_mcg_0 ind) in
        inr (mkIonSetup consts prev_box box4 f_limit_acg f_limit_mcg)
    end.

(** The expected global ionised fraction of the early-out test. *)
Definition exp_global_hii (s : IonSetup) : Q :=
  mean_f_coll (su_box s) * ion_eff_factor_gl (su_consts s)
  + mean_f_coll_MINI (su_box s) * ion_eff_factor_mini_gl (su_consts s).

(** [ComputeIonizedBox].  [radii_spec] is the array of [setup_radii],
    smallest radius first; the generator is seeded with [0]. *)
Definition ComputeIonizedBox (ind : Indeterminate)
           (copy_filter_transform : RadiusSpec -> FilteredGrids)
           (radii_spec : list RadiusSpec)
           (redshift' prev_redshift' : Q)
           (perturbed_field previous_perturbed_field : PerturbedField)
           (previous_ionize_box : IonizedBox) (spin_temp : TsBox)
           (lowres_vcb : grid) (box : IonizedBox) : error + IonizedBox :=
  match ionbox_setup ind redshift' prev_redshift' previous_perturbed_field
                     previous_ionize_box spin_temp lowres_vcb box with
  | inl e => inl e
  | inr s =>
      let consts := su_consts s in
      if Qltb (exp_global_hii s) (HII_ROUND_ERR global_params)
      then inr (set_fully_neutral_box (su_box s) spin_temp perturbed_field
                                      consts)
      else
        let st :=
          R_loop copy_filter_transform ind (su_prev_box s) perturbed_field
                 spin_temp consts (su_f_limit_acg s) (su_f_limit_mcg s)
                 (rev radii_spec) (mkIonLoop (su_box s) O) in
        let box5 :=
          set_ionized_temperatures (il_box st) perturbed_field spin_temp
                                   consts in
        if INHOMO_RECO flag_options
        then set_recombination_rates ind box5 (su_prev_box s) perturbed_field
                                     consts
        else inr box5
  end.

End Kernels.

End IonisationBox.

(** * The halo-box gridder ([HaloBox.c]) *)
Module HaloBox.

Record HaloBoxConstants := mkHaloBoxConstants {
  redshift : Q;
  fix_mean : bool;
  fstar_10 : Q;
  alpha_star : Q;
  sigma_star : Q;
  alpha_upper : Q;
  pivot_upper : Q;
  upper_pivot_ratio : Q;
  fstar_7 : Q;
  alpha_star_mini : Q;
  t_h : Q;
  t_star : Q;
  sigma_sfr_lim : Q;
  sigma_sfr_idx : Q;
  l_x : Q;
  l_x_mini : Q;
  sigma_xray : Q;
  fesc_10 : Q;
  alpha_esc : Q;
  fesc_7 : Q;
  vcb_norel : Q;
  mturn_a_nofb : Q;
  mturn_m_nofb : Q;
  Mlim_Fstar : Q;
  Mlim_Fesc : Q;
  Mlim_Fstar_mini : Q;
  Mlim_Fesc_mini : Q
}.

(** [struct HaloProperties]; the fields carry the prefix [hp_] because the
    grids of [HaloBox] have the same names. *)
Record HaloProperties := mkHaloProperties {
  hp_halo_mass : Q;
  hp_stellar_mass : Q;
  hp_halo_sfr : Q;
  hp_stellar_mass_mini : Q;
  hp_sfr_mini : Q;
  hp_fescweighted_sfr : Q;
  hp_n_ion : Q;
  hp_halo_xray : Q;
  hp_metallicity : Q;
  hp_m_turn_acg : Q;
  hp_m_turn_mcg : Q;
  hp_m_turn_reion : Q
}.

(** The halo catalogue: [n_halos] records; [halo_coords] holds the three
    coordinates of halo [i] at [3*i], [3*i+1], [3*i+2]. *)
Record PerturbHaloField := mkPerturbHaloField {
  n_halos : nat;
  halo_masses : nat -> Q;
  halo_coords : nat -> Q;
  star_rng : nat -> Q;
  sfr_rng : nat -> Q;
  xray_rng : nat -> Q
}.

Record HaloBox := mkHaloBox {
  halo_mass : grid;
  halo_stars : grid;
  halo_stars_mini : grid;
  n_ion : grid;
  halo_sfr : grid;
  halo_sfr_mini : grid;
  whalo_sfr : grid;
  halo_xray : grid;
  count : nat -> Z;
  log10_Mcrit_ACG_ave : Q;
  log10_Mcrit_MCG_ave : Q
}.

(** The conversion of a non-negative [float] coordinate to [int]. *)
Definition trunc (q : Q) : Z := Z.quot (Qnum q) (Zpos (Qden q)).

Definition updZ (g : nat -> Z) (i : nat) (v : Z) : nat -> Z :=
  fun j => if Nat.eqb j i then v else g j.

Section Kernels.

Variable E : Externals.
Variable mac : Macros.
Variable global_params : GlobalParams.
Variable user_params : UserParams.
Variable cosmo_params : CosmoParams.
Variable astro_params : AstroParams.
Variable flag_options : FlagOptions.

(** The stochastic halo model of [set_halo_properties] (stellar mass, SFR,
    metallicity, X-ray luminosity, escape fraction) is built from [exp],
    [pow] and [log10]; it is a parameter of the gridding. *)
Variable set_halo_properties :
  Q -> Q -> Q -> HaloBoxConstants -> Q * Q * Q -> HaloProperties -> HaloProperties.

(** The conditional-mass-function grids of [set_fixed_grids]. *)
Variable set_fixed_grids :
  Q -> Q -> grid -> IonisationBox.PerturbedField -> IonisationBox.TsBox ->
  IonisationBox.IonizedBox -> HaloBoxConstants -> HaloBox ->
  HaloBox * HaloProperties.

Local Abbreviation npix := (HII_TOT_NUM_PIXELS user_params).

(** [set_hbox_constants].  The Lyman-Werner threshold is evaluated with the
    [vcb_norel] that the struct holds on entry: the field is assigned one
    statement later. *)
Definition set_hbox_constants (redshift' : Q) (consts : HaloBoxConstants)
  : HaloBoxConstants :=
  let pct := PHOTON_CONS_TYPE flag_options in
  let alpha_esc' :=
    if (pct =? 2)%Z then get_fesc_fit E redshift' else ALPHA_ESC astro_params in
  let fesc_10' :=
    if (pct =? 2)%Z then F_ESC10 astro_params
    else if (pct =? 3)%Z then get_fesc_fit E redshift'
         else F_ESC10 astro_params in
  let mini := USE_MINI_HALOS flag_options in
  let tables := FIXED_HALO_GRIDS flag_options || AVG_BELOW_SAMPLER user_params in
  let bisect := Mass_limit_bisection E (M_MIN_INTEGRAL global_params)
                                     (M_MAX_INTEGRAL global_params) in
  {| redshift := redshift';
     fix_mean := true;
     fstar_10 := F_STAR10 astro_params;
     alpha_star := ALPHA_STAR astro_params;
     sigma_star := SIGMA_STAR astro_params;
     alpha_upper := UPPER_STELLAR_TURNOVER_INDEX astro_params;
     pivot_upper := UPPER_STELLAR_TURNOVER_MASS astro_params;
     upper_pivot_ratio :=
       pow E (UPPER_STELLAR_TURNOVER_MASS astro_params / 1e10)
             (ALPHA_STAR astro_params);
     fstar_7 := F_STAR7_MINI astro_params;
     alpha_star_mini := ALPHA_STAR_MINI astro_params;
     t_h := t_hubble E redshift';
     t_star := t_STAR astro_params;
     sigma_sfr_lim := SIGMA_SFR_LIM astro_params;
     sigma_sfr_idx := SIGMA_SFR_INDEX astro_params;
     l_x := L_X astro_params * 1e-38;
     l_x_mini := L_X_MINI astro_params * 1e-38;
     sigma_xray := SIGMA_LX astro_params;
     fesc_10 := fesc_10';
     alpha_esc := alpha_esc';
     fesc_7 := F_ESC7_MINI astro_params;
     vcb_norel :=
       if mini
       then (if FIX_VCB_AVG flag_options then VAVG global_params else 0)
       else vcb_norel consts;
     mturn_a_nofb :=
       if mini then atomic_cooling_threshold E redshift'
       else M_TURN astro_params;
     mturn_m_nofb :=
       if mini
       then lyman_werner_threshold E redshift' 0 (vcb_norel consts) astro_params
       else 0;
     Mlim_Fstar :=
       if tables then bisect (ALPHA_STAR astro_params) (F_STAR10 astro_params)
       else Mlim_Fstar consts;
     Mlim_Fesc :=
       if tables then bisect alpha_esc' fesc_10' else Mlim_Fesc consts;
     Mlim_Fstar_mini :=
       if tables && mini
       then bisect (ALPHA_STAR_MINI astro_params)
                   (F_STAR7_MINI astro_params
                    * pow E 1e3 (ALPHA_STAR_MINI astro_params))
       else Mlim_Fstar_mini consts;
     Mlim_Fesc_mini :=
       if tables && mini
       then bisect alpha_esc' (F_ESC7_MINI astro_params * pow E 1e3 alpha_esc')
       else Mlim_Fesc_mini consts |}.

(** The three turnover masses of a cell under mini-halos. *)
Definition cell_turnovers (lowres_vcb : grid)
           (previous_spin_temp : IonisationBox.TsBox)
           (previous_ionize_box : IonisationBox.IonizedBox)
           (consts : HaloBoxConstants) (i_cell : nat) : Q * Q * Q :=
  let curr_vcb :=
    if negb (FIX_VCB_AVG flag_options) && USE_RELATIVE_VELOCITIES user_params
    then lowres_vcb i_cell else vcb_norel consts in
  let before := Qltb (redshift consts) (Z_HEAT_MAX global_params) in
  let J21_val :=
    if before then IonisationBox.J_21_LW_box previous_spin_temp i_cell else 0 in
  let Gamma12_val :=
    if before then IonisationBox.Gamma12_box previous_ionize_box i_cell else 0 in
  let zre_val :=
    if before then IonisationBox.z_re_box previous_ionize_box i_cell else 0 in
  let M_turn_m0 :=
    lyman_werner_threshold E (redshift consts) J21_val curr_vcb astro_params in
  let M_turn_r :=
    reionization_feedback E (redshift consts) Gamma12_val zre_val in
  (Qmax (mturn_a_nofb consts) (Qmax M_turn_r (M_TURN astro_params)),
   Qmax M_turn_m0 (Qmax M_turn_r (M_TURN astro_params)),
   M_turn_r).

(** [get_mean_log10_turnovers]: the volume-weighted mean log10 turnovers
    (ACG, MCG, reionisation). *)
Definition get_mean_log10_turnovers (lowres_vcb : grid)
           (previous_spin_temp : IonisationBox.TsBox)
           (previous_ionize_box : IonisationBox.IonizedBox)
           (consts : HaloBoxConstants) : Q * Q * Q :=
  if negb (USE_MINI_HALOS flag_options)
  then (log10 E (mturn_a_nofb consts), log10 E (mturn_m_nofb consts), 0)
  else
    let '(a, m, r) :=
      for_cells npix
        (fun i (acc : Q * Q * Q) =>
           let '(a, m, r) := acc in
           let '(M_turn_a, M_turn_m, M_turn_r) :=
             cell_turnovers lowres_vcb previous_spin_temp previous_ionize_box
                            consts i in
           (a + log10 E M_turn_a, m + log10 E M_turn_m, r + log10 E M_turn_r))
        (0, 0, 0) in
    (a / Qnat npix, m / Qnat npix, r / Qnat npix).

(** State of the halo loop of [sum_halos_onto_grid]. *)
Record SumLoop := mkSumLoop {
  sl_grids : HaloBox;
  hm_avg : Q;
  sm_avg : Q;
  sfr_avg : Q;
  sm_avg_mini : Q;
  sfr_avg_mini : Q;
  M_turn_a_avg : Q;
  M_turn_m_avg : Q;
  M_turn_r_avg : Q;
  n_ion_avg : Q;
  wsfr_avg : Q;
  xray_avg : Q;
  n_halos_cut : nat
}.

(** The nine atomic updates of the cell of a halo. *)
Definition add_to_cell (g : HaloBox) (i_cell : nat) (p : HaloProperties)
           (hmass : Q) : HaloBox :=
  let add (f : grid) (v : Q) := upd f i_cell (f i_cell + v) in
  mkHaloBox
    (add (halo_mass g) hmass)
    (add (halo_stars g) (hp_stellar_mass p))
    (add (halo_stars_mini g) (hp_stellar_mass_mini p))
    (add (n_ion g) (hp_n_ion p))
    (add (halo_sfr g) (hp_halo_sfr p))
    (add (halo_sfr_mini g) (hp_sfr_mini p))
    (add (whalo_sfr g) (hp_fescweighted_sfr p))
    (add (halo_xray g) (hp_halo_xray p))
    (updZ (count g) i_cell (count g i_cell + 1)%Z)
    (log10_Mcrit_ACG_ave g) (log10_Mcrit_MCG_ave g).

Definition sum_halo (lowres_vcb : grid)
           (previous_spin_temp : IonisationBox.TsBox)
           (previous_ionize_box : IonisationBox.IonizedBox)
           (halos : PerturbHaloField) (consts : HaloBoxConstants)
           (out_props_0 : HaloProperties)
           (i_halo : nat) (st : SumLoop) : SumLoop :=
  let hmass := halo_masses halos i_halo in
  if Qeq_bool hmass 0
  then
    mkSumLoop (sl_grids st) (hm_avg st) (sm_avg st) (sfr_avg st)
      (sm_avg_mini st) (sfr_avg_mini st) (M_turn_a_avg st) (M_turn_m_avg st)
      (M_turn_r_avg st) (n_ion_avg st) (wsfr_avg st) (xray_avg st)
      (S (n_halos_cut st))
  else
    let x := trunc (halo_coords halos (0 + 3 * i_halo)) in
    let y := trunc (halo_coords halos (1 + 3 * i_halo)) in
    let z := trunc (halo_coords halos (2 + 3 * i_halo)) in
    let i_cell := HII_R_INDEX E user_params x y z in
    let '(M_turn_a, M_turn_m, M_turn_r) :=
      if USE_MINI_HALOS flag_options
      then cell_turnovers lowres_vcb previous_spin_temp previous_ionize_box
                          consts i_cell
      else (mturn_a_nofb consts, mturn_m_nofb consts, 0) in
    let in_props :=
      (star_rng halos i_halo, sfr_rng halos i_halo, xray_rng halos i_halo) in
    let out_props :=
      set_halo_properties hmass M_turn_a M_turn_m consts in_props out_props_0 in
    mkSumLoop
      (add_to_cell (sl_grids st) i_cell out_props hmass)
      (hm_avg st + hmass)
      (sm_avg st + hp_stellar_mass out_props)
      (sfr_avg st + hp_halo_sfr out_props)
      (sm_avg_mini st + hp_stellar_mass_mini out_props)
      (sfr_avg_mini st + hp_sfr_mini out_props)
      (M_turn_a_avg st + M_turn_a)
      (M_turn_m_avg st + M_turn_m)
      (M_turn_r_avg st + M_turn_r)
      (n_ion_avg st + hp_n_ion out_props)
      (wsfr_avg st + hp_fescweighted_sfr out_props)
      (xray_avg st + hp_halo_xray out_props)
      (n_halos_cut st).

(** The division of the eight summed grids by the cell volume. *)
Definition divide_by_cell_volume (g : HaloBox) (cell_volume : Q) : HaloBox :=
  for_cells npix
    (fun i_cell g' =>
       let div (f : grid) := upd f i_cell (f i_cell / cell_volume) in
       mkHaloBox (div (halo_mass g')) (div (halo_stars g'))
         (div (halo_stars_mini g')) (div (n_ion g')) (div (halo_sfr g'))
         (div (halo_sfr_mini g')) (div (whalo_sfr g')) (div (halo_xray g'))
         (count g') (log10_Mcrit_ACG_ave g') (log10_Mcrit_MCG_ave g'))
    g.

(** [sum_halos_onto_grid]: the gridded box and the averages; the fields of
    [averages] that the function does not assign keep their value. *)
Definition sum_halos_onto_grid (lowres_vcb : grid)
           (previous_spin_temp : IonisationBox.TsBox)
           (previous_ionize_box : IonisationBox.IonizedBox)
           (halos : PerturbHaloField) (consts : HaloBoxConstants)
           (out_props_0 : HaloProperties)
           (grids : HaloBox) (averages : HaloProperties)
  : HaloBox * HaloProperties :=
  let cell_volume := VOLUME mac / Qnat npix in
  let st :=
    for_cells (n_halos halos)
      (sum_halo lowres_vcb previous_spin_temp previous_ionize_box halos consts
                out_props_0)
      (mkSumLoop grids 0 0 0 0 0 0 0 0 0 0 0 O) in
  let grids' := divide_by_cell_volume (sl_grids st) cell_volume in
  let total_n_halos := (n_halos halos - n_halos_cut st)%nat in
  let '(r_avg, a_avg, m_avg) :=
    if (0 <? total_n_halos)%nat
    then (M_turn_r_avg st / Qnat total_n_halos,
          M_turn_a_avg st / Qnat total_n_halos,
          M_turn_m_avg st / Qnat total_n_halos)
    else
      (* no halos: the turnover has no reion feedback and no LW *)
      (0, mturn_a_nofb consts, mturn_m_nofb consts) in
  (grids',
   {| hp_halo_mass := hm_avg st / VOLUME mac;
      hp_stellar_mass := sm_avg st / VOLUME mac;
      hp_halo_sfr := sfr_avg st / VOLUME mac;
      hp_stellar_mass_mini := sm_avg_mini st / VOLUME mac;
      hp_sfr_mini := sfr_avg_mini st / VOLUME mac;
      hp_fescweighted_sfr := hp_fescweighted_sfr averages;
      hp_n_ion := n_ion_avg st / VOLUME mac;
      hp_halo_xray := xray_avg st / VOLUME mac;
      hp_metallicity := hp_metallicity averages;
      hp_m_turn_acg := a_avg;
      hp_m_turn_mcg := m_avg;
      hp_m_turn_reion := r_avg |}).

(** The initialisation loop at the head of [ComputeHaloBox]. *)
Definition zero_grids (grids : HaloBox) : HaloBox :=
  for_cells npix
    (fun idx g =>
       mkHaloBox (upd (halo_mass g) idx 0) (upd (halo_stars g) idx 0)
         (upd (halo_stars_mini g) idx 0) (upd (n_ion g) idx 0)
         (upd (halo_sfr g) idx 0) (upd (halo_sfr_mini g) idx 0)
         (upd (whalo_sfr g) idx 0) (halo_xray g) (updZ (count g) idx 0%Z)
         (log10_Mcrit_ACG_ave g) (log10_Mcrit_MCG_ave g))
    grids.

(** The return to summed units after the sub-sampler grids. *)
Definition multiply_by_cell_volume (g : HaloBox) (cell_volume : Q) : HaloBox :=
  for_cells npix
    (fun idx g' =>
       let mul (f : grid) := upd f idx (f idx * cell_volume) in
       mkHaloBox (mul (halo_mass g')) (mul (halo_stars g'))
         (mul (halo_stars_mini g')) (mul (n_ion g')) (mul (halo_sfr g'))
         (mul (halo_sfr_mini g')) (mul (whalo_sfr g')) (mul (halo_xray g'))
         (count g') (log10_Mcrit_ACG_ave g') (log10_Mcrit_MCG_ave g'))
    g.

(** [ComputeHaloBox]: the output grids and the local [averages_box].
    [hbox_consts_0], [out_props_0] and [averages_0] are the contents of the
    stack structs before their first assignment. *)
Definition ComputeHaloBox (hbox_consts_0 : HaloBoxConstants)
           (out_props_0 averages_0 : HaloProperties)
           (redshift' : Q) (lowres_vcb : grid)
           (perturbed_field : IonisationBox.PerturbedField)
           (halos : PerturbHaloField)
           (previous_spin_temp : IonisationBox.TsBox)
           (previous_ionize_box : IonisationBox.IonizedBox)
           (grids : HaloBox) : HaloBox * HaloProperties :=
  let grids0 := zero_grids grids in
  let hbox_consts := set_hbox_constants redshift' hbox_consts_0 in
  let M_min := minimum_source_mass E redshift' false astro_params flag_options in
  let M_max := M_MAX_INTEGRAL global_params in
  let cell_volume := VOLUME mac / Qnat npix in
  if FIXED_HALO_GRIDS flag_options
  then set_fixed_grids M_min M_max lowres_vcb perturbed_field
                       previous_spin_temp previous_ionize_box hbox_consts grids0
  else
    let grids1 :=
      if AVG_BELOW_SAMPLER user_params
         && Qltb M_min (SAMPLER_MIN_MASS user_params)
      then
        multiply_by_cell_volume
          (fst (set_fixed_grids M_min (SAMPLER_MIN_MASS user_params) lowres_vcb
                  perturbed_field previous_spin_temp previous_ionize_box
                  hbox_consts grids0))
          cell_volume
      else
        let '(a, m, _) :=
          get_mean_log10_turnovers lowres_vcb previous_spin_temp
                                   previous_ionize_box hbox_consts in
        mkHaloBox (halo_mass grids0) (halo_stars grids0)
          (halo_stars_mini grids0) (n_ion grids0) (halo_sfr grids0)
          (halo_sfr_mini grids0) (whalo_sfr grids0) (halo_xray grids0)
          (count grids0) a m in
    sum_halos_onto_grid lowres_vcb previous_spin_temp previous_ionize_box
                        halos hbox_consts out_props_0 grids1 averages_0.

End Kernels.

(** The seven grids and the count that the initialisation loop of
    [ComputeHaloBox] resets are zero in cell [c]. *)
Definition summed_grids_zero (g : HaloBox) (c : nat) : Prop :=
  halo_mass g c == 0 /\ halo_stars g c == 0 /\ halo_stars_mini g c == 0
  /\ n_ion g c == 0 /\ halo_sfr g c == 0 /\ halo_sfr_mini g c == 0
  /\ whalo_sfr g c == 0 /\ count g c = 0%Z.

End HaloBox.

(** * The shell schedule of the spin-temperature engine
      ([SpinTemperatureBox.c], [setup_z_edges]) *)
Module SpinTemperature.

Local Open Scope R_scope.

(** The cosmology and mass-function routines that [setup_z_edges] calls. *)
Record TsExternals := mkTsExternals {
  drdz : R -> R;
  dicke : R -> R;
  dtdz : R -> R;
  minimum_source_mass : R -> R;
  RtoM : R -> R;
  EvaluateSigma : R -> R
}.

Record TsParams := mkTsParams {
  L_FACTOR : R;
  CMperMPC : R;
  BOX_LEN : R;
  HII_DIM : nat;
  R_XLy_MAX : R;
  NUM_FILTER_STEPS_FOR_Ts : nat
}.

Definition array := nat -> R.

Definition store (a : array) (i : nat) (v : R) : array :=
  fun j => if Nat.eqb j i then v else a j.

(** The global arrays of the schedule. *)
Record ShellArrays := mkShellArrays {
  R_values : array;
  zpp_edge : array;
  zpp_for_evolve_list : array;
  zpp_growth : array;
  dzpp_list : array;
  dtdz_list : array;
  M_min_R : array;
  M_max_R : array;
  sigma_min : array;
  sigma_max : array
}.

Section Schedule.

Variable E : TsExternals.
Variable P : TsParams.

(** The radius of the first shell, [L_FACTOR*BOX_LEN/(float)HII_DIM]. *)
Definition R_start : R := L_FACTOR P * BOX_LEN P / INR (HII_DIM P).

(** [pow(R_XLy_MAX/R, 1/((float)NUM_FILTER_STEPS_FOR_Ts))]. *)
Definition R_factor : R :=
  Rpower (R_XLy_MAX P / R_start) (1 / INR (NUM_FILTER_STEPS_FOR_Ts P)).

(** One iteration of the loop over [R_ct]; the state is the running radius
    [R] and the arrays. *)
Definition z_edges_step (zp : R) (R_ct : nat) (st : R * ShellArrays)
  : R * ShellArrays :=
  let '(Rcur, a) := st in
  let R_values' := store (R_values a) R_ct Rcur in
  let prev_zpp := if Nat.eqb R_ct 0 then zp else zpp_edge a (R_ct - 1)%nat in
  let prev_R := if Nat.eqb R_ct 0 then 0 else R_values' (R_ct - 1)%nat in
  let edge :=
    prev_zpp - (R_values' R_ct - prev_R) * CMperMPC P / drdz E prev_zpp in
  let zpp_edge' := store (zpp_edge a) R_ct edge in
  let zpp := (zpp_edge' R_ct + prev_zpp) * (1 / 2) in
  let zpp_list' := store (zpp_for_evolve_list a) R_ct zpp in
  let dzpp_for_evolve :=
    if Nat.eqb R_ct 0 then zp - zpp_edge' 0%nat
    else zpp_edge' (R_ct - 1)%nat - zpp_edge' R_ct in
  let M_min_R' :=
    store (M_min_R a) R_ct (minimum_source_mass E (zpp_list' R_ct)) in
  let M_max_R' := store (M_max_R a) R_ct (RtoM E (R_values' R_ct)) in
  (Rcur * R_factor,
   {| R_values := R_values';
      zpp_edge := zpp_edge';
      zpp_for_evolve_list := zpp_list';
      zpp_growth := store (zpp_growth a) R_ct (dicke E zpp);
      dzpp_list := store (dzpp_list a) R_ct dzpp_for_evolve;
      dtdz_list := store (dtdz_list a) R_ct (dtdz E zpp);
      M_min_R := M_min_R';
      M_max_R := M_max_R';
      sigma_min := store (sigma_min a) R_ct (EvaluateSigma E (ln (M_min_R' R_ct)));
      sigma_max := store (sigma_max a) R_ct (EvaluateSigma E (ln (M_max_R' R_ct))) |}).

(** [setup_z_edges]: the arrays after the loop, from their content [a0]
    at allocation. *)
Definition setup_z_edges (zp : R) (a0 : ShellArrays) : ShellArrays :=
  snd (for_cells (NUM_FILTER_STEPS_FOR_Ts P) (z_edges_step zp) (R_start, a0)).

End Schedule.

End SpinTemperature.

(** * Concrete inputs

    Small lattices and stand-ins for the external collaborators, on which
    the kernels are evaluated.  The stand-ins are as simple as their role
    allows: the conditional collapse fraction of a cell is its filtered
    density, the recombination rate is [1], [dt/dz] is [1e15] (so that
    [fabs_dtdz] is [1]), the mass of a radius is a hundred times the
    radius, a Poisson draw returns [5], and the sphere of the sphere
    algorithm covers the lattice. *)
Module Example.

Import IonisationBox.

Definition externals : Externals :=
  {| pow := fun _ _ => 1;
     log := fun _ => 0;
     log10 := fun _ => 0;
     dtdz := fun _ => 1e15;
     dicke := fun _ => 1;
     t_hubble := fun _ => 1;
     get_fesc_fit := fun _ => 1;
     atomic_cooling_threshold := fun _ => 1;
     lyman_werner_threshold := fun _ _ _ _ => 1;
     reionization_feedback := fun _ _ _ => 1;
     Mass_limit_bisection := fun _ _ _ _ => 1;
     minimum_source_mass := fun _ _ _ _ => 1;
     sigma_z0 := fun _ => 1;
     RtoM := fun r => r * 100;
     T_RECFAST := fun _ _ => 10;
     xion_RECFAST := fun _ _ => 1 / 1000;
     cT_approx := fun _ => 0;
     Nion_General := fun _ _ _ _ _ _ _ _ _ _ => 1 / 2;
     Nion_General_MINI := fun _ _ _ _ _ _ _ _ _ _ _ => 1 / 4;
     Fcoll_General := fun _ _ _ => 1 / 2;
     EvaluateNion_Conditional := fun d _ _ _ _ _ _ _ _ _ => d;
     EvaluateNion_Conditional_MINI := fun d _ _ _ _ _ _ _ _ _ _ => d;
     EvaluateFcoll_delta := fun d _ _ _ => d;
     ComputePartiallyIoinizedTemperature := fun T _ => T;
     ComputeFullyIoinizedTemperature := fun _ _ _ => 1e4;
     splined_recombination_rate := fun _ _ => 1;
     gsl_ran_poisson := fun s _ => (5%Z, S s);
     adjust_redshifts_for_photoncons := fun _ _ z => (z, z, 0);
     in_sphere := fun _ _ _ => true;
     HII_R_INDEX := fun u x y z =>
       Z.to_nat (z + Z.of_nat (HII_D_PARA u) * (y + Z.of_nat (HII_DIM u) * x)) |}.

(** [FRACT_FLOAT_ERR] is [1e-7] and [TINY] is [1e-30]; the physical
    constants and the volume are [1]. *)
Definition macros : Macros := mkMacros 1e-7 1e-30 1 1 1 1 1.

(** [ZPRIME_STEP_FACTOR = 1.02], [Z_HEAT_MAX = 35], [HII_ROUND_ERR = 1e-5],
    [N_POISSON = 5], and the bubble algorithm [alg]. *)
Definition globals (alg : Z) : GlobalParams :=
  mkGlobalParams 1.02 0 1 1000 1 1 5 35 1e-5 alg 5.

(** A lattice of [1 x 1 x n] cells in a box of length [1]. *)
Definition user (n : nat) (no_rng : bool) : UserParams :=
  mkUserParams 1 n 1 no_rng false false 0.

Definition cosmo : CosmoParams := mkCosmoParams 1 1 1.

(** All astrophysical parameters are [1] but the ionising efficiency. *)
Definition astro (hii_eff_factor : Q) : AstroParams :=
  mkAstroParams 1 1 1 1 1 1 1 1 1 hii_eff_factor 1 1 1 1 1 1 1 1.

(** Flags: halo field, mini-halos, mass-dependent zeta, spin-temperature
    coupling, inhomogeneous recombinations, cell recombinations; no
    exponential filter, no fixed grids, no photon conservation. *)
Definition flags (halo mini mdz ts inhomo cell_recomb : bool) : FlagOptions :=
  mkFlagOptions halo mini mdz ts inhomo cell_recomb false false false 0.

Definition zeros : grid := fun _ => 0.
Definition ones : grid := fun _ => 1.

(** The content of the uninitialised locals: zeros and [false]. *)
Definition consts_0 : IonBoxConstants :=
  mkIonBoxConstants 0 0 0 0 0 0 0 0 false false 0 0 0 0 0 0 0 0 0 0 0 0 0 0 0
    0 0 0 0 0 0 0 0 0 0 0 0 0 0 0 0 0.

Definition indeterminate : Indeterminate :=
  mkIndeterminate consts_0 0 (fun _ => 0) (fun _ => 0) 0 0 0 0 0 false.

(** A box as the wrapper hands it over: neutral, nothing recorded. *)
Definition fresh_box : IonizedBox :=
  mkIonizedBox ones zeros zeros zeros zeros zeros zeros zeros 0 0 0 0.

(** A previous box in which no cell was ever ionised but cell [2], which
    was at redshift [9]. *)
Definition previous_box : IonizedBox :=
  mkIonizedBox ones (fun ct => if Nat.eqb ct 2 then 9 else - (1))
    zeros zeros zeros zeros zeros zeros 0 0 0 0.

Definition no_field : PerturbedField := mkPerturbedField zeros.

Definition spin : TsBox := mkTsBox (fun _ => 1 / 10) (fun _ => 20) zeros.

(** Filtered grids: the density contrast is [d] in cell [0] and [0]
    elsewhere, at every radius; the other grids are [0]. *)
Definition filtered (d : Q) (_ : RadiusSpec) : FilteredGrids :=
  mkFilteredGrids (fun ct => if Nat.eqb ct 0 then d else 0)
    zeros zeros zeros zeros zeros zeros zeros.

(** Two radii: the cell scale [1/2] (index [0]) and [1] (index [1]). *)
Definition radius (i : nat) (r : Q) : RadiusSpec :=
  mkRadiusSpec r (r * 100) 0 1 i 0 0.

Definition radii : list RadiusSpec := [radius 0 (1 / 2); radius 1 1].

(** A snapshot at redshift [8] after one at redshift [9], on [n] cells,
    with the flags [fl], the bubble algorithm [alg], the ionising
    efficiency [eff] and the density contrast [d] in cell [0]. *)
Definition setup (fl : FlagOptions) (alg : Z) (n : nat) (eff : Q)
  : error + IonSetup :=
  ionbox_setup externals macros (globals alg) (user n true) cosmo (astro eff)
    fl indeterminate 8 9 no_field previous_box spin zeros fresh_box.

Definition compute (fl : FlagOptions) (alg : Z) (n : nat) (eff d : Q)
  : error + IonizedBox :=
  ComputeIonizedBox externals macros (globals alg) (user n true) cosmo
    (astro eff) fl indeterminate (filtered d) radii 8 9 no_field no_field
    previous_box spin zeros fresh_box.

Definition no_setup : IonSetup := mkIonSetup consts_0 fresh_box fresh_box 0 0.

Definition the_setup (fl : FlagOptions) (alg : Z) (n : nat) (eff : Q)
  : IonSetup :=
  match setup fl alg n eff with inr s => s | inl _ => no_setup end.

Definition the_box (fl : FlagOptions) (alg : Z) (n : nat) (eff d : Q)
  : IonizedBox :=
  match compute fl alg n eff d with inr b => b | inl _ => fresh_box end.

(** The sphere scenario: three cells, the sphere algorithm, inhomogeneous
    recombinations counted per cell, efficiency [3], contrast [3] in cell
    [0].  Cell [0] crosses the barrier at both radii, cells [1] and [2]
    never do. *)
Definition sphere_flags : FlagOptions := flags false false false false true true.

Definition sphere_setup : IonSetup := the_setup sphere_flags 1 3 3.

Definition sphere_box : IonizedBox := the_box sphere_flags 1 3 3 3.

Definition sphere_start : IonLoop := mkIonLoop (su_box sphere_setup) O.

Definition sphere_loop : list RadiusSpec -> IonLoop -> IonLoop :=
  R_loop externals macros (globals 1) (user 3 true) cosmo sphere_flags
    (filtered 3) indeterminate (su_prev_box sphere_setup) no_field spin
    (su_consts sphere_setup) (su_f_limit_acg sphere_setup)
    (su_f_limit_mcg sphere_setup).

Definition sphere_state : list RadiusSpec -> IonLoop -> nat -> IonLoop :=
  state_after externals macros (globals 1) (user 3 true) cosmo sphere_flags
    (filtered 3) indeterminate (su_prev_box sphere_setup) no_field spin
    (su_consts sphere_setup) (su_f_limit_acg sphere_setup)
    (su_f_limit_mcg sphere_setup).

Definition sphere_crosses : RadiusSpec -> IonizedBox -> nat -> bool :=
  crosses externals macros (user 3 true) cosmo sphere_flags (filtered 3)
    indeterminate (su_prev_box sphere_setup) no_field
    (su_consts sphere_setup) (su_f_limit_acg sphere_setup)
    (su_f_limit_mcg sphere_setup).

Definition sphere_executed : list RadiusSpec -> list RadiusSpec :=
  executed_radii externals (su_consts sphere_setup).

(** The neutral scenario: one cell, no ionising efficiency. *)
Definition plain_flags : FlagOptions := flags false false false false false false.

Definition neutral_setup : IonSetup := the_setup plain_flags 2 1 0.

(** One cell at the barrier: the constants of a snapshot with efficiency
    [1], a box whose stored collapse fraction is [f], no mean adjustment
    factor, and the step of cell [0] at the radius [r]. *)
Definition plain_consts : IonBoxConstants :=
  set_ionbox_constants externals macros (globals 2) (user 1 true) cosmo
    (astro 1) plain_flags 8 9 consts_0.

Definition box_with_fcoll (f : Q) : IonizedBox :=
  mkIonizedBox ones (fun _ => - (1)) zeros zeros zeros zeros (fun _ => f) zeros
    0 0 0 0.

Definition plain_terms (f : Q) (r : RadiusSpec) : CellTerms :=
  cell_terms macros (user 1 true) cosmo plain_flags (box_with_fcoll f)
    previous_box no_field r plain_consts (filtered 0 r) 0 0 1 1 0.

Definition plain_step (no_rng : bool) (f : Q) (r : RadiusSpec) : IonLoop :=
  find_ionised_cell externals macros (globals 2) (user 1 no_rng) cosmo
    plain_flags previous_box no_field spin r plain_consts (filtered 0 r) 0 0 1 1
    O (mkIonLoop (box_with_fcoll f) O).

(** The mini-halo scenario of [calculate_fcoll_grid]: one cell, mini-halos
    with mass-dependent zeta; the previous snapshot had a mean collapse
    fraction of [1/2], the current filtered density contrast is [0] and the
    previous one [dp]. *)
Definition mini_flags : FlagOptions := flags false true true false false false.

Definition mini_consts : IonBoxConstants :=
  set_ionbox_constants externals macros (globals 2) (user 1 true) cosmo
    (astro 1) mini_flags 8 9 consts_0.

Definition mini_previous : IonizedBox :=
  mkIonizedBox ones (fun _ => - (1)) zeros zeros zeros zeros zeros zeros
    (1 / 2) 0 0 0.

Definition mini_grids (dp : Q) : FilteredGrids :=
  mkFilteredGrids zeros zeros zeros (fun _ => dp) zeros zeros zeros zeros.

Definition mini_fcoll (dp : Q) : IonizedBox :=
  fst (fst (calculate_fcoll_grid externals macros (user 1 true) mini_flags
              indeterminate fresh_box mini_previous (mini_grids dp)
              mini_consts (radius 0 (1 / 2)))).

(** The halo-field scenario: one cell, no sources in it. *)
Definition halo_flags : FlagOptions := flags true false false false false false.

Definition halo_setup : IonSetup := the_setup halo_flags 2 1 3.

Definition halo_box : IonizedBox := the_box halo_flags 2 1 3 0.

Definition halo_loop : list RadiusSpec -> IonLoop -> IonLoop :=
  R_loop externals macros (globals 2) (user 1 true) cosmo halo_flags
    (filtered 0) indeterminate (su_prev_box halo_setup) no_field spin
    (su_consts halo_setup) (su_f_limit_acg halo_setup)
    (su_f_limit_mcg halo_setup).

(** The halo-box gridder on one cell: a catalogue whose only halo has the
    mass [0], and an output structure that was used before, every grid of
    which holds a value on entry ([7] for the X-ray grid). *)
Definition hbox_consts_0 : HaloBox.HaloBoxConstants :=
  HaloBox.mkHaloBoxConstants 0 false 0 0 0 0 0 0 0 0 0 0 0 0 0 0 0 0 0 0 0 0 0
    0 0 0 0.

Definition props_0 : HaloBox.HaloProperties :=
  HaloBox.mkHaloProperties 0 0 0 0 0 0 0 0 0 0 0 0.

(** A stand-in for the halo model: every property of a halo is its mass. *)
Definition halo_properties (hmass M_turn_a M_turn_m : Q)
           (_ : HaloBox.HaloBoxConstants) (_ : Q * Q * Q)
           (_ : HaloBox.HaloProperties) : HaloBox.HaloProperties :=
  HaloBox.mkHaloProperties hmass hmass hmass hmass hmass hmass hmass hmass 0
    M_turn_a M_turn_m 0.

Definition fixed_grids (_ _ : Q) (_ : grid) (_ : PerturbedField) (_ : TsBox)
           (_ : IonizedBox) (_ : HaloBox.HaloBoxConstants)
           (g : HaloBox.HaloBox) : HaloBox.HaloBox * HaloBox.HaloProperties :=
  (g, props_0).

Definition massless_halo : HaloBox.PerturbHaloField :=
  HaloBox.mkPerturbHaloField 1 zeros zeros zeros zeros zeros.

Definition used_grids : HaloBox.HaloBox :=
  HaloBox.mkHaloBox ones ones ones ones ones ones ones (fun _ => 7)
    (fun _ => 3%Z) 0 0.

Definition gridded : HaloBox.HaloBox * HaloBox.HaloProperties :=
  HaloBox.ComputeHaloBox externals macros (globals 2) (user 1 true)
    (astro 1) plain_flags halo_properties fixed_grids hbox_consts_0 props_0
    props_0 8 zeros no_field massless_halo spin previous_box used_grids.

End Example.

(** Two shells between the cell scale [1] and [R_XLy_MAX = 4]. *)
Module ShellExample.

Import SpinTemperature.

Local Open Scope R_scope.

Definition externals : TsExternals :=
  mkTsExternals (fun _ => 1) (fun _ => 1) (fun _ => 1) (fun _ => 1)
    (fun r => r) (fun _ => 1).

Definition params : TsParams := mkTsParams 1 1 1 1 4 2.

Definition empty : ShellArrays :=
  let z : array := fun _ => 0 in mkShellArrays z z z z z z z z z z.

Definition shells : ShellArrays := setup_z_edges externals params 8 empty.

End ShellExample.

From Stdlib Require Import Qround.

(** * Regular-grid interpolation tables ([interpolation.c])

    The index of a table is where the result is not continuous in its
    input, so the rounding of the two [double] operations under [floor] is
    kept: [fl q] stands for the [double] that the platform stores for the
    exact value [q], and nothing is assumed of it.  The index is an [int]:
    [(int)] of a value outside the range of [int], or of the quotient by a
    zero width, is not defined ([None]).  An array is the memory behind its
    pointer together with the number of elements that were allocated; a
    read outside the allocation is not defined ([None]).  The arithmetic
    on the entries is exact. *)
Module Interpolation.

Record RGTable1D := mkRGTable1D {
  n_bin : Z;
  x_min : Q;
  x_width : Q;
  y_arr : Z -> Q
}.

Record RGTable2D := mkRGTable2D {
  nx_bin : Z;
  ny_bin : Z;
  x_min2 : Q;
  x_width2 : Q;
  y_min2 : Q;
  y_width2 : Q;
  z_arr : Z -> Z -> Q
}.

Definition INT_MIN : Z := - 2 ^ 31.

Definition INT_MAX : Z := 2 ^ 31 - 1.

(** [(int)] of a [double] that holds the integer [z]. *)
Definition to_int (z : Z) : option Z :=
  if (INT_MIN <=? z)%Z && (z <=? INT_MAX)%Z then Some z else None.

(** [a[i]] for an array of [n] elements ([calloc(n, ...)] in
    [allocate_RGTable1D]). *)
Definition entry (n : Z) (a : Z -> Q) (i : Z) : option Q :=
  if (0 <=? i)%Z && (i <? n)%Z then Some (a i) else None.

(** [a[i][j]] for [nx] rows of [ny] elements ([allocate_RGTable2D]). *)
Definition entry2 (nx ny : Z) (a : Z -> Z -> Q) (i j : Z) : option Q :=
  if (0 <=? i)%Z && (i <? nx)%Z then entry ny (a i) j else None.

Section Rounding.

Variable fl : Q -> Q.

(** [(int)floor((x - x_min)/x_width)]. *)
Definition table_index (x x_min' x_width' : Q) : option Z :=
  if Qeq_bool x_width' 0 then None
  else to_int (Qfloor (fl (fl (x - x_min') / x_width'))).

(** [EvaluateRGTable1D] (and [EvaluateRGTable1D_f], which differs by the
    width of the stored entries only). *)
Definition EvaluateRGTable1D (x : Q) (table : RGTable1D) : option Q :=
  let x_min' := x_min table in
  let x_width' := x_width table in
  match table_index x x_min' x_width' with
  | None => None
  | Some idx =>
      let table_val := x_min' + x_width' * inject_Z idx in
      let interp_point := (x - table_val) / x_width' in
      match entry (n_bin table) (y_arr table) idx,
            entry (n_bin table) (y_arr table) (idx + 1)%Z with
      | Some y0, Some y1 =>
          Some (y0 * (1 - interp_point) + y1 * interp_point)
      | _, _ => None
      end
  end.

(** [EvaluateRGTable2D] (and [EvaluateRGTable2D_f]). *)
Definition EvaluateRGTable2D (x y : Q) (table : RGTable2D) : option Q :=
  let x_min' := x_min2 table in
  let x_width' := x_width2 table in
  let y_min' := y_min2 table in
  let y_width' := y_width2 table in
  match table_index x x_min' x_width', table_index y y_min' y_width' with
  | Some x_idx, Some y_idx =>
      let x_table := x_min' + x_width' * inject_Z x_idx in
      let y_table := y_min' + y_width' * inject_Z y_idx in
      let interp_point_x := (x - x_table) / x_width' in
      let interp_point_y := (y - y_table) / y_width' in
      let z := entry2 (nx_bin table) (ny_bin table) (z_arr table) in
      match z x_idx y_idx, z x_idx (y_idx + 1)%Z,
            z (x_idx + 1)%Z y_idx, z (x_idx + 1)%Z (y_idx + 1)%Z with
      | Some z00, Some z01, Some z10, Some z11 =>
          let left_edge :=
            z00 * (1 - interp_point_y) + z01 * interp_point_y in
          let right_edge :=
            z10 * (1 - interp_point_y) + z11 * interp_point_y in
          Some (left_edge * (1 - interp_point_x)
                + right_edge * interp_point_x)
      | _, _, _, _ => None
      end
  | _, _ => None
  end.

End Rounding.

End Interpolation.

(** * The halo model of the halo-box gridder ([HaloBox.c])

    [exp] is a further function of libm, [SperYR] a macro of
    [Constants.h], and [USE_UPPER_STELLAR_TURNOVER] a flag of
    [FlagOptions]. *)
Module HaloModel.

Import HaloBox.

Section Model.

Variable E : Externals.
Variable mac : Macros.
Variable global_params : GlobalParams.
Variable user_params : UserParams.
Variable cosmo_params : CosmoParams.
Variable flag_options : FlagOptions.
Variable exp : Q -> Q.
Variable SperYR : Q.
Variable USE_UPPER_STELLAR_TURNOVER : bool.

Local Abbreviation npix := (HII_TOT_NUM_PIXELS user_params).

(** [lx_on_sfr_doublePL]: a double power law in metallicity. *)
Definition lx_on_sfr_doublePL (metallicity lx_constant : Q) : Q :=
  let z_index := - (0.64) in
  let z_pivot := 0.05 in
  let z_ratio := metallicity / z_pivot in
  lx_constant / (pow E z_ratio (- z_index) + 1).

(** [get_lx_on_sfr]: the model in use is the double power law. *)
Definition get_lx_on_sfr (sfr metallicity lx_constant : Q) : Q :=
  lx_on_sfr_doublePL metallicity lx_constant.

(** [get_halo_stellarmass]: the stellar masses [(star_acg, star_mcg)]. *)
Definition get_halo_stellarmass (halo_mass mturn_acg mturn_mcg star_rng : Q)
           (consts : HaloBoxConstants) : Q * Q :=
  let f_10 := fstar_10 consts in
  let f_a := alpha_star consts in
  let sigma_star' := sigma_star consts in
  let fu_a := alpha_upper consts in
  let fu_p := pivot_upper consts in
  let f_7 := fstar_7 consts in
  let f_a_mini := alpha_star_mini consts in
  let baryon_ratio := OMb cosmo_params / OMm cosmo_params in
  let stoc_adjustment_term := sigma_star' * sigma_star' / 2 in
  let fstar_mean :=
    if USE_UPPER_STELLAR_TURNOVER && Qltb fu_a f_a
    then upper_pivot_ratio consts
         / (pow E (halo_mass / fu_p) (- f_a) + pow E (halo_mass / fu_p) (- fu_a))
    else pow E (halo_mass / 1e10) f_a in
  let f_sample0 :=
    f_10 * fstar_mean
    * exp (- mturn_acg / halo_mass + star_rng * sigma_star'
           - stoc_adjustment_term) in
  let f_sample := if Qltb 1 f_sample0 then 1 else f_sample0 in
  let sm_sample := f_sample * halo_mass * baryon_ratio in
  if negb (USE_MINI_HALOS flag_options)
  then (sm_sample, 0)
  else
    let f_sample_mini0 := pow E (halo_mass / 1e7) f_a_mini * f_7 in
    let f_sample_mini1 :=
      f_sample_mini0
      * exp (- mturn_mcg / halo_mass - halo_mass / mturn_acg
             + star_rng * sigma_star' - stoc_adjustment_term) in
    let f_sample_mini := if Qltb 1 f_sample_mini1 then 1 else f_sample_mini1 in
    (sm_sample, f_sample_mini * halo_mass * baryon_ratio).

(** [get_halo_sfr]: the star-formation rates [(sfr, sfr_mini)]. *)
Definition get_halo_sfr (stellar_mass stellar_mass_mini sfr_rng : Q)
           (consts : HaloBoxConstants) : Q * Q :=
  let sigma_sfr_lim' := sigma_sfr_lim consts in
  let sigma_sfr_idx' := sigma_sfr_idx consts in
  let sigma_sfr :=
    if Qltb 0 sigma_sfr_lim'
    then
      let s := sigma_sfr_idx'
               * log10 E ((stellar_mass + stellar_mass_mini) / 1e10)
               + sigma_sfr_lim' in
      if Qltb s sigma_sfr_lim' then sigma_sfr_lim' else s
    else 0 in
  let sfr_mean := stellar_mass / (t_star consts * t_h consts) in
  let stoc_adjustment_term := sigma_sfr * sigma_sfr / 2 in
  let sfr_sample :=
    sfr_mean * exp (sfr_rng * sigma_sfr - stoc_adjustment_term) in
  if negb (USE_MINI_HALOS flag_options)
  then (sfr_sample, 0)
  else
    let sfr_mean_mini := stellar_mass_mini / (t_star consts * t_h consts) in
    (sfr_sample,
     sfr_mean_mini * exp (sfr_rng * sigma_sfr - stoc_adjustment_term)).

(** [get_halo_metallicity]. *)
Definition get_halo_metallicity (sfr stellar redshift' : Q) : Q :=
  let z_denom := 1.28825e10 * pow E (sfr * SperYR) 0.56 in
  0.296 * pow E (1 + pow E (stellar / z_denom) (- (2.1))) (- (0.148))
  * pow E 10 (- (0.056) * redshift' + 0.064).

(** [get_halo_xray]. *)
Definition get_halo_xray (sfr sfr_mini metallicity xray_rng : Q)
           (consts : HaloBoxConstants) : Q :=
  let sigma_xray' := sigma_xray consts in
  let stoc_adjustment_term := sigma_xray' * sigma_xray' / 2 in
  let rng_factor :=
    exp (xray_rng * sigma_xray consts - stoc_adjustment_term) in
  let lx_over_sfr := get_lx_on_sfr sfr metallicity (l_x consts) in
  let xray := lx_over_sfr * (sfr * SperYR) * rng_factor in
  if USE_MINI_HALOS flag_options
  then
    let lx_over_sfr_mini :=
      get_lx_on_sfr sfr_mini metallicity (l_x_mini consts) in
    xray + lx_over_sfr_mini * (sfr_mini * SperYR) * rng_factor
  else xray.

(** [set_halo_properties]: the nine fields that the function assigns; the
    three turnover masses of [output] keep their value. *)
Definition set_halo_properties (halo_mass M_turn_a M_turn_m : Q)
           (consts : HaloBoxConstants) (input_rng : Q * Q * Q)
           (output : HaloProperties) : HaloProperties :=
  let '(rng0, rng1, rng2) := input_rng in
  let '(stellar_mass, stellar_mass_mini) :=
    get_halo_stellarmass halo_mass M_turn_a M_turn_m rng0 consts in
  let '(sfr, sfr_mini) :=
    get_halo_sfr stellar_mass stellar_mass_mini rng1 consts in
  let metallicity :=
    if USE_TS_FLUCT flag_options
    then get_halo_metallicity (sfr + sfr_mini)
                              (stellar_mass + stellar_mass_mini)
                              (redshift consts)
    else 0 in
  let xray_lum :=
    if USE_TS_FLUCT flag_options
    then get_halo_xray sfr sfr_mini metallicity rng2 consts
    else 0 in
  let fesc :=
    Qmin (fesc_10 consts * pow E (halo_mass / 1e10) (alpha_esc consts)) 1 in
  let fesc_mini :=
    if USE_MINI_HALOS flag_options
    then Qmin (fesc_7 consts * pow E (halo_mass / 1e7) (alpha_esc consts)) 1
    else 0 in
  let n_ion_sample :=
    stellar_mass * Pop2_ion global_params * fesc
    + stellar_mass_mini * Pop3_ion global_params * fesc_mini in
  let wsfr_sample :=
    sfr * Pop2_ion global_params * fesc
    + sfr_mini * Pop3_ion global_params * fesc_mini in
  {| hp_halo_mass := halo_mass;
     hp_stellar_mass := stellar_mass;
     hp_halo_sfr := sfr;
     hp_stellar_mass_mini := stellar_mass_mini;
     hp_sfr_mini := sfr_mini;
     hp_fescweighted_sfr := wsfr_sample;
     hp_n_ion := n_ion_sample;
     hp_halo_xray := xray_lum;
     hp_metallicity := metallicity;
     hp_m_turn_acg := hp_m_turn_acg output;
     hp_m_turn_mcg := hp_m_turn_mcg output;
     hp_m_turn_reion := hp_m_turn_reion output |}.

(** [get_box_averages]: the expected global averages; [metallicity] and
    [m_turn_reion] of [averages_out] are not assigned. *)
Definition get_box_averages (M_min M_max M_turn_a M_turn_m : Q)
           (consts : HaloBoxConstants) (averages_out : HaloProperties)
  : HaloProperties :=
  let t_h' := t_h consts in
  let lnMmax := log E M_max in
  let lnMmin := log E M_min in
  let prefactor_mass := RHOcrit mac * OMm cosmo_params in
  let prefactor_stars := RHOcrit mac * OMb cosmo_params * fstar_10 consts in
  let prefactor_stars_mini :=
    RHOcrit mac * OMb cosmo_params * fstar_7 consts in
  let prefactor_sfr := prefactor_stars / t_star consts / t_h' in
  let prefactor_sfr_mini := prefactor_stars_mini / t_star consts / t_h' in
  let prefactor_nion :=
    prefactor_stars * fesc_10 consts * Pop2_ion global_params in
  let prefactor_nion_mini :=
    prefactor_stars_mini * fesc_7 consts * Pop3_ion global_params in
  let prefactor_wsfr := prefactor_sfr * fesc_10 consts in
  let prefactor_wsfr_mini := prefactor_sfr_mini * fesc_7 consts in
  let prefactor_xray := prefactor_sfr * l_x consts * SperYR in
  let prefactor_xray_mini := prefactor_sfr_mini * l_x_mini consts * SperYR in
  let mass_intgrl := Fcoll_General E (redshift consts) lnMmin lnMmax in
  let intgrl_fesc_weighted :=
    Nion_General E (redshift consts) lnMmin lnMmax M_turn_a
      (alpha_star consts) (alpha_esc consts) (fstar_10 consts)
      (fesc_10 consts) (Mlim_Fstar consts) (Mlim_Fesc consts) in
  let intgrl_stars_only :=
    Nion_General E (redshift consts) lnMmin lnMmax M_turn_a
      (alpha_star consts) 0 (fstar_10 consts) 1 (Mlim_Fstar consts) 0 in
  let intgrl_fesc_weighted_mini :=
    if USE_MINI_HALOS flag_options
    then Nion_General_MINI E (redshift consts) lnMmin lnMmax M_turn_m
           M_turn_a (alpha_star_mini consts) (alpha_esc consts)
           (fstar_7 consts) (fesc_7 consts) (Mlim_Fstar_mini consts)
           (Mlim_Fesc_mini consts)
    else 0 in
  let intgrl_stars_only_mini :=
    if USE_MINI_HALOS flag_options
    then Nion_General_MINI E (redshift consts) lnMmin lnMmax M_turn_m
           M_turn_a (alpha_star_mini consts) 0 (fstar_7 consts) 1
           (Mlim_Fstar_mini consts) 0
    else 0 in
  {| hp_halo_mass := mass_intgrl * prefactor_mass;
     hp_stellar_mass := intgrl_stars_only * prefactor_stars;
     hp_halo_sfr := intgrl_stars_only * prefactor_sfr;
     hp_stellar_mass_mini := intgrl_stars_only_mini * prefactor_stars_mini;
     hp_sfr_mini := intgrl_stars_only_mini * prefactor_sfr_mini;
     hp_fescweighted_sfr :=
       intgrl_fesc_weighted * prefactor_wsfr
       + intgrl_fesc_weighted_mini * prefactor_wsfr_mini;
     hp_n_ion :=
       intgrl_fesc_weighted * prefactor_nion
       + intgrl_fesc_weighted_mini * prefactor_nion_mini;
     hp_halo_xray :=
       intgrl_stars_only * prefactor_xray
       + intgrl_stars_only_mini * prefactor_xray_mini;
     hp_metallicity := hp_metallicity averages_out;
     hp_m_turn_acg := M_turn_a;
     hp_m_turn_mcg := M_turn_m;
     hp_m_turn_reion := hp_m_turn_reion averages_out |}.

(** [mean_fix_grids]: every grid is multiplied, cell by cell, by the ratio
    of the expected global average to the average of the box.
    [averages_global_0] is the content of the local struct before
    [get_box_averages] fills it. *)
Definition mean_fix_grids (M_min M_max : Q) (grids : HaloBox)
           (averages_box : HaloProperties) (consts : HaloBoxConstants)
           (averages_global_0 : HaloProperties) : HaloBox :=
  let averages_global :=
    get_box_averages M_min M_max (hp_m_turn_acg averages_box)
                     (hp_m_turn_mcg averages_box) consts averages_global_0 in
  for_cells npix
    (fun idx g =>
       let scale (f : grid) (r : Q) := upd f idx (f idx * r) in
       mkHaloBox
         (scale (halo_mass g)
                (hp_halo_mass averages_global / hp_halo_mass averages_box))
         (scale (halo_stars g)
                (hp_stellar_mass averages_global
                 / hp_stellar_mass averages_box))
         (scale (halo_stars_mini g)
                (hp_stellar_mass_mini averages_global
                 / hp_stellar_mass_mini averages_box))
         (scale (n_ion g) (hp_n_ion averages_global / hp_n_ion averages_box))
         (scale (halo_sfr g)
                (hp_halo_sfr averages_global / hp_halo_sfr averages_box))
         (scale (halo_sfr_mini g)
                (hp_sfr_mini averages_global / hp_sfr_mini averages_box))
         (scale (whalo_sfr g)
                (hp_fescweighted_sfr averages_global
                 / hp_fescweighted_sfr averages_box))
         (scale (halo_xray g)
                (hp_halo_xray averages_global / hp_halo_xray averages_box))
         (count g) (log10_Mcrit_ACG_ave g) (log10_Mcrit_MCG_ave g))
    grids.

End Model.

(** The eight grids that [mean_fix_grids] rescales, in the order of its
    loop body, and the averages that go with them. *)
Definition emissivity_grids (g : HaloBox) : list grid :=
  [halo_mass g; halo_stars g; halo_stars_mini g; halo_sfr g;
   halo_sfr_mini g; halo_xray g; n_ion g; whalo_sfr g].

Definition emissivity_averages (p : HaloProperties) : list Q :=
  [hp_halo_mass p; hp_stellar_mass p; hp_stellar_mass_mini p; hp_halo_sfr p;
   hp_sfr_mini p; hp_halo_xray p; hp_n_ion p; hp_fescweighted_sfr p].

End HaloModel.

(** * Halo displacement ([PerturbHaloField.c])

    The triple loops over [(i,j,k)] with [R_INDEX] or [HII_R_INDEX] are
    loops over the linear index of the velocity grid, as for the other
    lattices.  [float], [double] and the conversions between them are
    exact; the conversion of a non-negative [float] to an unsigned integer
    truncates.  The two loops that wrap a position around act on a
    [float] by steps of [DI]: they are given twice, in exact arithmetic
    ([wrap], which the displaced catalogue uses) and with the rounding of
    each step ([wrap_loops]), under which a loop need not end. *)
Module PerturbHaloField.

Import HaloBox.

(** The fields of [UserParams] and the macro [D_PARA] that only this
    file reads. *)
Record HiResParams := mkHiResParams {
  DIM : nat;
  D_PARA : nat;
  NON_CUBIC_FACTOR : Q;
  PERTURB_ON_HIGH_RES : bool;
  USE_2LPT : bool
}.

(** [HaloField]: the catalogue at the initial positions; the coordinates
    are [int]. *)
Record HaloField := mkHaloField {
  hf_n_halos : nat;
  hf_halo_masses : nat -> Q;
  hf_halo_coords : nat -> Z;
  hf_star_rng : nat -> Q;
  hf_sfr_rng : nat -> Q;
  hf_xray_rng : nat -> Q
}.

(** The velocity grids of [InitialConditions]. *)
Record InitialConditions := mkInitialConditions {
  lowres_vx : grid;
  lowres_vy : grid;
  lowres_vz : grid;
  lowres_vx_2LPT : grid;
  lowres_vy_2LPT : grid;
  lowres_vz_2LPT : grid;
  hires_vx : grid;
  hires_vy : grid;
  hires_vz : grid;
  hires_vx_2LPT : grid;
  hires_vy_2LPT : grid;
  hires_vz_2LPT : grid
}.

(** The twelve velocity grids, in the order of the fields. *)
Definition velocity_grids (b : InitialConditions) : list grid :=
  [lowres_vx b; lowres_vy b; lowres_vz b;
   lowres_vx_2LPT b; lowres_vy_2LPT b; lowres_vz_2LPT b;
   hires_vx b; hires_vy b; hires_vz b;
   hires_vx_2LPT b; hires_vy_2LPT b; hires_vz_2LPT b].

(** [DI = 10000]. *)
Definition DI : Q := 10000.

(** [roundf]: to the nearest integer, halves away from zero. *)
Definition roundf (q : Q) : Q :=
  inject_Z (if Qle_bool 0 q then Qfloor (q + 1 / 2) else Qceiling (q - 1 / 2)).

(** [while (xf >= (float)DI){ xf -= DI;}], at most [fuel] iterations. *)
Fixpoint wrap_down (fuel : nat) (v : Q) : Q :=
  match fuel with
  | O => v
  | S fuel' => if Qle_bool DI v then wrap_down fuel' (v - DI) else v
  end.

(** [while (xf < 0){ xf += DI;}], at most [fuel] iterations. *)
Fixpoint wrap_up (fuel : nat) (v : Q) : Q :=
  match fuel with
  | O => v
  | S fuel' => if Qltb v 0 then wrap_up fuel' (v + DI) else v
  end.

(** A number of iterations after which either loop has left [v]. *)
Definition iterations (v : Q) : nat := S (Z.to_nat (Qfloor (Qabs v / DI))).

(** The two loops in sequence. *)
Definition wrap (v : Q) : Q :=
  let v1 := wrap_down (iterations v) v in
  wrap_up (iterations v1) v1.

(** The same loops on [float]: [fl q] stands for the [float] that the
    platform stores for the exact value [q], and nothing is assumed of it.
    A loop is given [fuel] iterations; [None] is a loop that is still
    running when they are used up. *)
Section FloatLoops.

Variable fl : Q -> Q.

(** [while (xf >= (float)DI){ xf -= DI;}]. *)
Fixpoint while_above (fuel : nat) (v : Q) : option Q :=
  match fuel with
  | O => None
  | S fuel' =>
      if Qle_bool DI v then while_above fuel' (fl (v - DI)) else Some v
  end.

(** [while (xf < 0){ xf += DI;}]. *)
Fixpoint while_below (fuel : nat) (v : Q) : option Q :=
  match fuel with
  | O => None
  | S fuel' =>
      if Qltb v 0 then while_below fuel' (fl (v + DI)) else Some v
  end.

(** The two loops in sequence. *)
Definition wrap_loops (fuel : nat) (v : Q) : option Q :=
  match while_above fuel v with
  | Some v1 => while_below fuel v1
  | None => None
  end.

(** The rounding leaves alone the integers of magnitude up to [2^24],
    which a [float] holds. *)
Definition exact_on_integers : Prop :=
  forall m : Z, (Z.abs m <= 2 ^ 24)%Z -> fl (inject_Z m) = inject_Z m.

End FloatLoops.

Section Kernels.

Variable E : Externals.
Variable user_params : UserParams.
Variable hi : HiResParams.
Variable R_INDEX : Z -> Z -> Z -> nat.

(** The number of cells of the velocity grid in use. *)
Definition velocity_cells : nat :=
  let dimension := if PERTURB_ON_HIGH_RES hi then DIM hi else HII_DIM user_params in
  (dimension * dimension
   * Z.to_nat (trunc (NON_CUBIC_FACTOR hi * Qnat dimension)))%nat.

(** An update of the three first-order grids in use: [op] on the [x] and
    [y] components, [opz] on the [z] component. *)
Definition on_first_order (op opz : grid -> grid) (b : InitialConditions)
  : InitialConditions :=
  if PERTURB_ON_HIGH_RES hi
  then mkInitialConditions (lowres_vx b) (lowres_vy b) (lowres_vz b)
         (lowres_vx_2LPT b) (lowres_vy_2LPT b) (lowres_vz_2LPT b)
         (op (hires_vx b)) (op (hires_vy b)) (opz (hires_vz b))
         (hires_vx_2LPT b) (hires_vy_2LPT b) (hires_vz_2LPT b)
  else mkInitialConditions (op (lowres_vx b)) (op (lowres_vy b))
         (opz (lowres_vz b))
         (lowres_vx_2LPT b) (lowres_vy_2LPT b) (lowres_vz_2LPT b)
         (hires_vx b) (hires_vy b) (hires_vz b)
         (hires_vx_2LPT b) (hires_vy_2LPT b) (hires_vz_2LPT b).

(** The same for the three second-order grids in use. *)
Definition on_second_order (op opz : grid -> grid) (b : InitialConditions)
  : InitialConditions :=
  if PERTURB_ON_HIGH_RES hi
  then mkInitialConditions (lowres_vx b) (lowres_vy b) (lowres_vz b)
         (lowres_vx_2LPT b) (lowres_vy_2LPT b) (lowres_vz_2LPT b)
         (hires_vx b) (hires_vy b) (hires_vz b)
         (op (hires_vx_2LPT b)) (op (hires_vy_2LPT b))
         (opz (hires_vz_2LPT b))
  else mkInitialConditions (lowres_vx b) (lowres_vy b) (lowres_vz b)
         (op (lowres_vx_2LPT b)) (op (lowres_vy_2LPT b))
         (opz (lowres_vz_2LPT b))
         (hires_vx b) (hires_vy b) (hires_vz b)
         (hires_vx_2LPT b) (hires_vy_2LPT b) (hires_vz_2LPT b).

(** "now add the missing factor of Ddot to velocity field". *)
Definition scale_first_order (f : Q) (b : InitialConditions)
  : InitialConditions :=
  for_cells velocity_cells
    (fun c b' =>
       on_first_order (fun g => upd g c (g c * f))
                      (fun g => upd g c (g c * (f / NON_CUBIC_FACTOR hi)))
                      b')
    b.

(** "now add the missing factor in eq. D9". *)
Definition scale_second_order (f2 : Q) (b : InitialConditions)
  : InitialConditions :=
  for_cells velocity_cells
    (fun c b' =>
       on_second_order (fun g => upd g c (g c * f2))
                       (fun g => upd g c (g c * (f2 / NON_CUBIC_FACTOR hi)))
                       b')
    b.

(** "Divide out multiplicative factor to return to pristine state". *)
Definition restore_velocities (f f2 : Q) (b : InitialConditions)
  : InitialConditions :=
  for_cells velocity_cells
    (fun c b' =>
       let b1 :=
         on_first_order (fun g => upd g c (g c / f))
                        (fun g => upd g c (g c / (f / NON_CUBIC_FACTOR hi)))
                        b' in
       if USE_2LPT hi
       then on_second_order
              (fun g => upd g c (g c / f2))
              (fun g => upd g c (g c / (f2 / NON_CUBIC_FACTOR hi))) b1
       else b1)
    b.

(** The new position of one coordinate: round to [1/DI], wrap into the
    box, and convert to units of the low-resolution cell. *)
Definition wrapped_coordinate (f : Q) (cells : nat) : Q :=
  Qabs (wrap (roundf (f * DI)) / DI) * Qnat cells.

(** The perturbed position of halo [i_halo], from the scaled velocity
    grids [b]. *)
Definition perturb_halo (b : InitialConditions) (halos : HaloField)
           (i_halo : nat) : Q * Q * Q :=
  let cx := hf_halo_coords halos (i_halo * 3 + 0) in
  let cy := hf_halo_coords halos (i_halo * 3 + 1) in
  let cz := hf_halo_coords halos (i_halo * 3 + 2) in
  (* convert location to fractional value *)
  let xf := inject_Z cx / (Qnat (DIM hi) + 0) in
  let yf := inject_Z cy / (Qnat (DIM hi) + 0) in
  let zf := inject_Z cz / (Qnat (D_PARA hi) + 0) in
  (* determine halo position (downsampled if required) *)
  let '(i, j, k) :=
    if PERTURB_ON_HIGH_RES hi then (cx, cy, cz)
    else (trunc (xf * Qnat (HII_DIM user_params)),
          trunc (yf * Qnat (HII_DIM user_params)),
          trunc (zf * Qnat (HII_D_PARA user_params))) in
  let idx :=
    if PERTURB_ON_HIGH_RES hi then R_INDEX i j k
    else HII_R_INDEX E user_params i j k in
  let v1 (lo hg : grid) := if PERTURB_ON_HIGH_RES hi then hg idx else lo idx in
  (* linear velocity displacement, then the second-order correction *)
  let xf1 := xf + v1 (lowres_vx b) (hires_vx b) in
  let yf1 := yf + v1 (lowres_vy b) (hires_vy b) in
  let zf1 := zf + v1 (lowres_vz b) (hires_vz b) in
  let xf2 :=
    if USE_2LPT hi then xf1 - v1 (lowres_vx_2LPT b) (hires_vx_2LPT b) else xf1 in
  let yf2 :=
    if USE_2LPT hi then yf1 - v1 (lowres_vy_2LPT b) (hires_vy_2LPT b) else yf1 in
  let zf2 :=
    if USE_2LPT hi then zf1 - v1 (lowres_vz_2LPT b) (hires_vz_2LPT b) else zf1 in
  (wrapped_coordinate xf2 (HII_DIM user_params),
   wrapped_coordinate yf2 (HII_DIM user_params),
   wrapped_coordinate zf2 (HII_D_PARA user_params)).


Definition store3 (a : nat -> Q) (i : nat) (v : Q * Q * Q) : nat -> Q :=
  let '(x, y, z) := v in
  upd (upd (upd a (i * 3 + 0) x) (i * 3 + 1) y) (i * 3 + 2) z.

(** The loop over the halos. *)
Definition perturb_halos (b : InitialConditions) (halos : HaloField)
           (halos_perturbed : PerturbHaloField) : PerturbHaloField :=
  for_cells (hf_n_halos halos)
    (fun i_halo p =>
       mkPerturbHaloField (n_halos p)
         (upd (halo_masses p) i_halo (hf_halo_masses halos i_halo))
         (store3 (halo_coords p) i_halo (perturb_halo b halos i_halo))
         (upd (star_rng p) i_halo (hf_star_rng halos i_halo))
         (upd (sfr_rng p) i_halo (hf_sfr_rng halos i_halo))
         (upd (xray_rng p) i_halo (hf_xray_rng halos i_halo)))
    (mkPerturbHaloField (hf_n_halos halos) (halo_masses halos_perturbed)
       (halo_coords halos_perturbed) (star_rng halos_perturbed)
       (sfr_rng halos_perturbed) (xray_rng halos_perturbed)).


(** [ComputePerturbHaloField]: the velocity grids as the function leaves
    them, and the displaced catalogue. *)
Definition ComputePerturbHaloField (redshift' : Q) (boxes : InitialConditions)
           (halos : HaloField) (halos_perturbed : PerturbHaloField)
  : InitialConditions * PerturbHaloField :=
  let growth_factor := dicke E redshift' in
  let displacement_factor_2LPT :=
    - (3 / 7) * growth_factor * growth_factor in
  let growth_factor_over_BOX_LEN := growth_factor / BOX_LEN user_params in
  let displacement_factor_2LPT_over_BOX_LEN :=
    displacement_factor_2LPT / BOX_LEN user_params in
  let b1 := scale_first_order growth_factor_over_BOX_LEN boxes in
  let b2 :=
    if USE_2LPT hi
    then scale_second_order displacement_factor_2LPT_over_BOX_LEN b1
    else b1 in
  let out := perturb_halos b2 halos halos_perturbed in
  (restore_velocities growth_factor_over_BOX_LEN
                      displacement_factor_2LPT_over_BOX_LEN b2,
   out).

End Kernels.

End PerturbHaloField.

(** * Further kernels of [IonisationBox.c] *)
Module IonisationGrids.

Import IonisationBox.

Section Kernels.

Variable E : Externals.
Variable mac : Macros.
Variable global_params : GlobalParams.
Variable user_params : UserParams.
Variable flag_options : FlagOptions.

(** [R_BUBBLE_MAX] of [AstroParams], [R_BUBBLE_MIN] and
    [DELTA_R_HII_FACTOR] of the global parameters, and the macro
    [L_FACTOR]. *)
Variable R_BUBBLE_MAX : Q.
Variable R_BUBBLE_MIN : Q.
Variable DELTA_R_HII_FACTOR : Q.
Variable L_FACTOR : Q.

Local Abbreviation npix := (HII_TOT_NUM_PIXELS user_params).

(** [clip_and_get_extrema]: the clipped buffer, [grid_min] and
    [grid_max].  The extrema start from the first cell and follow [curr],
    the value read before the clipping. *)
Definition clip_and_get_extrema (g : grid) (lower_limit upper_limit : Q)
  : grid * Q * Q :=
  for_cells npix
    (fun ct (st : grid * Q * Q) =>
       let '(g', min_buf, max_buf) := st in
       let curr := g' ct in
       (upd g' ct (Qmax (Qmin curr upper_limit) lower_limit),
        if Qltb curr min_buf then curr else min_buf,
        if Qltb max_buf curr then curr else max_buf))
    (g, g O, g O).

(** The loop of [setup_radii] from index [i], with [remaining] iterations
    to the current value of [n_radii].  [rspec_0] is the content of the
    allocated array: the two grid means are not assigned here. *)
Fixpoint radii_loop (rspec_0 : nat -> RadiusSpec)
         (minimum_radius maximum_radius : Q) (remaining i : nat)
  : list RadiusSpec :=
  match remaining with
  | O => []
  | S remaining' =>
      let R0 := minimum_radius * pow E DELTA_R_HII_FACTOR (Qnat i) in
      let capped := Qltb (maximum_radius - FRACT_FLOAT_ERR mac) R0 in
      let R' := if capped then maximum_radius else R0 in
      let M := RtoM E R' in
      mkRadiusSpec R' M (log E M) (sigma_z0 E M) i
        (f_coll_grid_mean (rspec_0 i)) (f_coll_grid_mean_MINI (rspec_0 i))
      :: (if capped then []
          else radii_loop rspec_0 minimum_radius maximum_radius remaining'
                          (S i))
  end.

Definition maximum_radius : Q :=
  Qmin R_BUBBLE_MAX (L_FACTOR * BOX_LEN user_params).

Definition minimum_radius (consts : IonBoxConstants) : Q :=
  let cell_length_factor :=
    if USE_HALO_FIELD flag_options
       && (FIND_BUBBLE_ALGORITHM global_params =? 2)%Z
       && Qltb (pixel_length consts) 1
    then 1 else L_FACTOR in
  Qmax R_BUBBLE_MIN (cell_length_factor * pixel_length consts).

(** [setup_radii]: the returned [n_radii] and the entries of the array
    that were written, smallest radius first. *)
Definition setup_radii (rspec_0 : nat -> RadiusSpec)
           (consts : IonBoxConstants) : Z * list RadiusSpec :=
  let n_radii :=
    (Qceiling (log E (maximum_radius / minimum_radius consts)
               / log E DELTA_R_HII_FACTOR) + 1)%Z in
  let l := radii_loop rspec_0 (minimum_radius consts) maximum_radius
                      (Z.to_nat n_radii) O in
  (if (0 <? n_radii)%Z then Z.of_nat (length l) else n_radii, l).

End Kernels.

End IonisationGrids.

(** * The filtered tables of the spin-temperature engine
      ([SpinTemperatureBox.c], [fill_Rbox_table])

    The k-space boxes are opaque: [filter_box] and the inverse transform
    [dft_c2r_cube] are external. *)
Module TsFilter.

Section Kernels.

Variable user_params : UserParams.
Variable L_FACTOR : Q.
Variable KBox : Type.
Variable filter_box : KBox -> Q -> KBox.
Variable dft_c2r_cube : KBox -> grid.

Local Abbreviation npix := (HII_TOT_NUM_PIXELS user_params).

(** The four outputs: the table and the three per-radius arrays. *)
Record RboxTable := mkRboxTable {
  result : nat -> grid;
  min_arr : nat -> Q;
  average_arr : nat -> Q;
  max_arr : nat -> Q
}.

(** The reduction over the cells of one radius: the stored row, the sum
    and the extrema. *)
Definition reduce_cells (box : grid) (min_value const_factor : Q)
           (row : grid) : grid * Q * Q * Q :=
  for_cells npix
    (fun ct (st : grid * Q * Q * Q) =>
       let '(row', ave_buffer, min_out_R, max_out_R) := st in
       let curr0 := box ct in
       let curr1 := if Qltb curr0 min_value then min_value else curr0 in
       let curr := curr1 * const_factor in
       (upd row' ct curr, ave_buffer + curr,
        if Qltb curr min_out_R then curr else min_out_R,
        if Qltb max_out_R curr then curr else max_out_R))
    (row, 0, 1e20, - (1e20)).

(** [fill_Rbox_table]. *)
Definition fill_Rbox_table (t : RboxTable) (unfiltered_box : KBox)
           (R_array : nat -> Q) (n_R : nat) (min_value const_factor : Q)
  : RboxTable :=
  for_cells n_R
    (fun R_ct t' =>
       let R := R_array R_ct in
       let box0 := unfiltered_box in
       (* don't filter on cell size *)
       let box1 :=
         if Qltb (L_FACTOR * (BOX_LEN user_params / Qnat (HII_DIM user_params))) R
         then filter_box box0 R else box0 in
       let '(row, ave_buffer, min_out_R, max_out_R) :=
         reduce_cells (dft_c2r_cube box1) min_value const_factor
                      (result t' R_ct) in
       mkRboxTable
         (fun r => if Nat.eqb r R_ct then row else result t' r)
         (upd (min_arr t') R_ct min_out_R)
         (upd (average_arr t') R_ct (ave_buffer / Qnat npix))
         (upd (max_arr t') R_ct max_out_R))
    t.

End Kernels.

End TsFilter.

(** ** Sums over the shell arrays of [SpinTemperatureBox.c] *)

Module ShellSums.

Import SpinTemperature.

Local Open Scope R_scope.

(** The sum of the first [n] entries of an array. *)
Fixpoint sum_array (n : nat) (a : array) : R :=
  match n with
  | O => 0
  | S m => sum_array m a + a m
  end.

End ShellSums.

(** * The star-formation-rate grids of [SpinTemperatureBox.c] *)
Module TsSfrd.

Import IonisationBox.

Section Kernels.

Variable E : Externals.
Variable user_params : UserParams.
Variable flag_options : FlagOptions.

(** The macro [Deltac] and the table look-ups that only this file calls. *)
Variable Deltac : Q.
Variable EvaluateSFRD_Conditional : Q -> Q -> Q -> Q -> Q -> Q -> Q -> Q.
Variable EvaluateSFRD_Conditional_MINI :
  Q -> Q -> Q -> Q -> Q -> Q -> Q -> Q -> Q.
Variable EvaluatedFcolldz : Q -> Q -> Q -> Q -> Q.

(** The global arrays over the shells and the two global mass limits. *)
Variables zpp_growth zpp_for_evolve_list : nat -> Q.
Variables M_min_R M_max_R sigma_min sigma_max : nat -> Q.
Variable Mcrit_atom_interp_table : nat -> Q.
Variables Mlim_Fstar_g Mlim_Fstar_MINI_g : Q.

Local Abbreviation npix := (HII_TOT_NUM_PIXELS user_params).

(** The two grids, the two sums, and the local [fcoll_MINI], which is
    declared once, before the loop over the cells, and is assigned only
    with mass-dependent zeta and mini-halos. *)
Record SfrdLoop := mkSfrdLoop {
  sfrd_grid : grid;
  sfrd_grid_mini : grid;
  ave_sfrd_buf : Q;
  ave_sfrd_buf_mini : Q;
  fcoll_MINI : Q
}.

(** The body of the loop over [box_ct]. *)
Definition sfrd_cell (R_ct : nat) (dens_R_grid Mcrit_R_grid : grid)
           (box_ct : nat) (st : SfrdLoop) : SfrdLoop :=
  let curr_dens := dens_R_grid box_ct * zpp_growth R_ct in
  let curr_mcrit := Mcrit_R_grid box_ct in
  (* boundary cases *)
  if Qle_bool curr_dens (- (1))
  then mkSfrdLoop
         (upd (sfrd_grid st) box_ct 0)
         (if USE_MINI_HALOS flag_options
          then upd (sfrd_grid_mini st) box_ct 0 else sfrd_grid_mini st)
         (ave_sfrd_buf st) (ave_sfrd_buf_mini st) (fcoll_MINI st)
  else if Qltb (Deltac * 0.99) curr_dens
  then mkSfrdLoop
         (upd (sfrd_grid st) box_ct 1)
         (if USE_MINI_HALOS flag_options
          then upd (sfrd_grid_mini st) box_ct 1 else sfrd_grid_mini st)
         (ave_sfrd_buf st + 1)
         (if USE_MINI_HALOS flag_options
          then ave_sfrd_buf_mini st + 1 else ave_sfrd_buf_mini st)
         (fcoll_MINI st)
  else if USE_MASS_DEPENDENT_ZETA flag_options
  then
    let fcoll :=
      EvaluateSFRD_Conditional curr_dens (zpp_growth R_ct) (M_min_R R_ct)
        (M_max_R R_ct) (sigma_max R_ct) (Mcrit_atom_interp_table R_ct)
        Mlim_Fstar_g in
    let fcoll_MINI' :=
      if USE_MINI_HALOS flag_options
      then EvaluateSFRD_Conditional_MINI curr_dens curr_mcrit
             (zpp_growth R_ct) (M_min_R R_ct) (M_max_R R_ct)
             (sigma_max R_ct) (Mcrit_atom_interp_table R_ct)
             Mlim_Fstar_MINI_g
      else fcoll_MINI st in
    mkSfrdLoop
      (upd (sfrd_grid st) box_ct ((1 + curr_dens) * fcoll))
      (if USE_MINI_HALOS flag_options
       then upd (sfrd_grid_mini st) box_ct ((1 + curr_dens) * fcoll_MINI')
       else sfrd_grid_mini st)
      (ave_sfrd_buf st + fcoll)
      (ave_sfrd_buf_mini st + fcoll_MINI')
      fcoll_MINI'
  else
    let fcoll :=
      EvaluateFcoll_delta E curr_dens (zpp_growth R_ct) (sigma_min R_ct)
        (sigma_max R_ct) in
    let dfcoll :=
      EvaluatedFcolldz curr_dens (zpp_for_evolve_list R_ct) (sigma_min R_ct)
        (sigma_max R_ct) in
    mkSfrdLoop
      (upd (sfrd_grid st) box_ct ((1 + curr_dens) * dfcoll))
      (sfrd_grid_mini st)
      (ave_sfrd_buf st + fcoll)
      (ave_sfrd_buf_mini st + fcoll_MINI st)
      (fcoll_MINI st).

(** [calculate_sfrd_from_grid]: the two grids, [*ave_sfrd] and
    [*ave_sfrd_mini].  [fcoll_MINI_0] is the content of the uninitialised
    local [fcoll_MINI]. *)
Definition calculate_sfrd_from_grid (fcoll_MINI_0 : Q) (R_ct : nat)
           (dens_R_grid Mcrit_R_grid sfrd_grid_0 sfrd_grid_mini_0 : grid)
  : grid * grid * Q * Q :=
  let st :=
    for_cells npix (sfrd_cell R_ct dens_R_grid Mcrit_R_grid)
      (mkSfrdLoop sfrd_grid_0 sfrd_grid_mini_0 0 0 fcoll_MINI_0) in
  (sfrd_grid st, sfrd_grid_mini st,
   ave_sfrd_buf st / Qnat npix, ave_sfrd_buf_mini st / Qnat npix).

End Kernels.

End TsSfrd.

(** * The divisors of [find_ionised_regions] ([IonisationBox.c])

    A quotient of the model is total, with [x / 0 = 0]; the quotient of
    the code by zero is an infinity or a NaN, and a NaN passes the two
    comparisons that clip a neutral fraction.  The divisors of one call of
    [find_ionised_regions] are listed here, so that a property of the call
    can be stated for the calls in which none of them is zero. *)
Module IonisationDivisors.

Import IonisationBox.

Section Kernels.

Variable E : Externals.
Variable mac : Macros.
Variable global_params : GlobalParams.
Variable user_params : UserParams.
Variable cosmo_params : CosmoParams.
Variable flag_options : FlagOptions.





End Kernels.

End IonisationDivisors.

(** * Further concrete inputs

    Tables, catalogues and lattices on which the further kernels are
    evaluated. *)
Module FurtherExamples.

Import IonisationBox Example.

(** ** Rounding *)

(** The integer nearest to [q], halves to the even one. *)
Definition nearest_even (q : Q) : Z :=
  let f := Qfloor q in
  match Qcompare (q - inject_Z f) (1 / 2) with
  | Lt => f
  | Gt => (f + 1)%Z
  | Eq => if Z.even f then f else (f + 1)%Z
  end.

Definition pow2 (e : Z) : Q :=
  if (0 <=? e)%Z then inject_Z (2 ^ e) else / inject_Z (2 ^ (- e)).

(** Rounding to a binary floating-point number with a significand of [p]
    bits: to nearest, halves to even, with no bound on the exponent, which
    is the rounding of IEEE 754 away from overflow and from the subnormal
    numbers.  The result is in lowest terms. *)
Definition round_to (p : Z) (q : Q) : Q :=
  if Qeq_bool q 0 then 0
  else
    let a := Qabs q in
    let e0 := (Z.log2 (Qnum a) - Z.log2 (Zpos (Qden a)) - (p - 1))%Z in
    let e :=
      if Qle_bool (pow2 (p - 1)) (a * pow2 (- e0)) then e0 else (e0 - 1)%Z in
    let m := inject_Z (nearest_even (a * pow2 (- e))) * pow2 e in
    Qred (if Qle_bool 0 q then m else - m).

(** [double] and [float]. *)
Definition binary64 : Q -> Q := round_to 53.

Definition binary32 : Q -> Q := round_to 24.

(** ** Interpolation tables *)

(** Three entries at the abscissae [0], [2] and [4] that sample the
    affine function [1 + 3*x]. *)
Definition line_table : Interpolation.RGTable1D :=
  Interpolation.mkRGTable1D 3 0 2 (fun i => 1 + 3 * (0 + 2 * inject_Z i)).




(** Three by three entries on unit cells from the origin; the entries
    sample [1 + 2*x + 3*y + 4*x*y]. *)
Definition plane_table : Interpolation.RGTable2D :=
  Interpolation.mkRGTable2D 3 3 0 1 0 1
    (fun i j => 1 + 2 * (0 + 1 * inject_Z i) + 3 * (0 + 1 * inject_Z j)
                + 4 * (0 + 1 * inject_Z i) * (0 + 1 * inject_Z j)).

(** ** A first snapshot *)

(** The sphere scenario without a previous snapshot: the previous
    redshift is [0]. *)
Definition first_setup_result : error + IonSetup :=
  ionbox_setup externals macros (globals 1) (user 3 true) cosmo (astro 3)
    sphere_flags indeterminate 8 0 no_field previous_box spin zeros fresh_box.

Definition first_compute_result : error + IonizedBox :=
  ComputeIonizedBox externals macros (globals 1) (user 3 true) cosmo
    (astro 3) sphere_flags indeterminate (filtered 3) radii 8 0 no_field
    no_field previous_box spin zeros fresh_box.

Definition first_setup : IonSetup :=
  match first_setup_result with inr s => s | inl _ => no_setup end.

Definition first_box : IonizedBox :=
  match first_compute_result with inr b => b | inl _ => fresh_box end.

(** ** One call of [find_ionised_regions] *)



(** ** Sums that hold a value on entry *)



(** ** Radii *)

(** The collaborators of [Example] with another power, logarithm and
    Lyman-Werner threshold. *)
Definition tuned (pow' : Q -> Q -> Q) (log' : Q -> Q)
           (lyman_werner_threshold' : Q -> Q -> Q -> AstroParams -> Q)
  : Externals :=
  {| pow := pow';
     log := log';
     log10 := log10 externals;
     dtdz := dtdz externals;
     dicke := dicke externals;
     t_hubble := t_hubble externals;
     get_fesc_fit := get_fesc_fit externals;
     atomic_cooling_threshold := atomic_cooling_threshold externals;
     lyman_werner_threshold := lyman_werner_threshold';
     reionization_feedback := reionization_feedback externals;
     Mass_limit_bisection := Mass_limit_bisection externals;
     minimum_source_mass := minimum_source_mass externals;
     sigma_z0 := sigma_z0 externals;
     RtoM := RtoM externals;
     T_RECFAST := T_RECFAST externals;
     xion_RECFAST := xion_RECFAST externals;
     cT_approx := cT_approx externals;
     Nion_General := Nion_General externals;
     Nion_General_MINI := Nion_General_MINI externals;
     Fcoll_General := Fcoll_General externals;
     EvaluateNion_Conditional := EvaluateNion_Conditional externals;
     EvaluateNion_Conditional_MINI := EvaluateNion_Conditional_MINI externals;
     EvaluateFcoll_delta := EvaluateFcoll_delta externals;
     ComputePartiallyIoinizedTemperature :=
       ComputePartiallyIoinizedTemperature externals;
     ComputeFullyIoinizedTemperature :=
       ComputeFullyIoinizedTemperature externals;
     splined_recombination_rate := splined_recombination_rate externals;
     gsl_ran_poisson := gsl_ran_poisson externals;
     adjust_redshifts_for_photoncons :=
       adjust_redshifts_for_photoncons externals;
     in_sphere := in_sphere externals;
     HII_R_INDEX := HII_R_INDEX externals |}.

(** An integer power and the integer logarithm to the base [2]. *)
Definition radii_externals : Externals :=
  tuned (fun x y => Qpower x (Qfloor y))
        (fun x => inject_Z (Z.log2 (Qfloor x)))
        (lyman_werner_threshold externals).

(** A Lyman-Werner threshold that grows with the relative velocity. *)
Definition velocity_externals : Externals :=
  tuned (pow externals) (log externals) (fun _ _ vcb _ => 1 + vcb).

(** A lattice of [8 x 8 x 1] cells in a box of length [8]: the cells have
    the length [1]. *)
Definition wide_user : UserParams := mkUserParams 8 1 8 true false false 0.

Definition wide_consts : IonBoxConstants :=
  set_ionbox_constants radii_externals macros (globals 2) wide_user cosmo
    (astro 1) plain_flags 8 9 consts_0.

(** The array as allocated: every entry is the radius [0] of [Example]. *)
Definition stale_radii (_ : nat) : RadiusSpec := radius 0 0.

(** [R_BUBBLE_MAX = 50], [R_BUBBLE_MIN = 1/2], [DELTA_R_HII_FACTOR = 2]
    and [L_FACTOR = 1/2]: the radii run from [1/2] to [4]. *)
Definition radii_out : Z * list RadiusSpec :=
  IonisationGrids.setup_radii radii_externals macros (globals 2) wide_user
    plain_flags 50 (1 / 2) 2 (1 / 2) stale_radii wide_consts.

Definition last_radius : RadiusSpec := nth 3 (snd radii_out) (stale_radii O).

(** ** A buffer to clip *)

(** The cells hold [-1], [0], [1], ... *)
Definition ramp : grid := fun c => Qnat c - 1.

(** ** A catalogue to displace *)

(** A high-resolution lattice of [4^3] cells over a low-resolution one of
    [2^3] cells in a box of length [2]; the displacements are taken from
    the low-resolution grids, to second order. *)
Definition hires : PerturbHaloField.HiResParams :=
  PerturbHaloField.mkHiResParams 4 4 1 false true.

Definition cube_user : UserParams := mkUserParams 2 2 2 true false false 0.

Definition R_INDEX (i j k : Z) : nat := Z.to_nat (k + 4 * (j + 4 * i)).

Definition velocities : PerturbHaloField.InitialConditions :=
  PerturbHaloField.mkInitialConditions
    (fun _ => 3 / 4) (fun _ => - (1 / 2)) (fun _ => 5 / 2)
    (fun _ => 1 / 8) (fun _ => 1 / 16) (fun _ => - (1 / 4))
    (fun _ => 1) (fun _ => 2) (fun _ => 3)
    (fun _ => 4) (fun _ => 5) (fun _ => 6).

(** Two halos, of masses [5] and [6]; the coordinates of the first are
    [(0, 1, 2)] and those of the second [(3, 0, 1)]. *)
Definition catalogue : PerturbHaloField.HaloField :=
  PerturbHaloField.mkHaloField 2 (fun i => 5 + Qnat i)
    (fun i => Z.of_nat (i mod 4))
    (fun _ => 1 / 10) (fun _ => 2 / 10) (fun _ => 3 / 10).

Definition displaced
  : PerturbHaloField.InitialConditions * HaloBox.PerturbHaloField :=
  PerturbHaloField.ComputePerturbHaloField externals cube_user hires R_INDEX 8
    velocities catalogue massless_halo.


(** ** The halo model *)

(** A stand-in for the exponential: its expansion to second order. *)
Definition exp_to_second_order (x : Q) : Q := 1 + x + x * x / 2.

Definition halo_consts : HaloBox.HaloBoxConstants :=
  HaloBox.set_hbox_constants externals (globals 2) (user 1 true) (astro 1)
    plain_flags 8 hbox_consts_0.

(** The stellar masses of a halo of mass [100] without scatter. *)
Definition stellar_masses : Q * Q :=
  HaloModel.get_halo_stellarmass externals cosmo plain_flags
    exp_to_second_order false 100 1 1 0 halo_consts.

(** The properties of a halo of mass [100] without scatter. *)
Definition halo_sample : HaloBox.HaloProperties :=
  HaloModel.set_halo_properties externals (globals 2) cosmo plain_flags
    exp_to_second_order 1 false 100 1 1 halo_consts (0, 0, 0) props_0.

(** Averages of a box in which every emissivity grid of [used_grids]
    has its lattice mean ([1], and [7] for the X-ray grid). *)
Definition box_averages : HaloBox.HaloProperties :=
  HaloBox.mkHaloProperties 1 1 1 1 1 1 1 7 0 1 1 0.

Definition fixed_to_the_mean : HaloBox.HaloBox :=
  HaloModel.mean_fix_grids externals macros (globals 2) (user 1 true) cosmo
    plain_flags 1 1 1000 used_grids box_averages halo_consts props_0.

Definition expected_averages : HaloBox.HaloProperties :=
  HaloModel.get_box_averages externals macros (globals 2) cosmo plain_flags 1
    1 1000 (HaloBox.hp_m_turn_acg box_averages)
    (HaloBox.hp_m_turn_mcg box_averages) halo_consts props_0.

(** ** A catalogue to grid *)

(** Two halos of masses [5] and [7] on three cells: the first in cell [1],
    the second in cell [2]. *)
Definition two_halos : HaloBox.PerturbHaloField :=
  HaloBox.mkPerturbHaloField 2 (fun i => if Nat.eqb i 0 then 5 else 7)
    (fun j => if Nat.eqb j 2 then 3 / 2 else if Nat.eqb j 5 then 5 / 2 else 0)
    zeros zeros zeros.

Definition empty_grids : HaloBox.HaloBox :=
  HaloBox.mkHaloBox zeros zeros zeros zeros zeros zeros zeros zeros
    (fun _ => 0%Z) 0 0.

Definition summed : HaloBox.HaloBox * HaloBox.HaloProperties :=
  HaloBox.sum_halos_onto_grid externals macros (globals 2) (user 3 true)
    (astro 1) plain_flags halo_properties zeros spin previous_box two_halos
    halo_consts props_0 empty_grids props_0.

(** The gridder with mini-halos on the massless catalogue of [Example];
    the constants struct holds [42] in [vcb_norel] on entry. *)
Definition mini_only : FlagOptions := flags false true false false false false.

Definition stale_consts : HaloBox.HaloBoxConstants :=
  HaloBox.mkHaloBoxConstants 0 false 0 0 0 0 0 0 0 0 0 0 0 0 0 0 0 0 0 0 42 0
    0 0 0 0 0.

Definition mini_gridded : HaloBox.HaloBox * HaloBox.HaloProperties :=
  HaloBox.ComputeHaloBox velocity_externals macros (globals 2) (user 1 true)
    (astro 1) mini_only halo_properties fixed_grids stale_consts props_0
    props_0 8 zeros no_field massless_halo spin previous_box used_grids.

(** ** A table of filtered grids *)

(** A stand-in for the filter in real space: a division by [1 + R]; the
    inverse transform is the identity. *)
Definition damp (b : grid) (R : Q) : grid := fun c => b c / (1 + R).

Definition empty_table : TsFilter.RboxTable :=
  TsFilter.mkRboxTable (fun _ => zeros) zeros zeros zeros.

(** Three radii [0], [1], [2] on three cells that hold [-2], [-1], [0];
    the floor is [-1] and the constant factor [2]. *)
Definition filtered_table : TsFilter.RboxTable :=
  TsFilter.fill_Rbox_table (user 3 true) (1 / 2) grid damp (fun b => b)
    empty_table (fun c => Qnat c - 2) Qnat 3 (- (1)) 2.

(** ** Star-formation-rate grids *)

(** Three cells with the density contrasts [-2], [1/2] and [3] around
    [Deltac = 1.686]: one below the lower boundary, one between the
    boundaries, one above the upper boundary. *)
Definition sfrd_density : grid :=
  fun c => if Nat.eqb c 0 then - (2) else if Nat.eqb c 1 then 1 / 2 else 3.

(** Stand-ins for the look-ups: the conditional rates are the density
    contrast (as [EvaluateFcoll_delta] of [Example]), the derivative is
    half of it. *)
Definition rate (d _ _ _ _ _ _ : Q) : Q := d.
Definition rate_mini (d _ _ _ _ _ _ _ : Q) : Q := d.
Definition derivative (d _ _ _ : Q) : Q := d / 2.

(** The grids without mass-dependent zeta and mini-halos; the local
    [fcoll_MINI] holds [7] on entry. *)
Definition sfrd_out : grid * grid * Q * Q :=
  TsSfrd.calculate_sfrd_from_grid externals (user 3 true) plain_flags 1.686
    rate rate_mini derivative ones ones ones ones ones ones ones 1 1 7 O
    sfrd_density zeros zeros zeros.

End FurtherExamples.
(** * Properties *)

(** ** Comparisons, buffers and cell loops *)

Lemma Qltb_lt (x y : Q) : Qltb x y = true <-> x < y.
Proof.
  unfold Qltb. rewrite negb_true_iff.
  destruct (Qle_bool y x) eqn:Hb.
  - apply Qle_bool_iff in Hb. split; [discriminate | intro; lra].
  - split; [intros _ | reflexivity].
    destruct (Qlt_le_dec x y) as [Hl | Hl]; [exact Hl |].
    apply Qle_bool_iff in Hl. congruence.
Qed.

Lemma Qltb_ge (x y : Q) : Qltb x y = false <-> y <= x.
Proof.
  unfold Qltb. rewrite negb_false_iff. apply Qle_bool_iff.
Qed.

Lemma upd_same (g : grid) (i : nat) (v : Q) : upd g i v i = v.
Proof. unfold upd. now rewrite Nat.eqb_refl. Qed.

Lemma upd_other (g : grid) (i j : nat) (v : Q) : j <> i -> upd g i v j = g j.
Proof. unfold upd. intro H. apply Nat.eqb_neq in H. now rewrite H. Qed.

Lemma for_cells_S {S : Type} (n : nat) (body : nat -> S -> S) (s : S) :
  for_cells (Datatypes.S n) body s = body n (for_cells n body s).
Proof.
  unfold for_cells. rewrite seq_S, fold_left_app. reflexivity.
Qed.

(** An invariant of the loop body is an invariant of the loop. *)
Lemma for_cells_inv {S : Type} (P : S -> Prop) (n : nat)
      (body : nat -> S -> S) (s : S) :
  P s -> (forall ct st, (ct < n)%nat -> P st -> P (body ct st)) ->
  P (for_cells n body s).
Proof.
  induction n as [| n IH]; intros H0 Hstep.
  - exact H0.
  - rewrite for_cells_S. apply Hstep; [lia |].
    apply IH; [exact H0 |]. intros ct st Hlt. apply Hstep. lia.
Qed.

(** A loop that writes cell [ct] in iteration [ct], with a value that does
    not depend on the buffer, leaves that value in every cell of the
    lattice and the other entries as they were. *)
Lemma for_cells_fill (n : nat) (f : nat -> Q) (g : grid) (j : nat) :
  for_cells n (fun ct g' => upd g' ct (f ct)) g j
  = if (j <? n)%nat then f j else g j.
Proof.
  induction n as [| n IH].
  - reflexivity.
  - rewrite for_cells_S. unfold upd at 1.
    destruct (Nat.eqb_spec j n) as [-> | Hne].
    + assert (H : (n <? Datatypes.S n)%nat = true) by (apply Nat.ltb_lt; lia).
      now rewrite H.
    + rewrite IH.
      destruct (Nat.ltb_spec j n), (Nat.ltb_spec j (Datatypes.S n));
        try reflexivity; lia.
Qed.

(** ** The ionisation excursion-set solver *)

Section IonisationBoxProperties.

Import IonisationBox.

Variable E : Externals.
Variable mac : Macros.
Variable global_params : GlobalParams.
Variable user_params : UserParams.
Variable cosmo_params : CosmoParams.
Variable astro_params : AstroParams.
Variable flag_options : FlagOptions.

Local Abbreviation npix := (HII_TOT_NUM_PIXELS user_params).

(** *** One cell of [find_ionised_regions] *)

Section CellStep.

Variable previous_ionize_box : IonizedBox.
Variable perturbed_field : PerturbedField.
Variable spin_temp : TsBox.
Variable rspec : RadiusSpec.
Variable consts : IonBoxConstants.
Variable fg : FilteredGrids.
Variables f_limit_acg f_limit_mcg mfa mfm : Q.

Local Abbreviation step :=
  (find_ionised_cell E mac global_params user_params cosmo_params flag_options
     previous_ionize_box perturbed_field spin_temp rspec consts fg
     f_limit_acg f_limit_mcg mfa mfm).

Local Abbreviation terms :=
  (fun box => cell_terms mac user_params cosmo_params flag_options box
     previous_ionize_box perturbed_field rspec consts fg
     f_limit_acg f_limit_mcg mfa mfm).

(** The test reads the box only through its collapse-fraction buffers. *)
Lemma cell_terms_ext (b1 b2 : IonizedBox) (ct : nat) :
  Fcoll b1 = Fcoll b2 -> Fcoll_MINI b1 = Fcoll_MINI b2 ->
  terms b1 ct = terms b2 ct.
Proof.
  intros H1 H2. unfold cell_terms. now rewrite H1, H2.
Qed.

(** A cell step writes neither the collapse fractions nor the means. *)
Lemma step_keeps_fcoll (ct : nat) (st : IonLoop) :
  Fcoll (il_box (step ct st)) = Fcoll (il_box st)
  /\ Fcoll_MINI (il_box (step ct st)) = Fcoll_MINI (il_box st)
  /\ mean_f_coll (il_box (step ct st)) = mean_f_coll (il_box st)
  /\ mean_f_coll_MINI (il_box (step ct st)) = mean_f_coll_MINI (il_box st)
  /\ dNrec_box (il_box (step ct st)) = dNrec_box (il_box st).
Proof.
  unfold find_ionised_cell.
  destruct (is_ionized consts _).
  - destruct (INHOMO_RECO flag_options && _),
      (FIND_BUBBLE_ALGORITHM global_params =? 2)%Z,
      (FIND_BUBBLE_ALGORITHM global_params =? 1)%Z; cbn; auto.
  - destruct ((R_index rspec =? 0)%nat && _); [| auto].
    destruct (USE_HALO_FIELD flag_options).
    + cbn. auto.
    + destruct (draw_N_halos_in_cell _ _ _ _) as [N rng'].
      destruct (partial_fcolls _ _ _ _ _) as [f m]. cbn. auto.
Qed.

(** [z_re_box] is written in the cell of the step, and only when the cell
    passes the test. *)
Lemma step_z_re (ct j : nat) (st : IonLoop) :
  z_re_box (il_box (step ct st)) j
  = if is_ionized consts (terms (il_box st) ct) && Nat.eqb j ct
    then z_re_mark previous_ionize_box consts ct
    else z_re_box (il_box st) j.
Proof.
  unfold find_ionised_cell.
  destruct (is_ionized consts _).
  - destruct (INHOMO_RECO flag_options && _),
      (FIND_BUBBLE_ALGORITHM global_params =? 2)%Z,
      (FIND_BUBBLE_ALGORITHM global_params =? 1)%Z; cbn;
      unfold upd; destruct (Nat.eqb j ct); reflexivity.
  - cbn [andb].
    destruct ((R_index rspec =? 0)%nat && _); [| reflexivity].
    destruct (USE_HALO_FIELD flag_options).
    + reflexivity.
    + destruct (draw_N_halos_in_cell _ _ _ _) as [N rng'].
      destruct (partial_fcolls _ _ _ _ _) as [f m]. reflexivity.
Qed.

(** [Gamma12_box] and [MFP_box] change in a step only in the cell of the
    step, only when it passes the test with recombinations on and a
    neutral fraction above [FRACT_FLOAT_ERR]. *)
Lemma step_gamma_mfp (ct j : nat) (st : IonLoop) :
  (is_ionized consts (terms (il_box st) ct)
   && INHOMO_RECO flag_options
   && Qltb (FRACT_FLOAT_ERR mac) (xH_box (il_box st) ct)
   && Nat.eqb j ct = false) ->
  Gamma12_box (il_box (step ct st)) j = Gamma12_box (il_box st) j
  /\ MFP_box (il_box (step ct st)) j = MFP_box (il_box st) j.
Proof.
  unfold find_ionised_cell.
  destruct (is_ionized consts _).
  - destruct (INHOMO_RECO flag_options); cbn [andb].
    + destruct (Qltb (FRACT_FLOAT_ERR mac) _); cbn [andb]; intro Hj.
      * destruct (FIND_BUBBLE_ALGORITHM global_params =? 2)%Z,
          (FIND_BUBBLE_ALGORITHM global_params =? 1)%Z; cbn;
          unfold upd; rewrite Hj; auto.
      * destruct (FIND_BUBBLE_ALGORITHM global_params =? 2)%Z,
          (FIND_BUBBLE_ALGORITHM global_params =? 1)%Z; cbn; auto.
    + intros _.
      destruct (FIND_BUBBLE_ALGORITHM global_params =? 2)%Z,
        (FIND_BUBBLE_ALGORITHM global_params =? 1)%Z; cbn; auto.
  - intros _.
    destruct ((R_index rspec =? 0)%nat && _); [| auto].
    destruct (USE_HALO_FIELD flag_options).
    + cbn. auto.
    + destruct (draw_N_halos_in_cell _ _ _ _) as [N rng'].
      destruct (partial_fcolls _ _ _ _ _) as [f m]. cbn. auto.
Qed.

(** When they do change, they become the values of this radius. *)
Lemma step_gamma_mfp_set (ct : nat) (st : IonLoop) :
  is_ionized consts (terms (il_box st) ct) = true ->
  INHOMO_RECO flag_options = true ->
  Qltb (FRACT_FLOAT_ERR mac) (xH_box (il_box st) ct) = true ->
  MFP_box (il_box (step ct st)) ct = R rspec.
Proof.
  intros Hi Hr Hx. unfold find_ionised_cell. rewrite Hi, Hr, Hx. cbn [andb].
  destruct (FIND_BUBBLE_ALGORITHM global_params =? 2)%Z,
    (FIND_BUBBLE_ALGORITHM global_params =? 1)%Z; cbn; apply upd_same.
Qed.

(** A cell whose neutral fraction is [0] keeps it. *)
Lemma step_xH_zero (ct j : nat) (st : IonLoop) :
  0 <= TINY mac ->
  xH_box (il_box st) j = 0 -> xH_box (il_box (step ct st)) j = 0.
Proof.
  intros HT Hz. unfold find_ionised_cell.
  destruct (is_ionized consts _).
  - destruct (INHOMO_RECO flag_options && _),
      (FIND_BUBBLE_ALGORITHM global_params =? 2)%Z,
      (FIND_BUBBLE_ALGORITHM global_params =? 1)%Z; cbn;
      unfold update_in_sphere, upd;
      repeat match goal with |- context [if ?b then _ else _] => destruct b end;
      auto.
  - destruct (Nat.eqb_spec j ct) as [-> | Hne].
    + assert (Hg : Qltb (TINY mac) (xH_box (il_box st) ct) = false).
      { apply Qltb_ge. rewrite Hz. exact HT. }
      rewrite Hg, andb_false_r. exact Hz.
    + destruct ((R_index rspec =? 0)%nat && _); [| exact Hz].
      destruct (USE_HALO_FIELD flag_options).
      * cbn. rewrite upd_other by exact Hne. exact Hz.
      * destruct (draw_N_halos_in_cell _ _ _ _) as [N rng'].
        destruct (partial_fcolls _ _ _ _ _) as [f m]. cbn.
        rewrite upd_other by exact Hne. exact Hz.
Qed.

(** A cell that passes the test is flagged: by the centre algorithm, or by
    the sphere algorithm when the sphere holds its own centre. *)
Lemma step_flags_cell (ct : nat) (st : IonLoop) :
  is_ionized consts (terms (il_box st) ct) = true ->
  FIND_BUBBLE_ALGORITHM global_params = 2%Z
  \/ (FIND_BUBBLE_ALGORITHM global_params = 1%Z
      /\ forall Rb c, in_sphere E Rb c c = true) ->
  xH_box (il_box (step ct st)) ct = 0.
Proof.
  intros Hi Halg. unfold find_ionised_cell. rewrite Hi.
  destruct Halg as [H2 | [H1 Hc]].
  - rewrite H2. cbn.
    destruct (INHOMO_RECO flag_options && _); cbn; apply upd_same.
  - rewrite H1. cbn.
    destruct (INHOMO_RECO flag_options && _); cbn;
      unfold update_in_sphere; now rewrite Hc.
Qed.

(** C1 (as amended): a cell passes the ionisation test exactly when
    [f_coll*zeta + f_coll_MINI*zeta_MINI] is strictly above
    [(1 - x_HII)*(1 + N_rec)], where [x_HII] is the filtered [x_e] ([0]
    without spin-temperature coupling) and [N_rec] the recombinations per
    baryon ([0] without inhomogeneous recombinations).  Above the barrier the
    cell records its redshift of reionisation and is flagged (itself by the
    centre algorithm, every cell of its sphere by the sphere algorithm); at
    or below the barrier, equality included, nothing is recorded, and at a
    radius other than the last the step changes nothing at all. *)
Theorem ionised_iff_strictly_above_barrier (ct : nat) (st : IonLoop) :
  let t := terms (il_box st) ct in
  let lhs := curr_fcoll t * ion_eff_factor consts
             + curr_fcoll_mini t * ion_eff_factor_mini consts in
  let x_HII := if USE_TS_FLUCT flag_options then xe_filtered fg ct else 0 in
  let N_rec :=
    if INHOMO_RECO flag_options
    then (if CELL_RECOMB flag_options
          then dNrec_box previous_ionize_box ct
          else N_rec_filtered fg ct) / (1 + curr_dens t)
    else 0 in
  let rhs := (1 - x_HII) * (1 + N_rec) in
  (is_ionized consts t = true <-> rhs < lhs)
  /\ (rhs < lhs ->
      z_re_box (il_box (step ct st)) ct
      = z_re_mark previous_ionize_box consts ct
      /\ (FIND_BUBBLE_ALGORITHM global_params = 2%Z ->
          xH_box (il_box (step ct st)) ct = 0)
      /\ (FIND_BUBBLE_ALGORITHM global_params = 1%Z ->
          forall j, in_sphere E (R rspec / BOX_LEN user_params) ct j = true ->
                    xH_box (il_box (step ct st)) j = 0))
  /\ (lhs <= rhs ->
      z_re_box (il_box (step ct st)) = z_re_box (il_box st)
      /\ Gamma12_box (il_box (step ct st)) = Gamma12_box (il_box st)
      /\ MFP_box (il_box (step ct st)) = MFP_box (il_box st)
      /\ (R_index rspec <> O -> step ct st = st)).
Proof.
  intros t lhs x_HII N_rec rhs.
  assert (Hiff : is_ionized consts t = true <-> rhs < lhs).
  { unfold is_ionized. rewrite Qltb_lt. reflexivity. }
  split; [exact Hiff |]. split.
  - intro Hlt. apply Hiff in Hlt. fold t in Hlt.
    unfold find_ionised_cell. fold t. rewrite Hlt.
    repeat split.
    + destruct (INHOMO_RECO flag_options && _),
        (FIND_BUBBLE_ALGORITHM global_params =? 2)%Z,
        (FIND_BUBBLE_ALGORITHM global_params =? 1)%Z; cbn;
        unfold update_in_sphere; try apply upd_same; reflexivity.
    + intros ->. cbn.
      destruct (INHOMO_RECO flag_options && _); cbn; apply upd_same.
    + intros -> j Hj. cbn.
      destruct (INHOMO_RECO flag_options && _); cbn;
        unfold update_in_sphere; now rewrite Hj.
  - intro Hle.
    assert (Hf : is_ionized consts t = false).
    { destruct (is_ionized consts t); [| reflexivity].
      assert (rhs < lhs) by now apply Hiff. lra. }
    unfold find_ionised_cell. fold t. rewrite Hf.
    destruct (Nat.eqb_spec (R_index rspec) 0) as [H0 | H0]; cbn [andb].
    + destruct (Qltb (TINY mac) _).
      * destruct (USE_HALO_FIELD flag_options).
        -- cbn. repeat split; auto. intro H. now elim H.
        -- destruct (draw_N_halos_in_cell _ _ _ _) as [N rng'].
           destruct (partial_fcolls _ _ _ _ _) as [f m]. cbn.
           repeat split; auto. intro H. now elim H.
      * repeat split; auto.
    + repeat split; auto.
Qed.

(** C7 (as amended): in deterministic mode the halo count of the
    cell-scale partial ionisation is the constant [1], whatever [N_POISSON]
    is, and no generator state is used: a cell that is not ionised at the
    last radius gets the neutral fraction computed from the collapse
    fractions [partial_fcolls] at the count [1]. *)
Theorem no_rng_halo_count_is_one (rng : nat) (ct : nat) (st : IonLoop) :
  NO_RNG user_params = true ->
  draw_N_halos_in_cell E global_params user_params rng = (1%Z, rng)
  /\ (USE_HALO_FIELD flag_options = false ->
      is_ionized consts (terms (il_box st) ct) = false ->
      R_index rspec = O ->
      TINY mac < xH_box (il_box st) ct ->
      il_rng (step ct st) = il_rng st
      /\ let fm := partial_fcolls global_params flag_options consts
                                  (terms (il_box st) ct) 1 in
         let res_xH := 1 - fst fm * ion_eff_factor consts
                       - snd fm * ion_eff_factor_mini consts
                       - xHII_from_xrays (terms (il_box st) ct) in
         xH_box (il_box (step ct st)) ct
         = if Qltb res_xH 0 then 0 else if Qltb 1 res_xH then 1 else res_xH).
Proof.
  intro Hno.
  assert (Hd : forall g,
             draw_N_halos_in_cell E global_params user_params g = (1%Z, g)).
  { intro g. unfold draw_N_halos_in_cell. now rewrite Hno. }
  split; [apply Hd |].
  intros Hh Hi H0 Hx.
  unfold find_ionised_cell. rewrite Hi, H0, Hh, Hd.
  apply Qltb_lt in Hx. rewrite Hx. cbn [Nat.eqb andb].
  destruct (partial_fcolls _ _ _ _ _) as [f m]. cbn.
  split; [reflexivity | apply upd_same].
Qed.

(** *** The loop over the cells *)

Lemma cells_keep_fcoll (n : nat) (st : IonLoop) :
  Fcoll (il_box (for_cells n step st)) = Fcoll (il_box st)
  /\ Fcoll_MINI (il_box (for_cells n step st)) = Fcoll_MINI (il_box st)
  /\ mean_f_coll (il_box (for_cells n step st)) = mean_f_coll (il_box st)
  /\ mean_f_coll_MINI (il_box (for_cells n step st))
     = mean_f_coll_MINI (il_box st)
  /\ dNrec_box (il_box (for_cells n step st)) = dNrec_box (il_box st).
Proof.
  induction n as [| n IH]; [cbn; auto |].
  rewrite for_cells_S.
  destruct (step_keeps_fcoll n (for_cells n step st)) as (A & B & C & D & F).
  destruct IH as (A' & B' & C' & D' & F').
  repeat split; congruence.
Qed.

Lemma cells_terms (n : nat) (st : IonLoop) (ct : nat) :
  terms (il_box (for_cells n step st)) ct = terms (il_box st) ct.
Proof.
  destruct (cells_keep_fcoll n st) as (A & B & _).
  now apply cell_terms_ext.
Qed.

(** After the loop, [z_re_box] holds the mark in exactly the cells of the
    lattice that pass the test. *)
Lemma cells_z_re (n : nat) (st : IonLoop) (j : nat) :
  z_re_box (il_box (for_cells n step st)) j
  = if (j <? n)%nat && is_ionized consts (terms (il_box st) j)
    then z_re_mark previous_ionize_box consts j
    else z_re_box (il_box st) j.
Proof.
  induction n as [| n IH]; [reflexivity |].
  rewrite for_cells_S, step_z_re, cells_terms, IH.
  destruct (Nat.eqb_spec j n) as [-> | Hne].
  - assert (H1 : (n <? Datatypes.S n)%nat = true) by (apply Nat.ltb_lt; lia).
    assert (H2 : (n <? n)%nat = false) by (apply Nat.ltb_ge; lia).
    rewrite H1, H2, andb_true_r. cbn [andb].
    destruct (is_ionized consts _); reflexivity.
  - rewrite andb_false_r.
    assert (H : (j <? Datatypes.S n)%nat = (j <? n)%nat).
    { destruct (Nat.ltb_spec j n), (Nat.ltb_spec j (Datatypes.S n));
        try reflexivity; lia. }
    now rewrite H.
Qed.

Lemma cells_xH_zero (n : nat) (st : IonLoop) (j : nat) :
  0 <= TINY mac ->
  xH_box (il_box st) j = 0 -> xH_box (il_box (for_cells n step st)) j = 0.
Proof.
  intros HT Hz.
  apply (for_cells_inv (fun s => xH_box (il_box s) j = 0)); [exact Hz |].
  intros ct s _ Hs. now apply step_xH_zero.
Qed.

(** A cell that is already flagged keeps its [Gamma12] and [MFP]. *)
Lemma cells_gamma_mfp_flagged (n : nat) (st : IonLoop) (j : nat) :
  0 <= FRACT_FLOAT_ERR mac -> 0 <= TINY mac ->
  xH_box (il_box st) j = 0 ->
  Gamma12_box (il_box (for_cells n step st)) j = Gamma12_box (il_box st) j
  /\ MFP_box (il_box (for_cells n step st)) j = MFP_box (il_box st) j.
Proof.
  intros HF HT Hz.
  induction n as [| n IH]; [auto |].
  rewrite for_cells_S.
  destruct (step_gamma_mfp n j (for_cells n step st)) as [A B].
  - destruct (Nat.eqb_spec j n) as [-> | Hne]; [| apply andb_false_r].
    rewrite (cells_xH_zero n st n HT Hz).
    assert (Hg : Qltb (FRACT_FLOAT_ERR mac) 0 = false)
      by (apply Qltb_ge; exact HF).
    rewrite Hg. rewrite andb_false_r. reflexivity.
  - destruct IH as [A' B']. split; congruence.
Qed.

(** A cell that does not pass the test keeps its [Gamma12] and [MFP]. *)
Lemma cells_gamma_mfp_not_crossing (n : nat) (st : IonLoop) (j : nat) :
  (j <? n)%nat && is_ionized consts (terms (il_box st) j) = false ->
  Gamma12_box (il_box (for_cells n step st)) j = Gamma12_box (il_box st) j
  /\ MFP_box (il_box (for_cells n step st)) j = MFP_box (il_box st) j.
Proof.
  induction n as [| n IH]; intro Hn; [auto |].
  rewrite for_cells_S.
  destruct (Nat.eqb_spec j n) as [-> | Hne].
  - assert (H1 : (n <? Datatypes.S n)%nat = true) by (apply Nat.ltb_lt; lia).
    rewrite H1 in Hn. cbn [andb] in Hn.
    destruct (step_gamma_mfp n n (for_cells n step st)) as [A B].
    { rewrite cells_terms, Hn. reflexivity. }
    destruct IH as [A' B'].
    { assert (H2 : (n <? n)%nat = false) by (apply Nat.ltb_ge; lia).
      now rewrite H2. }
    split; congruence.
  - destruct (step_gamma_mfp n j (for_cells n step st)) as [A B].
    { apply Nat.eqb_neq in Hne. rewrite Hne. apply andb_false_r. }
    destruct IH as [A' B'].
    { assert (H : (j <? Datatypes.S n)%nat = (j <? n)%nat).
      { destruct (Nat.ltb_spec j n), (Nat.ltb_spec j (Datatypes.S n));
          try reflexivity; lia. }
      now rewrite <- H. }
    split; congruence.
Qed.

(** A cell of the lattice that passes the test leaves the loop flagged. *)
Lemma cells_flag (n : nat) (st : IonLoop) (j : nat) :
  0 <= TINY mac ->
  FIND_BUBBLE_ALGORITHM global_params = 2%Z
  \/ (FIND_BUBBLE_ALGORITHM global_params = 1%Z
      /\ forall Rb c, in_sphere E Rb c c = true) ->
  (j < n)%nat ->
  is_ionized consts (terms (il_box st) j) = true ->
  xH_box (il_box (for_cells n step st)) j = 0.
Proof.
  intros HT Halg.
  induction n as [| n IH]; intros Hlt Hi; [lia |].
  rewrite for_cells_S.
  destruct (Nat.eq_dec j n) as [-> | Hne].
  - apply step_flags_cell; [| exact Halg]. now rewrite cells_terms.
  - apply step_xH_zero; [exact HT |]. apply IH; [lia | exact Hi].
Qed.

End CellStep.

(** *** [calculate_fcoll_grid] and the iterations of the radius loop *)

Section RadiusLoop.

Variable copy_filter_transform : RadiusSpec -> FilteredGrids.
Variable ind : Indeterminate.
Variable previous_ionize_box : IonizedBox.
Variable perturbed_field : PerturbedField.
Variable spin_temp : TsBox.
Variable consts : IonBoxConstants.
Variables f_limit_acg f_limit_mcg : Q.

Local Abbreviation fcoll_cell :=
  (calculate_fcoll_cell E mac user_params flag_options ind
     previous_ionize_box consts).

Local Abbreviation inputs :=
  (radius_inputs E mac user_params flag_options copy_filter_transform ind
     previous_ionize_box consts f_limit_acg f_limit_mcg).

Local Abbreviation Rstep :=
  (R_step E mac global_params user_params cosmo_params flag_options
     copy_filter_transform ind previous_ionize_box perturbed_field spin_temp
     consts f_limit_acg f_limit_mcg).

Local Abbreviation Rloop :=
  (R_loop E mac global_params user_params cosmo_params flag_options
     copy_filter_transform ind previous_ionize_box perturbed_field spin_temp
     consts f_limit_acg f_limit_mcg).

Local Abbreviation executed := (executed_radii E consts).

Local Abbreviation crossing :=
  (crosses E mac user_params cosmo_params flag_options copy_filter_transform
     ind previous_ionize_box perturbed_field consts f_limit_acg f_limit_mcg).

Lemma fcoll_cell_same_cells (rspec : RadiusSpec) (ct : nat) (st : FcollLoop) :
  same_cells (fl_box (fcoll_cell rspec ct st)) (fl_box st).
Proof.
  unfold calculate_fcoll_cell, same_cells. cbv zeta.
  destruct (USE_MINI_HALOS flag_options && negb (USE_HALO_FIELD flag_options));
    cbn; repeat split; reflexivity.
Qed.

Lemma inputs_same_cells (r : RadiusSpec) (box : IonizedBox) :
  same_cells (fst (fst (inputs r box))) box.
Proof.
  unfold radius_inputs, calculate_fcoll_grid. cbn [fst snd].
  apply (for_cells_inv (fun s => same_cells (fl_box s) box)).
  - unfold same_cells. cbn. repeat split; reflexivity.
  - intros ct s _ Hs.
    destruct (fcoll_cell_same_cells r ct s) as (A & B & C & D & F & G).
    destruct Hs as (A' & B' & C' & D' & F' & G').
    unfold same_cells. repeat split; congruence.
Qed.

(** An iteration is the cell loop of [find_ionised_regions], entered with
    a box that has the cells of the box before the iteration, and whose test
    is [crosses]. *)
Lemma Rstep_cells (r : RadiusSpec) (st : IonLoop) :
  exists (box0 : IonizedBox) (fg2 : FilteredGrids) (rspec2 : RadiusSpec)
         (mfa mfm : Q),
    Rstep r st
    = for_cells npix
        (find_ionised_cell E mac global_params user_params cosmo_params
           flag_options previous_ionize_box perturbed_field spin_temp rspec2
           consts fg2 f_limit_acg f_limit_mcg mfa mfm)
        (mkIonLoop box0 (il_rng st))
    /\ xH_box box0 = xH_box (il_box st)
    /\ z_re_box box0 = z_re_box (il_box st)
    /\ Gamma12_box box0 = Gamma12_box (il_box st)
    /\ MFP_box box0 = MFP_box (il_box st)
    /\ R rspec2 = R r
    /\ forall j,
         crossing r (il_box st) j
         = is_ionized consts
             (cell_terms mac user_params cosmo_params flag_options box0
                previous_ionize_box perturbed_field rspec2 consts fg2
                f_limit_acg f_limit_mcg mfa mfm j).
Proof.
  unfold R_step, crosses.
  pose proof (inputs_same_cells r (il_box st)) as Hs.
  assert (HR : R (snd (inputs r (il_box st))) = R r).
  { unfold radius_inputs, calculate_fcoll_grid, floor_grid_means. cbn [fst snd].
    destruct (USE_MASS_DEPENDENT_ZETA flag_options); reflexivity. }
  destruct (inputs r (il_box st)) as [[box1 fg2] rspec2].
  cbn [fst snd] in Hs, HR. destruct Hs as (A & B & C & D & _).
  unfold find_ionised_regions.
  eexists _, fg2, rspec2, _, _. split; [reflexivity |].
  destruct (fix_mean consts); cbn; repeat split; auto.
Qed.

(** [z_re_box] after an iteration. *)
Lemma Rstep_z_re (r : RadiusSpec) (st : IonLoop) (j : nat) :
  z_re_box (il_box (Rstep r st)) j
  = if (j <? npix)%nat && crossing r (il_box st) j
    then z_re_mark previous_ionize_box consts j
    else z_re_box (il_box st) j.
Proof.
  destruct (Rstep_cells r st)
    as (box0 & fg2 & rspec2 & mfa & mfm & -> & _ & B & _ & _ & _ & Hc).
  rewrite cells_z_re. cbn [il_box]. now rewrite Hc, B.
Qed.

(** A flagged cell goes through an iteration unchanged. *)
Lemma Rstep_flagged (r : RadiusSpec) (st : IonLoop) (j : nat) :
  0 <= FRACT_FLOAT_ERR mac -> 0 <= TINY mac ->
  xH_box (il_box st) j = 0 ->
  xH_box (il_box (Rstep r st)) j = 0
  /\ Gamma12_box (il_box (Rstep r st)) j = Gamma12_box (il_box st) j
  /\ MFP_box (il_box (Rstep r st)) j = MFP_box (il_box st) j.
Proof.
  intros HF HT Hz.
  destruct (Rstep_cells r st)
    as (box0 & fg2 & rspec2 & mfa & mfm & -> & A & _ & C & D & _ & _).
  assert (Hz0 : xH_box (il_box (mkIonLoop box0 (il_rng st))) j = 0)
    by (cbn; now rewrite A).
  split; [now apply cells_xH_zero |].
  rewrite <- C, <- D. now apply cells_gamma_mfp_flagged.
Qed.

(** A cell that does not cross keeps its [Gamma12] and [MFP]. *)
Lemma Rstep_not_crossing (r : RadiusSpec) (st : IonLoop) (j : nat) :
  (j <? npix)%nat && crossing r (il_box st) j = false ->
  Gamma12_box (il_box (Rstep r st)) j = Gamma12_box (il_box st) j
  /\ MFP_box (il_box (Rstep r st)) j = MFP_box (il_box st) j.
Proof.
  intro Hn.
  destruct (Rstep_cells r st)
    as (box0 & fg2 & rspec2 & mfa & mfm & -> & _ & _ & C & D & _ & Hc).
  rewrite <- C, <- D. apply cells_gamma_mfp_not_crossing.
  cbn [il_box]. now rewrite <- Hc.
Qed.

(** A cell of the lattice that crosses leaves the iteration flagged. *)
Lemma Rstep_flags (r : RadiusSpec) (st : IonLoop) (j : nat) :
  0 <= TINY mac ->
  FIND_BUBBLE_ALGORITHM global_params = 2%Z
  \/ (FIND_BUBBLE_ALGORITHM global_params = 1%Z
      /\ forall Rb c, in_sphere E Rb c c = true) ->
  (j < npix)%nat -> crossing r (il_box st) j = true ->
  xH_box (il_box (Rstep r st)) j = 0.
Proof.
  intros HT Halg Hlt Hcr.
  destruct (Rstep_cells r st)
    as (box0 & fg2 & rspec2 & mfa & mfm & -> & _ & _ & _ & _ & _ & Hc).
  apply cells_flag; auto. cbn [il_box]. now rewrite <- Hc.
Qed.

(** The loop with its [break] is the fold of the iterations over the
    executed radii. *)
Lemma Rloop_executed (rs : list RadiusSpec) (st : IonLoop) :
  Rloop rs st = fold_left (fun s r => Rstep r s) (executed rs) st.
Proof.
  revert st. induction rs as [| r rs IH]; intro st; [reflexivity |].
  cbn. destruct (Qltb (RtoM E (R r)) (M_min consts)); [reflexivity |].
  cbn. apply IH.
Qed.

(** *** The collapse-fraction grid of a radius *)

Lemma clip_Splined_range (f : Q) : 0 <= clip_Splined f /\ clip_Splined f <= 1.
Proof.
  unfold clip_Splined.
  destruct (Qltb 1 f) eqn:H1.
  - assert (H : Qltb 1 0 = false) by (apply Qltb_ge; lra).
    rewrite H. lra.
  - apply Qltb_ge in H1.
    destruct (Qltb f 0) eqn:H0.
    + split; unfold Qle; vm_compute; discriminate.
    + apply Qltb_ge in H0. lra.
Qed.

(** The trapezoidal update with its upper clamp. *)
Lemma trapezoid_bounds (p a b : Q) :
  0 <= a <= 1 -> 0 <= b <= 1 ->
  (if Qltb 1 (p + a - b) then 1 else p + a - b) <= 1
  /\ Qmin 1 (p - 1) <= (if Qltb 1 (p + a - b) then 1 else p + a - b).
Proof.
  intros Ha Hb.
  destruct (Qltb 1 (p + a - b)) eqn:H1.
  - split; [lra | apply Q.le_min_l].
  - apply Qltb_ge in H1. split; [exact H1 |].
    apply Qle_trans with (p - 1); [apply Q.le_min_r | lra].
Qed.

(** What one cell of [calculate_fcoll_grid] does to the collapse-fraction
    buffers and to the two accumulators. *)
Lemma fcoll_cell_effect (rspec : RadiusSpec) (ct : nat) (st : FcollLoop) :
  let idx :=
    ((if USE_MINI_HALOS flag_options then R_index rspec else O) * npix + ct)%nat
  in
  let st' := fcoll_cell rspec ct st in
  exists v vm : Q,
    Fcoll (fl_box st') = upd (Fcoll (fl_box st)) idx v
    /\ fl_f_coll_total st' = fl_f_coll_total st + v
    /\ (USE_MINI_HALOS flag_options && negb (USE_HALO_FIELD flag_options)
        = true ->
        Fcoll_MINI (fl_box st') = upd (Fcoll_MINI (fl_box st)) idx vm
        /\ fl_f_coll_MINI_total st' = fl_f_coll_MINI_total st + vm
        /\ v <= 1 /\ Qmin 1 (Fcoll previous_ionize_box idx - 1) <= v
        /\ vm <= 1 /\ Qmin 1 (Fcoll_MINI previous_ionize_box idx - 1) <= vm)
    /\ (USE_MINI_HALOS flag_options && negb (USE_HALO_FIELD flag_options)
        = false ->
        Fcoll_MINI (fl_box st') = Fcoll_MINI (fl_box st)
        /\ fl_f_coll_MINI_total st' = fl_f_coll_MINI_total st).
Proof.
  unfold calculate_fcoll_cell. cbv zeta.
  destruct (USE_MINI_HALOS flag_options && negb (USE_HALO_FIELD flag_options)).
  - eexists _, _.
    cbn [fl_box fl_f_coll_total fl_f_coll_MINI_total Fcoll Fcoll_MINI
         set_Fcoll set_Fcoll_MINI].
    split; [reflexivity |]. split; [reflexivity |].
    split; [| discriminate]. intros _.
    split; [reflexivity |]. split; [reflexivity |].
    match goal with
    | |- (if Qltb 1 (?p + clip_Splined ?a - clip_Splined ?b) then _ else _) <= 1
         /\ _ /\ (if Qltb 1 (?q + clip_Splined ?c - clip_Splined ?d)
                   then _ else _) <= 1 /\ _ =>
        destruct (trapezoid_bounds p (clip_Splined a) (clip_Splined b)
                    (clip_Splined_range a) (clip_Splined_range b));
        destruct (trapezoid_bounds q (clip_Splined c) (clip_Splined d)
                    (clip_Splined_range c) (clip_Splined_range d))
    end.
    auto.
  - eexists _, 0.
    cbn [fl_box fl_f_coll_total fl_f_coll_MINI_total Fcoll Fcoll_MINI
         set_Fcoll set_Fcoll_MINI].
    repeat split; try reflexivity; discriminate.
Qed.

Lemma sum_cells_ext (n : nat) (g h : grid) :
  (forall c, (c < n)%nat -> g c = h c) -> sum_cells n g = sum_cells n h.
Proof.
  induction n as [| n IH]; intro H; [reflexivity |].
  cbn. rewrite (H n) by lia. rewrite IH; [reflexivity |].
  intros c Hc. apply H. lia.
Qed.

(** After the cell loop, the first accumulator holds its initial value plus
    the sum of the fractions stored for this radius. *)
Lemma fcoll_loop_total (rspec : RadiusSpec) (n : nat) (st0 : FcollLoop) :
  let base :=
    ((if USE_MINI_HALOS flag_options then R_index rspec else O) * npix)%nat in
  let st := for_cells n (fcoll_cell rspec) st0 in
  fl_f_coll_total st
  == fl_f_coll_total st0
     + sum_cells n (fun c => Fcoll (fl_box st) (base + c)%nat).
Proof.
  cbv zeta. induction n as [| n IH].
  - cbn. lra.
  - rewrite for_cells_S.
    destruct (fcoll_cell_effect rspec n (for_cells n (fcoll_cell rspec) st0))
      as (v & vm & Hf & Ht & _).
    cbv zeta in Hf, Ht. rewrite Ht, Hf, IH. cbn [sum_cells].
    rewrite upd_same.
    rewrite (sum_cells_ext n
               (fun c => upd (Fcoll (fl_box (for_cells n (fcoll_cell rspec) st0)))
                             ((if USE_MINI_HALOS flag_options
                               then R_index rspec else O) * npix + n)%nat v
                             ((if USE_MINI_HALOS flag_options
                               then R_index rspec else O) * npix + c)%nat)
               (fun c => Fcoll (fl_box (for_cells n (fcoll_cell rspec) st0))
                               ((if USE_MINI_HALOS flag_options
                                 then R_index rspec else O) * npix + c)%nat)).
    + lra.
    + intros c Hc. apply upd_other. lia.
Qed.

(** Without the trapezoidal branch the second accumulator is never
    written, and neither is [Fcoll_MINI]. *)
Lemma fcoll_loop_mini_untouched (rspec : RadiusSpec) (n : nat)
      (st0 : FcollLoop) :
  USE_MINI_HALOS flag_options && negb (USE_HALO_FIELD flag_options) = false ->
  fl_f_coll_MINI_total (for_cells n (fcoll_cell rspec) st0)
  = fl_f_coll_MINI_total st0
  /\ Fcoll_MINI (fl_box (for_cells n (fcoll_cell rspec) st0))
     = Fcoll_MINI (fl_box st0).
Proof.
  intro Hm. induction n as [| n IH]; [auto |].
  rewrite for_cells_S.
  destruct (fcoll_cell_effect rspec n (for_cells n (fcoll_cell rspec) st0))
    as (v & vm & _ & _ & _ & Hn).
  destruct (Hn Hm) as [A B]. destruct IH as [A' B'].
  split; congruence.
Qed.

(** With the trapezoidal branch, every fraction stored for this radius is
    at most [1] and at least [min(1, previous - 1)]. *)
Lemma fcoll_loop_bounds (rspec : RadiusSpec) (n : nat) (st0 : FcollLoop)
      (c : nat) :
  USE_MINI_HALOS flag_options && negb (USE_HALO_FIELD flag_options) = true ->
  (c < n)%nat ->
  let idx :=
    ((if USE_MINI_HALOS flag_options then R_index rspec else O) * npix + c)%nat
  in
  let b := fl_box (for_cells n (fcoll_cell rspec) st0) in
  (Fcoll b idx <= 1 /\ Qmin 1 (Fcoll previous_ionize_box idx - 1) <= Fcoll b idx)
  /\ (Fcoll_MINI b idx <= 1
      /\ Qmin 1 (Fcoll_MINI previous_ionize_box idx - 1) <= Fcoll_MINI b idx).
Proof.
  intro Hm. cbv zeta.
  induction n as [| n IH]; intro Hc; [lia |].
  rewrite for_cells_S.
  destruct (fcoll_cell_effect rspec n (for_cells n (fcoll_cell rspec) st0))
    as (v & vm & Hf & _ & Hy & _).
  cbv zeta in Hf, Hy.
  destruct (Hy Hm) as (Hfm & _ & B1 & B2 & B3 & B4).
  rewrite Hf, Hfm.
  destruct (Nat.eq_dec c n) as [-> | Hne].
  - rewrite !upd_same. auto.
  - rewrite !upd_other by lia. apply IH. lia.
Qed.

(** C6 (as amended): with mini-halos and without the halo field, the
    collapse fractions stored for a radius after the trapezoidal update are
    at most [1]; below, only the two interpolated terms are clamped (each to
    [[0,1]] before the update), so a stored fraction is at least
    [min(1, previous - 1)] and no floor [1e-40] is applied to it. *)
Theorem trapezoidal_fcoll_bounded_above_only
        (box : IonizedBox) (fg : FilteredGrids) (rspec : RadiusSpec) (c : nat) :
  USE_MINI_HALOS flag_options = true ->
  USE_HALO_FIELD flag_options = false ->
  (c < npix)%nat ->
  let box' :=
    fst (fst (calculate_fcoll_grid E mac user_params flag_options ind box
                previous_ionize_box fg consts rspec)) in
  let idx := (R_index rspec * npix + c)%nat in
  Fcoll box' idx <= 1
  /\ Fcoll_MINI box' idx <= 1
  /\ Qmin 1 (Fcoll previous_ionize_box idx - 1) <= Fcoll box' idx
  /\ Qmin 1 (Fcoll_MINI previous_ionize_box idx - 1) <= Fcoll_MINI box' idx.
Proof.
  intros Hm Hh Hc. cbv zeta. unfold calculate_fcoll_grid. cbn [fst].
  assert (Hmode : USE_MINI_HALOS flag_options
                  && negb (USE_HALO_FIELD flag_options) = true)
    by now rewrite Hm, Hh.
  pose proof (fcoll_loop_bounds rspec npix
                (mkFcollLoop box fg (f_coll_total_0 ind (R_index rspec))
                             (f_coll_MINI_total_0 ind (R_index rspec)))
                c Hmode Hc) as H.
  cbv zeta in H. rewrite Hm in H. tauto.
Qed.

(** *** The loop over the radii *)

Local Abbreviation state :=
  (state_after E mac global_params user_params cosmo_params flag_options
     copy_filter_transform ind previous_ionize_box perturbed_field spin_temp
     consts f_limit_acg f_limit_mcg).

Lemma firstn_snoc {A : Type} (l : list A) (i : nat) (x : A) :
  nth_error l i = Some x -> firstn (S i) l = firstn i l ++ [x].
Proof.
  revert i. induction l as [| a l IH]; intros [| i] H; try discriminate.
  - cbn in H. injection H as ->. reflexivity.
  - cbn in H.
    change (a :: firstn (S i) l = a :: (firstn i l ++ [x])).
    f_equal. now apply IH.
Qed.

Lemma firstn_le_app {A : Type} (l : list A) (i k : nat) :
  (i <= k)%nat -> exists l', firstn k l = firstn i l ++ l'.
Proof.
  revert i k. induction l as [| a l IH]; intros i k Hle.
  - exists []. now rewrite !firstn_nil.
  - destruct i as [| i].
    + exists (firstn k (a :: l)). reflexivity.
    + destruct k as [| k]; [lia |].
      destruct (IH i k ltac:(lia)) as [l' Hl'].
      exists l'.
      change (a :: firstn k l = a :: (firstn i l ++ l')).
      now rewrite Hl'.
Qed.

Lemma state_step (rs : list RadiusSpec) (st0 : IonLoop) (i : nat)
      (r : RadiusSpec) :
  nth_error (executed rs) i = Some r ->
  state rs st0 (S i) = Rstep r (state rs st0 i).
Proof.
  intro H. unfold state_after. rewrite (firstn_snoc _ _ _ H).
  now rewrite fold_left_app.
Qed.

Lemma state_final (rs : list RadiusSpec) (st0 : IonLoop) :
  Rloop rs st0 = state rs st0 (length (executed rs)).
Proof.
  unfold state_after. rewrite firstn_all. apply Rloop_executed.
Qed.

(** A flagged cell goes through any further iterations unchanged. *)
Lemma run_flagged (l : list RadiusSpec) (st : IonLoop) (j : nat) :
  0 <= FRACT_FLOAT_ERR mac -> 0 <= TINY mac ->
  xH_box (il_box st) j = 0 ->
  xH_box (il_box (fold_left (fun s r => Rstep r s) l st)) j = 0
  /\ Gamma12_box (il_box (fold_left (fun s r => Rstep r s) l st)) j
     = Gamma12_box (il_box st) j
  /\ MFP_box (il_box (fold_left (fun s r => Rstep r s) l st)) j
     = MFP_box (il_box st) j.
Proof.
  intros HF HT. revert st.
  induction l as [| r l IH]; intros st Hz; [cbn; auto |].
  cbn [fold_left].
  destruct (Rstep_flagged r st j HF HT Hz) as (A & B & C).
  destruct (IH (Rstep r st) A) as (A' & B' & C').
  repeat split; congruence.
Qed.

Lemma state_flagged (rs : list RadiusSpec) (st0 : IonLoop) (i k j : nat) :
  0 <= FRACT_FLOAT_ERR mac -> 0 <= TINY mac -> (i <= k)%nat ->
  xH_box (il_box (state rs st0 i)) j = 0 ->
  xH_box (il_box (state rs st0 k)) j = 0
  /\ Gamma12_box (il_box (state rs st0 k)) j
     = Gamma12_box (il_box (state rs st0 i)) j
  /\ MFP_box (il_box (state rs st0 k)) j
     = MFP_box (il_box (state rs st0 i)) j.
Proof.
  intros HF HT Hle Hz.
  destruct (firstn_le_app (executed rs) i k Hle) as [l' Hl'].
  unfold state_after in *. rewrite Hl', fold_left_app.
  now apply run_flagged.
Qed.

(** The mark of an ionised cell is not [-1]. *)
Lemma z_re_mark_set (ct : nat) :
  0 <= redshift consts -> ~ z_re_mark previous_ionize_box consts ct == - (1).
Proof.
  intro Hz. unfold z_re_mark.
  destruct (Qltb (z_re_box previous_ionize_box ct) 0) eqn:Hb.
  - lra.
  - apply Qltb_ge in Hb. lra.
Qed.

(** [z_re_box] of a cell is [-1] after some iterations exactly when it was
    before and the cell crossed in none of them. *)
Lemma run_z_re (l : list RadiusSpec) (st : IonLoop) (c : nat) :
  (c < npix)%nat -> 0 <= redshift consts ->
  (z_re_box (il_box (fold_left (fun s r => Rstep r s) l st)) c == - (1)
   <-> z_re_box (il_box st) c == - (1)
       /\ forall i r, nth_error l i = Some r ->
            crossing r (il_box (fold_left (fun s r => Rstep r s)
                                          (firstn i l) st)) c = false).
Proof.
  intros Hc Hz. revert st.
  induction l as [| r l IH]; intro st.
  - cbn. split; [intro H0; split; [exact H0 |] | tauto].
    intros [| i] r' Hn; discriminate.
  - cbn [fold_left]. rewrite IH. rewrite Rstep_z_re.
    assert (Hlt : (c <? npix)%nat = true) by now apply Nat.ltb_lt.
    rewrite Hlt. cbn [andb].
    split.
    + intros [H0 Hrest].
      destruct (crossing r (il_box st) c) eqn:Hcr.
      * exfalso. now apply (z_re_mark_set c Hz).
      * split; [exact H0 |].
        intros [| i] r' Hn.
        -- cbn in Hn. injection Hn as <-. exact Hcr.
        -- cbn in Hn. cbn [firstn fold_left]. now apply Hrest.
    + intros [H0 Hall].
      assert (Hcr : crossing r (il_box st) c = false)
        by (apply (Hall O r); reflexivity).
      rewrite Hcr. split; [exact H0 |].
      intros i r' Hn. apply (Hall (S i) r'). exact Hn.
Qed.

Lemma run_z_re_value (l : list RadiusSpec) (st : IonLoop) (c : nat) :
  z_re_box (il_box (fold_left (fun s r => Rstep r s) l st)) c
  = z_re_box (il_box st) c
  \/ z_re_box (il_box (fold_left (fun s r => Rstep r s) l st)) c
     = z_re_mark previous_ionize_box consts c.
Proof.
  revert st. induction l as [| r l IH]; intro st; [now left |].
  cbn [fold_left]. destruct (IH (Rstep r st)) as [H | H]; [| now right].
  rewrite H, Rstep_z_re.
  destruct ((c <? npix)%nat && crossing r (il_box st) c); auto.
Qed.

(** C2: [Gamma12_box] and [MFP_box] of a cell are assigned only in the
    iteration of the first (largest) radius at which the cell crosses the
    ionisation barrier, and not overwritten at a smaller radius of the same
    snapshot.  With [state rs st0 n] the state of the radius loop after [n]
    executed iterations: the loop ends in the last of these states; if the
    iteration of the [i]-th executed radius [r] changes [Gamma12] or [MFP]
    of cell [c], then [c] crosses at [r] and crossed at no earlier radius;
    and once the neutral fraction of [c] is [0], every later state has the
    same [Gamma12] and [MFP] for [c] and the neutral fraction stays [0]. *)
Theorem gamma_mfp_assigned_at_first_crossing
        (rs : list RadiusSpec) (st0 : IonLoop) (c i k : nat) (r : RadiusSpec) :
  0 <= FRACT_FLOAT_ERR mac -> 0 <= TINY mac ->
  FIND_BUBBLE_ALGORITHM global_params = 2%Z
  \/ (FIND_BUBBLE_ALGORITHM global_params = 1%Z
      /\ forall Rb ct, in_sphere E Rb ct ct = true) ->
  nth_error (executed rs) i = Some r -> (i <= k)%nat ->
  Rloop rs st0 = state rs st0 (length (executed rs))
  /\ (Gamma12_box (il_box (state rs st0 (S i))) c
        <> Gamma12_box (il_box (state rs st0 i)) c
      \/ MFP_box (il_box (state rs st0 (S i))) c
         <> MFP_box (il_box (state rs st0 i)) c ->
      crossing r (il_box (state rs st0 i)) c = true
      /\ forall j r', (j < i)%nat -> nth_error (executed rs) j = Some r' ->
           crossing r' (il_box (state rs st0 j)) c = false)
  /\ (xH_box (il_box (state rs st0 i)) c = 0 ->
      Gamma12_box (il_box (state rs st0 k)) c
      = Gamma12_box (il_box (state rs st0 i)) c
      /\ MFP_box (il_box (state rs st0 k)) c
         = MFP_box (il_box (state rs st0 i)) c
      /\ xH_box (il_box (state rs st0 k)) c = 0).
Proof.
  intros HF HT Halg Hnth Hle.
  split; [apply state_final |]. split.
  - intro Hchg. rewrite (state_step rs st0 i r Hnth) in Hchg.
    (* the iteration changes the cell only if it is in the lattice and crosses *)
    assert (Hin : (c <? npix)%nat && crossing r (il_box (state rs st0 i)) c
                  = true).
    { destruct ((c <? npix)%nat && crossing r (il_box (state rs st0 i)) c)
        eqn:Hb; [reflexivity |].
      destruct (Rstep_not_crossing r (state rs st0 i) c Hb) as [A B].
      destruct Hchg as [Hg | Hm]; [now elim Hg | now elim Hm]. }
    apply andb_true_iff in Hin. destruct Hin as [Hlt Hcr].
    apply Nat.ltb_lt in Hlt.
    split; [exact Hcr |].
    intros j r' Hji Hj.
    destruct (crossing r' (il_box (state rs st0 j)) c) eqn:Hcj; [| reflexivity].
    exfalso.
    (* an earlier crossing flags the cell, and a flagged cell is not written *)
    assert (Hz : xH_box (il_box (state rs st0 (S j))) c = 0).
    { rewrite (state_step rs st0 j r' Hj). now apply Rstep_flags. }
    destruct (state_flagged rs st0 (S j) i c HF HT ltac:(lia) Hz) as (Hzi & _).
    destruct (Rstep_flagged r (state rs st0 i) c HF HT Hzi) as (_ & A & B).
    destruct Hchg as [Hg | Hm]; [now elim Hg | now elim Hm].
  - intro Hz.
    destruct (state_flagged rs st0 i k c HF HT Hle Hz) as (A & B & C).
    auto.
Qed.

(** Without the mean adjustment an iteration leaves the grid means of its
    radius in the box. *)
Lemma Rstep_means (r : RadiusSpec) (st : IonLoop) :
  fix_mean consts = false ->
  mean_f_coll (il_box (Rstep r st))
  = f_coll_grid_mean (snd (inputs r (il_box st)))
  /\ mean_f_coll_MINI (il_box (Rstep r st))
     = f_coll_grid_mean_MINI (snd (inputs r (il_box st))).
Proof.
  intro Hfix. unfold R_step.
  destruct (inputs r (il_box st)) as [[box1 fg2] rspec2]. cbn [snd].
  unfold find_ionised_regions. rewrite Hfix.
  match goal with
  | |- context [for_cells ?n ?body ?s0] =>
      destruct (cells_keep_fcoll previous_ionize_box perturbed_field spin_temp
                  rspec2 consts fg2 f_limit_acg f_limit_mcg
                  (mean_fix_term_acg box1 rspec2 consts)
                  (mean_fix_term_mcg box1 rspec2 consts) n s0)
        as (_ & _ & C & D & _)
  end.
  rewrite C, D. cbn. auto.
Qed.

Lemma raise_to_eq (limit x y : Q) :
  x == y ->
  (y <= limit -> raise_to limit x = limit)
  /\ (limit < y -> raise_to limit x == y).
Proof.
  intro Hxy. unfold raise_to.
  destruct (Qle_bool x limit) eqn:Hb.
  - apply Qle_bool_iff in Hb. split; [reflexivity | intro; lra].
  - assert (Hn : ~ x <= limit).
    { intro Hle. apply Qle_bool_iff in Hle. congruence. }
    split; [intro; lra | intro; exact Hxy].
Qed.

(** The grid means that the last executed radius [r] leaves in the box:
    each is the sum of [calculate_fcoll_grid] over the pixel count, the sum
    being the starting value of the accumulator plus the fractions stored
    for [r]. *)
Lemma last_radius_grid_means
        (rs pre : list RadiusSpec) (r : RadiusSpec) (st0 : IonLoop) :
  fix_mean consts = false ->
  executed rs = pre ++ [r] ->
  let st := fold_left (fun s x => Rstep x s) pre st0 in
  let box1 := fst (fst (inputs r (il_box st))) in
  let base :=
    ((if USE_MINI_HALOS flag_options then R_index r else O) * npix)%nat in
  let grid_mean :=
    (f_coll_total_0 ind (R_index r)
     + sum_cells npix (fun c => Fcoll box1 (base + c)%nat)) / Qnat npix in
  let limit :=
    if USE_MASS_DEPENDENT_ZETA flag_options
    then f_limit_acg else FRACT_FLOAT_ERR mac in
  let out := il_box (Rloop rs st0) in
  (grid_mean <= limit -> mean_f_coll out = limit)
  /\ (limit < grid_mean -> mean_f_coll out == grid_mean)
  /\ (USE_HALO_FIELD flag_options = true ->
      let mini_mean := f_coll_MINI_total_0 ind (R_index r) / Qnat npix in
      mean_f_coll_MINI out
      = if USE_MASS_DEPENDENT_ZETA flag_options && USE_MINI_HALOS flag_options
        then raise_to f_limit_mcg mini_mean else mini_mean).
Proof.
  intros Hfix Hex. cbv zeta.
  rewrite Rloop_executed, Hex, fold_left_app. cbn [fold_left].
  set (st := fold_left (fun s x => Rstep x s) pre st0).
  destruct (Rstep_means r st Hfix) as [Ha Hm]. rewrite Ha, Hm.
  unfold radius_inputs, calculate_fcoll_grid. cbn [fst snd].
  set (fg1 := if USE_HALO_FIELD flag_options then _ else _).
  set (s0 := mkFcollLoop (il_box st) fg1 (f_coll_total_0 ind (R_index r))
                         (f_coll_MINI_total_0 ind (R_index r))).
  pose proof (fcoll_loop_total r npix s0) as Ht. cbv zeta in Ht.
  assert (Hmean :
            fl_f_coll_total (for_cells npix (fcoll_cell r) s0) / Qnat npix
            == (f_coll_total_0 ind (R_index r)
                + sum_cells npix
                    (fun c => Fcoll (fl_box (for_cells npix (fcoll_cell r) s0))
                                ((if USE_MINI_HALOS flag_options
                                  then R_index r else O) * npix + c)%nat))
               / Qnat npix).
  { rewrite Ht. reflexivity. }
  assert (Hacg :
            forall lim,
              (if USE_MASS_DEPENDENT_ZETA flag_options
               then f_limit_acg else FRACT_FLOAT_ERR mac) = lim ->
              f_coll_grid_mean
                (floor_grid_means mac flag_options
                   (mkRadiusSpec (R r) (M_max_R r) (ln_M_max_R r)
                      (sigma_maxmass r) (R_index r)
                      (fl_f_coll_total (for_cells npix (fcoll_cell r) s0)
                       / Qnat npix)
                      (fl_f_coll_MINI_total (for_cells npix (fcoll_cell r) s0)
                       / Qnat npix))
                   f_limit_acg f_limit_mcg)
              = raise_to lim
                  (fl_f_coll_total (for_cells npix (fcoll_cell r) s0)
                   / Qnat npix)).
  { intros lim <-. unfold floor_grid_means.
    destruct (USE_MASS_DEPENDENT_ZETA flag_options); reflexivity. }
  rewrite (Hacg _ eq_refl).
  destruct (raise_to_eq
              (if USE_MASS_DEPENDENT_ZETA flag_options
               then f_limit_acg else FRACT_FLOAT_ERR mac) _ _ Hmean) as [H1 H2].
  split; [exact H1 |]. split; [exact H2 |].
  intro Hh.
  assert (Hmode : USE_MINI_HALOS flag_options
                  && negb (USE_HALO_FIELD flag_options) = false)
    by (rewrite Hh; apply andb_false_r).
  destruct (fcoll_loop_mini_untouched r npix s0 Hmode) as [Hu _].
  unfold floor_grid_means.
  destruct (USE_MASS_DEPENDENT_ZETA flag_options),
    (USE_MINI_HALOS flag_options); cbn; rewrite Hu; reflexivity.
Qed.

(** An iteration leaves in the box the collapse fractions that
    [calculate_fcoll_grid] stored. *)
Lemma Rstep_fcoll (r : RadiusSpec) (st : IonLoop) :
  Fcoll (il_box (Rstep r st)) = Fcoll (fst (fst (inputs r (il_box st)))).
Proof.
  unfold R_step.
  destruct (inputs r (il_box st)) as [[box1 fg2] rspec2]. cbn [fst].
  unfold find_ionised_regions.
  match goal with
  | |- context [for_cells ?n ?body ?s0] =>
      destruct (cells_keep_fcoll previous_ionize_box perturbed_field spin_temp
                  rspec2 consts fg2 f_limit_acg f_limit_mcg
                  (mean_fix_term_acg box1 rspec2 consts)
                  (mean_fix_term_mcg box1 rspec2 consts) n s0)
        as (A & _)
  end.
  rewrite A. cbn [il_box]. destruct (fix_mean consts); reflexivity.
Qed.

(** C10 (as amended): without the mean adjustment (halo-field mode),
    [mean_f_coll] and [mean_f_coll_MINI] of the box are overwritten in
    every iteration with the grid means of the radius, so after the loop
    they are those that the last executed (smallest) radius [r] hands to
    [find_ionised_regions], not the global values set at entry.  For a sum
    over the cells that starts from zero, the grid mean in [mean_f_coll]
    is the box average of the collapse fractions that the output box
    stores for [r], raised to the lower limit ([f_limit_acg] with
    mass-dependent zeta, [FRACT_FLOAT_ERR] otherwise) when it does not
    exceed it. *)
Theorem mean_f_coll_is_raised_grid_mean_of_last_radius
        (rs pre : list RadiusSpec) (r : RadiusSpec) (st0 : IonLoop) :
  fix_mean consts = false ->
  executed rs = pre ++ [r] ->
  f_coll_total_0 ind (R_index r) == 0 ->
  let out := il_box (Rloop rs st0) in
  let last :=
    snd (inputs r (il_box (fold_left (fun s x => Rstep x s) pre st0))) in
  let base :=
    ((if USE_MINI_HALOS flag_options then R_index r else O) * npix)%nat in
  let box_average :=
    sum_cells npix (fun c => Fcoll out (base + c)%nat) / Qnat npix in
  let limit :=
    if USE_MASS_DEPENDENT_ZETA flag_options
    then f_limit_acg else FRACT_FLOAT_ERR mac in
  mean_f_coll out = f_coll_grid_mean last
  /\ mean_f_coll_MINI out = f_coll_grid_mean_MINI last
  /\ (box_average <= limit -> mean_f_coll out = limit)
  /\ (limit < box_average -> mean_f_coll out == box_average).
Proof.
  intros Hfix Hex Hzero. cbv zeta.
  pose proof (last_radius_grid_means rs pre r st0 Hfix Hex) as H.
  cbv zeta in H. destruct H as (H1 & H2 & _).
  assert (HL : Rloop rs st0
               = Rstep r (fold_left (fun s x => Rstep x s) pre st0)).
  { rewrite Rloop_executed, Hex, fold_left_app. reflexivity. }
  destruct (Rstep_means r (fold_left (fun s x => Rstep x s) pre st0) Hfix)
    as [Ha Hm].
  split; [rewrite HL; exact Ha |]. split; [rewrite HL; exact Hm |].
  assert (HF : Fcoll (il_box (Rloop rs st0))
               = Fcoll (fst (fst (inputs r
                   (il_box (fold_left (fun s x => Rstep x s) pre st0)))))).
  { rewrite HL. apply Rstep_fcoll. }
  rewrite HF.
  set (total := sum_cells npix _) in *.
  assert (He : (f_coll_total_0 ind (R_index r) + total) / Qnat npix
               == total / Qnat npix).
  { rewrite Hzero. unfold Qdiv. ring. }
  split.
  - intro Hle. apply H1. rewrite He. exact Hle.
  - intro Hlt. rewrite <- He. apply H2. rewrite He. exact Hlt.
Qed.


End RadiusLoop.

(** *** The snapshot: [ComputeIonizedBox] *)

Lemma set_mean_fcoll_cells (c : IonBoxConstants) (prev_box curr_box : IonizedBox)
      (mturn_acg mturn_mcg f_limit_mcg : Q) :
  let b := fst (fst (set_mean_fcoll E global_params flag_options c prev_box
                       curr_box mturn_acg mturn_mcg f_limit_mcg)) in
  xH_box b = xH_box curr_box /\ z_re_box b = z_re_box curr_box
  /\ Gamma12_box b = Gamma12_box curr_box /\ MFP_box b = MFP_box curr_box.
Proof.
  unfold set_mean_fcoll.
  destruct (USE_MASS_DEPENDENT_ZETA flag_options),
    (USE_MINI_HALOS flag_options); cbn; auto.
Qed.

(** A loop that writes the neutral fraction and the temperature of cell
    [ct] in iteration [ct]. *)
Lemma neutral_loop (f g : nat -> Q) (n : nat) (box : IonizedBox) (j : nat) :
  let body ct b :=
    let b1 := set_xH_box b (upd (xH_box b) ct (f ct)) in
    set_temp_kinetic_all_gas b1 (upd (temp_kinetic_all_gas b1) ct (g ct)) in
  xH_box (for_cells n body box) j
  = (if (j <? n)%nat then f j else xH_box box j)
  /\ z_re_box (for_cells n body box) = z_re_box box
  /\ Gamma12_box (for_cells n body box) = Gamma12_box box
  /\ MFP_box (for_cells n body box) = MFP_box box.
Proof.
  cbv zeta. induction n as [| n IH]; [cbn; auto |].
  rewrite for_cells_S. destruct IH as (A & B & C & D).
  cbn [xH_box z_re_box Gamma12_box MFP_box set_temp_kinetic_all_gas
       set_xH_box].
  repeat split; auto.
  unfold upd at 1. destruct (Nat.eqb_spec j n) as [-> | Hne].
  - assert (H : (n <? S n)%nat = true) by (apply Nat.ltb_lt; lia).
    now rewrite H.
  - rewrite A.
    destruct (Nat.ltb_spec j n), (Nat.ltb_spec j (S n));
      try reflexivity; lia.
Qed.

Lemma set_fully_neutral_box_cells (box : IonizedBox) (spin_temp : TsBox)
      (perturbed_field : PerturbedField) (consts : IonBoxConstants) (j : nat) :
  let out := set_fully_neutral_box E user_params flag_options box spin_temp
                                   perturbed_field consts in
  xH_box out j
  = (if (j <? npix)%nat
     then (if USE_TS_FLUCT flag_options
           then 1 - x_e_box spin_temp j
           else 1 - xion_RECFAST E (redshift consts) 0)
     else xH_box box j)
  /\ z_re_box out = z_re_box box
  /\ Gamma12_box out = Gamma12_box box
  /\ MFP_box out = MFP_box box.
Proof.
  cbv zeta. unfold set_fully_neutral_box.
  destruct (USE_TS_FLUCT flag_options).
  - apply (neutral_loop (fun ct => 1 - x_e_box spin_temp ct)
                        (fun ct => Tk_box spin_temp ct)).
  - apply (neutral_loop
             (fun _ => 1 - xion_RECFAST E (redshift consts) 0)
             (fun ct => TK_nofluct consts
                        * (1 + adia_TK_term consts * density perturbed_field ct))).
Qed.

Lemma set_ionized_temperatures_cells (box : IonizedBox)
      (perturbed_field : PerturbedField) (spin_temp : TsBox)
      (consts : IonBoxConstants) :
  let out := set_ionized_temperatures E mac user_params flag_options box
                                      perturbed_field spin_temp consts in
  xH_box out = xH_box box /\ z_re_box out = z_re_box box
  /\ Gamma12_box out = Gamma12_box box /\ MFP_box out = MFP_box box
  /\ dNrec_box out = dNrec_box box.
Proof.
  cbv zeta. unfold set_ionized_temperatures.
  apply (for_cells_inv
           (fun b => xH_box b = xH_box box /\ z_re_box b = z_re_box box
                     /\ Gamma12_box b = Gamma12_box box
                     /\ MFP_box b = MFP_box box
                     /\ dNrec_box b = dNrec_box box)); [auto |].
  intros ct b _ H.
  destruct (Qltb 0 (z_re_box b ct) && Qltb (xH_box b ct) (TINY mac));
    [cbn | exact H]. exact H.
Qed.

Lemma dNrec_cell_ext (b1 b2 : IonizedBox) (perturbed_field : PerturbedField)
      (consts : IonBoxConstants) (j : nat) :
  Gamma12_box b1 = Gamma12_box b2 -> xH_box b1 = xH_box b2 ->
  dNrec_cell E b1 perturbed_field consts j
  = dNrec_cell E b2 perturbed_field consts j.
Proof.
  intros HG Hx. unfold dNrec_cell. now rewrite HG, Hx.
Qed.

(** The cumulative recombinations after [set_recombination_rates]: the
    previous count plus the increment of the cell. *)
Lemma set_recombination_rates_cells (ind : Indeterminate)
      (box previous_ionize_box : IonizedBox) (perturbed_field : PerturbedField)
      (consts : IonBoxConstants) (out : IonizedBox) (j : nat) :
  set_recombination_rates E user_params ind box previous_ionize_box
                          perturbed_field consts = inr out ->
  z_re_box out = z_re_box box /\ xH_box out = xH_box box
  /\ dNrec_box out j
     = if (j <? npix)%nat
       then dNrec_box previous_ionize_box j
            + dNrec_cell E box perturbed_field consts j
       else dNrec_box box j.
Proof.
  unfold set_recombination_rates.
  destruct (finite_error_0 ind); [discriminate |].
  intro H. injection H as <-.
  induction npix as [| n IH]; [cbn; auto |].
  rewrite for_cells_S. destruct IH as (A & B & C).
  cbn [xH_box z_re_box dNrec_box set_dNrec_box].
  repeat split; auto.
  unfold upd at 1. destruct (Nat.eqb_spec j n) as [-> | Hne].
  - assert (H : (n <? S n)%nat = true) by (apply Nat.ltb_lt; lia).
    rewrite H. f_equal. apply dNrec_cell_ext; [| exact B].
    apply (for_cells_inv (fun b => Gamma12_box b = Gamma12_box box));
      [reflexivity | intros; assumption].
  - rewrite C.
    destruct (Nat.ltb_spec j n), (Nat.ltb_spec j (S n));
      try reflexivity; lia.
Qed.

Lemma set_recombination_rates_fields (ind : Indeterminate)
      (box previous_ionize_box : IonizedBox) (perturbed_field : PerturbedField)
      (consts : IonBoxConstants) (out : IonizedBox) :
  set_recombination_rates E user_params ind box previous_ionize_box
                          perturbed_field consts = inr out ->
  Gamma12_box out = Gamma12_box box /\ xH_box out = xH_box box.
Proof.
  unfold set_recombination_rates.
  destruct (finite_error_0 ind); [discriminate |].
  intro H. injection H as <-.
  apply (for_cells_inv
           (fun b => Gamma12_box b = Gamma12_box box
                     /\ xH_box b = xH_box box)); [auto |].
  intros ct b _ Hb. exact Hb.
Qed.

Section Snapshot.

Variable ind : Indeterminate.
Variable copy_filter_transform : RadiusSpec -> FilteredGrids.
Variable radii_spec : list RadiusSpec.
Variables redshift' prev_redshift' : Q.
Variables perturbed_field previous_perturbed_field : PerturbedField.
Variable previous_ionize_box : IonizedBox.
Variable spin_temp : TsBox.
Variable lowres_vcb : grid.
Variable box : IonizedBox.

Local Abbreviation setup :=
  (ionbox_setup E mac global_params user_params cosmo_params astro_params
     flag_options ind redshift' prev_redshift' previous_perturbed_field
     previous_ionize_box spin_temp lowres_vcb box).

Local Abbreviation compute :=
  (ComputeIonizedBox E mac global_params user_params cosmo_params astro_params
     flag_options ind copy_filter_transform radii_spec redshift' prev_redshift'
     perturbed_field previous_perturbed_field previous_ionize_box spin_temp
     lowres_vcb box).

(** What the setup leaves in the box and in the constants. *)
Lemma setup_facts (s : IonSetup) :
  setup = inr s ->
  (forall c, (c < npix)%nat -> z_re_box (su_box s) c = - (1))
  /\ xH_box (su_box s) = xH_box box
  /\ redshift (su_consts s)
     = (if (PHOTON_CONS_TYPE flag_options =? 1)%Z
        then fst (fst (adjust_redshifts_for_photoncons E astro_params
                         flag_options redshift'))
        else redshift')
  /\ dz (su_consts s)
     = (if Qltb prev_redshift' 1
        then (1 + redshift') * (ZPRIME_STEP_FACTOR global_params - 1)
        else redshift' - prev_redshift')
  /\ su_prev_box s
     = (if Qltb prev_redshift' 1
        then fst (setup_first_z_prevbox user_params flag_options
                    previous_ionize_box previous_perturbed_field)
        else previous_ionize_box).
Proof.
  unfold ionbox_setup.
  destruct (negb (FIND_BUBBLE_ALGORITHM global_params =? 2)%Z
            && negb (FIND_BUBBLE_ALGORITHM global_params =? 1)%Z);
    [discriminate |].
  set (c0 := set_ionbox_constants _ _ _ _ _ _ _ _ _ _).
  set (consts := if (PHOTON_CONS_TYPE flag_options =? 1)%Z then _ else c0).
  set (prev_box := if Qltb prev_redshift' 1 then _ else previous_ionize_box).
  set (box2 := set_z_re_box _ _).
  assert (Hz : forall c, (c < npix)%nat -> z_re_box box2 c = - (1)).
  { intros c Hc. unfold box2. cbn. rewrite for_cells_fill.
    apply Nat.ltb_lt in Hc. now rewrite Hc. }
  assert (Hx : xH_box box2 = xH_box box).
  { unfold box2. destruct (INHOMO_RECO flag_options); reflexivity. }
  assert (Hr : redshift consts
               = (if (PHOTON_CONS_TYPE flag_options =? 1)%Z
                  then fst (fst (adjust_redshifts_for_photoncons E astro_params
                                   flag_options redshift'))
                  else redshift')).
  { unfold consts.
    destruct (PHOTON_CONS_TYPE flag_options =? 1)%Z; [| reflexivity].
    destruct (adjust_redshifts_for_photoncons E astro_params flag_options
                redshift') as [[a b] d]. reflexivity. }
  assert (Hd : dz consts
               = (if Qltb prev_redshift' 1
                  then (1 + redshift') * (ZPRIME_STEP_FACTOR global_params - 1)
                  else redshift' - prev_redshift')).
  { unfold consts.
    destruct (PHOTON_CONS_TYPE flag_options =? 1)%Z; [| reflexivity].
    destruct (adjust_redshifts_for_photoncons E astro_params flag_options
                redshift') as [[a b] d]. reflexivity. }
  match goal with
  | |- match ?t with inl _ => _ | inr _ => _ end = _ -> _ =>
      destruct t as [e | [[box3 mt] mtm]] eqn:Ht; [discriminate |]
  end.
  assert (H3 : z_re_box box3 = z_re_box box2 /\ xH_box box3 = xH_box box2).
  { destruct (USE_MASS_DEPENDENT_ZETA flag_options).
    - destruct (USE_MINI_HALOS flag_options).
      + destruct (calculate_mcrit_boxes _ _ _ _ _ _ _ _)
          as [e | [a m]]; [discriminate |].
        injection Ht as <- _ _. cbn. auto.
      + injection Ht as <- _ _. cbn. auto.
    - injection Ht as <- _ _. auto. }
  destruct H3 as [H3z H3x].
  pose proof (set_mean_fcoll_cells consts prev_box box3 mt mtm
                (f_limit_mcg_0 ind)) as Hm.
  cbv zeta in Hm.
  destruct (set_mean_fcoll E global_params flag_options consts prev_box box3
              mt mtm (f_limit_mcg_0 ind)) as [[box4 fa] fm].
  cbn [fst] in Hm. destruct Hm as (Mx & Mz & _ & _).
  intro H. injection H as <-. cbn.
  repeat split; auto.
  - intros c Hc. rewrite Mz, H3z. now apply Hz.
  - congruence.
Qed.

(** C5: when the expected global ionised fraction is below
    [HII_ROUND_ERR] the radius loop is skipped -- the result is
    [set_fully_neutral_box] of the box as the setup left it, whatever the
    radii and the filtered grids -- and every cell gets
    [xH = 1 - x_e(cell)] with spin-temperature coupling and the uniform
    [xH = 1 - xion_RECFAST(z)] without, [z] being the redshift of the
    constants (the photon-conservation redshift under
    [PHOTON_CONS_TYPE = 1], the input redshift otherwise); no cell records
    a redshift of reionisation. *)
Theorem fully_neutral_early_out (s : IonSetup) (c : nat) :
  setup = inr s ->
  exp_global_hii s < HII_ROUND_ERR global_params ->
  (c < npix)%nat ->
  let out := set_fully_neutral_box E user_params flag_options (su_box s)
                                   spin_temp perturbed_field (su_consts s) in
  let z := if (PHOTON_CONS_TYPE flag_options =? 1)%Z
           then fst (fst (adjust_redshifts_for_photoncons E astro_params
                            flag_options redshift'))
           else redshift' in
  compute = inr out
  /\ xH_box out c
     = (if USE_TS_FLUCT flag_options
        then 1 - x_e_box spin_temp c
        else 1 - xion_RECFAST E z 0)
  /\ z_re_box out c = - (1).
Proof.
  intros Hs Hlt Hc. cbv zeta.
  destruct (setup_facts s Hs) as (Hz & _ & Hr & _).
  pose proof (set_fully_neutral_box_cells (su_box s) spin_temp perturbed_field
                (su_consts s) c) as Hn.
  cbv zeta in Hn. destruct Hn as (Hx & Hzr & _).
  apply Nat.ltb_lt in Hc as Hcb. rewrite Hcb in Hx.
  split; [| split].
  - unfold ComputeIonizedBox. rewrite Hs.
    apply Qltb_lt in Hlt. now rewrite Hlt.
  - rewrite Hx, Hr. reflexivity.
  - rewrite Hzr. now apply Hz.
Qed.

(** C3 (as amended): in the output box, [z_re] of a cell is [-1] exactly
    when the cell itself passed the ionisation test at no radius of this
    snapshot (in particular when the loop was skipped); otherwise it is the
    [z_re] of the previous box when that is not negative, and the current
    redshift when it is.  Neither a neutral fraction driven to [0] by the
    sphere of a neighbour nor an ionisation in an earlier snapshot enters. *)
Theorem z_re_marks_cells_crossing_in_this_snapshot
        (s : IonSetup) (out : IonizedBox) (c : nat) :
  setup = inr s -> compute = inr out ->
  (c < npix)%nat -> 0 <= redshift (su_consts s) ->
  let rs := rev radii_spec in
  let st0 := mkIonLoop (su_box s) O in
  let crossed_at i r :=
    crosses E mac user_params cosmo_params flag_options copy_filter_transform
      ind (su_prev_box s) perturbed_field (su_consts s)
      (su_f_limit_acg s) (su_f_limit_mcg s) r
      (il_box (state_after E mac global_params user_params cosmo_params
                 flag_options copy_filter_transform ind (su_prev_box s)
                 perturbed_field spin_temp (su_consts s)
                 (su_f_limit_acg s) (su_f_limit_mcg s) rs st0 i)) c in
  (z_re_box out c == - (1)
   <-> Qltb (exp_global_hii s) (HII_ROUND_ERR global_params) = true
       \/ forall i r,
            nth_error (executed_radii E (su_consts s) rs) i = Some r ->
            crossed_at i r = false)
  /\ (z_re_box out c == - (1)
      \/ z_re_box out c = z_re_mark (su_prev_box s) (su_consts s) c).
Proof.
  intros Hs Hout Hc Hz. cbv zeta.
  destruct (setup_facts s Hs) as (Hinit & _).
  unfold ComputeIonizedBox in Hout. rewrite Hs in Hout.
  destruct (Qltb (exp_global_hii s) (HII_ROUND_ERR global_params)) eqn:Hearly.
  - (* the loop is skipped *)
    injection Hout as <-.
    pose proof (set_fully_neutral_box_cells (su_box s) spin_temp
                  perturbed_field (su_consts s) c) as Hn.
    cbv zeta in Hn. destruct Hn as (_ & Hzr & _).
    rewrite Hzr, (Hinit c Hc).
    split; [| left; reflexivity]. split; [now left | reflexivity].
  - (* the loop runs *)
    set (st := R_loop _ _ _ _ _ _ _ _ _ _ _ _ _ _ _ _) in Hout.
    assert (Hzout : z_re_box out = z_re_box (il_box st)).
    { pose proof (set_ionized_temperatures_cells (il_box st) perturbed_field
                    spin_temp (su_consts s)) as Ht.
      cbv zeta in Ht. destruct Ht as (_ & Ht & _).
      destruct (INHOMO_RECO flag_options).
      - destruct (set_recombination_rates_cells _ _ _ _ _ _ c Hout)
          as (Hr & _).
        congruence.
      - injection Hout as <-. exact Ht. }
    rewrite Hzout. unfold st. rewrite Rloop_executed.
    split.
    + rewrite run_z_re by assumption. cbn [il_box].
      rewrite (Hinit c Hc). unfold state_after.
      split.
      * intros [_ H]. right. exact H.
      * intros [H | H]; [discriminate |]. split; [reflexivity | exact H].
    + match goal with
      | |- context [fold_left ?f ?l ?s0] =>
          destruct (run_z_re_value copy_filter_transform ind (su_prev_box s)
                      perturbed_field spin_temp (su_consts s)
                      (su_f_limit_acg s) (su_f_limit_mcg s) l s0 c) as [H | H]
      end.
      * left. rewrite H. cbn [il_box]. rewrite (Hinit c Hc). reflexivity.
      * right. exact H.
Qed.

(** C4: with inhomogeneous recombinations, when the radius loop runs, the
    recombination count of a cell is the one of the previous box plus
    [rate * |dt/dz| * dz * (1 - xH)], where [dz] is
    [(1 + z)*(ZPRIME_STEP_FACTOR - 1)] for a first snapshot
    ([prev_redshift < 1]) and [redshift - prev_redshift] otherwise.  For a
    later snapshot ([z < z_prev]) this [dz] is negative: wherever the rate
    and [|dt/dz|] are positive and the cell is not fully neutral, the count
    is strictly below that of the previous snapshot. *)
Theorem dNrec_increment_has_the_sign_of_dz
        (s : IonSetup) (out : IonizedBox) (c : nat) :
  setup = inr s -> compute = inr out ->
  INHOMO_RECO flag_options = true ->
  Qltb (exp_global_hii s) (HII_ROUND_ERR global_params) = false ->
  (c < npix)%nat ->
  let rate :=
    splined_recombination_rate E
      (pow E (1 + density perturbed_field c) (1 / 3)
       * (1 + stored_redshift (su_consts s)) - 1)
      (Gamma12_box out c) in
  let step :=
    if Qltb prev_redshift' 1
    then (1 + redshift') * (ZPRIME_STEP_FACTOR global_params - 1)
    else redshift' - prev_redshift' in
  dNrec_box out c
  = dNrec_box (su_prev_box s) c
    + rate * fabs_dtdz (su_consts s) * step * (1 - xH_box out c)
  /\ (1 <= prev_redshift' -> redshift' < prev_redshift' ->
      0 < rate -> 0 < fabs_dtdz (su_consts s) -> xH_box out c < 1 ->
      dNrec_box out c < dNrec_box previous_ionize_box c).
Proof.
  intros Hs Hout Hreco Hrun Hc. cbv zeta.
  destruct (setup_facts s Hs) as (_ & _ & _ & Hdz & Hprev).
  unfold ComputeIonizedBox in Hout. rewrite Hs, Hrun, Hreco in Hout.
  destruct (set_recombination_rates_cells _ _ _ _ _ _ c Hout) as (_ & _ & Hd).
  destruct (set_recombination_rates_fields _ _ _ _ _ _ Hout) as (HG & Hx).
  apply Nat.ltb_lt in Hc. rewrite Hc in Hd.
  assert (Heq : dNrec_box out c
                = dNrec_box (su_prev_box s) c
                  + dNrec_cell E out perturbed_field (su_consts s) c).
  { rewrite Hd. f_equal. symmetry. now apply dNrec_cell_ext. }
  unfold dNrec_cell in Heq. rewrite Hdz in Heq.
  split; [exact Heq |].
  intros H1 Hlt Hrate Hdt HxH.
  assert (Hp : Qltb prev_redshift' 1 = false) by now apply Qltb_ge.
  rewrite Hp in Heq, Hprev. rewrite Heq, Hprev.
  set (r := splined_recombination_rate _ _ _) in *.
  set (a := fabs_dtdz _) in *.
  assert (Hpos : 0 < r * a * (1 - xH_box out c)).
  { apply Qmult_lt_0_compat; [apply Qmult_lt_0_compat; assumption | lra]. }
  assert (Hneg : r * a * (redshift' - prev_redshift') * (1 - xH_box out c)
                 == (r * a * (1 - xH_box out c)) * (redshift' - prev_redshift'))
    by ring.
  rewrite Hneg.
  assert (Hd2 : 0 < prev_redshift' - redshift') by lra.
  pose proof (Qmult_lt_0_compat _ _ Hpos Hd2) as Hm.
  assert (Hm' : (r * a * (1 - xH_box out c)) * (redshift' - prev_redshift')
                == - ((r * a * (1 - xH_box out c))
                      * (prev_redshift' - redshift'))) by ring.
  rewrite Hm'. lra.
Qed.

End Snapshot.

End IonisationBoxProperties.

(** ** The claims at concrete snapshots *)

Ltac q_lt := unfold Qlt; vm_compute; reflexivity.
Ltac q_le := unfold Qle; vm_compute; discriminate.
Ltac q_eq := unfold Qeq; vm_compute; reflexivity.

Section IonisationBoxExamples.

Import IonisationBox Example.

Lemma sphere_setup_runs : Example.setup sphere_flags 1 3 3 = inr sphere_setup.
Proof.
  unfold sphere_setup, the_setup.
  destruct (Example.setup sphere_flags 1 3 3) as [e | s] eqn:H;
    [vm_compute in H; discriminate | reflexivity].
Defined.

Lemma sphere_compute_runs : compute sphere_flags 1 3 3 3 = inr sphere_box.
Proof.
  unfold sphere_box, the_box.
  destruct (compute sphere_flags 1 3 3 3) as [e | s] eqn:H;
    [vm_compute in H; discriminate | reflexivity].
Defined.

Lemma neutral_setup_runs : Example.setup plain_flags 2 1 0 = inr neutral_setup.
Proof.
  unfold neutral_setup, the_setup.
  destruct (Example.setup plain_flags 2 1 0) as [e | s] eqn:H;
    [vm_compute in H; discriminate | reflexivity].
Defined.

(** C1, counterexample: a neutral cell whose two sides of the ionisation
    test are both [1] is not flagged: its neutral fraction stays [1] and no
    redshift of reionisation is recorded. *)
Lemma barrier_equality_is_not_ionised :
  curr_fcoll (plain_terms 1 (radius 1 1)) * ion_eff_factor plain_consts
  + curr_fcoll_mini (plain_terms 1 (radius 1 1))
    * ion_eff_factor_mini plain_consts
  == (1 - xHII_from_xrays (plain_terms 1 (radius 1 1)))
     * (1 + rec (plain_terms 1 (radius 1 1)))
  /\ is_ionized plain_consts (plain_terms 1 (radius 1 1)) = false
  /\ xH_box (box_with_fcoll 1) O == 1
  /\ xH_box (il_box (plain_step true 1 (radius 1 1))) O == 1
  /\ z_re_box (il_box (plain_step true 1 (radius 1 1))) O == - (1).
Proof.
  split; [q_eq |]. split; [vm_compute; reflexivity |].
  split; [q_eq |]. split; q_eq.
Qed.

(** C7, witness: one cell in deterministic mode with a collapse fraction of
    [1/2] at the last radius. *)
Lemma no_rng_halo_count_is_one_example :
  NO_RNG (user 1 true) = true
  /\ draw_N_halos_in_cell externals (globals 2) (user 1 true) 7 = (1%Z, 7%nat)
  /\ xH_box (il_box (plain_step true (1 / 2) (radius 0 (1 / 2)))) O == 9 / 10.
Proof.
  destruct (no_rng_halo_count_is_one externals macros (globals 2)
              (user 1 true) cosmo plain_flags previous_box no_field spin
              (radius 0 (1 / 2)) plain_consts
              (filtered 0 (radius 0 (1 / 2))) 0 0 1 1 7%nat 0%nat
              (mkIonLoop (box_with_fcoll (1 / 2)) O) eq_refl) as [Hd Hx].
  split; [reflexivity |]. split; [exact Hd |].
  assert (Hlt : TINY macros
                < xH_box (il_box (mkIonLoop (box_with_fcoll (1 / 2)) O)) O)
    by q_lt.
  destruct (Hx eq_refl eq_refl eq_refl Hlt) as [_ H].
  unfold plain_step. rewrite H. q_eq.
Defined.

(** C7, counterexample: [N_POISSON] is [5], the halo count used in
    deterministic mode is [1]; the cell ends with the neutral fraction
    [9/10] of the count [1], the count [5] would give [1/2]. *)
Lemma no_rng_multiplier_is_not_N_POISSON :
  NO_RNG (user 1 true) = true
  /\ N_POISSON (globals 2) = 5%Z
  /\ fst (draw_N_halos_in_cell externals (globals 2) (user 1 true) 0) = 1%Z
  /\ xH_box (il_box (plain_step true (1 / 2) (radius 0 (1 / 2)))) O == 9 / 10
  /\ 1 - fst (partial_fcolls (globals 2) plain_flags plain_consts
                (plain_terms (1 / 2) (radius 0 (1 / 2))) 5)
         * ion_eff_factor plain_consts
     == 1 / 2.
Proof.
  split; [reflexivity |]. split; [reflexivity |]. split; [reflexivity |].
  split; q_eq.
Qed.

(** C6, witness: one cell with mini-halos; the previous filtered density
    contrast is [1/2], the current one [0]. *)
Lemma trapezoidal_fcoll_bounded_above_only_example :
  USE_MINI_HALOS mini_flags = true
  /\ USE_HALO_FIELD mini_flags = false
  /\ (0 < HII_TOT_NUM_PIXELS (user 1 true))%nat
  /\ Fcoll (mini_fcoll (1 / 2)) O <= 1
  /\ Fcoll_MINI (mini_fcoll (1 / 2)) O <= 1
  /\ Qmin 1 (Fcoll mini_previous O - 1) <= Fcoll (mini_fcoll (1 / 2)) O
  /\ Qmin 1 (Fcoll_MINI mini_previous O - 1)
     <= Fcoll_MINI (mini_fcoll (1 / 2)) O.
Proof.
  assert (Hc : (0 < HII_TOT_NUM_PIXELS (user 1 true))%nat)
    by (apply Nat.ltb_lt; reflexivity).
  split; [reflexivity |]. split; [reflexivity |]. split; [exact Hc |].
  exact (trapezoidal_fcoll_bounded_above_only externals macros (user 1 true)
           mini_flags (filtered 0) indeterminate mini_previous mini_consts
           fresh_box (mini_grids (1 / 2)) (radius 0 (1 / 2)) 0%nat
           eq_refl eq_refl Hc).
Defined.

(** C6, counterexample: in that cell the stored collapse fraction is
    [0 + 0 - 1/2 = -1/2], below [1e-40]. *)
Lemma trapezoidal_fcoll_below_the_floor :
  USE_MINI_HALOS mini_flags = true
  /\ USE_HALO_FIELD mini_flags = false
  /\ Fcoll mini_previous O == 0
  /\ Fcoll (mini_fcoll (1 / 2)) O == - (1 / 2)
  /\ Fcoll (mini_fcoll (1 / 2)) O < 1e-40.
Proof.
  split; [reflexivity |]. split; [reflexivity |]. split; [q_eq |].
  split; [q_eq | q_lt].
Qed.

(** C2, witness: the sphere scenario; cell [0] crosses at the first
    executed radius, where its [Gamma12] and [MFP] are assigned, and keeps
    them at the second, where it crosses again. *)
Lemma gamma_mfp_assigned_at_first_crossing_example :
  0 <= FRACT_FLOAT_ERR macros
  /\ 0 <= TINY macros
  /\ (FIND_BUBBLE_ALGORITHM (globals 1) = 2%Z
      \/ (FIND_BUBBLE_ALGORITHM (globals 1) = 1%Z
          /\ forall Rb ct, in_sphere externals Rb ct ct = true))
  /\ nth_error (sphere_executed (rev radii)) 0 = Some (radius 1 1)
  /\ (0 <= 2)%nat
  /\ sphere_loop (rev radii) sphere_start
     = sphere_state (rev radii) sphere_start
         (length (sphere_executed (rev radii)))
  /\ (Gamma12_box (il_box (sphere_state (rev radii) sphere_start 1)) O
      <> Gamma12_box (il_box (sphere_state (rev radii) sphere_start 0)) O
      \/ MFP_box (il_box (sphere_state (rev radii) sphere_start 1)) O
         <> MFP_box (il_box (sphere_state (rev radii) sphere_start 0)) O ->
      sphere_crosses (radius 1 1)
        (il_box (sphere_state (rev radii) sphere_start 0)) O = true
      /\ forall j r', (j < 0)%nat ->
           nth_error (sphere_executed (rev radii)) j = Some r' ->
           sphere_crosses r'
             (il_box (sphere_state (rev radii) sphere_start j)) O = false)
  /\ (xH_box (il_box (sphere_state (rev radii) sphere_start 0)) O = 0 ->
      Gamma12_box (il_box (sphere_state (rev radii) sphere_start 2)) O
      = Gamma12_box (il_box (sphere_state (rev radii) sphere_start 0)) O
      /\ MFP_box (il_box (sphere_state (rev radii) sphere_start 2)) O
         = MFP_box (il_box (sphere_state (rev radii) sphere_start 0)) O
      /\ xH_box (il_box (sphere_state (rev radii) sphere_start 2)) O = 0)
  /\ MFP_box (il_box (sphere_state (rev radii) sphere_start 0)) O == 0
  /\ MFP_box (il_box (sphere_state (rev radii) sphere_start 1)) O == 1
  /\ sphere_crosses (radius 0 (1 / 2))
       (il_box (sphere_state (rev radii) sphere_start 1)) O = true
  /\ MFP_box (il_box (sphere_state (rev radii) sphere_start 2)) O == 1.
Proof.
  assert (H1 : 0 <= FRACT_FLOAT_ERR macros) by q_le.
  assert (H2 : 0 <= TINY macros) by q_le.
  assert (H3 : FIND_BUBBLE_ALGORITHM (globals 1) = 2%Z
               \/ (FIND_BUBBLE_ALGORITHM (globals 1) = 1%Z
                   /\ forall Rb ct, in_sphere externals Rb ct ct = true))
    by (right; split; reflexivity).
  assert (H4 : nth_error (sphere_executed (rev radii)) 0 = Some (radius 1 1))
    by (vm_compute; reflexivity).
  assert (H5 : (0 <= 2)%nat) by (apply Nat.leb_le; reflexivity).
  pose proof (gamma_mfp_assigned_at_first_crossing externals macros
                (globals 1) (user 3 true) cosmo sphere_flags (filtered 3)
                indeterminate (su_prev_box sphere_setup) no_field spin
                (su_consts sphere_setup) (su_f_limit_acg sphere_setup)
                (su_f_limit_mcg sphere_setup) (rev radii) sphere_start
                O O 2%nat (radius 1 1) H1 H2 H3 H4 H5) as (A & B & C).
  split; [exact H1 |]. split; [exact H2 |]. split; [exact H3 |].
  split; [exact H4 |]. split; [exact H5 |].
  split; [exact A |]. split; [exact B |]. split; [exact C |].
  split; [q_eq |]. split; [q_eq |].
  split; [vm_compute; reflexivity | q_eq].
Defined.

(** C3, witness: cell [0] of the sphere scenario crosses the barrier and
    records the current redshift [8]. *)
Lemma z_re_marks_cells_crossing_in_this_snapshot_example :
  Example.setup sphere_flags 1 3 3 = inr sphere_setup
  /\ compute sphere_flags 1 3 3 3 = inr sphere_box
  /\ (0 < HII_TOT_NUM_PIXELS (user 3 true))%nat
  /\ 0 <= redshift (su_consts sphere_setup)
  /\ (z_re_box sphere_box O == - (1)
      <-> Qltb (exp_global_hii sphere_setup) (HII_ROUND_ERR (globals 1)) = true
          \/ forall i r,
               nth_error (sphere_executed (rev radii)) i = Some r ->
               sphere_crosses r
                 (il_box (sphere_state (rev radii) sphere_start i)) O = false)
  /\ (z_re_box sphere_box O == - (1)
      \/ z_re_box sphere_box O
         = z_re_mark (su_prev_box sphere_setup) (su_consts sphere_setup) O)
  /\ z_re_box sphere_box O == 8.
Proof.
  assert (Hc : (0 < HII_TOT_NUM_PIXELS (user 3 true))%nat)
    by (apply Nat.ltb_lt; reflexivity).
  assert (Hz : 0 <= redshift (su_consts sphere_setup)) by q_le.
  pose proof (z_re_marks_cells_crossing_in_this_snapshot externals macros
                (globals 1) (user 3 true) cosmo (astro 3) sphere_flags
                indeterminate (filtered 3) radii 8 9 no_field no_field
                previous_box spin zeros fresh_box sphere_setup sphere_box O
                sphere_setup_runs sphere_compute_runs Hc Hz) as (A & B).
  split; [exact sphere_setup_runs |]. split; [exact sphere_compute_runs |].
  split; [exact Hc |]. split; [exact Hz |].
  split; [exact A |]. split; [exact B | q_eq].
Defined.

(** C3, counterexample: in the sphere scenario cell [0] crosses and its
    sphere drives the neutral fraction of cell [1] to [0], yet cell [1]
    keeps [z_re = -1]; cell [2] was ionised at redshift [9] in the previous
    box and has [z_re = -1] in this one. *)
Lemma z_re_misses_painted_and_earlier_ionised_cells :
  match compute sphere_flags 1 3 3 3 with
  | inr out =>
      z_re_box out O == 8
      /\ xH_box out 1%nat == 0 /\ z_re_box out 1%nat == - (1)
      /\ z_re_box previous_box 2%nat == 9 /\ z_re_box out 2%nat == - (1)
  | inl _ => False
  end.
Proof.
  rewrite sphere_compute_runs.
  split; [q_eq |]. split; [q_eq |]. split; [q_eq |]. split; q_eq.
Qed.

(** C5, witness: one cell without ionising efficiency; the expected
    ionised fraction is [0] and the box is left neutral. *)
Lemma fully_neutral_early_out_example :
  Example.setup plain_flags 2 1 0 = inr neutral_setup
  /\ exp_global_hii neutral_setup < HII_ROUND_ERR (globals 2)
  /\ (0 < HII_TOT_NUM_PIXELS (user 1 true))%nat
  /\ compute plain_flags 2 1 0 0
     = inr (set_fully_neutral_box externals (user 1 true) plain_flags
              (su_box neutral_setup) spin no_field (su_consts neutral_setup))
  /\ xH_box (set_fully_neutral_box externals (user 1 true) plain_flags
               (su_box neutral_setup) spin no_field
               (su_consts neutral_setup)) O
     = 1 - xion_RECFAST externals 8 0
  /\ z_re_box (set_fully_neutral_box externals (user 1 true) plain_flags
                 (su_box neutral_setup) spin no_field
                 (su_consts neutral_setup)) O
     = - (1).
Proof.
  assert (Hlt : exp_global_hii neutral_setup < HII_ROUND_ERR (globals 2))
    by q_lt.
  assert (Hc : (0 < HII_TOT_NUM_PIXELS (user 1 true))%nat)
    by (apply Nat.ltb_lt; reflexivity).
  split; [exact neutral_setup_runs |]. split; [exact Hlt |].
  split; [exact Hc |].
  exact (fully_neutral_early_out externals macros (globals 2) (user 1 true)
           cosmo (astro 0) plain_flags indeterminate (filtered 0) radii 8 9
           no_field no_field previous_box spin zeros fresh_box neutral_setup
           O neutral_setup_runs Hlt Hc).
Defined.

(** C4, witness: the sphere scenario at redshift [8] after a snapshot at
    redshift [9]; the recombination rate and [|dt/dz|] are [1], cell [0] is
    ionised, and its count falls from [0] to [-1]. *)
Lemma dNrec_increment_has_the_sign_of_dz_example :
  Example.setup sphere_flags 1 3 3 = inr sphere_setup
  /\ compute sphere_flags 1 3 3 3 = inr sphere_box
  /\ INHOMO_RECO sphere_flags = true
  /\ Qltb (exp_global_hii sphere_setup) (HII_ROUND_ERR (globals 1)) = false
  /\ (0 < HII_TOT_NUM_PIXELS (user 3 true))%nat
  /\ dNrec_box previous_box O == 0
  /\ dNrec_box sphere_box O == - (1)
  /\ dNrec_box sphere_box O < dNrec_box previous_box O.
Proof.
  assert (Hrun : Qltb (exp_global_hii sphere_setup)
                      (HII_ROUND_ERR (globals 1)) = false)
    by (vm_compute; reflexivity).
  assert (Hc : (0 < HII_TOT_NUM_PIXELS (user 3 true))%nat)
    by (apply Nat.ltb_lt; reflexivity).
  destruct (dNrec_increment_has_the_sign_of_dz externals macros (globals 1)
              (user 3 true) cosmo (astro 3) sphere_flags indeterminate
              (filtered 3) radii 8 9 no_field no_field previous_box spin
              zeros fresh_box sphere_setup sphere_box O sphere_setup_runs
              sphere_compute_runs eq_refl Hrun Hc) as [_ H].
  split; [exact sphere_setup_runs |]. split; [exact sphere_compute_runs |].
  split; [reflexivity |]. split; [exact Hrun |]. split; [exact Hc |].
  split; [q_eq |]. split; [q_eq |].
  apply H; [q_le | q_lt | q_lt | q_lt | q_lt].
Defined.

Lemma halo_setup_runs : Example.setup halo_flags 2 1 3 = inr halo_setup.
Proof.
  unfold halo_setup, the_setup.
  destruct (Example.setup halo_flags 2 1 3) as [e | s] eqn:H;
    [vm_compute in H; discriminate | reflexivity].
Defined.

(** C10, witness: the halo-field scenario, one cell without sources; the
    sum starts from zero, the box average of the last radius is [0] and
    the box ends with the floor [FRACT_FLOAT_ERR]. *)
Lemma mean_f_coll_is_raised_grid_mean_of_last_radius_example :
  fix_mean (su_consts halo_setup) = false
  /\ executed_radii externals (su_consts halo_setup) (rev radii)
     = [radius 1 1] ++ [radius 0 (1 / 2)]
  /\ f_coll_total_0 indeterminate (R_index (radius 0 (1 / 2))) == 0
  /\ mean_f_coll (il_box (halo_loop (rev radii)
                            (mkIonLoop (su_box halo_setup) O)))
     = FRACT_FLOAT_ERR macros.
Proof.
  assert (H1 : fix_mean (su_consts halo_setup) = false)
    by (vm_compute; reflexivity).
  assert (H2 : executed_radii externals (su_consts halo_setup) (rev radii)
               = [radius 1 1] ++ [radius 0 (1 / 2)])
    by (vm_compute; reflexivity).
  assert (H3 : f_coll_total_0 indeterminate (R_index (radius 0 (1 / 2))) == 0)
    by q_eq.
  pose proof (mean_f_coll_is_raised_grid_mean_of_last_radius externals macros
                (globals 2) (user 1 true) cosmo halo_flags (filtered 0)
                indeterminate (su_prev_box halo_setup) no_field spin
                (su_consts halo_setup) (su_f_limit_acg halo_setup)
                (su_f_limit_mcg halo_setup) (rev radii) [radius 1 1]
                (radius 0 (1 / 2)) (mkIonLoop (su_box halo_setup) O) H1 H2 H3)
    as (_ & _ & A & _).
  split; [exact H1 |]. split; [exact H2 |]. split; [exact H3 |].
  apply A. q_le.
Defined.

(** C10, counterexample: in that scenario the collapse fraction stored for
    the cell at the last radius is [0], so the box mean is [0], and the
    output carries [mean_f_coll = 1e-7]. *)
Lemma mean_f_coll_is_not_the_box_mean :
  match compute halo_flags 2 1 3 0 with
  | inr out =>
      USE_HALO_FIELD halo_flags = true
      /\ HII_TOT_NUM_PIXELS (user 1 true) = 1%nat
      /\ sum_cells 1 (Fcoll out) / Qnat 1 == 0
      /\ mean_f_coll out == 1e-7
  | inl _ => False
  end.
Proof.
  destruct (compute halo_flags 2 1 3 0) as [e | out] eqn:H;
    [vm_compute in H; discriminate |].
  vm_compute in H. injection H as <-.
  split; [reflexivity |]. split; [reflexivity |]. split; q_eq.
Qed.

End IonisationBoxExamples.

(** ** [HaloBox.c]: a catalogue without massive halos *)

Section HaloBoxProperties.

Import HaloBox.

Variable E : Externals.
Variable mac : Macros.
Variable global_params : GlobalParams.
Variable user_params : UserParams.
Variable astro_params : AstroParams.
Variable flag_options : FlagOptions.
Variable set_halo_properties :
  Q -> Q -> Q -> HaloBoxConstants -> Q * Q * Q -> HaloProperties -> HaloProperties.
Variable set_fixed_grids :
  Q -> Q -> grid -> IonisationBox.PerturbedField -> IonisationBox.TsBox ->
  IonisationBox.IonizedBox -> HaloBoxConstants -> HaloBox ->
  HaloBox * HaloProperties.

Local Abbreviation npix := (HII_TOT_NUM_PIXELS user_params).

Lemma updZ_same (g : nat -> Z) (i : nat) (v : Z) : updZ g i v i = v.
Proof. unfold updZ. now rewrite Nat.eqb_refl. Qed.

Lemma updZ_other (g : nat -> Z) (i j : nat) (v : Z) :
  j <> i -> updZ g i v j = g j.
Proof. unfold updZ. intro H. apply Nat.eqb_neq in H. now rewrite H. Qed.

(** The initialisation loop zeroes seven grids and the count of every cell
    of the lattice; it does not write the X-ray grid. *)
Lemma zero_grids_cells (g : HaloBox) (c : nat) :
  ((c < npix)%nat -> summed_grids_zero (zero_grids user_params g) c)
  /\ halo_xray (zero_grids user_params g) = halo_xray g
  /\ log10_Mcrit_ACG_ave (zero_grids user_params g) = log10_Mcrit_ACG_ave g
  /\ log10_Mcrit_MCG_ave (zero_grids user_params g) = log10_Mcrit_MCG_ave g.
Proof.
  unfold zero_grids, summed_grids_zero.
  induction npix as [| n IH]; [cbn; repeat split; lia |].
  rewrite for_cells_S. destruct IH as (IH & Hx & Ha & Hm).
  cbn [halo_mass halo_stars halo_stars_mini n_ion halo_sfr halo_sfr_mini
       whalo_sfr halo_xray count log10_Mcrit_ACG_ave log10_Mcrit_MCG_ave].
  split; [| auto].
  intro Hc. destruct (Nat.eq_dec c n) as [-> | Hne].
  - rewrite !upd_same, updZ_same. repeat split; reflexivity.
  - rewrite !upd_other, updZ_other by exact Hne. apply IH. lia.
Qed.

(** A halo of mass [0] is skipped: the halo loop over a catalogue without
    massive halos changes no grid and no sum, and counts every halo as
    cut. *)
Lemma sum_loop_massless (lowres_vcb : grid)
      (previous_spin_temp : IonisationBox.TsBox)
      (previous_ionize_box : IonisationBox.IonizedBox)
      (halos : PerturbHaloField) (consts : HaloBoxConstants)
      (out_props_0 : HaloProperties) (n : nat) (st : SumLoop) :
  (forall i, (i < n)%nat -> halo_masses halos i == 0) ->
  for_cells n
    (sum_halo E global_params user_params astro_params flag_options
       set_halo_properties lowres_vcb previous_spin_temp previous_ionize_box
       halos consts out_props_0) st
  = mkSumLoop (sl_grids st) (hm_avg st) (sm_avg st) (sfr_avg st)
      (sm_avg_mini st) (sfr_avg_mini st) (M_turn_a_avg st) (M_turn_m_avg st)
      (M_turn_r_avg st) (n_ion_avg st) (wsfr_avg st) (xray_avg st)
      (n + n_halos_cut st).
Proof.
  destruct st. induction n as [| n IH]; intro Hz; [reflexivity |].
  rewrite for_cells_S, IH by (intros i Hi; apply Hz; lia).
  unfold sum_halo.
  assert (H : Qeq_bool (halo_masses halos n) 0 = true)
    by (apply Qeq_bool_iff, Hz; lia).
  rewrite H. reflexivity.
Qed.

(** The division by the cell volume, cell by cell. *)
Lemma divide_by_cell_volume_cells (g : HaloBox) (v : Q) (c : nat) :
  let g' := divide_by_cell_volume user_params g v in
  ((c < npix)%nat ->
   halo_mass g' c = halo_mass g c / v
   /\ halo_stars g' c = halo_stars g c / v
   /\ halo_stars_mini g' c = halo_stars_mini g c / v
   /\ n_ion g' c = n_ion g c / v
   /\ halo_sfr g' c = halo_sfr g c / v
   /\ halo_sfr_mini g' c = halo_sfr_mini g c / v
   /\ whalo_sfr g' c = whalo_sfr g c / v
   /\ halo_xray g' c = halo_xray g c / v)
  /\ ((npix <= c)%nat ->
      halo_mass g' c = halo_mass g c
      /\ halo_stars g' c = halo_stars g c
      /\ halo_stars_mini g' c = halo_stars_mini g c
      /\ n_ion g' c = n_ion g c
      /\ halo_sfr g' c = halo_sfr g c
      /\ halo_sfr_mini g' c = halo_sfr_mini g c
      /\ whalo_sfr g' c = whalo_sfr g c
      /\ halo_xray g' c = halo_xray g c)
  /\ count g' = count g
  /\ log10_Mcrit_ACG_ave g' = log10_Mcrit_ACG_ave g
  /\ log10_Mcrit_MCG_ave g' = log10_Mcrit_MCG_ave g.
Proof.
  cbv zeta. unfold divide_by_cell_volume.
  induction npix as [| n IH]; [cbn; repeat split; lia |].
  rewrite for_cells_S. destruct IH as (IHin & IHout & Hc & Ha & Hm).
  cbn [halo_mass halo_stars halo_stars_mini n_ion halo_sfr halo_sfr_mini
       whalo_sfr halo_xray count log10_Mcrit_ACG_ave log10_Mcrit_MCG_ave].
  split; [| split; [| auto]].
  - intro Hlt. destruct (Nat.eq_dec c n) as [-> | Hne].
    + rewrite !upd_same.
      destruct (IHout (Nat.le_refl n)) as (A1 & A2 & A3 & A4 & A5 & A6 & A7 & A8).
      rewrite A1, A2, A3, A4, A5, A6, A7, A8. repeat split; reflexivity.
    + rewrite !upd_other by exact Hne. apply IHin. lia.
  - intro Hge. rewrite !upd_other by lia. apply IHout. lia.
Qed.

(** C9: without the fixed grids and the sub-sampler grids, on a catalogue
    without massive halos, [ComputeHaloBox] leaves [0] in every cell of the
    halo-mass, stellar-mass, SFR, weighted-SFR and [n_ion] grids and of the
    count, and the averages carry the no-feedback turnover masses; the
    X-ray grid, which the initialisation loop does not reset, holds the
    value it had on entry over the cell volume. *)
Theorem massless_catalogue_keeps_the_entry_xray_grid
        (hbox_consts_0 : HaloBoxConstants)
        (out_props_0 averages_0 : HaloProperties) (redshift' : Q)
        (lowres_vcb : grid) (perturbed_field : IonisationBox.PerturbedField)
        (halos : PerturbHaloField) (previous_spin_temp : IonisationBox.TsBox)
        (previous_ionize_box : IonisationBox.IonizedBox) (grids : HaloBox)
        (c : nat) :
  FIXED_HALO_GRIDS flag_options = false ->
  AVG_BELOW_SAMPLER user_params
  && Qltb (minimum_source_mass E redshift' false astro_params flag_options)
          (SAMPLER_MIN_MASS user_params) = false ->
  (forall i, (i < n_halos halos)%nat -> halo_masses halos i == 0) ->
  (c < npix)%nat ->
  let out :=
    ComputeHaloBox E mac global_params user_params astro_params flag_options
      set_halo_properties set_fixed_grids hbox_consts_0 out_props_0
      averages_0 redshift' lowres_vcb perturbed_field halos
      previous_spin_temp previous_ionize_box grids in
  let consts :=
    set_hbox_constants E global_params user_params astro_params flag_options
      redshift' hbox_consts_0 in
  summed_grids_zero (fst out) c
  /\ hp_m_turn_acg (snd out) = mturn_a_nofb consts
  /\ hp_m_turn_mcg (snd out) = mturn_m_nofb consts
  /\ hp_m_turn_reion (snd out) = 0
  /\ halo_xray (fst out) c = halo_xray grids c / (VOLUME mac / Qnat npix).
Proof.
  intros Hfixed Hsub Hmass Hc. cbv zeta.
  unfold ComputeHaloBox. rewrite Hfixed, Hsub.
  destruct (get_mean_log10_turnovers _ _ _ _ _ _ _ _ _) as [[a m] r].
  unfold sum_halos_onto_grid.
  rewrite sum_loop_massless by exact Hmass.
  cbn [sl_grids n_halos_cut M_turn_r_avg M_turn_a_avg M_turn_m_avg].
  rewrite Nat.add_0_r, Nat.sub_diag. cbn [Nat.ltb Nat.leb fst snd].
  cbn [hp_m_turn_acg hp_m_turn_mcg hp_m_turn_reion].
  destruct (zero_grids_cells grids c) as (Hz & Hx & _).
  destruct (Hz Hc) as (Z1 & Z2 & Z3 & Z4 & Z5 & Z6 & Z7 & Z8).
  match goal with
  | |- context [divide_by_cell_volume _ ?g ?v] =>
      destruct (divide_by_cell_volume_cells g v c) as (Hd & _ & Hcount & _);
      cbv zeta in Hd, Hcount;
      destruct (Hd Hc) as (D1 & D2 & D3 & D4 & D5 & D6 & D7 & D8)
  end.
  cbn [halo_mass halo_stars halo_stars_mini n_ion halo_sfr halo_sfr_mini
       whalo_sfr halo_xray count] in D1, D2, D3, D4, D5, D6, D7, D8, Hcount.
  unfold summed_grids_zero.
  rewrite D1, D2, D3, D4, D5, D6, D7, D8, Hcount, Hx.
  cbn [count].
  rewrite Z1, Z2, Z3, Z4, Z5, Z6, Z7.
  repeat split; try reflexivity; try exact Z8; unfold Qdiv; ring.
Qed.

End HaloBoxProperties.

Section HaloBoxExamples.

Import HaloBox Example.

(** C9, witness: one cell, a catalogue whose only halo has the mass [0],
    and an output structure whose X-ray grid holds [7] on entry: the other
    grids come out as [0], the X-ray grid as [7]. *)
Lemma massless_catalogue_keeps_the_entry_xray_grid_example :
  FIXED_HALO_GRIDS plain_flags = false
  /\ AVG_BELOW_SAMPLER (user 1 true)
     && Qltb (minimum_source_mass externals 8 false (astro 1) plain_flags)
             (SAMPLER_MIN_MASS (user 1 true)) = false
  /\ (forall i, (i < n_halos massless_halo)%nat ->
                halo_masses massless_halo i == 0)
  /\ (0 < HII_TOT_NUM_PIXELS (user 1 true))%nat
  /\ summed_grids_zero (fst gridded) O
  /\ hp_m_turn_acg (snd gridded) == M_TURN (astro 1)
  /\ halo_xray used_grids O == 7
  /\ halo_xray (fst gridded) O == 7.
Proof.
  assert (H2 : AVG_BELOW_SAMPLER (user 1 true)
               && Qltb (minimum_source_mass externals 8 false (astro 1)
                          plain_flags)
                       (SAMPLER_MIN_MASS (user 1 true)) = false)
    by reflexivity.
  assert (H3 : forall i, (i < n_halos massless_halo)%nat ->
                         halo_masses massless_halo i == 0)
    by (intros i _; reflexivity).
  assert (H4 : (0 < HII_TOT_NUM_PIXELS (user 1 true))%nat)
    by (apply Nat.ltb_lt; reflexivity).
  pose proof (massless_catalogue_keeps_the_entry_xray_grid externals macros
                (globals 2) (user 1 true) (astro 1) plain_flags
                halo_properties fixed_grids hbox_consts_0 props_0 props_0 8
                zeros no_field massless_halo spin previous_box used_grids O
                eq_refl H2 H3 H4) as (A & B & _ & _ & D).
  split; [reflexivity |]. split; [exact H2 |]. split; [exact H3 |].
  split; [exact H4 |]. split; [exact A |].
  split; [unfold gridded; rewrite B; q_eq |].
  split; [q_eq |].
  unfold gridded. rewrite D. q_eq.
Defined.

End HaloBoxExamples.

(** ** [SpinTemperatureBox.c]: the shell radii of [setup_z_edges] *)

Section ShellProperties.

Import SpinTemperature.

Local Open Scope R_scope.

Variable E : TsExternals.
Variable P : TsParams.
Variable zp : R.
Variable a0 : ShellArrays.

Local Abbreviation N := (NUM_FILTER_STEPS_FOR_Ts P).

Lemma store_same (a : array) (i : nat) (v : R) : store a i v i = v.
Proof. unfold store. now rewrite Nat.eqb_refl. Qed.

Lemma store_other (a : array) (i j : nat) (v : R) :
  j <> i -> store a i v j = a j.
Proof. unfold store. intro H. apply Nat.eqb_neq in H. now rewrite H. Qed.

(** After [n] iterations the running radius is [R_start * R_factor^n] and
    the radii stored so far are the powers below it. *)
Lemma loop_radii (n : nat) :
  fst (for_cells n (z_edges_step E P zp) (R_start P, a0))
  = R_start P * R_factor P ^ n
  /\ forall k, (k < n)%nat ->
       R_values (snd (for_cells n (z_edges_step E P zp) (R_start P, a0))) k
       = R_start P * R_factor P ^ k.
Proof.
  induction n as [| n [Hf Hv]].
  - split; [unfold for_cells; cbn [seq fold_left fst Rpow_def.pow]; ring | intros k Hk; lia].
  - rewrite for_cells_S.
    destruct (for_cells n (z_edges_step E P zp) (R_start P, a0)) as [Rc a].
    cbn [fst snd] in Hf, Hv. unfold z_edges_step. cbn [fst snd R_values].
    split.
    + rewrite Hf. cbn [Rpow_def.pow]. ring.
    + intros k Hk. destruct (Nat.eq_dec k n) as [-> | Hne].
      * rewrite store_same. exact Hf.
      * rewrite store_other by exact Hne. apply Hv. lia.
Qed.

Lemma setup_z_edges_radii (k : nat) :
  (k < N)%nat ->
  R_values (setup_z_edges E P zp a0) k = R_start P * R_factor P ^ k.
Proof.
  intro Hk. unfold setup_z_edges. now apply loop_radii.
Qed.

(** [N] steps of the factor lead from the first radius to [R_XLy_MAX]. *)
Lemma R_factor_pow_N :
  (0 < N)%nat -> 0 < R_start P -> 0 < R_XLy_MAX P ->
  R_start P * R_factor P ^ N = R_XLy_MAX P.
Proof.
  intros HN Hs Hm. unfold R_factor.
  assert (Hx : 0 < R_XLy_MAX P / R_start P)
    by (apply Rdiv_lt_0_compat; assumption).
  assert (HNr : 0 < INR N) by (apply lt_0_INR; exact HN).
  rewrite <- Rpower_pow by apply exp_pos.
  rewrite Rpower_mult.
  replace (1 / INR N * INR N) with 1 by (field; lra).
  rewrite Rpower_1 by exact Hx. field. lra.
Qed.

(** C8 (as amended): the first radius is the cell scale
    [L_FACTOR*BOX_LEN/HII_DIM] and each radius is the previous one times
    [(R_XLy_MAX/R_0)^(1/NSHELL)], with [NSHELL] itself in the exponent: the
    radii are a geometric progression whose last element is one step of
    the factor short of [R_XLy_MAX]. *)
Theorem shell_radii_step_by_the_Nth_root (k : nat) :
  (S k < N)%nat ->
  let out := setup_z_edges E P zp a0 in
  R_values out O = L_FACTOR P * BOX_LEN P / INR (HII_DIM P)
  /\ R_values out (S k)
     = R_values out k * Rpower (R_XLy_MAX P / R_values out O) (1 / INR N)
  /\ (0 < R_values out O -> 0 < R_XLy_MAX P ->
      R_values out (N - 1)%nat
      * Rpower (R_XLy_MAX P / R_values out O) (1 / INR N)
      = R_XLy_MAX P).
Proof.
  intro Hk. cbv zeta.
  assert (H0 : R_values (setup_z_edges E P zp a0) O = R_start P).
  { rewrite setup_z_edges_radii by lia. cbn [Rpow_def.pow]. ring. }
  rewrite H0. fold (R_factor P).
  split; [reflexivity |]. split.
  - rewrite !setup_z_edges_radii by lia. cbn [Rpow_def.pow]. ring.
  - intros Hs Hm. rewrite setup_z_edges_radii by lia.
    set (m := (N - 1)%nat). assert (HN : N = S m) by (unfold m; lia).
    transitivity (R_start P * R_factor P ^ S m).
    + cbn [Rpow_def.pow]. ring.
    + rewrite <- HN. apply R_factor_pow_N; [lia | assumption | assumption].
Qed.

End ShellProperties.

Section ShellExamples.

Import SpinTemperature ShellExample.

Local Open Scope R_scope.

Lemma example_factor : R_factor params = 2.
Proof.
  unfold R_factor, R_start. cbn [R_XLy_MAX L_FACTOR BOX_LEN HII_DIM
                                 NUM_FILTER_STEPS_FOR_Ts params INR].
  replace (4 / (1 * 1 / 1)) with 4 by field.
  replace (1 / (1 + 1)) with (/ 2) by field.
  rewrite Rpower_sqrt by lra.
  replace 4 with (2 * 2) by ring. apply sqrt_square. lra.
Qed.

Lemma example_start : R_start params = 1.
Proof.
  unfold R_start. cbn [L_FACTOR BOX_LEN HII_DIM params INR]. field.
Qed.

Lemma example_radii :
  R_values shells O = 1 /\ R_values shells 1%nat = 2.
Proof.
  unfold shells. split.
  - rewrite setup_z_edges_radii by (cbn; lia).
    rewrite example_start. cbn [Rpow_def.pow]. ring.
  - rewrite setup_z_edges_radii by (cbn; lia).
    rewrite example_start, example_factor. cbn [Rpow_def.pow]. ring.
Qed.

(** C8, witness: two shells between the radii [1] and [4]; the factor is
    [4^(1/2) = 2] and the radii are [1] and [2]. *)
Lemma shell_radii_step_by_the_Nth_root_example :
  (1 < NUM_FILTER_STEPS_FOR_Ts params)%nat
  /\ R_values shells O
     = L_FACTOR params * BOX_LEN params / INR (HII_DIM params)
  /\ R_values shells 1%nat
     = R_values shells O
       * Rpower (R_XLy_MAX params / R_values shells O)
                (1 / INR (NUM_FILTER_STEPS_FOR_Ts params))
  /\ (0 < R_values shells O -> 0 < R_XLy_MAX params ->
      R_values shells (NUM_FILTER_STEPS_FOR_Ts params - 1)%nat
      * Rpower (R_XLy_MAX params / R_values shells O)
               (1 / INR (NUM_FILTER_STEPS_FOR_Ts params))
      = R_XLy_MAX params).
Proof.
  assert (H : (1 < NUM_FILTER_STEPS_FOR_Ts params)%nat)
    by (apply Nat.ltb_lt; reflexivity).
  split; [exact H |].
  exact (shell_radii_step_by_the_Nth_root externals params 8 empty O H).
Defined.

(** C8, counterexample: with two shells between [1] and [4] the claimed
    factor [(R_XLy_MAX/R_0)^(1/(NSHELL-1))] is [4] and would put the last
    radius at [4 = R_XLy_MAX]; the radii are [1] and [2]. *)
Lemma last_shell_radius_is_not_R_XLy_MAX :
  NUM_FILTER_STEPS_FOR_Ts params = 2%nat
  /\ R_XLy_MAX params = 4
  /\ R_values shells O = 1
  /\ R_values shells 1%nat = 2
  /\ R_values shells O
     * Rpower (R_XLy_MAX params / R_values shells O)
              (1 / INR (NUM_FILTER_STEPS_FOR_Ts params - 1))
     = 4
  /\ R_values shells (NUM_FILTER_STEPS_FOR_Ts params - 1)%nat <> R_XLy_MAX params.
Proof.
  destruct example_radii as [H0 H1].
  split; [reflexivity |]. split; [reflexivity |].
  split; [exact H0 |]. split; [exact H1 |].
  split.
  - rewrite H0. cbn [R_XLy_MAX NUM_FILTER_STEPS_FOR_Ts params Nat.sub INR].
    replace (4 / 1) with 4 by field. replace (1 / 1) with 1 by field.
    rewrite Rpower_1 by lra. ring.
  - cbn [R_XLy_MAX NUM_FILTER_STEPS_FOR_Ts params Nat.sub].
    rewrite H1. lra.
Qed.

End ShellExamples.

(** * Further properties of the code *)

(** ** [interpolation.c]: evaluation of the regular-grid tables *)

Section InterpolationProperties.

Import Interpolation.

Variable fl : Q -> Q.

Lemma entry_inside (n : Z) (a : Z -> Q) (i : Z) :
  (0 <= i < n)%Z -> entry n a i = Some (a i).
Proof.
  intros [H0 H1]. unfold entry.
  apply Z.leb_le in H0. apply Z.ltb_lt in H1. now rewrite H0, H1.
Qed.


Lemma entry2_inside (nx ny : Z) (a : Z -> Z -> Q) (i j : Z) :
  (0 <= i < nx)%Z -> (0 <= j < ny)%Z -> entry2 nx ny a i j = Some (a i j).
Proof.
  intros [H0 H1] Hj. unfold entry2.
  apply Z.leb_le in H0. apply Z.ltb_lt in H1. rewrite H0, H1. cbn.
  now apply entry_inside.
Qed.

Lemma table_index_width (x x0 w : Q) (k : Z) :
  table_index fl x x0 w = Some k -> ~ w == 0.
Proof.
  unfold table_index. destruct (Qeq_bool w 0) eqn:H; [discriminate |].
  intros _ Hw. apply Qeq_bool_iff in Hw. congruence.
Qed.

Lemma table_index_int (x x0 w : Q) (k : Z) :
  table_index fl x x0 w = Some k -> (INT_MIN <= k <= INT_MAX)%Z.
Proof.
  unfold table_index, to_int. destruct (Qeq_bool w 0); [discriminate |].
  destruct (INT_MIN <=? _)%Z eqn:H0; [| discriminate].
  destruct (_ <=? INT_MAX)%Z eqn:H1; [| discriminate].
  cbn. intro H. injection H as <-.
  apply Z.leb_le in H0. apply Z.leb_le in H1. now split.
Qed.



(** X2: A table whose entries sample an affine function reproduces it at
    every abscissa for which the code computes an index [k] with the
    entries [k] and [k+1] in the table, whichever bin the rounding has
    chosen. *)
Theorem EvaluateRGTable1D_affine (x a b : Q) (table : RGTable1D) (k : Z) :
  table_index fl x (x_min table) (x_width table) = Some k ->
  (0 <= k)%Z -> (k + 1 < n_bin table)%Z ->
  (forall i, (0 <= i < n_bin table)%Z ->
             y_arr table i
             == a + b * (x_min table + x_width table * inject_Z i)) ->
  exists v, EvaluateRGTable1D fl x table = Some v /\ v == a + b * x.
Proof.
  intros Hk Hk0 Hk1 Hy.
  pose proof (table_index_width _ _ _ _ Hk) as Hw.
  unfold EvaluateRGTable1D. cbv zeta. rewrite Hk.
  rewrite !entry_inside by lia.
  eexists. split; [reflexivity |].
  rewrite (Hy k), (Hy (k + 1)%Z), inject_Z_plus by lia.
  change (inject_Z 1) with 1. field. exact Hw.
Qed.



(** X5: A two-dimensional table whose entries sample a bilinear function
    [a + b*x + c*y + d*x*y] reproduces it at every point for which the
    code computes indices [(i, j)] with the four corner entries in the
    table. *)
Theorem EvaluateRGTable2D_bilinear (x y a b c d : Q) (table : RGTable2D)
        (i j : Z) :
  table_index fl x (x_min2 table) (x_width2 table) = Some i ->
  table_index fl y (y_min2 table) (y_width2 table) = Some j ->
  (0 <= i)%Z -> (i + 1 < nx_bin table)%Z ->
  (0 <= j)%Z -> (j + 1 < ny_bin table)%Z ->
  (forall i' j', (0 <= i' < nx_bin table)%Z -> (0 <= j' < ny_bin table)%Z ->
     z_arr table i' j'
     == a + b * (x_min2 table + x_width2 table * inject_Z i')
        + c * (y_min2 table + y_width2 table * inject_Z j')
        + d * (x_min2 table + x_width2 table * inject_Z i')
            * (y_min2 table + y_width2 table * inject_Z j')) ->
  exists v, EvaluateRGTable2D fl x y table = Some v
            /\ v == a + b * x + c * y + d * x * y.
Proof.
  intros Hi Hj Hi0 Hi1 Hj0 Hj1 Hz.
  pose proof (table_index_width _ _ _ _ Hi) as Hwx.
  pose proof (table_index_width _ _ _ _ Hj) as Hwy.
  unfold EvaluateRGTable2D. cbv zeta. rewrite Hi, Hj.
  rewrite !entry2_inside by lia.
  eexists. split; [reflexivity |].
  rewrite (Hz i j), (Hz i (j + 1)%Z), (Hz (i + 1)%Z j),
    (Hz (i + 1)%Z (j + 1)%Z), !inject_Z_plus by lia.
  change (inject_Z 1) with 1. field. split; assumption.
Qed.

End InterpolationProperties.

(** ** [IonisationBox.c]: errors, ranges and the first snapshot *)

Section IonisationBoxBehaviour.

Import IonisationBox.

Variable E : Externals.
Variable mac : Macros.
Variable global_params : GlobalParams.
Variable user_params : UserParams.
Variable cosmo_params : CosmoParams.
Variable astro_params : AstroParams.
Variable flag_options : FlagOptions.

Local Abbreviation npix := (HII_TOT_NUM_PIXELS user_params).

(** *** [calculate_mcrit_boxes] *)

Section Mcrit.

Variable prev_ionbox : IonizedBox.
Variable spin_temp : TsBox.
Variable lowres_vcb : grid.
Variable consts : IonBoxConstants.

(** The Lyman-Werner threshold of a cell, as [calculate_mcrit_boxes]
    evaluates it. *)
Local Abbreviation Mcrit_LW ct :=
  (lyman_werner_threshold E (redshift consts) (J_21_LW_box spin_temp ct)
     (if USE_RELATIVE_VELOCITIES user_params && negb (FIX_VCB_AVG flag_options)
      then lowres_vcb ct else vcb_norel consts)
     astro_params).

Local Abbreviation Mcrit_RE ct :=
  (reionization_feedback E (redshift consts) (Gamma12_box prev_ionbox ct)
     (z_re_box prev_ionbox ct)).

Lemma mcrit_loop (n : nat) :
  for_cells n
    (fun ct (acc : Q * Q * bool) =>
       let '(ave, ave_MINI, err) := acc in
       (ave + log10 E (Qmax (Mcrit_RE ct) (mturn_a_nofb consts)),
        ave_MINI
        + log10 E (Qmax (Mcrit_RE ct)
                        (Qmax (Mcrit_LW ct) (mturn_m_nofb consts))),
        err || Qeq_bool (Mcrit_LW ct) 0))
    (0, 0, false)
  = (sum_cells n
       (fun ct => log10 E (Qmax (Mcrit_RE ct) (mturn_a_nofb consts))),
     sum_cells n
       (fun ct => log10 E (Qmax (Mcrit_RE ct)
                                (Qmax (Mcrit_LW ct) (mturn_m_nofb consts)))),
     existsb (fun ct => Qeq_bool (Mcrit_LW ct) 0) (seq 0 n)).
Proof.
  induction n as [| n IH]; [reflexivity |].
  rewrite for_cells_S, IH, seq_S, existsb_app. cbn [sum_cells existsb Nat.add].
  now rewrite orb_false_r.
Qed.

(** X6: [calculate_mcrit_boxes] throws [ValueError] exactly when the
    Lyman-Werner threshold of some cell of the lattice is zero; otherwise,
    on a lattice that is not empty, it returns the lattice means of the
    two log10 turnover masses. *)
Theorem calculate_mcrit_boxes_fails_on_a_zero_threshold :
  (calculate_mcrit_boxes E user_params astro_params flag_options prev_ionbox
     spin_temp lowres_vcb consts = inl ValueError
   <-> exists ct, (ct < npix)%nat /\ Mcrit_LW ct == 0)
  /\ ((0 < npix)%nat ->
      (forall ct, (ct < npix)%nat -> ~ Mcrit_LW ct == 0) ->
      calculate_mcrit_boxes E user_params astro_params flag_options
        prev_ionbox spin_temp lowres_vcb consts
      = inr (sum_cells npix
               (fun ct => log10 E (Qmax (Mcrit_RE ct) (mturn_a_nofb consts)))
             / Qnat npix,
             sum_cells npix
               (fun ct =>
                  log10 E (Qmax (Mcrit_RE ct)
                                (Qmax (Mcrit_LW ct) (mturn_m_nofb consts))))
             / Qnat npix)).
Proof.
  unfold calculate_mcrit_boxes. cbv zeta. rewrite mcrit_loop.
  destruct (existsb (fun ct => Qeq_bool (Mcrit_LW ct) 0) (seq 0 npix)) eqn:Hex.
  - apply existsb_exists in Hex. destruct Hex as (ct & Hin & Hz).
    apply in_seq in Hin. apply Qeq_bool_iff in Hz.
    split.
    + split; [intros _ | reflexivity]. exists ct. split; [lia | exact Hz].
    + intros _ Hall. exfalso. apply (Hall ct); [lia | exact Hz].
  - split; [| intros _ _; reflexivity].
    split; [discriminate |].
    intros (ct & Hlt & Hz). exfalso.
    assert (Hin : existsb (fun ct => Qeq_bool (Mcrit_LW ct) 0) (seq 0 npix)
                  = true).
    { apply existsb_exists. exists ct. split.
      - apply in_seq. lia.
      - apply Qeq_bool_iff. exact Hz. }
    congruence.
Qed.

End Mcrit.

(** *** [set_ionized_temperatures] *)

(** The temperature of the neutral gas in a cell. *)
Local Abbreviation T_neutral spin_temp perturbed_field consts ct :=
  (if USE_TS_FLUCT flag_options then Tk_box spin_temp ct
   else TK_nofluct consts
        * (1 + adia_TK_term consts * density perturbed_field ct)).

(** X7: [set_ionized_temperatures] writes the temperature of the cells of the
    lattice that have a positive redshift of reionisation and a neutral
    fraction below [TINY], and of no other cell; the temperature it writes
    is the fully ionised one, raised to the temperature of the neutral gas
    when it is below it. *)
Theorem ionized_temperature_is_floored_by_the_neutral_one
        (box : IonizedBox) (perturbed_field : PerturbedField)
        (spin_temp : TsBox) (consts : IonBoxConstants) (c : nat) :
  let out := set_ionized_temperatures E mac user_params flag_options box
                                      perturbed_field spin_temp consts in
  let T := ComputeFullyIoinizedTemperature E (z_re_box box c)
             (stored_redshift consts) (density perturbed_field c) in
  if (c <? npix)%nat && Qltb 0 (z_re_box box c) && Qltb (xH_box box c) (TINY mac)
  then temp_kinetic_all_gas out c
       = (if Qltb T (T_neutral spin_temp perturbed_field consts c)
          then T_neutral spin_temp perturbed_field consts c else T)
       /\ T_neutral spin_temp perturbed_field consts c
          <= temp_kinetic_all_gas out c
       /\ T <= temp_kinetic_all_gas out c
  else temp_kinetic_all_gas out c = temp_kinetic_all_gas box c.
Proof.
  cbv zeta.
  set (T := ComputeFullyIoinizedTemperature E (z_re_box box c)
              (stored_redshift consts) (density perturbed_field c)).
  set (fl := T_neutral spin_temp perturbed_field consts c).
  assert (Hval : temp_kinetic_all_gas
                   (set_ionized_temperatures E mac user_params flag_options
                      box perturbed_field spin_temp consts) c
                 = if (c <? npix)%nat && Qltb 0 (z_re_box box c)
                      && Qltb (xH_box box c) (TINY mac)
                   then (if Qltb T fl then fl else T)
                   else temp_kinetic_all_gas box c).
  { unfold set_ionized_temperatures.
    induction npix as [| n IH]; [reflexivity |].
    rewrite for_cells_S.
    set (b := for_cells n _ box) in *.
    assert (Hb : xH_box b = xH_box box /\ z_re_box b = z_re_box box).
    { unfold b.
      apply (for_cells_inv
               (fun b => xH_box b = xH_box box /\ z_re_box b = z_re_box box));
        [auto |].
      intros ct b' _ Hb'.
      destruct (Qltb 0 (z_re_box b' ct) && Qltb (xH_box b' ct) (TINY mac));
        [cbn | exact Hb']. exact Hb'. }
    destruct Hb as [Hx Hz]. cbv beta. rewrite Hx, Hz.
    destruct (Nat.eqb_spec c n) as [-> | Hne].
    - assert (Hn : (n <? S n)%nat = true) by (apply Nat.ltb_lt; lia).
      rewrite Hn. cbn [andb].
      destruct (Qltb 0 (z_re_box box n) && Qltb (xH_box box n) (TINY mac))
        eqn:Hc.
      + cbn [temp_kinetic_all_gas set_temp_kinetic_all_gas].
        rewrite upd_same. reflexivity.
      + rewrite IH.
        assert (Hn' : (n <? n)%nat = false) by (apply Nat.ltb_ge; lia).
        now rewrite Hn'.
    - assert (Hs : (c <? S n)%nat = (c <? n)%nat).
      { destruct (Nat.ltb_spec c n), (Nat.ltb_spec c (S n));
          try reflexivity; lia. }
      rewrite Hs, <- IH.
      destruct (Qltb 0 (z_re_box box n) && Qltb (xH_box box n) (TINY mac));
        [| reflexivity].
      cbn [temp_kinetic_all_gas set_temp_kinetic_all_gas].
      now rewrite upd_other by exact Hne. }
  rewrite Hval.
  destruct ((c <? npix)%nat && Qltb 0 (z_re_box box c)
            && Qltb (xH_box box c) (TINY mac)); [| reflexivity].
  split; [reflexivity |].
  destruct (Qltb T fl) eqn:Hlt.
  - apply Qltb_lt in Hlt. split; lra.
  - apply Qltb_ge in Hlt. split; lra.
Qed.

(** *** The neutral fraction stays a fraction *)

Section Ranges.

Variable copy_filter_transform : RadiusSpec -> FilteredGrids.
Variable ind : Indeterminate.
Variable previous_ionize_box : IonizedBox.
Variable perturbed_field : PerturbedField.
Variable spin_temp : TsBox.
Variable consts : IonBoxConstants.
Variables f_limit_acg f_limit_mcg : Q.

Local Abbreviation unit_range b :=
  (forall c : nat, 0 <= xH_box b c /\ xH_box b c <= 1).

Lemma clipped_fraction (r : Q) :
  0 <= (if Qltb r 0 then 0 else if Qltb 1 r then 1 else r)
  /\ (if Qltb r 0 then 0 else if Qltb 1 r then 1 else r) <= 1.
Proof.
  destruct (Qltb r 0) eqn:H0; [split; lra |].
  destruct (Qltb 1 r) eqn:H1; [split; lra |].
  apply Qltb_ge in H0, H1. split; lra.
Qed.

Lemma cell_step_range (rspec : RadiusSpec) (fg : FilteredGrids)
      (mfa mfm : Q) (ct : nat) (st : IonLoop) :
  unit_range (il_box st) ->
  unit_range
    (il_box (find_ionised_cell E mac global_params user_params cosmo_params
               flag_options previous_ionize_box perturbed_field spin_temp
               rspec consts fg f_limit_acg f_limit_mcg mfa mfm ct st)).
Proof.
  intro H. unfold find_ionised_cell.
  destruct (is_ionized consts _).
  - destruct (INHOMO_RECO flag_options && _),
      (FIND_BUBBLE_ALGORITHM global_params =? 2)%Z,
      (FIND_BUBBLE_ALGORITHM global_params =? 1)%Z; cbn; intro c;
      unfold update_in_sphere, upd;
      repeat match goal with |- context [if ?b then _ else _] => destruct b end;
      try apply H; split; lra.
  - destruct ((R_index rspec =? 0)%nat && _); [| exact H].
    destruct (USE_HALO_FIELD flag_options).
    + cbn. intro c. unfold upd.
      destruct (Nat.eqb c ct); [apply clipped_fraction | apply H].
    + destruct (draw_N_halos_in_cell _ _ _ _) as [N rng'].
      destruct (partial_fcolls _ _ _ _ _) as [f m]. cbn. intro c. unfold upd.
      destruct (Nat.eqb c ct); [apply clipped_fraction | apply H].
Qed.

Lemma radius_loop_range (rs : list RadiusSpec) (st : IonLoop) :
  unit_range (il_box st) ->
  unit_range
    (il_box (R_loop E mac global_params user_params cosmo_params flag_options
               copy_filter_transform ind previous_ionize_box perturbed_field
               spin_temp consts f_limit_acg f_limit_mcg rs st)).
Proof.
  rewrite Rloop_executed.
  generalize (executed_radii E consts rs). intro l. revert st.
  induction l as [| r l IH]; intros st H; [exact H |].
  cbn [fold_left]. apply IH.
  destruct (Rstep_cells E mac global_params user_params cosmo_params
              flag_options copy_filter_transform ind previous_ionize_box
              perturbed_field spin_temp consts f_limit_acg f_limit_mcg r st)
    as (box0 & fg2 & rspec2 & mfa & mfm & -> & Hx & _).
  apply (for_cells_inv (fun s => unit_range (il_box s))).
  - cbn [il_box]. rewrite Hx. exact H.
  - intros ct s _ Hs. now apply cell_step_range.
Qed.

(** The terms of a cell are read from grids that the loop over the cells
    leaves alone: they are those of the box on entry. *)
Lemma cell_terms_on_entry (b1 b2 : IonizedBox) (rspec : RadiusSpec)
      (fg : FilteredGrids) (mfa mfm : Q) (ct : nat) :
  Fcoll b1 = Fcoll b2 -> Fcoll_MINI b1 = Fcoll_MINI b2 ->
  cell_terms mac user_params cosmo_params flag_options b1
    previous_ionize_box perturbed_field rspec consts fg
    f_limit_acg f_limit_mcg mfa mfm ct
  = cell_terms mac user_params cosmo_params flag_options b2
      previous_ionize_box perturbed_field rspec consts fg
      f_limit_acg f_limit_mcg mfa mfm ct.
Proof.
  intros H1 H2. unfold cell_terms. now rewrite H1, H2.
Qed.


End Ranges.

(** *** The whole snapshot *)

Section Snapshot.

Variable ind : Indeterminate.
Variable copy_filter_transform : RadiusSpec -> FilteredGrids.
Variable radii_spec : list RadiusSpec.
Variables redshift' prev_redshift' : Q.
Variables perturbed_field previous_perturbed_field : PerturbedField.
Variable previous_ionize_box : IonizedBox.
Variable spin_temp : TsBox.
Variable lowres_vcb : grid.
Variable box : IonizedBox.

Local Abbreviation setup :=
  (ionbox_setup E mac global_params user_params cosmo_params astro_params
     flag_options ind redshift' prev_redshift' previous_perturbed_field
     previous_ionize_box spin_temp lowres_vcb box).

Local Abbreviation compute :=
  (ComputeIonizedBox E mac global_params user_params cosmo_params
     astro_params flag_options ind copy_filter_transform radii_spec redshift'
     prev_redshift' perturbed_field previous_perturbed_field
     previous_ionize_box spin_temp lowres_vcb box).

(** X8: A bubble algorithm other than [1] and [2] is refused with
    [ValueError], whatever the other inputs are. *)
Theorem unknown_bubble_algorithm_is_refused :
  FIND_BUBBLE_ALGORITHM global_params <> 1%Z ->
  FIND_BUBBLE_ALGORITHM global_params <> 2%Z ->
  compute = inl ValueError.
Proof.
  intros H1 H2. unfold ComputeIonizedBox, ionbox_setup.
  apply Z.eqb_neq in H1, H2. now rewrite H1, H2.
Qed.

Lemma setup_fabs_dtdz (s : IonSetup) :
  setup = inr s ->
  fabs_dtdz (su_consts s) = Qabs (dtdz E redshift') / 1e15.
Proof.
  unfold ionbox_setup.
  destruct (negb (FIND_BUBBLE_ALGORITHM global_params =? 2)%Z
            && negb (FIND_BUBBLE_ALGORITHM global_params =? 1)%Z);
    [discriminate |].
  set (c0 := set_ionbox_constants _ _ _ _ _ _ _ _ _ _).
  set (consts := if (PHOTON_CONS_TYPE flag_options =? 1)%Z then _ else c0).
  assert (Hd : fabs_dtdz consts = Qabs (dtdz E redshift') / 1e15).
  { unfold consts.
    destruct (PHOTON_CONS_TYPE flag_options =? 1)%Z; [| reflexivity].
    destruct (adjust_redshifts_for_photoncons E astro_params flag_options
                redshift') as [[a b] d]. reflexivity. }
  match goal with
  | |- match ?t with inl _ => _ | inr _ => _ end = _ -> _ =>
      destruct t as [e | [[box3 mt] mtm]]; [discriminate |]
  end.
  destruct (set_mean_fcoll _ _ _ _ _ _ _ _ _) as [[box4 fa] fm].
  intro H. injection H as <-. exact Hd.
Qed.

(** X11: At the first snapshot ([prev_redshift < 1]) with inhomogeneous
    recombinations, when the radius loop runs, the recombination count of a
    cell is [rate * |dt/dz| * (1 + z)*(ZPRIME_STEP_FACTOR - 1) * (1 - xH)]:
    the previous count is that of the dummy previous box, zero.  It is not
    negative when the rate is not, the step factor is at least [1], the
    redshift at least [-1] and the neutral fraction at most [1]. *)
Theorem first_snapshot_recombinations_start_from_zero
        (s : IonSetup) (out : IonizedBox) (c : nat) :
  setup = inr s -> compute = inr out ->
  INHOMO_RECO flag_options = true ->
  Qltb (exp_global_hii s) (HII_ROUND_ERR global_params) = false ->
  prev_redshift' < 1 ->
  (c < npix)%nat ->
  let rate :=
    splined_recombination_rate E
      (pow E (1 + density perturbed_field c) (1 / 3)
       * (1 + stored_redshift (su_consts s)) - 1)
      (Gamma12_box out c) in
  dNrec_box out c
  == rate * (Qabs (dtdz E redshift') / 1e15)
     * ((1 + redshift') * (ZPRIME_STEP_FACTOR global_params - 1))
     * (1 - xH_box out c)
  /\ (0 <= rate -> 1 <= ZPRIME_STEP_FACTOR global_params ->
      - (1) <= redshift' -> xH_box out c <= 1 ->
      0 <= dNrec_box out c).
Proof.
  intros Hs Hout Hreco Hrun Hfirst Hc. cbv zeta.
  destruct (setup_facts E mac global_params user_params cosmo_params
              astro_params flag_options ind redshift' prev_redshift'
              previous_perturbed_field previous_ionize_box spin_temp
              lowres_vcb box s Hs) as (_ & _ & _ & Hdz & Hprev).
  pose proof (setup_fabs_dtdz s Hs) as Hfabs.
  apply Qltb_lt in Hfirst. rewrite Hfirst in Hdz, Hprev.
  unfold ComputeIonizedBox in Hout. rewrite Hs, Hrun, Hreco in Hout.
  destruct (set_recombination_rates_cells _ _ _ _ _ _ _ _ c Hout)
    as (_ & _ & Hd).
  destruct (set_recombination_rates_fields _ _ _ _ _ _ _ _ Hout) as (HG & Hx).
  apply Nat.ltb_lt in Hc. rewrite Hc in Hd.
  assert (Hzero : dNrec_box (su_prev_box s) c = 0).
  { rewrite Hprev. unfold setup_first_z_prevbox. rewrite Hreco.
    destruct (USE_MINI_HALOS flag_options); reflexivity. }
  assert (Heq : dNrec_box out c
                = 0 + dNrec_cell E out perturbed_field (su_consts s) c).
  { rewrite Hd, Hzero. f_equal. symmetry. now apply dNrec_cell_ext. }
  unfold dNrec_cell in Heq. rewrite Hdz, Hfabs in Heq.
  set (rate := splined_recombination_rate _ _ _) in *.
  set (a := Qabs (dtdz E redshift') / 1e15) in *.
  assert (Hval : dNrec_box out c
                 == rate * a
                    * ((1 + redshift') * (ZPRIME_STEP_FACTOR global_params - 1))
                    * (1 - xH_box out c)).
  { rewrite Heq. ring. }
  split; [exact Hval |].
  intros Hrate Hstep Hz HxH. rewrite Hval.
  assert (Ha : 0 <= a).
  { unfold a. apply Qle_shift_div_l; [unfold Qlt; vm_compute; reflexivity |].
    rewrite Qmult_0_l. apply Qabs_nonneg. }
  clearbody rate a.
  apply Qmult_le_0_compat; [| lra].
  apply Qmult_le_0_compat;
    [apply Qmult_le_0_compat; assumption
    | apply Qmult_le_0_compat; lra].
Qed.

(** X12: [set_recombination_rates] declares its error flag without a value and
    only ever sets it: when the flag holds [true] on entry, the call fails
    with [InfinityorNaNError] whatever the box holds; and when the call
    returns, the flag was clear on entry and every cell of the lattice
    holds the recombinations of the previous box plus the increment of the
    cell. *)
Theorem error_flag_set_on_entry_fails_the_recombination_rates
        (b : IonizedBox) (consts : IonBoxConstants) :
  (finite_error_0 ind = true ->
   set_recombination_rates E user_params ind b previous_ionize_box
     perturbed_field consts = inl InfinityorNaNError)
  /\ (forall out,
        set_recombination_rates E user_params ind b previous_ionize_box
          perturbed_field consts = inr out ->
        finite_error_0 ind = false
        /\ forall c, (c < npix)%nat ->
             dNrec_box out c
             = dNrec_box previous_ionize_box c
               + dNrec_cell E b perturbed_field consts c).
Proof.
  split.
  - intro H. unfold set_recombination_rates. now rewrite H.
  - intros out Hout. split.
    + unfold set_recombination_rates in Hout.
      destruct (finite_error_0 ind); [discriminate | reflexivity].
    + intros c Hc.
      destruct (set_recombination_rates_cells _ _ _ _ _ _ _ _ c Hout)
        as (_ & _ & Hd).
      apply Nat.ltb_lt in Hc. now rewrite Hc in Hd.
Qed.

End Snapshot.

End IonisationBoxBehaviour.

(** ** [IonisationBox.c]: clipping and the filter radii *)

Section IonisationGridsProperties.

Import IonisationBox IonisationGrids.

Variable E : Externals.
Variable mac : Macros.
Variable global_params : GlobalParams.
Variable user_params : UserParams.
Variable flag_options : FlagOptions.
Variables R_BUBBLE_MAX R_BUBBLE_MIN DELTA_R_HII_FACTOR L_FACTOR : Q.

Local Abbreviation npix := (HII_TOT_NUM_PIXELS user_params).

Lemma clamp_range (x l u : Q) :
  l <= u -> l <= Qmax (Qmin x u) l /\ Qmax (Qmin x u) l <= u.
Proof.
  intro H. split; [apply Q.le_max_r |].
  apply Q.max_lub; [apply Q.le_min_r | exact H].
Qed.

Lemma clamp_fixed (x l u : Q) :
  l <= x -> x <= u -> Qmax (Qmin x u) l == x.
Proof.
  intros Hl Hu. rewrite (Q.min_l x u) by exact Hu. now apply Q.max_l.
Qed.

Lemma clip_loop (g : grid) (l u : Q) (n : nat) :
  let out :=
    for_cells n
      (fun ct (st : grid * Q * Q) =>
         let '(g', min_buf, max_buf) := st in
         let curr := g' ct in
         (upd g' ct (Qmax (Qmin curr u) l),
          if Qltb curr min_buf then curr else min_buf,
          if Qltb max_buf curr then curr else max_buf))
      (g, g O, g O) in
  (forall c, fst (fst out) c
             = if (c <? n)%nat then Qmax (Qmin (g c) u) l else g c)
  /\ snd (fst out) <= g O /\ g O <= snd out
  /\ (forall c, (c < n)%nat -> snd (fst out) <= g c /\ g c <= snd out)
  /\ (exists c, (c < n \/ c = O)%nat /\ snd (fst out) = g c)
  /\ (exists c, (c < n \/ c = O)%nat /\ snd out = g c).
Proof.
  induction n as [| n IH]; cbv zeta.
  - cbn. repeat split; try lra; try (intros; lia); exists O; auto.
  - rewrite for_cells_S. cbv zeta in IH.
    destruct (for_cells n _ (g, g O, g O)) as [[g' mn] mx].
    cbn [fst snd] in IH. destruct IH as (Hg & Hmn & Hmx & Hall & Hamn & Hamx).
    cbn [fst snd].
    assert (Hcur : g' n = g n).
    { rewrite Hg. assert (H : (n <? n)%nat = false) by (apply Nat.ltb_ge; lia).
      now rewrite H. }
    rewrite Hcur.
    assert (Hmn' : (if Qltb (g n) mn then g n else mn) <= mn
                   /\ (if Qltb (g n) mn then g n else mn) <= g n).
    { destruct (Qltb (g n) mn) eqn:Hc.
      - apply Qltb_lt in Hc. split; lra.
      - apply Qltb_ge in Hc. split; lra. }
    assert (Hmx' : mx <= (if Qltb mx (g n) then g n else mx)
                   /\ g n <= (if Qltb mx (g n) then g n else mx)).
    { destruct (Qltb mx (g n)) eqn:Hc.
      - apply Qltb_lt in Hc. split; lra.
      - apply Qltb_ge in Hc. split; lra. }
    destruct Hmn' as [M1 M2], Hmx' as [X1 X2].
    split; [| split; [lra | split; [lra | split; [| split]]]].
    + intro c. unfold upd. destruct (Nat.eqb_spec c n) as [-> | Hne].
      * assert (H : (n <? S n)%nat = true) by (apply Nat.ltb_lt; lia).
        now rewrite H.
      * rewrite Hg.
        destruct (Nat.ltb_spec c n), (Nat.ltb_spec c (S n));
          try reflexivity; lia.
    + intros c Hc. destruct (Nat.eq_dec c n) as [-> | Hne]; [split; lra |].
      destruct (Hall c) as [A B]; [lia | split; lra].
    + destruct (Qltb (g n) mn).
      * exists n. split; [left; lia | reflexivity].
      * destruct Hamn as (c & [Hc | Hc] & Hv); exists c; split; auto; left; lia.
    + destruct (Qltb mx (g n)).
      * exists n. split; [left; lia | reflexivity].
      * destruct Hamx as (c & [Hc | Hc] & Hv); exists c; split; auto; left; lia.
Qed.

Lemma clip_extrema_facts
        (g : grid) (lower_limit upper_limit : Q) :
  let out := clip_and_get_extrema user_params g lower_limit upper_limit in
  let clipped := fst (fst out) in
  let grid_min := snd (fst out) in
  let grid_max := snd out in
  (forall c, clipped c
             = if (c <? npix)%nat
               then Qmax (Qmin (g c) upper_limit) lower_limit else g c)
  /\ (lower_limit <= upper_limit ->
      forall c, (c < npix)%nat ->
        lower_limit <= clipped c /\ clipped c <= upper_limit)
  /\ grid_min <= g O /\ g O <= grid_max
  /\ (forall c, (c < npix)%nat -> grid_min <= g c /\ g c <= grid_max)
  /\ (exists c, (c < npix \/ c = O)%nat /\ grid_min = g c)
  /\ (exists c, (c < npix \/ c = O)%nat /\ grid_max = g c).
Proof.
  cbv zeta. unfold clip_and_get_extrema.
  pose proof (clip_loop g lower_limit upper_limit npix) as H.
  cbv zeta in H. destruct H as (Hg & Hmn & Hmx & Hall & Hamn & Hamx).
  split; [exact Hg |]. split; [| auto].
  intros Hlu c Hc. rewrite Hg. apply Nat.ltb_lt in Hc. rewrite Hc.
  now apply clamp_range.
Qed.

(** X13: [clip_and_get_extrema] clamps every cell of the lattice to
    [[lower_limit, upper_limit]] and leaves the rest of the buffer alone;
    the two extrema it returns are those of the buffer as it was BEFORE
    the clipping (the first cell included, even on an empty lattice): they
    bound every cell of the unclipped lattice, each is the unclipped value
    of some cell, and they need not lie within the limits. *)
Theorem clip_and_get_extrema_returns_the_unclipped_extrema
        (g : grid) (lower_limit upper_limit : Q) :
  let out := clip_and_get_extrema user_params g lower_limit upper_limit in
  let clipped := fst (fst out) in
  let grid_min := snd (fst out) in
  let grid_max := snd out in
  (forall c, clipped c
             = if (c <? npix)%nat
               then Qmax (Qmin (g c) upper_limit) lower_limit else g c)
  /\ (lower_limit <= upper_limit ->
      forall c, (c < npix)%nat ->
        lower_limit <= clipped c /\ clipped c <= upper_limit)
  /\ grid_min <= g O /\ g O <= grid_max
  /\ (forall c, (c < npix)%nat -> grid_min <= g c /\ g c <= grid_max)
  /\ (exists c, (c < npix \/ c = O)%nat /\ grid_min = g c)
  /\ (exists c, (c < npix \/ c = O)%nat /\ grid_max = g c).
Proof.
  exact (clip_extrema_facts g lower_limit upper_limit).
Qed.

(** X14: Clipping a second time with the same limits changes no cell. *)
Theorem clipping_twice_is_clipping_once
        (g : grid) (lower_limit upper_limit : Q) (c : nat) :
  lower_limit <= upper_limit ->
  let once :=
    fst (fst (clip_and_get_extrema user_params g lower_limit upper_limit)) in
  let twice :=
    fst (fst (clip_and_get_extrema user_params once lower_limit upper_limit)) in
  twice c == once c
  /\ ((c < npix)%nat ->
      lower_limit
      <= snd (fst (clip_and_get_extrema user_params once lower_limit
                     upper_limit))
      /\ snd (clip_and_get_extrema user_params once lower_limit upper_limit)
         <= upper_limit).
Proof.
  intro Hlu. cbv zeta.
  destruct (clip_extrema_facts g lower_limit upper_limit) as (Hg & Hr & _).
  cbv zeta in Hg, Hr.
  set (once := fst (fst (clip_and_get_extrema user_params g lower_limit
                           upper_limit))) in *.
  destruct (clip_extrema_facts once lower_limit upper_limit)
    as (Hg2 & _ & _ & _ & _ & Hamn & Hamx).
  cbv zeta in Hg2, Hamn, Hamx.
  split.
  - rewrite Hg2. destruct (c <? npix)%nat eqn:Hc; [| reflexivity].
    apply Nat.ltb_lt in Hc. destruct (Hr Hlu c Hc) as [A B].
    now apply clamp_fixed.
  - intro Hc.
    assert (Hin : forall k, (k < npix \/ k = O)%nat ->
                            lower_limit <= once k /\ once k <= upper_limit).
    { intros k [Hk | ->]; apply (Hr Hlu); [exact Hk | lia]. }
    destruct Hamn as (k1 & Hk1 & ->), Hamx as (k2 & Hk2 & ->).
    split; [apply (Hin k1 Hk1) | apply (Hin k2 Hk2)].
Qed.

(** *** [setup_radii] *)

Lemma radii_loop_spec (rspec_0 : nat -> RadiusSpec) (rmin rmax : Q)
      (remaining i : nat) :
  let l := radii_loop E mac DELTA_R_HII_FACTOR rspec_0 rmin rmax remaining i in
  (length l <= remaining)%nat
  /\ forall k r, nth_error l k = Some r ->
       R_index r = (i + k)%nat
       /\ M_max_R r = RtoM E (R r)
       /\ ln_M_max_R r = log E (M_max_R r)
       /\ sigma_maxmass r = sigma_z0 E (M_max_R r)
       /\ (R r = rmax
           /\ rmax - FRACT_FLOAT_ERR mac
              < rmin * pow E DELTA_R_HII_FACTOR (Qnat (i + k))
           /\ S k = length l
           \/ R r = rmin * pow E DELTA_R_HII_FACTOR (Qnat (i + k))
              /\ R r <= rmax - FRACT_FLOAT_ERR mac).
Proof.
  revert i. induction remaining as [| n IH]; intro i; cbv zeta.
  - cbn. split; [lia |]. intros [| k] r H; discriminate.
  - cbn [radii_loop].
    set (R0 := rmin * pow E DELTA_R_HII_FACTOR (Qnat i)).
    destruct (Qltb (rmax - FRACT_FLOAT_ERR mac) R0) eqn:Hcap.
    + cbn [length]. split; [lia |].
      intros [| k] r H; [| destruct k; discriminate].
      injection H as <-. cbn [R R_index M_max_R ln_M_max_R sigma_maxmass].
      rewrite Nat.add_0_r. repeat split.
      left. apply Qltb_lt in Hcap. repeat split. exact Hcap.
    + specialize (IH (S i)). cbv zeta in IH. destruct IH as [Hlen Hnth].
      cbn [length]. split; [lia |].
      intros [| k] r H.
      * injection H as <-. cbn [R R_index M_max_R ln_M_max_R sigma_maxmass].
        rewrite Nat.add_0_r. repeat split.
        right. apply Qltb_ge in Hcap. split; [reflexivity | exact Hcap].
      * cbn [nth_error] in H. destruct (Hnth k r H) as (A & B & C & D & F).
        replace (i + S k)%nat with (S i + k)%nat by lia.
        repeat split; try assumption.
        destruct F as [(F1 & F2 & F3) | F]; [left | right; exact F].
        repeat split; try assumption. now rewrite F3.
Qed.

(** X15: [setup_radii] numbers the radii from [0]; each radius carries the mass,
    log mass and sigma of its own value; no radius exceeds the maximum
    radius [min(R_BUBBLE_MAX, L_FACTOR*BOX_LEN)]; a radius is set to the
    maximum exactly when its geometric value comes within
    [FRACT_FLOAT_ERR] of it, and the array ends there; and the returned
    count is the number of entries written.  The two divisors of the
    initial estimate of the count (the minimum radius and the logarithm of
    the step factor) are taken different from zero. *)
Theorem setup_radii_stops_at_the_maximum_radius
        (rspec_0 : nat -> RadiusSpec) (consts : IonBoxConstants)
        (k : nat) (r : RadiusSpec) :
  0 <= FRACT_FLOAT_ERR mac ->
  ~ log E DELTA_R_HII_FACTOR == 0 ->
  ~ minimum_radius global_params flag_options R_BUBBLE_MIN L_FACTOR consts
    == 0 ->
  let out := setup_radii E mac global_params user_params flag_options
               R_BUBBLE_MAX R_BUBBLE_MIN DELTA_R_HII_FACTOR L_FACTOR
               rspec_0 consts in
  let rmax := maximum_radius user_params R_BUBBLE_MAX L_FACTOR in
  let rmin := minimum_radius global_params flag_options R_BUBBLE_MIN L_FACTOR
                             consts in
  let geometric := rmin * pow E DELTA_R_HII_FACTOR (Qnat k) in
  nth_error (snd out) k = Some r ->
  R_index r = k
  /\ M_max_R r = RtoM E (R r)
  /\ ln_M_max_R r = log E (M_max_R r)
  /\ sigma_maxmass r = sigma_z0 E (M_max_R r)
  /\ R r <= rmax
  /\ (if Qltb (rmax - FRACT_FLOAT_ERR mac) geometric
      then R r = rmax /\ S k = length (snd out)
      else R r = geometric)
  /\ fst out = Z.of_nat (length (snd out)).
Proof.
  intros Herr _ _. cbv zeta. unfold setup_radii. cbv zeta. cbn [fst snd].
  set (rmax := maximum_radius user_params R_BUBBLE_MAX L_FACTOR).
  set (rmin := minimum_radius global_params flag_options R_BUBBLE_MIN L_FACTOR
                              consts).
  set (n0 := (Qceiling _ + 1)%Z).
  intro Hnth.
  pose proof (radii_loop_spec rspec_0 rmin rmax (Z.to_nat n0) O) as Hl.
  cbv zeta in Hl. destruct Hl as [Hlen Hall].
  destruct (Hall k r Hnth) as (A & B & C & D & F). cbn [Nat.add] in A, F.
  assert (Hpos : (0 <? n0)%Z = true).
  { apply Z.ltb_lt. destruct (Z_lt_le_dec 0 n0) as [Hp | Hn]; [exact Hp |].
    exfalso. replace (Z.to_nat n0) with O in Hnth by lia.
    destruct k; discriminate. }
  rewrite Hpos.
  repeat split; try assumption.
  - destruct F as [(F1 & _) | (F1 & F2)]; [rewrite F1; apply Qle_refl | lra].
  - destruct F as [(F1 & F2 & F3) | (F1 & F2)].
    + apply Qltb_lt in F2. rewrite F2. split; assumption.
    + rewrite <- F1. apply Qltb_ge in F2. rewrite F2. reflexivity.
Qed.

End IonisationGridsProperties.

(** ** [PerturbHaloField.c]: the displaced catalogue *)

Section PerturbHaloFieldProperties.

Import HaloBox PerturbHaloField.

Lemma DI_positive : 0 < DI.
Proof. reflexivity. Qed.

Lemma Qnat_S (n : nat) : Qnat (S n) == Qnat n + 1.
Proof.
  unfold Qnat. rewrite Nat2Z.inj_succ, <- Z.add_1_r, inject_Z_plus.
  reflexivity.
Qed.

Lemma Qnat_nonneg (n : nat) : 0 <= Qnat n.
Proof.
  unfold Qnat. change 0 with (inject_Z 0). rewrite <- Zle_Qle. lia.
Qed.

(** The first loop: [fuel] iterations are enough for a value below
    [fuel * DI]; the loop then leaves a value below [DI], which differs
    from the input by a multiple of [DI], does not fall below zero, and is
    the input when that was below [DI] already. *)
Lemma wrap_down_spec (fuel : nat) (v : Q) :
  v < Qnat fuel * DI ->
  wrap_down fuel v < DI
  /\ (0 <= v -> 0 <= wrap_down fuel v)
  /\ (v < DI -> wrap_down fuel v = v)
  /\ exists k : nat, wrap_down fuel v == v - Qnat k * DI.
Proof.
  pose proof DI_positive as HD.
  revert v. induction fuel as [| f IH]; intros v Hv.
  - cbn [wrap_down]. change (Qnat 0) with 0 in Hv.
    repeat split; try lra; try reflexivity.
    exists O. change (Qnat 0) with 0. ring.
  - cbn [wrap_down]. rewrite Qnat_S in Hv.
    destruct (Qle_bool DI v) eqn:Hc.
    + apply Qle_bool_iff in Hc.
      destruct (IH (v - DI)) as (A & B & C & k & Hk); [lra |].
      split; [exact A |]. split; [intros _; apply B; lra |].
      split; [intro; lra |].
      exists (S k). rewrite Hk, Qnat_S. ring.
    + assert (Hlt : v < DI).
      { destruct (Qlt_le_dec v DI) as [H | H]; [exact H |].
        apply Qle_bool_iff in H. congruence. }
      repeat split; try lra; try reflexivity.
      exists O. change (Qnat 0) with 0. ring.
Qed.

(** The second loop. *)
Lemma wrap_up_spec (fuel : nat) (v : Q) :
  - (Qnat fuel * DI) < v ->
  0 <= wrap_up fuel v
  /\ (v < DI -> wrap_up fuel v < DI)
  /\ (0 <= v -> wrap_up fuel v = v)
  /\ exists k : nat, wrap_up fuel v == v + Qnat k * DI.
Proof.
  pose proof DI_positive as HD.
  revert v. induction fuel as [| f IH]; intros v Hv.
  - cbn [wrap_up]. change (Qnat 0) with 0 in Hv.
    repeat split; try lra; try reflexivity.
    exists O. change (Qnat 0) with 0. ring.
  - cbn [wrap_up]. rewrite Qnat_S in Hv.
    destruct (Qltb v 0) eqn:Hc.
    + apply Qltb_lt in Hc.
      destruct (IH (v + DI)) as (A & B & C & k & Hk); [lra |].
      split; [exact A |]. split; [intros _; apply B; lra |].
      split; [intro; lra |].
      exists (S k). rewrite Hk, Qnat_S. ring.
    + apply Qltb_ge in Hc.
      repeat split; try lra; try reflexivity.
      exists O. change (Qnat 0) with 0. ring.
Qed.

(** [iterations v] bounds the number of steps of either loop. *)
Lemma iterations_enough (v : Q) :
  Qabs v < Qnat (iterations v) * DI.
Proof.
  pose proof DI_positive as HD. unfold iterations.
  set (q := Qabs v / DI).
  assert (Hq : 0 <= q).
  { unfold q. apply Qle_shift_div_l; [exact HD |].
    rewrite Qmult_0_l. apply Qabs_nonneg. }
  assert (Hf : (0 <= Qfloor q)%Z).
  { change 0%Z with (Qfloor 0). now apply Qfloor_resp_le. }
  rewrite Qnat_S. unfold Qnat. rewrite Z2Nat.id by exact Hf.
  pose proof (Qlt_floor q) as Hlt. rewrite inject_Z_plus in Hlt.
  change (inject_Z 1) with 1 in Hlt.
  assert (Hv : Qabs v == q * DI) by (unfold q; field; lra).
  rewrite Hv. apply Qmult_lt_compat_r; assumption.
Qed.

Lemma wrap_down_stable (f f' : nat) (v : Q) :
  wrap_down f v < DI -> wrap_down (f + f') v = wrap_down f v.
Proof.
  revert v. induction f as [| f IH]; intros v H.
  - cbn [wrap_down Nat.add] in *. destruct f' as [| f']; [reflexivity |].
    cbn [wrap_down].
    assert (Hc : Qle_bool DI v = false).
    { destruct (Qle_bool DI v) eqn:Hc; [| reflexivity].
      apply Qle_bool_iff in Hc. lra. }
    now rewrite Hc.
  - cbn [wrap_down Nat.add] in *.
    destruct (Qle_bool DI v); [apply IH; exact H | reflexivity].
Qed.

Lemma wrap_up_stable (f f' : nat) (v : Q) :
  0 <= wrap_up f v -> wrap_up (f + f') v = wrap_up f v.
Proof.
  revert v. induction f as [| f IH]; intros v H.
  - cbn [wrap_up Nat.add] in *. destruct f' as [| f']; [reflexivity |].
    cbn [wrap_up].
    assert (Hc : Qltb v 0 = false) by (apply Qltb_ge; exact H).
    now rewrite Hc.
  - cbn [wrap_up Nat.add] in *.
    destruct (Qltb v 0); [apply IH; exact H | reflexivity].
Qed.

(** In exact arithmetic the two loops end (they leave a value that fails
    both loop conditions, and more iterations change nothing) with the
    representative of the input modulo [DI] in [[0, DI)]. *)
Lemma wrap_exact_residue (v : Q) :
  0 <= wrap v /\ wrap v < DI
  /\ Qle_bool DI (wrap v) = false /\ Qltb (wrap v) 0 = false
  /\ (exists k : Z, wrap v == v + inject_Z k * DI)
  /\ (0 <= v -> v < DI -> wrap v = v)
  /\ (forall more more' : nat,
        let v1 := wrap_down (iterations v + more) v in
        wrap_up (iterations v1 + more') v1 = wrap v).
Proof.
  pose proof DI_positive as HD. unfold wrap. cbv zeta.
  pose proof (iterations_enough v) as H1.
  assert (Hv : v < Qnat (iterations v) * DI).
  { eapply Qle_lt_trans; [apply Qle_Qabs | exact H1]. }
  destruct (wrap_down_spec (iterations v) v Hv) as (A & B & C & k1 & Hk1).
  set (v1 := wrap_down (iterations v) v) in *.
  pose proof (iterations_enough v1) as H2.
  assert (Hv1 : - (Qnat (iterations v1) * DI) < v1).
  { assert (- Qabs v1 <= v1).
    { rewrite <- (Qopp_involutive v1) at 2. apply Qopp_le_compat.
      rewrite <- Qabs_opp. apply Qle_Qabs. }
    lra. }
  destruct (wrap_up_spec (iterations v1) v1 Hv1) as (A' & B' & C' & k2 & Hk2).
  specialize (B' A).
  split; [exact A' |]. split; [exact B' |].
  split.
  { destruct (Qle_bool DI (wrap_up (iterations v1) v1)) eqn:Hc;
      [| reflexivity].
    apply Qle_bool_iff in Hc. lra. }
  split; [apply Qltb_ge; exact A' |].
  split.
  { exists (Z.of_nat k2 - Z.of_nat k1)%Z.
    rewrite Hk2, Hk1. unfold Zminus. rewrite inject_Z_plus, inject_Z_opp.
    unfold Qnat. ring. }
  split.
  - intros H0 Hlt. rewrite C' by (apply B; exact H0).
    apply C. exact Hlt.
  - intros more more'. cbv zeta.
    rewrite (wrap_down_stable (iterations v) more v) by exact A.
    fold v1. apply wrap_up_stable. exact A'.
Qed.

Lemma sub_DI (n : Z) : inject_Z n - DI = inject_Z (n - 10000).
Proof.
  unfold DI, Qminus, Qplus, Qopp, inject_Z. cbn. f_equal. lia.
Qed.

Lemma add_DI (n : Z) : inject_Z n + DI = inject_Z (n + 10000).
Proof.
  unfold DI, Qplus, inject_Z. cbn. f_equal. lia.
Qed.

Lemma DI_le_int (n : Z) : Qle_bool DI (inject_Z n) = (10000 <=? n)%Z.
Proof.
  unfold Qle_bool, DI, inject_Z. cbn. now rewrite Z.mul_1_r.
Qed.

Lemma int_lt_0 (n : Z) : Qltb (inject_Z n) 0 = (n <? 0)%Z.
Proof.
  unfold Qltb, Qle_bool, inject_Z. cbn. rewrite Z.mul_1_r.
  now rewrite Z.ltb_antisym.
Qed.

Lemma float_integers : (2 ^ 24 = 16777216)%Z.
Proof. reflexivity. Qed.

Lemma while_above_int (fl : Q -> Q) (fuel : nat) (n : Z) :
  exact_on_integers fl ->
  (Z.abs n <= 2 ^ 24)%Z -> (n < 10000 * Z.of_nat fuel)%Z -> (0 < fuel)%nat ->
  while_above fl fuel (inject_Z n)
  = Some (inject_Z (if (n <? 0)%Z then n else n mod 10000)).
Proof.
  unfold exact_on_integers. rewrite float_integers.
  intros Hfl. revert n. induction fuel as [| f IH]; intros n Hn Hf H0; [lia |].
  cbn [while_above]. rewrite DI_le_int.
  destruct (10000 <=? n)%Z eqn:Hc.
  - apply Z.leb_le in Hc. rewrite sub_DI, Hfl by lia.
    rewrite IH by lia.
    assert (Hs : (n <? 0)%Z = false) by (apply Z.ltb_ge; lia).
    assert (Hs' : (n - 10000 <? 0)%Z = false) by (apply Z.ltb_ge; lia).
    rewrite Hs, Hs'. do 2 f_equal.
    replace (n - 10000)%Z with (n + (-1) * 10000)%Z by lia.
    apply Z.mod_add. lia.
  - apply Z.leb_gt in Hc.
    destruct (n <? 0)%Z eqn:Hs; [reflexivity |].
    apply Z.ltb_ge in Hs. now rewrite Z.mod_small by lia.
Qed.

Lemma while_below_int (fl : Q -> Q) (fuel : nat) (n : Z) :
  exact_on_integers fl ->
  (- 2 ^ 24 <= n < 10000)%Z -> (- n <= 10000 * (Z.of_nat fuel - 1))%Z ->
  while_below fl fuel (inject_Z n) = Some (inject_Z (n mod 10000)).
Proof.
  unfold exact_on_integers. rewrite float_integers.
  intros Hfl. revert n. induction fuel as [| f IH]; intros n Hn Hf; [lia |].
  cbn [while_below]. rewrite int_lt_0.
  destruct (n <? 0)%Z eqn:Hc.
  - apply Z.ltb_lt in Hc. rewrite add_DI, Hfl by lia.
    rewrite IH by lia. do 2 f_equal.
    replace (n + 10000)%Z with (n + 1 * 10000)%Z by lia.
    apply Z.mod_add. lia.
  - apply Z.ltb_ge in Hc. now rewrite Z.mod_small by lia.
Qed.

Lemma iterations_int (n : Z) :
  (Z.abs n < 10000 * Z.of_nat (iterations (inject_Z n)))%Z.
Proof.
  pose proof (iterations_enough (inject_Z n)) as H.
  change (Qabs (inject_Z n)) with (inject_Z (Z.abs n)) in H.
  unfold Qnat in H. change DI with (inject_Z 10000) in H.
  rewrite <- inject_Z_mult, <- Zlt_Qlt in H. lia.
Qed.

Lemma wrap_loops_int (fl : Q -> Q) (fuel : nat) (n : Z) :
  exact_on_integers fl ->
  (Z.abs n <= 2 ^ 24)%Z -> (iterations (inject_Z n) < fuel)%nat ->
  wrap_loops fl fuel (inject_Z n) = Some (inject_Z (n mod 10000)).
Proof.
  intros Hfl Hn Hf. pose proof (iterations_int n) as Hi.
  pose proof float_integers as HF.
  assert (Hm : (0 <= n mod 10000 < 10000)%Z) by (apply Z.mod_pos_bound; lia).
  unfold wrap_loops. rewrite (while_above_int fl fuel n Hfl) by lia.
  destruct (n <? 0)%Z eqn:Hs.
  - apply Z.ltb_lt in Hs. apply while_below_int; [exact Hfl | lia | lia].
  - rewrite (while_below_int fl fuel (n mod 10000) Hfl) by lia.
    now rewrite Z.mod_mod by lia.
Qed.

Lemma wrap_int (n : Z) : wrap (inject_Z n) == inject_Z (n mod 10000).
Proof.
  destruct (wrap_exact_residue (inject_Z n)) as (H0 & H1 & _ & _ & (k & Hk) & _).
  change DI with (inject_Z 10000) in Hk, H1.
  rewrite <- inject_Z_mult, <- inject_Z_plus in Hk.
  rewrite Hk in H0, H1. rewrite Hk.
  change 0 with (inject_Z 0) in H0.
  rewrite <- Zle_Qle in H0. rewrite <- Zlt_Qlt in H1.
  apply inject_Z_injective.
  apply Z.mod_unique_pos with (q := (- k)%Z); lia.
Qed.

(** X16: On a [float] that holds an integer of magnitude up to [2^24], with a
    rounding that leaves such integers alone, the two loops of the code
    end, within [iterations v] steps each: they return the representative
    of the input modulo [DI] in [[0, DI)], which is the value of the loops
    in exact arithmetic. *)
Theorem wrap_is_the_residue_modulo_DI (fl : Q -> Q) (n : Z) :
  exact_on_integers fl ->
  (Z.abs n <= 2 ^ 24)%Z ->
  let v := inject_Z n in
  (forall fuel, (iterations v < fuel)%nat ->
     wrap_loops fl fuel v = Some (inject_Z (n mod 10000)))
  /\ wrap v == inject_Z (n mod 10000)
  /\ 0 <= wrap v /\ wrap v < DI.
Proof.
  intros Hfl Hn. cbv zeta.
  split; [intros fuel Hf; now apply wrap_loops_int |].
  split; [apply wrap_int |].
  destruct (wrap_exact_residue (inject_Z n)) as (H0 & H1 & _). now split.
Qed.

(** X31: A [float] of at least [DI] that the subtraction of [DI] leaves
    unchanged, as the rounding does with a large one, never leaves the
    first loop: no number of iterations is enough. *)
Theorem wrap_never_returns_from_a_large_float (fl : Q -> Q) (u : Q)
        (fuel : nat) :
  DI <= u -> fl (u - DI) = u -> wrap_loops fl fuel u = None.
Proof.
  intros Hu Hfix.
  assert (H : while_above fl fuel u = None).
  { induction fuel as [| f IH]; [reflexivity |].
    cbn [while_above]. apply Qle_bool_iff in Hu. now rewrite Hu, Hfix. }
  unfold wrap_loops. now rewrite H.
Qed.






Section Catalogue.

Variable E : Externals.
Variable user_params : UserParams.
Variable hi : HiResParams.
Variable R_INDEX : Z -> Z -> Z -> nat.

Lemma perturb_halo_is_wrapped (b : InitialConditions) (halos : HaloField)
      (i : nat) :
  exists fx fy fz,
    perturb_halo E user_params hi R_INDEX b halos i
    = (wrapped_coordinate fx (HII_DIM user_params),
       wrapped_coordinate fy (HII_DIM user_params),
       wrapped_coordinate fz (HII_D_PARA user_params)).
Proof.
  unfold perturb_halo. cbv zeta.
  destruct (PERTURB_ON_HIGH_RES hi); eexists _, _, _; reflexivity.
Qed.

Lemma store3_spec (a : nat -> Q) (i : nat) (x y z : Q) (m : nat) :
  store3 a i (x, y, z) m
  = if (m =? i * 3 + 2)%nat then z
    else if (m =? i * 3 + 1)%nat then y
         else if (m =? i * 3 + 0)%nat then x else a m.
Proof. reflexivity. Qed.

(** The loop over the halos after [n] iterations. *)
Lemma perturb_loop (b : InitialConditions) (halos : HaloField)
      (p0 : PerturbHaloField) (n : nat) :
  let p :=
    for_cells n
      (fun i_halo p =>
         mkPerturbHaloField (n_halos p)
           (upd (halo_masses p) i_halo (hf_halo_masses halos i_halo))
           (store3 (halo_coords p) i_halo
                   (perturb_halo E user_params hi R_INDEX b halos i_halo))
           (upd (star_rng p) i_halo (hf_star_rng halos i_halo))
           (upd (sfr_rng p) i_halo (hf_sfr_rng halos i_halo))
           (upd (xray_rng p) i_halo (hf_xray_rng halos i_halo)))
      p0 in
  n_halos p = n_halos p0
  /\ (forall i,
        halo_masses p i
        = (if (i <? n)%nat then hf_halo_masses halos i else halo_masses p0 i)
        /\ star_rng p i
           = (if (i <? n)%nat then hf_star_rng halos i else star_rng p0 i)
        /\ sfr_rng p i
           = (if (i <? n)%nat then hf_sfr_rng halos i else sfr_rng p0 i)
        /\ xray_rng p i
           = (if (i <? n)%nat then hf_xray_rng halos i else xray_rng p0 i))
  /\ (forall i, (i < n)%nat ->
        (halo_coords p (i * 3 + 0), halo_coords p (i * 3 + 1),
         halo_coords p (i * 3 + 2))
        = perturb_halo E user_params hi R_INDEX b halos i)
  /\ (forall m, (n * 3 <= m)%nat -> halo_coords p m = halo_coords p0 m).
Proof.
  induction n as [| n IH]; cbv zeta.
  - cbn. repeat split; intros; try reflexivity; lia.
  - rewrite for_cells_S. cbv zeta in IH.
    set (p := for_cells n _ p0) in *.
    destruct IH as (Hn & Hf & Hc & Hrest).
    cbn [n_halos halo_masses halo_coords star_rng sfr_rng xray_rng].
    split; [exact Hn |]. split; [| split].
    + intro i. destruct (Hf i) as (A & B & C & D). unfold upd.
      destruct (Nat.eqb_spec i n) as [-> | Hne].
      * assert (H : (n <? S n)%nat = true) by (apply Nat.ltb_lt; lia).
        rewrite H. auto.
      * assert (H : (i <? S n)%nat = (i <? n)%nat).
        { destruct (Nat.ltb_spec i n), (Nat.ltb_spec i (S n));
            try reflexivity; lia. }
        rewrite H. auto.
    + intros i Hi.
      destruct (perturb_halo E user_params hi R_INDEX b halos n)
        as [[x y] z] eqn:Hp.
      rewrite !store3_spec.
      destruct (Nat.eq_dec i n) as [-> | Hne].
      * rewrite Hp.
        assert (E2 : (n * 3 + 2 =? n * 3 + 2)%nat = true)
          by apply Nat.eqb_refl.
        assert (E1 : (n * 3 + 1 =? n * 3 + 1)%nat = true)
          by apply Nat.eqb_refl.
        assert (E0 : (n * 3 + 0 =? n * 3 + 0)%nat = true)
          by apply Nat.eqb_refl.
        assert (N12 : (n * 3 + 1 =? n * 3 + 2)%nat = false)
          by (apply Nat.eqb_neq; lia).
        assert (N02 : (n * 3 + 0 =? n * 3 + 2)%nat = false)
          by (apply Nat.eqb_neq; lia).
        assert (N01 : (n * 3 + 0 =? n * 3 + 1)%nat = false)
          by (apply Nat.eqb_neq; lia).
        now rewrite E2, E1, E0, N12, N02, N01.
      * rewrite <- (Hc i) by lia.
        repeat match goal with
               | |- context [(?a =? ?c)%nat] =>
                   let H := fresh in
                   assert (H : (a =? c)%nat = false)
                     by (apply Nat.eqb_neq; lia);
                   rewrite H; clear H
               end.
        reflexivity.
    + intros m Hm.
      destruct (perturb_halo E user_params hi R_INDEX b halos n)
        as [[x y] z].
      rewrite store3_spec.
      repeat match goal with
             | |- context [(?a =? ?c)%nat] =>
                 let H := fresh in
                 assert (H : (a =? c)%nat = false)
                   by (apply Nat.eqb_neq; lia);
                 rewrite H; clear H
             end.
      apply Hrest. lia.
Qed.




(** X18: The displacement moves the halos and changes nothing else of the
    catalogue: the number of halos, and the mass and the three random
    numbers of every halo are those of the input; the entries of the
    output arrays beyond the last halo are not written.  The divisors of
    the function are taken different from zero. *)
Theorem perturbation_keeps_masses_and_random_numbers
        (redshift' : Q) (boxes : InitialConditions) (halos : HaloField)
        (halos_perturbed : PerturbHaloField) (i : nat) :
  (0 < DIM hi)%nat -> (0 < D_PARA hi)%nat ->
  ~ BOX_LEN user_params == 0 -> ~ NON_CUBIC_FACTOR hi == 0 ->
  let out := snd (ComputePerturbHaloField E user_params hi R_INDEX redshift'
                    boxes halos halos_perturbed) in
  n_halos out = hf_n_halos halos
  /\ (if (i <? hf_n_halos halos)%nat
      then halo_masses out i = hf_halo_masses halos i
           /\ star_rng out i = hf_star_rng halos i
           /\ sfr_rng out i = hf_sfr_rng halos i
           /\ xray_rng out i = hf_xray_rng halos i
      else halo_masses out i = halo_masses halos_perturbed i
           /\ star_rng out i = star_rng halos_perturbed i
           /\ sfr_rng out i = sfr_rng halos_perturbed i
           /\ xray_rng out i = xray_rng halos_perturbed i
           /\ halo_coords out (i * 3 + 0)
              = halo_coords halos_perturbed (i * 3 + 0)
           /\ halo_coords out (i * 3 + 1)
              = halo_coords halos_perturbed (i * 3 + 1)
           /\ halo_coords out (i * 3 + 2)
              = halo_coords halos_perturbed (i * 3 + 2)).
Proof.
  intros _ _ _ _. cbv zeta. unfold ComputePerturbHaloField. cbv zeta.
  cbn [snd]. unfold perturb_halos.
  match goal with
  | |- context [for_cells _ _ ?p0] =>
      match goal with
      | |- context [perturb_halo E user_params hi R_INDEX ?b halos] =>
          pose proof (perturb_loop b halos p0 (hf_n_halos halos)) as H
      end
  end.
  cbv zeta in H. destruct H as (Hn & Hf & _ & Hrest).
  split; [exact Hn |].
  destruct (Hf i) as (A & B & C & D).
  destruct (Nat.ltb_spec i (hf_n_halos halos)) as [Hlt | Hge].
  - auto.
  - rewrite A, B, C, D, !Hrest by lia. cbn. repeat split.
Qed.

End Catalogue.

Section Velocities.

Variable E : Externals.
Variable user_params : UserParams.
Variable hi : HiResParams.
Variable R_INDEX : Z -> Z -> Z -> nat.

Local Abbreviation field k b := (nth k (velocity_grids b) (fun _ : nat => 0)).

(** The update of the three grids in use from the grid number [base]:
    [op] on the first two, [opz] on the third. *)
Local Abbreviation on_three base op opz :=
  (fun (k : nat) (x : Q) =>
     if (k =? base)%nat then op x
     else if (k =? base + 1)%nat then op x
          else if (k =? base + 2)%nat then opz x else x).

(** A loop whose iteration [c] rewrites the cell [c] of each grid by a
    function of the content of that cell. *)
Lemma cellwise_loop (F : nat -> InitialConditions -> InitialConditions)
      (u : nat -> Q -> Q) (n : nat) (b : InitialConditions) :
  (forall c b' k m, (k < 12)%nat ->
     field k (F c b') m
     = if (m =? c)%nat then u k (field k b' c) else field k b' m) ->
  forall k m, (k < 12)%nat ->
    field k (for_cells n F b) m
    = if (m <? n)%nat then u k (field k b m) else field k b m.
Proof.
  intros HF. induction n as [| n IH]; intros k m Hk; [reflexivity |].
  rewrite for_cells_S, HF by exact Hk.
  destruct (Nat.eqb_spec m n) as [-> | Hne].
  - rewrite IH by exact Hk.
    assert (H1 : (n <? n)%nat = false) by (apply Nat.ltb_ge; lia).
    assert (H2 : (n <? S n)%nat = true) by (apply Nat.ltb_lt; lia).
    now rewrite H1, H2.
  - rewrite IH by exact Hk.
    destruct (Nat.ltb_spec m n), (Nat.ltb_spec m (S n)); try reflexivity; lia.
Qed.

Ltac twelve_grids k m c :=
  do 12 (destruct k as [| k];
         [cbn; unfold upd;
          destruct (Nat.eqb_spec m c) as [-> | ?]; reflexivity |]);
  lia.

Lemma first_order_cells (op opz : Q -> Q) (c : nat) (b : InitialConditions)
      (k m : nat) :
  (k < 12)%nat ->
  field k (on_first_order hi (fun g => upd g c (op (g c)))
                          (fun g => upd g c (opz (g c))) b) m
  = if (m =? c)%nat
    then on_three (if PERTURB_ON_HIGH_RES hi then 6 else 0)%nat op opz k
                  (field k b c)
    else field k b m.
Proof.
  intro Hk. unfold on_first_order.
  destruct (PERTURB_ON_HIGH_RES hi); twelve_grids k m c.
Qed.

Lemma second_order_cells (op opz : Q -> Q) (c : nat) (b : InitialConditions)
      (k m : nat) :
  (k < 12)%nat ->
  field k (on_second_order hi (fun g => upd g c (op (g c)))
                           (fun g => upd g c (opz (g c))) b) m
  = if (m =? c)%nat
    then on_three (if PERTURB_ON_HIGH_RES hi then 9 else 3)%nat op opz k
                  (field k b c)
    else field k b m.
Proof.
  intro Hk. unfold on_second_order.
  destruct (PERTURB_ON_HIGH_RES hi); twelve_grids k m c.
Qed.

(** X19: The velocity grids leave [ComputePerturbHaloField] as they entered it:
    the factors that the function multiplies into the grids in use are
    divided out again, exactly so in exact arithmetic.  This needs a
    growth factor, a box length and a non-cubic factor other than zero
    (and the divisors [DIM] and [D_PARA] of the halo loop that runs in
    between). *)
Theorem velocity_grids_are_restored
        (redshift' : Q) (boxes : InitialConditions) (halos : HaloField)
        (halos_perturbed : PerturbHaloField) (k c : nat) :
  (0 < DIM hi)%nat -> (0 < D_PARA hi)%nat ->
  ~ dicke E redshift' == 0 -> ~ BOX_LEN user_params == 0 ->
  ~ NON_CUBIC_FACTOR hi == 0 ->
  (k < 12)%nat ->
  field k (fst (ComputePerturbHaloField E user_params hi R_INDEX redshift'
                  boxes halos halos_perturbed)) c
  == field k boxes c.
Proof.
  intros _ _ Hg HB HN Hk. unfold ComputePerturbHaloField. cbv zeta. cbn [fst].
  set (g := dicke E redshift') in *.
  set (f := g / BOX_LEN user_params).
  set (f2 := - (3 / 7) * g * g / BOX_LEN user_params).
  set (n := velocity_cells user_params hi).
  set (ncf := NON_CUBIC_FACTOR hi) in *.
  set (base1 := (if PERTURB_ON_HIGH_RES hi then 6 else 0)%nat).
  set (base2 := (if PERTURB_ON_HIGH_RES hi then 9 else 3)%nat).
  assert (S1 : forall b k m, (k < 12)%nat ->
             field k (scale_first_order user_params hi f b) m
             = if (m <? n)%nat
               then on_three base1 (fun x => x * f) (fun x => x * (f / ncf)) k
                             (field k b m)
               else field k b m).
  { intros b. unfold scale_first_order.
    apply (cellwise_loop _
             (on_three base1 (fun x => x * f) (fun x => x * (f / ncf)))).
    intros c0 b' k0 m0 Hk0.
    apply (first_order_cells (fun x => x * f) (fun x => x * (f / ncf)));
      exact Hk0. }
  assert (S2 : forall b k m, (k < 12)%nat ->
             field k (scale_second_order user_params hi f2 b) m
             = if (m <? n)%nat
               then on_three base2 (fun x => x * f2)
                             (fun x => x * (f2 / ncf)) k (field k b m)
               else field k b m).
  { intros b. unfold scale_second_order.
    apply (cellwise_loop _
             (on_three base2 (fun x => x * f2) (fun x => x * (f2 / ncf)))).
    intros c0 b' k0 m0 Hk0.
    apply (second_order_cells (fun x => x * f2) (fun x => x * (f2 / ncf)));
      exact Hk0. }
  assert (S3 : forall b k m, (k < 12)%nat ->
             field k (restore_velocities user_params hi f f2 b) m
             = if (m <? n)%nat
               then (if USE_2LPT hi
                     then on_three base2 (fun x => x / f2)
                                   (fun x => x / (f2 / ncf)) k
                                   (on_three base1 (fun x => x / f)
                                      (fun x => x / (f / ncf)) k
                                      (field k b m))
                     else on_three base1 (fun x => x / f)
                                   (fun x => x / (f / ncf)) k (field k b m))
               else field k b m).
  { intros b. unfold restore_velocities.
    apply (cellwise_loop _
             (fun k x =>
                if USE_2LPT hi
                then on_three base2 (fun x => x / f2)
                              (fun x => x / (f2 / ncf)) k
                              (on_three base1 (fun x => x / f)
                                 (fun x => x / (f / ncf)) k x)
                else on_three base1 (fun x => x / f)
                              (fun x => x / (f / ncf)) k x)).
    intros c0 b' k0 m0 Hk0. cbv zeta.
    destruct (USE_2LPT hi).
    - rewrite (second_order_cells (fun x => x / f2) (fun x => x / (f2 / ncf)))
        by exact Hk0.
      rewrite !(first_order_cells (fun x => x / f) (fun x => x / (f / ncf)))
        by exact Hk0.
      rewrite Nat.eqb_refl.
      destruct (m0 =? c0)%nat; reflexivity.
    - apply (first_order_cells (fun x => x / f) (fun x => x / (f / ncf)));
        exact Hk0. }
  rewrite S3 by exact Hk.
  assert (Hf : ~ f == 0).
  { unfold f. intro H. apply Hg.
    assert (Heq : g == g / BOX_LEN user_params * BOX_LEN user_params)
      by (field; exact HB).
    rewrite Heq, H. ring. }
  assert (Hf2 : ~ f2 == 0).
  { unfold f2. intro H.
    assert (Heq : g * g
                  == - (7 / 3) * (- (3 / 7) * g * g / BOX_LEN user_params)
                     * BOX_LEN user_params)
      by (field; exact HB).
    rewrite H in Heq.
    assert (Hz : g * g == 0) by (rewrite Heq; ring).
    apply Qmult_integral in Hz. destruct Hz; contradiction. }
  clearbody f f2 n.
  destruct (USE_2LPT hi).
  - rewrite S2, S1 by exact Hk.
    destruct (c <? n)%nat; [| reflexivity].
    unfold base1, base2. destruct (PERTURB_ON_HIGH_RES hi);
      do 12 (destruct k as [| k];
             [cbn; try reflexivity; field; repeat split; assumption |]);
      lia.
  - rewrite S1 by exact Hk.
    destruct (c <? n)%nat; [| reflexivity].
    unfold base1. destruct (PERTURB_ON_HIGH_RES hi);
      do 12 (destruct k as [| k];
             [cbn; try reflexivity; field; repeat split; assumption |]);
      lia.
Qed.

End Velocities.

End PerturbHaloFieldProperties.

(** ** [HaloBox.c]: the halo model and the gridded sums *)

Section SumsOverCells.

Lemma sum_cells_zero (n : nat) (f : grid) :
  (forall c, (c < n)%nat -> f c == 0) -> sum_cells n f == 0.
Proof.
  induction n as [| n IH]; intro H; [reflexivity |].
  cbn [sum_cells]. rewrite IH, (H n) by (intros; try apply H; lia). ring.
Qed.

Lemma sum_cells_upd_add (n : nat) (f : grid) (i : nat) (v : Q) :
  (i < n)%nat -> sum_cells n (upd f i (f i + v)) == sum_cells n f + v.
Proof.
  induction n as [| n IH]; intro Hi; [lia |].
  cbn [sum_cells]. destruct (Nat.eq_dec i n) as [-> | Hne].
  - rewrite upd_same.
    rewrite (sum_cells_ext n (upd f n (f n + v)) f)
      by (intros c Hc; apply upd_other; lia).
    ring.
  - rewrite IH by lia. rewrite upd_other by lia. ring.
Qed.

Lemma sum_cells_scaled (n : nat) (f g : grid) (r : Q) :
  (forall c, (c < n)%nat -> g c == f c * r) ->
  sum_cells n g == sum_cells n f * r.
Proof.
  induction n as [| n IH]; intro H; [cbn; ring |].
  cbn [sum_cells]. rewrite IH, (H n) by (intros; try apply H; lia). ring.
Qed.

End SumsOverCells.

Section HaloModelProperties.

Import HaloBox HaloModel.

Variable E : Externals.
Variable mac : Macros.
Variable global_params : GlobalParams.
Variable user_params : UserParams.
Variable cosmo_params : CosmoParams.
Variable flag_options : FlagOptions.
Variable exp : Q -> Q.
Variable SperYR : Q.
Variable USE_UPPER_STELLAR_TURNOVER : bool.

Local Abbreviation npix := (HII_TOT_NUM_PIXELS user_params).

Lemma capped_at_one (f : Q) : (if Qltb 1 f then 1 else f) <= 1.
Proof.
  destruct (Qltb 1 f) eqn:H; [lra | now apply Qltb_ge in H].
Qed.

Lemma stellar_mini_off
      (halo_mass mturn_acg mturn_mcg star_rng : Q)
      (consts : HaloBoxConstants) :
  USE_MINI_HALOS flag_options = false ->
  snd (get_halo_stellarmass E cosmo_params flag_options exp
         USE_UPPER_STELLAR_TURNOVER halo_mass mturn_acg mturn_mcg star_rng
         consts) = 0.
Proof.
  intro H. unfold get_halo_stellarmass. cbv zeta. now rewrite H.
Qed.

Lemma sfr_mini_off (stellar_mass stellar_mass_mini sfr_rng : Q)
      (consts : HaloBoxConstants) :
  USE_MINI_HALOS flag_options = false ->
  snd (get_halo_sfr E flag_options exp stellar_mass stellar_mass_mini
                    sfr_rng consts) = 0.
Proof.
  intro H. unfold get_halo_sfr. cbv zeta. now rewrite H.
Qed.

(** X20: The stellar masses of a halo never exceed its baryon budget
    [halo_mass * OMb / OMm]: the sampled stellar fractions are capped at
    [1], whatever the scatter and the turnover masses are.  The halo mass,
    the atomic turnover mass and [OMm] are divisors of the function and are
    taken different from zero. *)
Theorem stellar_mass_is_within_the_baryon_budget
        (halo_mass mturn_acg mturn_mcg star_rng : Q)
        (consts : HaloBoxConstants) :
  0 < halo_mass -> ~ mturn_acg == 0 ->
  0 <= OMb cosmo_params -> 0 < OMm cosmo_params ->
  let sm := get_halo_stellarmass E cosmo_params flag_options exp
              USE_UPPER_STELLAR_TURNOVER halo_mass mturn_acg mturn_mcg
              star_rng consts in
  fst sm <= halo_mass * (OMb cosmo_params / OMm cosmo_params)
  /\ snd sm <= halo_mass * (OMb cosmo_params / OMm cosmo_params)
  /\ (USE_MINI_HALOS flag_options = false -> snd sm = 0).
Proof.
  intros Hpos _ HOb HOm.
  assert (Hm : 0 <= halo_mass) by lra.
  assert (Hb : 0 <= OMb cosmo_params / OMm cosmo_params)
    by (apply Qle_shift_div_l; [exact HOm | lra]).
  cbv zeta. unfold get_halo_stellarmass. cbv zeta.
  set (ratio := OMb cosmo_params / OMm cosmo_params) in *.
  assert (Hcap : forall f, (if Qltb 1 f then 1 else f) * halo_mass * ratio
                           <= halo_mass * ratio).
  { intro f. pose proof (capped_at_one f) as Hf.
    set (c := if Qltb 1 f then 1 else f) in *.
    assert (H0 : 0 <= halo_mass * ratio) by (apply Qmult_le_0_compat; assumption).
    assert (H1 : 0 <= (1 - c) * (halo_mass * ratio))
      by (apply Qmult_le_0_compat; [lra | exact H0]).
    assert (E1 : (1 - c) * (halo_mass * ratio)
                 == halo_mass * ratio - c * halo_mass * ratio) by ring.
    lra. }
  destruct (USE_MINI_HALOS flag_options); cbn [negb fst snd].
  - split; [apply Hcap |]. split; [apply Hcap | discriminate].
  - split; [apply Hcap |]. split; [| reflexivity].
    apply Qmult_le_0_compat; assumption.
Qed.

Lemma sfr_scatter_is_shared
      (stellar_mass stellar_mass_mini sfr_rng : Q)
      (consts : HaloBoxConstants) :
  let sfr := get_halo_sfr E flag_options exp stellar_mass stellar_mass_mini
                          sfr_rng consts in
  fst sfr * stellar_mass_mini * (if USE_MINI_HALOS flag_options then 1 else 0)
  == snd sfr * stellar_mass.
Proof.
  cbv zeta. unfold get_halo_sfr. cbv zeta.
  destruct (USE_MINI_HALOS flag_options); cbn [negb fst snd].
  - set (t := t_star consts * t_h consts). set (e := exp _).
    unfold Qdiv. ring.
  - ring.
Qed.

(** X21: [set_halo_properties] copies the halo mass, leaves the three turnover
    masses of its output struct as they were, and switches components off
    with the flags: no X-ray luminosity and no metallicity without
    [USE_TS_FLUCT], no mini-halo stellar mass and rate without
    [USE_MINI_HALOS].  With mini-halos the two star-formation rates are
    in the ratio of the two stellar masses (they share one scatter).  The
    escape fractions are capped at [1]: a halo emits at most [Pop2_ion]
    (resp. [Pop3_ion]) ionising photons per stellar baryon.  The divisors
    of the function (the halo mass, the atomic turnover mass, [OMm] and
    [t_star * t_h]) are taken different from zero. *)
Theorem set_halo_properties_switches_and_caps
        (halo_mass M_turn_a M_turn_m : Q) (consts : HaloBoxConstants)
        (input_rng : Q * Q * Q) (output : HaloProperties) :
  ~ halo_mass == 0 -> ~ M_turn_a == 0 -> ~ OMm cosmo_params == 0 ->
  ~ t_star consts * t_h consts == 0 ->
  let p := set_halo_properties E global_params cosmo_params flag_options exp
             SperYR USE_UPPER_STELLAR_TURNOVER halo_mass M_turn_a M_turn_m
             consts input_rng output in
  hp_halo_mass p = halo_mass
  /\ hp_m_turn_acg p = hp_m_turn_acg output
  /\ hp_m_turn_mcg p = hp_m_turn_mcg output
  /\ hp_m_turn_reion p = hp_m_turn_reion output
  /\ (USE_TS_FLUCT flag_options = false ->
      hp_halo_xray p = 0 /\ hp_metallicity p = 0)
  /\ (USE_MINI_HALOS flag_options = false ->
      hp_stellar_mass_mini p = 0 /\ hp_sfr_mini p = 0)
  /\ (USE_MINI_HALOS flag_options = true ->
      hp_halo_sfr p * hp_stellar_mass_mini p
      == hp_sfr_mini p * hp_stellar_mass p)
  /\ (0 <= hp_stellar_mass p * Pop2_ion global_params ->
      0 <= hp_stellar_mass_mini p * Pop3_ion global_params ->
      hp_n_ion p
      <= hp_stellar_mass p * Pop2_ion global_params
         + hp_stellar_mass_mini p * Pop3_ion global_params)
  /\ (0 <= hp_halo_sfr p * Pop2_ion global_params ->
      0 <= hp_sfr_mini p * Pop3_ion global_params ->
      hp_fescweighted_sfr p
      <= hp_halo_sfr p * Pop2_ion global_params
         + hp_sfr_mini p * Pop3_ion global_params).
Proof.
  intros _ _ _ _. cbv zeta. unfold set_halo_properties.
  destruct input_rng as [[rng0 rng1] rng2].
  pose proof (stellar_mini_off halo_mass M_turn_a
                M_turn_m rng0 consts) as Hsm.
  destruct (get_halo_stellarmass _ _ _ _ _ _ _ _ _ _) as [sm smm].
  pose proof (sfr_mini_off sm smm rng1 consts) as Hsfr.
  pose proof (sfr_scatter_is_shared sm smm rng1 consts) as Hshare.
  cbv zeta in Hshare.
  destruct (get_halo_sfr _ _ _ _ _ _ _) as [sfr sfrm].
  cbn [fst snd] in Hsm, Hsfr, Hshare.
  cbn [hp_halo_mass hp_stellar_mass hp_halo_sfr hp_stellar_mass_mini
       hp_sfr_mini hp_fescweighted_sfr hp_n_ion hp_halo_xray hp_metallicity
       hp_m_turn_acg hp_m_turn_mcg hp_m_turn_reion].
  split; [reflexivity |]. split; [reflexivity |]. split; [reflexivity |].
  split; [reflexivity |].
  split; [intros ->; split; reflexivity |].
  split; [intro H; split; [apply Hsm | apply Hsfr]; exact H |].
  split; [intro H; rewrite H in Hshare; rewrite <- Hshare; ring |].
  set (fesc := Qmin _ 1).
  set (fescm := if USE_MINI_HALOS flag_options then _ else 0).
  assert (Hf : fesc <= 1) by apply Q.le_min_r.
  assert (Hfm : fescm <= 1).
  { unfold fescm. destruct (USE_MINI_HALOS flag_options);
      [apply Q.le_min_r | lra]. }
  assert (Hcap : forall a b f g, f <= 1 -> g <= 1 -> 0 <= a -> 0 <= b ->
                                 a * f + b * g <= a + b).
  { intros a b f g Hf1 Hg1 Ha Hb'.
    assert (0 <= a * (1 - f)) by (apply Qmult_le_0_compat; lra).
    assert (0 <= b * (1 - g)) by (apply Qmult_le_0_compat; lra).
    assert (E1 : a * (1 - f) == a - a * f) by ring.
    assert (E2 : b * (1 - g) == b - b * g) by ring.
    lra. }
  split; intros Ha Hb; apply Hcap; assumption.
Qed.

(** *** [mean_fix_grids] *)

Lemma mean_fix_cells (M_min M_max : Q) (grids : HaloBox)
      (averages_box : HaloProperties) (consts : HaloBoxConstants)
      (averages_global_0 : HaloProperties) (k c : nat) :
  (k < 8)%nat ->
  let averages_global :=
    get_box_averages E mac global_params cosmo_params flag_options SperYR
      M_min M_max (hp_m_turn_acg averages_box) (hp_m_turn_mcg averages_box)
      consts averages_global_0 in
  let out := mean_fix_grids E mac global_params user_params cosmo_params
               flag_options SperYR M_min M_max grids averages_box consts
               averages_global_0 in
  let zero : grid := fun _ => 0 in
  nth k (emissivity_grids out) zero c
  = if (c <? npix)%nat
    then nth k (emissivity_grids grids) zero c
         * (nth k (emissivity_averages averages_global) 0
            / nth k (emissivity_averages averages_box) 0)
    else nth k (emissivity_grids grids) zero c.
Proof.
  intro Hk. cbv zeta. unfold mean_fix_grids. cbv zeta.
  set (G := get_box_averages _ _ _ _ _ _ _ _ _ _ _ _).
  induction npix as [| n IH]; [reflexivity |].
  rewrite for_cells_S.
  set (g := for_cells n _ grids) in *.
  assert (Hstep : forall j,
            (j < 8)%nat ->
            nth j (emissivity_grids
                     (mkHaloBox
                        (upd (halo_mass g) n
                           (halo_mass g n
                            * (hp_halo_mass G / hp_halo_mass averages_box)))
                        (upd (halo_stars g) n
                           (halo_stars g n
                            * (hp_stellar_mass G
                               / hp_stellar_mass averages_box)))
                        (upd (halo_stars_mini g) n
                           (halo_stars_mini g n
                            * (hp_stellar_mass_mini G
                               / hp_stellar_mass_mini averages_box)))
                        (upd (n_ion g) n
                           (n_ion g n * (hp_n_ion G / hp_n_ion averages_box)))
                        (upd (halo_sfr g) n
                           (halo_sfr g n
                            * (hp_halo_sfr G / hp_halo_sfr averages_box)))
                        (upd (halo_sfr_mini g) n
                           (halo_sfr_mini g n
                            * (hp_sfr_mini G / hp_sfr_mini averages_box)))
                        (upd (whalo_sfr g) n
                           (whalo_sfr g n
                            * (hp_fescweighted_sfr G
                               / hp_fescweighted_sfr averages_box)))
                        (upd (halo_xray g) n
                           (halo_xray g n
                            * (hp_halo_xray G / hp_halo_xray averages_box)))
                        (count g) (log10_Mcrit_ACG_ave g)
                        (log10_Mcrit_MCG_ave g)))
                (fun _ => 0) c
            = if (c =? n)%nat
              then nth j (emissivity_grids g) (fun _ => 0) n
                   * (nth j (emissivity_averages G) 0
                      / nth j (emissivity_averages averages_box) 0)
              else nth j (emissivity_grids g) (fun _ => 0) c).
  { intros j Hj.
    do 8 (destruct j as [| j]; [cbn; unfold upd; reflexivity |]). lia. }
  cbv zeta. rewrite (Hstep k Hk).
  destruct (Nat.eqb_spec c n) as [-> | Hne].
  - rewrite IH.
    assert (H1 : (n <? n)%nat = false) by (apply Nat.ltb_ge; lia).
    assert (H2 : (n <? S n)%nat = true) by (apply Nat.ltb_lt; lia).
    now rewrite H1, H2.
  - rewrite IH.
    destruct (Nat.ltb_spec c n), (Nat.ltb_spec c (S n)); try reflexivity; lia.
Qed.

(** X22: [mean_fix_grids] multiplies every cell of the lattice, in each of the
    eight emissivity grids, by the ratio of the expected global average to
    the average of the box, which is taken different from zero.  When the
    average of the box that it is given is the lattice mean of the grid,
    the lattice mean of the grid after the call is the expected global
    average. *)
Theorem mean_fix_grids_sets_the_lattice_mean
        (M_min M_max : Q) (grids : HaloBox) (averages_box : HaloProperties)
        (consts : HaloBoxConstants) (averages_global_0 : HaloProperties)
        (k : nat) :
  (k < 8)%nat ->
  let averages_global :=
    get_box_averages E mac global_params cosmo_params flag_options SperYR
      M_min M_max (hp_m_turn_acg averages_box) (hp_m_turn_mcg averages_box)
      consts averages_global_0 in
  let out := mean_fix_grids E mac global_params user_params cosmo_params
               flag_options SperYR M_min M_max grids averages_box consts
               averages_global_0 in
  let zero : grid := fun _ => 0 in
  let before := nth k (emissivity_grids grids) zero in
  let after := nth k (emissivity_grids out) zero in
  let box_average := nth k (emissivity_averages averages_box) 0 in
  let global_average := nth k (emissivity_averages averages_global) 0 in
  ~ box_average == 0 ->
  (forall c, (c < npix)%nat ->
     after c = before c * (global_average / box_average))
  /\ (sum_cells npix before / Qnat npix == box_average ->
      sum_cells npix after / Qnat npix == global_average).
Proof.
  intro Hk. cbv zeta. intro Hnz.
  pose proof (mean_fix_cells M_min M_max grids averages_box consts
                averages_global_0 k) as Hc.
  cbv zeta in Hc.
  set (G := get_box_averages _ _ _ _ _ _ _ _ _ _ _ _) in *.
  set (out := mean_fix_grids _ _ _ _ _ _ _ _ _ _ _ _ _) in *.
  assert (Hcell : forall c, (c < npix)%nat ->
            nth k (emissivity_grids out) (fun _ => 0) c
            = nth k (emissivity_grids grids) (fun _ => 0) c
              * (nth k (emissivity_averages G) 0
                 / nth k (emissivity_averages averages_box) 0)).
  { intros c Hlt. rewrite (Hc c Hk). apply Nat.ltb_lt in Hlt.
    now rewrite Hlt. }
  split; [exact Hcell |].
  intros Hmean.
  rewrite (sum_cells_scaled npix
             (nth k (emissivity_grids grids) (fun _ => 0))
             (nth k (emissivity_grids out) (fun _ => 0))
             (nth k (emissivity_averages G) 0
              / nth k (emissivity_averages averages_box) 0))
    by (intros c Hlt; rewrite (Hcell c Hlt); reflexivity).
  set (b := nth k (emissivity_averages averages_box) 0) in *.
  set (S0 := sum_cells npix _) in *.
  assert (E1 : S0 * (nth k (emissivity_averages G) 0 / b) / Qnat npix
               == (S0 / Qnat npix) * (nth k (emissivity_averages G) 0 / b)).
  { unfold Qdiv. ring. }
  rewrite E1, Hmean. field. exact Hnz.
Qed.

End HaloModelProperties.

(** ** [HaloBox.c]: what the gridder conserves *)

Section HaloBoxSums.

Import HaloBox.

Variable E : Externals.
Variable mac : Macros.
Variable global_params : GlobalParams.
Variable user_params : UserParams.
Variable astro_params : AstroParams.
Variable flag_options : FlagOptions.
Variable set_halo_properties :
  Q -> Q -> Q -> HaloBoxConstants -> Q * Q * Q -> HaloProperties -> HaloProperties.
Variable set_fixed_grids :
  Q -> Q -> grid -> IonisationBox.PerturbedField -> IonisationBox.TsBox ->
  IonisationBox.IonizedBox -> HaloBoxConstants -> HaloBox ->
  HaloBox * HaloProperties.

Local Abbreviation npix := (HII_TOT_NUM_PIXELS user_params).

Section Sums.

Variable lowres_vcb : grid.
Variable previous_spin_temp : IonisationBox.TsBox.
Variable previous_ionize_box : IonisationBox.IonizedBox.
Variable halos : PerturbHaloField.
Variable consts : HaloBoxConstants.
Variable out_props_0 : HaloProperties.

(** The cell of a halo: [HII_R_INDEX] of its truncated coordinates. *)
Local Abbreviation cell_of i :=
  (HII_R_INDEX E user_params (trunc (halo_coords halos (0 + 3 * i)))
               (trunc (halo_coords halos (1 + 3 * i)))
               (trunc (halo_coords halos (2 + 3 * i)))).

Local Abbreviation halo_step :=
  (sum_halo E global_params user_params astro_params flag_options
            set_halo_properties lowres_vcb previous_spin_temp
            previous_ionize_box halos consts out_props_0).

Lemma sum_halo_mass (i : nat) (st : SumLoop) :
  halo_mass (sl_grids (halo_step i st))
  = (if Qeq_bool (halo_masses halos i) 0 then halo_mass (sl_grids st)
     else upd (halo_mass (sl_grids st)) (cell_of i)
              (halo_mass (sl_grids st) (cell_of i) + halo_masses halos i))
  /\ hm_avg (halo_step i st)
     = (if Qeq_bool (halo_masses halos i) 0 then hm_avg st
        else hm_avg st + halo_masses halos i).
Proof.
  unfold sum_halo. cbv zeta.
  destruct (Qeq_bool (halo_masses halos i) 0); [split; reflexivity |].
  destruct (if USE_MINI_HALOS flag_options then _ else _) as [[a m] r].
  split; reflexivity.
Qed.

(** The halo loop adds the mass of every halo to one cell and to the
    running total. *)
Lemma halo_loop_mass (n : nat) (st : SumLoop) :
  (forall i, (i < n)%nat -> ~ halo_masses halos i == 0 ->
             (cell_of i < npix)%nat) ->
  hm_avg (for_cells n halo_step st)
  == hm_avg st + sum_cells n (halo_masses halos)
  /\ sum_cells npix (halo_mass (sl_grids (for_cells n halo_step st)))
     == sum_cells npix (halo_mass (sl_grids st))
        + sum_cells n (halo_masses halos).
Proof.
  induction n as [| n IH]; intro Hin.
  - cbn. split; ring.
  - rewrite for_cells_S. destruct IH as [IH1 IH2]; [intros; apply Hin; auto |].
    set (s := for_cells n halo_step st) in *.
    destruct (sum_halo_mass n s) as [Hg Hh]. rewrite Hg, Hh.
    cbn [sum_cells].
    destruct (Qeq_bool (halo_masses halos n) 0) eqn:Hz.
    + apply Qeq_bool_iff in Hz. rewrite IH1, IH2, Hz. split; ring.
    + assert (Hnz : ~ halo_masses halos n == 0).
      { intro H. apply Qeq_bool_iff in H. congruence. }
      rewrite sum_cells_upd_add by (apply Hin; [lia | exact Hnz]).
      rewrite IH1, IH2. split; ring.
Qed.

(** X23: [sum_halos_onto_grid] conserves the halo mass: when the halo-mass grid
    enters empty and every massive halo falls in a cell of the lattice,
    the grid times the cell volume sums to the total mass of the
    catalogue, and the lattice mean of the grid is the average halo mass
    that the function reports. *)
Theorem gridded_halo_mass_is_the_mass_of_the_catalogue
        (grids : HaloBox) (averages : HaloProperties) :
  (forall c, (c < npix)%nat -> halo_mass grids c == 0) ->
  (forall i, (i < n_halos halos)%nat -> ~ halo_masses halos i == 0 ->
             (cell_of i < npix)%nat) ->
  ~ VOLUME mac == 0 -> (0 < npix)%nat ->
  let out := sum_halos_onto_grid E mac global_params user_params astro_params
               flag_options set_halo_properties lowres_vcb previous_spin_temp
               previous_ionize_box halos consts out_props_0 grids averages in
  let total := sum_cells (n_halos halos) (halo_masses halos) in
  sum_cells npix (halo_mass (fst out)) * (VOLUME mac / Qnat npix) == total
  /\ hp_halo_mass (snd out) * VOLUME mac == total
  /\ sum_cells npix (halo_mass (fst out)) / Qnat npix
     == hp_halo_mass (snd out).
Proof.
  intros Hempty Hin HV Hn. cbv zeta. unfold sum_halos_onto_grid. cbv zeta.
  set (st := for_cells (n_halos halos) _ _).
  destruct (if (0 <? n_halos halos - n_halos_cut st)%nat then _ else _)
    as [[r a] m].
  cbn [fst snd hp_halo_mass].
  destruct (halo_loop_mass (n_halos halos)
              (mkSumLoop grids 0 0 0 0 0 0 0 0 0 0 0 O) Hin) as [H1 H2].
  fold st in H1, H2. cbn [hm_avg sl_grids] in H1, H2.
  rewrite (sum_cells_zero npix (halo_mass grids) Hempty) in H2.
  set (cv := VOLUME mac / Qnat npix).
  assert (Hq : ~ Qnat npix == 0).
  { pose proof (Qnat_nonneg npix) as H0. intro H.
    assert (Hp : 0 < Qnat npix).
    { unfold Qnat. change 0 with (inject_Z 0). rewrite <- Zlt_Qlt. lia. }
    lra. }
  assert (Hdiv : sum_cells npix
                   (halo_mass (divide_by_cell_volume user_params (sl_grids st) cv))
                 == sum_cells npix (halo_mass (sl_grids st)) * / cv).
  { apply sum_cells_scaled. intros c Hc.
    destruct (divide_by_cell_volume_cells user_params (sl_grids st) cv c)
      as (Hd & _).
    destruct (Hd Hc) as (D1 & _). rewrite D1. reflexivity. }
  rewrite Hdiv, H2, H1. unfold cv.
  set (T := sum_cells (n_halos halos) (halo_masses halos)).
  repeat split; field; auto.
Qed.

End Sums.

(** X24: With mini-halos, the no-feedback molecular-cooling turnover mass that
    [ComputeHaloBox] reports for a catalogue without massive halos is the
    Lyman-Werner threshold at the [vcb_norel] that its constants struct
    (an uninitialised local) held BEFORE [set_hbox_constants] assigned the
    field: the field is read one statement before it is written. *)
Theorem empty_catalogue_turnover_reads_vcb_norel_before_it_is_set
        (hbox_consts_0 : HaloBoxConstants)
        (out_props_0 averages_0 : HaloProperties) (redshift' : Q)
        (lowres_vcb : grid) (perturbed_field : IonisationBox.PerturbedField)
        (halos : PerturbHaloField) (previous_spin_temp : IonisationBox.TsBox)
        (previous_ionize_box : IonisationBox.IonizedBox) (grids : HaloBox) :
  USE_MINI_HALOS flag_options = true ->
  FIXED_HALO_GRIDS flag_options = false ->
  AVG_BELOW_SAMPLER user_params
  && Qltb (minimum_source_mass E redshift' false astro_params flag_options)
          (SAMPLER_MIN_MASS user_params) = false ->
  (forall i, (i < n_halos halos)%nat -> halo_masses halos i == 0) ->
  let out :=
    ComputeHaloBox E mac global_params user_params astro_params flag_options
      set_halo_properties set_fixed_grids hbox_consts_0 out_props_0
      averages_0 redshift' lowres_vcb perturbed_field halos
      previous_spin_temp previous_ionize_box grids in
  let consts :=
    set_hbox_constants E global_params user_params astro_params flag_options
      redshift' hbox_consts_0 in
  hp_m_turn_mcg (snd out)
  = lyman_werner_threshold E redshift' 0 (vcb_norel hbox_consts_0) astro_params
  /\ vcb_norel consts
     = (if FIX_VCB_AVG flag_options then VAVG global_params else 0).
Proof.
  intros Hmini Hfixed Hsub Hmass. cbv zeta.
  unfold ComputeHaloBox. rewrite Hfixed, Hsub.
  destruct (get_mean_log10_turnovers _ _ _ _ _ _ _ _ _) as [[a m] r].
  unfold sum_halos_onto_grid.
  rewrite (sum_loop_massless E global_params user_params astro_params
             flag_options set_halo_properties) by exact Hmass.
  cbn [sl_grids n_halos_cut M_turn_r_avg M_turn_a_avg M_turn_m_avg].
  rewrite Nat.add_0_r, Nat.sub_diag. cbn [Nat.ltb Nat.leb fst snd].
  cbn [hp_m_turn_mcg]. unfold set_hbox_constants. cbv zeta.
  cbn [mturn_m_nofb vcb_norel]. rewrite Hmini. split; reflexivity.
Qed.

End HaloBoxSums.

(** ** [SpinTemperatureBox.c]: the filtered tables *)

Section TsFilterProperties.

Import TsFilter.

Variable user_params : UserParams.
Variable L_FACTOR : Q.
Variable KBox : Type.
Variable filter_box : KBox -> Q -> KBox.
Variable dft_c2r_cube : KBox -> grid.

Local Abbreviation npix := (HII_TOT_NUM_PIXELS user_params).

(** The value stored for a cell: floored at [min_value], then scaled. *)
Local Abbreviation stored box min_value const_factor :=
  (fun ct : nat =>
     (if Qltb (box ct) min_value then min_value else box ct) * const_factor).

Lemma reduce_loop (box : grid) (min_value const_factor : Q) (row : grid)
      (n : nat) :
  let out :=
    for_cells n
      (fun ct (st : grid * Q * Q * Q) =>
         let '(row', ave_buffer, min_out_R, max_out_R) := st in
         let curr0 := box ct in
         let curr1 := if Qltb curr0 min_value then min_value else curr0 in
         let curr := curr1 * const_factor in
         (upd row' ct curr, ave_buffer + curr,
          if Qltb curr min_out_R then curr else min_out_R,
          if Qltb max_out_R curr then curr else max_out_R))
      (row, 0, 1e20, - (1e20)) in
  let v := stored box min_value const_factor in
  (forall c, fst (fst (fst out)) c = if (c <? n)%nat then v c else row c)
  /\ snd (fst (fst out)) = sum_cells n v
  /\ snd (fst out) <= 1e20 /\ - (1e20) <= snd out
  /\ (forall c, (c < n)%nat -> snd (fst out) <= v c /\ v c <= snd out)
  /\ (n = O -> snd (fst out) = 1e20 /\ snd out = - (1e20)).
Proof.
  induction n as [| n IH]; cbv zeta.
  - unfold for_cells. cbn [seq fold_left fst snd sum_cells].
    repeat split; try apply Qle_refl; intros; lia.
  - rewrite for_cells_S. cbv zeta in IH.
    destruct (for_cells n _ _) as [[[row' ave] mn] mx].
    cbn [fst snd] in IH. destruct IH as (Hr & Ha & Hmn & Hmx & Hall & _).
    cbn [fst snd sum_cells].
    set (v := (if Qltb (box n) min_value then min_value else box n)
              * const_factor) in *.
    assert (Hmn' : (if Qltb v mn then v else mn) <= mn
                   /\ (if Qltb v mn then v else mn) <= v).
    { destruct (Qltb v mn) eqn:Hc.
      - apply Qltb_lt in Hc. split; lra.
      - apply Qltb_ge in Hc. split; lra. }
    assert (Hmx' : mx <= (if Qltb mx v then v else mx)
                   /\ v <= (if Qltb mx v then v else mx)).
    { destruct (Qltb mx v) eqn:Hc.
      - apply Qltb_lt in Hc. split; lra.
      - apply Qltb_ge in Hc. split; lra. }
    destruct Hmn' as [M1 M2], Hmx' as [X1 X2].
    split; [| split; [| split; [| split; [| split]]]].
    + intro c. unfold upd. destruct (Nat.eqb_spec c n) as [-> | Hne].
      * assert (H : (n <? S n)%nat = true) by (apply Nat.ltb_lt; lia).
        now rewrite H.
      * rewrite Hr.
        destruct (Nat.ltb_spec c n), (Nat.ltb_spec c (S n));
          try reflexivity; lia.
    + now rewrite Ha.
    + apply (Qle_trans _ mn); assumption.
    + apply (Qle_trans _ mx); assumption.
    + intros c Hc. destruct (Nat.eq_dec c n) as [-> | Hne].
      * split; assumption.
      * destruct (Hall c) as [A B]; [lia |].
        split; [apply (Qle_trans _ mn) | apply (Qle_trans _ mx)]; assumption.
    + intro H; discriminate.
Qed.

(** X25: For every radius of [fill_Rbox_table]: a stored cell is the filtered
    cell, floored at [min_value] BEFORE the constant factor, times the
    constant factor; radii up to the cell scale are not filtered; the
    stored minimum and maximum bound every stored cell of the lattice; the
    stored average times the number of cells is the sum of the stored
    cells; and with a constant factor that is not negative no stored cell
    is below [min_value * const_factor]. *)
Theorem fill_Rbox_table_rows
        (t : RboxTable) (unfiltered_box : KBox) (R_array : nat -> Q)
        (n_R : nat) (min_value const_factor : Q) (R_ct c : nat) :
  (R_ct < n_R)%nat -> (c < npix)%nat ->
  let out := fill_Rbox_table user_params L_FACTOR KBox filter_box dft_c2r_cube
               t unfiltered_box R_array n_R min_value const_factor in
  let R := R_array R_ct in
  let box :=
    dft_c2r_cube
      (if Qltb (L_FACTOR * (BOX_LEN user_params
                            / Qnat (HII_DIM user_params))) R
       then filter_box unfiltered_box R else unfiltered_box) in
  result out R_ct c
  = (if Qltb (box c) min_value then min_value else box c) * const_factor
  /\ min_arr out R_ct <= result out R_ct c
  /\ result out R_ct c <= max_arr out R_ct
  /\ average_arr out R_ct * Qnat npix == sum_cells npix (result out R_ct)
  /\ (0 <= const_factor -> min_value * const_factor <= result out R_ct c).
Proof.
  intros HR Hc. cbv zeta. unfold fill_Rbox_table.
  induction n_R as [| n IH]; [lia |].
  rewrite for_cells_S.
  set (t' := for_cells n _ t) in *.
  set (box := dft_c2r_cube
                (if Qltb (L_FACTOR * (BOX_LEN user_params
                                      / Qnat (HII_DIM user_params)))
                         (R_array R_ct)
                 then filter_box unfiltered_box (R_array R_ct)
                 else unfiltered_box)) in *.
  cbv zeta.
  pose proof (reduce_loop
                (dft_c2r_cube
                   (if Qltb (L_FACTOR * (BOX_LEN user_params
                                         / Qnat (HII_DIM user_params)))
                            (R_array n)
                    then filter_box unfiltered_box (R_array n)
                    else unfiltered_box))
                min_value const_factor (result t' n) npix) as Hred.
  cbv zeta in Hred. unfold reduce_cells.
  destruct (for_cells npix _ (result t' n, 0, 1e20, - (1e20)))
    as [[[row ave] mn] mx].
  cbn [fst snd] in Hred. destruct Hred as (Hr & Ha & _ & _ & Hall & _).
  cbn [result min_arr average_arr max_arr].
  destruct (Nat.eq_dec R_ct n) as [-> | Hne].
  - rewrite Nat.eqb_refl, !upd_same. fold box in Hr, Ha, Hall.
    assert (Hcell : row c = (if Qltb (box c) min_value then min_value
                             else box c) * const_factor).
    { rewrite Hr. apply Nat.ltb_lt in Hc. now rewrite Hc. }
    destruct (Hall c Hc) as [A B].
    split; [exact Hcell |]. rewrite Hcell.
    split; [exact A |]. split; [exact B |]. split.
    + rewrite Ha.
      rewrite (sum_cells_ext npix row
                 (fun ct => (if Qltb (box ct) min_value then min_value
                             else box ct) * const_factor)).
      * field. unfold Qnat. intro H. change 0 with (inject_Z 0) in H.
        assert (Hp : inject_Z 0 < inject_Z (Z.of_nat npix))
          by (rewrite <- Zlt_Qlt; lia).
        rewrite H in Hp. apply (Qlt_irrefl _ Hp).
      * intros k Hk. rewrite Hr. apply Nat.ltb_lt in Hk. now rewrite Hk.
    + intro Hcf. apply Qmult_le_compat_r; [| exact Hcf].
      destruct (Qltb (box c) min_value) eqn:Hq; [apply Qle_refl |].
      now apply Qltb_ge in Hq.
  - apply Nat.eqb_neq in Hne as Hb. rewrite Hb.
    rewrite !upd_other by exact Hne.
    apply IH. lia.
Qed.

End TsFilterProperties.

(** ** [SpinTemperatureBox.c]: the redshift bins of the shells *)

Section ShellBins.

Import SpinTemperature ShellSums.

Local Open Scope R_scope.

Variable E : TsExternals.
Variable P : TsParams.
Variable zp : R.
Variable a0 : ShellArrays.

Local Abbreviation N := (NUM_FILTER_STEPS_FOR_Ts P).

(** The upper edge of the bin of shell [k]: [zp] for the first shell, the
    lower edge of the previous shell for the others. *)
Local Abbreviation upper_edge a k :=
  (if Nat.eqb k 0 then zp else zpp_edge a (k - 1)%nat).

Lemma loop_bins (n : nat) :
  let a := snd (for_cells n (z_edges_step E P zp) (R_start P, a0)) in
  forall k, (k < n)%nat ->
    zpp_edge a k
    = upper_edge a k
      - (R_values a k - (if Nat.eqb k 0 then 0 else R_values a (k - 1)%nat))
        * CMperMPC P / drdz E (upper_edge a k)
    /\ dzpp_list a k = upper_edge a k - zpp_edge a k
    /\ zpp_for_evolve_list a k = (zpp_edge a k + upper_edge a k) * (1 / 2)
    /\ zpp_growth a k = dicke E (zpp_for_evolve_list a k)
    /\ dtdz_list a k = dtdz E (zpp_for_evolve_list a k).
Proof.
  induction n as [| n IH]; cbv zeta; [intros k Hk; lia |].
  cbv zeta in IH. rewrite for_cells_S.
  destruct (for_cells n (z_edges_step E P zp) (R_start P, a0)) as [Rc a].
  cbn [snd] in IH. unfold z_edges_step.
  cbn [snd zpp_edge R_values dzpp_list zpp_for_evolve_list zpp_growth
       dtdz_list].
  intros k Hk. destruct (Nat.eq_dec k n) as [-> | Hne].
  - rewrite !store_same.
    destruct (Nat.eqb_spec n 0) as [Hz | Hz].
    + repeat split; try reflexivity. subst n. now rewrite store_same.
    + rewrite !store_other by lia. repeat split; reflexivity.
  - rewrite !(store_other _ n k) by exact Hne.
    destruct (Nat.eqb_spec k 0) as [Hz | Hz].
    + destruct (IH k) as (A & B & C & D & F); [lia |].
      subst k. cbn [Nat.eqb] in A, B, C. auto.
    + rewrite !(store_other _ n (k - 1)) by lia.
      destruct (IH k) as (A & B & C & D & F); [lia |].
      apply Nat.eqb_neq in Hz. rewrite Hz in A, B, C. auto.
Qed.

Lemma sum_bins (a : ShellArrays) (n : nat) :
  (forall k, (k < n)%nat -> dzpp_list a k = upper_edge a k - zpp_edge a k) ->
  sum_array n (dzpp_list a)
  = zp - (if Nat.eqb n 0 then zp else zpp_edge a (n - 1)%nat).
Proof.
  induction n as [| n IH]; intro H.
  - cbn [sum_array Nat.eqb]. ring.
  - cbn [sum_array]. rewrite IH by (intros k Hk; apply H; lia).
    rewrite H by lia. cbn [Nat.eqb].
    replace (S n - 1)%nat with n by lia. ring.
Qed.

(** X26: The shells of [setup_z_edges] tile the redshifts below [zp]: the lower
    edge of a shell lies below its upper edge by the step in radius
    (the whole radius for the first shell) times [CMperMPC] over [drdz] at
    the upper edge, the bin width is the difference of the two edges, the
    redshift of the shell is their midpoint, the growth factor and [dtdz]
    are taken at this midpoint, and the widths of all the shells add up to
    [zp] minus the last edge.  The divisor [drdz] is taken different from
    zero. *)
Theorem redshift_bins_tile_the_range_below_zp (k : nat) :
  (forall z, drdz E z <> 0) ->
  (k < N)%nat ->
  let a := setup_z_edges E P zp a0 in
  zpp_edge a k
  = upper_edge a k
    - (R_values a k - (if Nat.eqb k 0 then 0 else R_values a (k - 1)%nat))
      * CMperMPC P / drdz E (upper_edge a k)
  /\ dzpp_list a k = upper_edge a k - zpp_edge a k
  /\ zpp_for_evolve_list a k = (zpp_edge a k + upper_edge a k) * (1 / 2)
  /\ zpp_growth a k = dicke E (zpp_for_evolve_list a k)
  /\ dtdz_list a k = dtdz E (zpp_for_evolve_list a k)
  /\ sum_array N (dzpp_list a) = zp - zpp_edge a (N - 1)%nat.
Proof.
  intros _ Hk. cbv zeta. unfold setup_z_edges.
  pose proof (loop_bins N) as H. cbv zeta in H.
  destruct (H k Hk) as (A & B & C & D & F).
  repeat split; try assumption.
  rewrite sum_bins.
  - destruct (Nat.eqb_spec N 0); [lia | reflexivity].
  - intros j Hj. now destruct (H j Hj) as (_ & B' & _).
Qed.

End ShellBins.

(** ** [SpinTemperatureBox.c]: the star-formation-rate grids *)

Section TsSfrdProperties.

Import IonisationBox TsSfrd.

Variable E : Externals.
Variable user_params : UserParams.
Variable flag_options : FlagOptions.
Variable Deltac : Q.
Variable EvaluateSFRD_Conditional : Q -> Q -> Q -> Q -> Q -> Q -> Q -> Q.
Variable EvaluateSFRD_Conditional_MINI :
  Q -> Q -> Q -> Q -> Q -> Q -> Q -> Q -> Q.
Variable EvaluatedFcolldz : Q -> Q -> Q -> Q -> Q.
Variables zpp_growth zpp_for_evolve_list : nat -> Q.
Variables M_min_R M_max_R sigma_min sigma_max : nat -> Q.
Variable Mcrit_atom_interp_table : nat -> Q.
Variables Mlim_Fstar_g Mlim_Fstar_MINI_g : Q.

Variable fcoll_MINI_0 : Q.
Variable R_ct : nat.
Variables dens_R_grid Mcrit_R_grid sfrd_grid_0 sfrd_grid_mini_0 : grid.

Local Abbreviation npix := (HII_TOT_NUM_PIXELS user_params).

Local Abbreviation curr_dens c := (dens_R_grid c * zpp_growth R_ct).

(** The cells below the lower boundary and above the upper one. *)
Local Abbreviation empty c := (Qle_bool (curr_dens c) (- (1))).
Local Abbreviation saturated c := (Qltb (Deltac * 0.99) (curr_dens c)).

(** The collapse fraction that a regular cell adds to [ave_sfrd]. *)
Local Abbreviation fcoll_of c :=
  (if USE_MASS_DEPENDENT_ZETA flag_options
   then EvaluateSFRD_Conditional (curr_dens c) (zpp_growth R_ct)
          (M_min_R R_ct) (M_max_R R_ct) (sigma_max R_ct)
          (Mcrit_atom_interp_table R_ct) Mlim_Fstar_g
   else EvaluateFcoll_delta E (curr_dens c) (zpp_growth R_ct)
          (sigma_min R_ct) (sigma_max R_ct)).

(** The value of the local [fcoll_MINI] that a regular cell adds to
    [ave_sfrd_mini]. *)
Local Abbreviation fcoll_MINI_of c :=
  (if USE_MASS_DEPENDENT_ZETA flag_options && USE_MINI_HALOS flag_options
   then EvaluateSFRD_Conditional_MINI (curr_dens c) (Mcrit_R_grid c)
          (zpp_growth R_ct) (M_min_R R_ct) (M_max_R R_ct) (sigma_max R_ct)
          (Mcrit_atom_interp_table R_ct) Mlim_Fstar_MINI_g
   else fcoll_MINI_0).

Local Abbreviation step :=
  (sfrd_cell E flag_options Deltac EvaluateSFRD_Conditional
             EvaluateSFRD_Conditional_MINI EvaluatedFcolldz zpp_growth
             zpp_for_evolve_list M_min_R M_max_R sigma_min sigma_max
             Mcrit_atom_interp_table Mlim_Fstar_g Mlim_Fstar_MINI_g R_ct
             dens_R_grid Mcrit_R_grid).

Local Abbreviation start :=
  (mkSfrdLoop sfrd_grid_0 sfrd_grid_mini_0 0 0 fcoll_MINI_0).

(** The value that the loop writes in the first grid. *)
Local Abbreviation written c :=
  (if empty c then 0
   else if saturated c then 1
        else if USE_MASS_DEPENDENT_ZETA flag_options
             then (1 + curr_dens c) * fcoll_of c
             else (1 + curr_dens c)
                  * EvaluatedFcolldz (curr_dens c) (zpp_for_evolve_list R_ct)
                      (sigma_min R_ct) (sigma_max R_ct)).

(** The value that the loop writes in the mini-halo grid, or the value
    [old] that it leaves there. *)
Local Abbreviation written_mini c old :=
  (if USE_MINI_HALOS flag_options
   then if empty c then 0
        else if saturated c then 1
             else if USE_MASS_DEPENDENT_ZETA flag_options
                  then (1 + curr_dens c) * fcoll_MINI_of c
                  else old
   else old).

Lemma sfrd_loop (n : nat) :
  let st := for_cells n step start in
  (forall c, sfrd_grid st c
             = if (c <? n)%nat then written c else sfrd_grid_0 c)
  /\ (forall c, sfrd_grid_mini st c
                = if (c <? n)%nat then written_mini c (sfrd_grid_mini_0 c)
                  else sfrd_grid_mini_0 c)
  /\ ave_sfrd_buf st
     == sum_cells n (fun c => if empty c then 0
                              else if saturated c then 1 else fcoll_of c)
  /\ ave_sfrd_buf_mini st
     == sum_cells n (fun c => if empty c then 0
                              else if saturated c
                                   then if USE_MINI_HALOS flag_options
                                        then 1 else 0
                                   else fcoll_MINI_of c)
  /\ (USE_MASS_DEPENDENT_ZETA flag_options && USE_MINI_HALOS flag_options
      = false -> fcoll_MINI st = fcoll_MINI_0).
Proof.
  induction n as [| n IH]; cbv zeta.
  - unfold for_cells. cbn [seq fold_left sfrd_grid sfrd_grid_mini ave_sfrd_buf
                           ave_sfrd_buf_mini fcoll_MINI sum_cells].
    repeat split; reflexivity.
  - rewrite for_cells_S. cbv zeta in IH.
    set (st := for_cells n step start) in *.
    destruct IH as (Hg & Hm & Ha & Hb & Hf).
    assert (Hlt : forall c : nat, c <> n ->
                    (c <? S n)%nat = (c <? n)%nat).
    { intros c Hc.
      destruct (Nat.ltb_spec c n), (Nat.ltb_spec c (S n));
        try reflexivity; lia. }
    assert (Hn : (n <? S n)%nat = true) by (apply Nat.ltb_lt; lia).
    assert (Hnn : (n <? n)%nat = false) by (apply Nat.ltb_ge; lia).
    cbn [sum_cells]. cbv beta. unfold sfrd_cell. cbv zeta.
    destruct (empty n) eqn:He;
      [| destruct (saturated n) eqn:Hs;
         [| destruct (USE_MASS_DEPENDENT_ZETA flag_options) eqn:Hz]];
      cbn [sfrd_grid sfrd_grid_mini ave_sfrd_buf ave_sfrd_buf_mini fcoll_MINI
           sum_cells andb] in *;
      (split; [| split; [| split; [| split]]]);
      try (intro c; unfold upd;
           destruct (Nat.eqb_spec c n) as [-> | Hne];
           [rewrite Hn, ?He, ?Hs; reflexivity
           | rewrite (Hlt c Hne); apply Hg]);
      try (intro c; destruct (USE_MINI_HALOS flag_options) eqn:Hmini;
           [unfold upd; destruct (Nat.eqb_spec c n) as [-> | Hne];
            [rewrite Hn, ?He, ?Hs; reflexivity
            | rewrite (Hlt c Hne), Hm; reflexivity]
           | destruct (Nat.eq_dec c n) as [-> | Hne];
             [rewrite Hm, Hn, Hnn; reflexivity
             | rewrite (Hlt c Hne), Hm; reflexivity]]).
    all: try (intro c; rewrite Hm;
              destruct (Nat.eq_dec c n) as [-> | Hne];
              [rewrite Hn, Hnn, He, Hs;
               destruct (USE_MINI_HALOS flag_options); reflexivity
              | rewrite (Hlt c Hne); reflexivity]).
    all: try (rewrite Ha; reflexivity).
    all: try (rewrite Ha; ring).
    all: try (intro Hoff; apply Hf; exact Hoff).
    all: try (rewrite Hb; ring).
    all: try (destruct (USE_MINI_HALOS flag_options) eqn:Hmini;
              cbn [andb] in *; rewrite Hb; try rewrite (Hf eq_refl); ring).
    all: try (destruct (USE_MINI_HALOS flag_options) eqn:Hmini;
              cbn [andb] in *; intro Hoff;
              [discriminate | apply Hf; reflexivity]).
Qed.

Lemma sum_cells_bounds (n : nat) (f : grid) :
  (forall c, (c < n)%nat -> 0 <= f c /\ f c <= 1) ->
  0 <= sum_cells n f /\ sum_cells n f <= Qnat n.
Proof.
  induction n as [| n IH]; intro H.
  - cbn [sum_cells]. split; apply Qle_refl.
  - cbn [sum_cells]. rewrite Qnat_S.
    destruct IH as [A B]; [intros c Hc; apply H; lia |].
    destruct (H n) as [C D]; [lia |]. split; lra.
Qed.

(** X27: The boundary cells of [calculate_sfrd_from_grid].  A cell of the
    lattice whose density contrast, scaled by the growth factor, is at
    most [-1] gets the value [0], a cell above [0.99*Deltac] the value
    [1], in the mini-halo grid too when mini-halos are on; no table is
    looked up for these cells.  A cell in between gets [(1 + delta)] times
    the conditional rate (with mass-dependent zeta) or times the
    derivative [EvaluatedFcolldz].  Without mini-halos the mini-halo grid
    is not written. *)
Theorem sfrd_grid_is_zero_or_one_at_the_boundaries (c : nat) :
  (c < npix)%nat ->
  let out :=
    calculate_sfrd_from_grid E user_params flag_options Deltac
      EvaluateSFRD_Conditional EvaluateSFRD_Conditional_MINI EvaluatedFcolldz
      zpp_growth zpp_for_evolve_list M_min_R M_max_R sigma_min sigma_max
      Mcrit_atom_interp_table Mlim_Fstar_g Mlim_Fstar_MINI_g fcoll_MINI_0
      R_ct dens_R_grid Mcrit_R_grid sfrd_grid_0 sfrd_grid_mini_0 in
  let g := fst (fst (fst out)) in
  let g_mini := snd (fst (fst out)) in
  (curr_dens c <= - (1) ->
   g c = 0 /\ (USE_MINI_HALOS flag_options = true -> g_mini c = 0))
  /\ (- (1) < curr_dens c -> Deltac * 0.99 < curr_dens c ->
      g c = 1 /\ (USE_MINI_HALOS flag_options = true -> g_mini c = 1))
  /\ (- (1) < curr_dens c -> curr_dens c <= Deltac * 0.99 ->
      g c = (1 + curr_dens c)
            * (if USE_MASS_DEPENDENT_ZETA flag_options then fcoll_of c
               else EvaluatedFcolldz (curr_dens c) (zpp_for_evolve_list R_ct)
                      (sigma_min R_ct) (sigma_max R_ct)))
  /\ (USE_MINI_HALOS flag_options = false ->
      forall c', g_mini c' = sfrd_grid_mini_0 c').
Proof.
  intro Hc. cbv zeta. unfold calculate_sfrd_from_grid. cbn [fst snd].
  destruct (sfrd_loop npix) as (Hg & Hm & _). cbv zeta in Hg, Hm.
  apply Nat.ltb_lt in Hc.
  split; [| split; [| split]].
  - intro He. apply Qle_bool_iff in He.
    rewrite Hg, Hm, Hc, He. split; [reflexivity |].
    intro Hmini. now rewrite Hmini.
  - intros Hne Hs.
    assert (He : empty c = false).
    { destruct (empty c) eqn:Hb; [| reflexivity].
      apply Qle_bool_iff in Hb. lra. }
    apply Qltb_lt in Hs. rewrite Hg, Hm, Hc, He, Hs. split; [reflexivity |].
    intro Hmini. now rewrite Hmini.
  - intros Hne Hs.
    assert (He : empty c = false).
    { destruct (empty c) eqn:Hb; [| reflexivity].
      apply Qle_bool_iff in Hb. lra. }
    apply Qltb_ge in Hs. rewrite Hg, Hc, He, Hs.
    destruct (USE_MASS_DEPENDENT_ZETA flag_options); reflexivity.
  - intros Hmini c'. rewrite Hm, Hmini. now destruct (c' <? npix)%nat.
Qed.

(** X28: [*ave_sfrd] is the lattice mean of the collapse fractions: [0] for a
    cell at or below [-1], [1] for a cell above [0.99*Deltac], and the
    looked-up fraction for the others, not weighted by [(1 + delta)];
    without mass-dependent zeta it averages [EvaluateFcoll_delta] although
    the grid holds the derivative.  When the looked-up fractions are in
    [[0, 1]] so is the average. *)
Theorem ave_sfrd_is_the_mean_collapse_fraction :
  (0 < npix)%nat ->
  let out :=
    calculate_sfrd_from_grid E user_params flag_options Deltac
      EvaluateSFRD_Conditional EvaluateSFRD_Conditional_MINI EvaluatedFcolldz
      zpp_growth zpp_for_evolve_list M_min_R M_max_R sigma_min sigma_max
      Mcrit_atom_interp_table Mlim_Fstar_g Mlim_Fstar_MINI_g fcoll_MINI_0
      R_ct dens_R_grid Mcrit_R_grid sfrd_grid_0 sfrd_grid_mini_0 in
  let ave_sfrd := snd (fst out) in
  ave_sfrd * Qnat npix
  == sum_cells npix (fun c => if empty c then 0
                              else if saturated c then 1 else fcoll_of c)
  /\ ((forall c, 0 <= fcoll_of c /\ fcoll_of c <= 1) ->
      0 <= ave_sfrd /\ ave_sfrd <= 1).
Proof.
  intro Hn. cbv zeta. unfold calculate_sfrd_from_grid. cbn [fst snd].
  destruct (sfrd_loop npix) as (_ & _ & Ha & _). cbv zeta in Ha.
  assert (Hp : 0 < Qnat npix).
  { unfold Qnat. change 0 with (inject_Z 0). rewrite <- Zlt_Qlt. lia. }
  split.
  - rewrite Ha. field. lra.
  - intro Hf. rewrite Ha.
    destruct (sum_cells_bounds npix
                (fun c => if empty c then 0
                          else if saturated c then 1 else fcoll_of c))
      as [A B].
    { intros c _. destruct (empty c); [split; lra |].
      destruct (saturated c); [split; lra | apply Hf]. }
    split.
    + apply Qle_shift_div_l; [exact Hp | lra].
    + apply Qle_shift_div_r; [exact Hp | lra].
Qed.

(** X29: Unless mass-dependent zeta and mini-halos are both on, the local
    [fcoll_MINI] is never assigned, and every cell between the boundaries
    adds its uninitialised content to [*ave_sfrd_mini]: without mini-halos
    [*ave_sfrd_mini] is the fraction of such cells times that content. *)
Theorem ave_sfrd_mini_sums_the_unassigned_local :
  USE_MINI_HALOS flag_options = false -> (0 < npix)%nat ->
  let out :=
    calculate_sfrd_from_grid E user_params flag_options Deltac
      EvaluateSFRD_Conditional EvaluateSFRD_Conditional_MINI EvaluatedFcolldz
      zpp_growth zpp_for_evolve_list M_min_R M_max_R sigma_min sigma_max
      Mcrit_atom_interp_table Mlim_Fstar_g Mlim_Fstar_MINI_g fcoll_MINI_0
      R_ct dens_R_grid Mcrit_R_grid sfrd_grid_0 sfrd_grid_mini_0 in
  let ave_sfrd_mini := snd out in
  let between : grid :=
    fun c => if empty c then 0 else if saturated c then 0 else 1 in
  ave_sfrd_mini * Qnat npix == sum_cells npix between * fcoll_MINI_0.
Proof.
  intros Hmini Hn. cbv zeta. unfold calculate_sfrd_from_grid. cbn [fst snd].
  destruct (sfrd_loop npix) as (_ & _ & _ & Hb & _). cbv zeta in Hb.
  assert (Hp : 0 < Qnat npix).
  { unfold Qnat. change 0 with (inject_Z 0). rewrite <- Zlt_Qlt. lia. }
  rewrite Hb.
  rewrite <- (sum_cells_scaled npix
                (fun c => if empty c then 0 else if saturated c then 0 else 1)
                (fun c => if empty c then 0
                          else if saturated c
                               then if USE_MINI_HALOS flag_options
                                    then 1 else 0
                               else fcoll_MINI_of c)
                fcoll_MINI_0).
  - field. lra.
  - intros c _. rewrite Hmini, andb_false_r.
    destruct (empty c); [ring |]. destruct (saturated c); ring.
Qed.

End TsSfrdProperties.
(** ** The further properties on concrete inputs *)

Section InterpolationExamples.

Import Interpolation FurtherExamples.


(** X2, witness: the table that samples [1 + 3*x] returns [1 + 3*x] at
    [x = 7/3], where the index in [double] arithmetic is [1]. *)
Lemma EvaluateRGTable1D_affine_example :
  table_index binary64 (7 / 3) (x_min line_table) (x_width line_table)
  = Some 1%Z
  /\ (0 <= 1)%Z /\ (1 + 1 < n_bin line_table)%Z
  /\ (forall i, (0 <= i < n_bin line_table)%Z ->
                y_arr line_table i
                == 1 + 3 * (x_min line_table
                            + x_width line_table * inject_Z i))
  /\ (exists v, EvaluateRGTable1D binary64 (7 / 3) line_table = Some v
                /\ v == 1 + 3 * (7 / 3)).
Proof.
  assert (Hk : table_index binary64 (7 / 3) (x_min line_table)
                 (x_width line_table) = Some 1%Z)
    by (vm_compute; reflexivity).
  assert (Hk0 : (0 <= 1)%Z) by lia.
  assert (Hk1 : (1 + 1 < n_bin line_table)%Z) by (cbn; lia).
  assert (Hy : forall i, (0 <= i < n_bin line_table)%Z ->
                         y_arr line_table i
                         == 1 + 3 * (x_min line_table
                                     + x_width line_table * inject_Z i))
    by (intros i _; apply Qeq_refl).
  exact (conj Hk (conj Hk0 (conj Hk1 (conj Hy
           (EvaluateRGTable1D_affine binary64 (7 / 3) 1 3 line_table 1
              Hk Hk0 Hk1 Hy))))).
Defined.



(** X5, witness: the plane table returns [1 + 2*x + 3*y + 4*x*y] at the point
    [(3/2, 1/7)], where the indices in [double] arithmetic are [(1, 0)]. *)
Lemma EvaluateRGTable2D_bilinear_example :
  table_index binary64 (3 / 2) (x_min2 plane_table) (x_width2 plane_table)
  = Some 1%Z
  /\ table_index binary64 (1 / 7) (y_min2 plane_table) (y_width2 plane_table)
     = Some 0%Z
  /\ (0 <= 1)%Z /\ (1 + 1 < nx_bin plane_table)%Z
  /\ (0 <= 0)%Z /\ (0 + 1 < ny_bin plane_table)%Z
  /\ (forall i j,
        (0 <= i < nx_bin plane_table)%Z -> (0 <= j < ny_bin plane_table)%Z ->
        z_arr plane_table i j
        == 1 + 2 * (x_min2 plane_table + x_width2 plane_table * inject_Z i)
           + 3 * (y_min2 plane_table + y_width2 plane_table * inject_Z j)
           + 4 * (x_min2 plane_table + x_width2 plane_table * inject_Z i)
               * (y_min2 plane_table + y_width2 plane_table * inject_Z j))
  /\ (exists v, EvaluateRGTable2D binary64 (3 / 2) (1 / 7) plane_table
                = Some v
                /\ v == 1 + 2 * (3 / 2) + 3 * (1 / 7)
                        + 4 * (3 / 2) * (1 / 7)).
Proof.
  assert (Hi : table_index binary64 (3 / 2) (x_min2 plane_table)
                 (x_width2 plane_table) = Some 1%Z)
    by (vm_compute; reflexivity).
  assert (Hj : table_index binary64 (1 / 7) (y_min2 plane_table)
                 (y_width2 plane_table) = Some 0%Z)
    by (vm_compute; reflexivity).
  assert (Hi0 : (0 <= 1)%Z) by lia.
  assert (Hi1 : (1 + 1 < nx_bin plane_table)%Z) by (cbn; lia).
  assert (Hj0 : (0 <= 0)%Z) by lia.
  assert (Hj1 : (0 + 1 < ny_bin plane_table)%Z) by (cbn; lia).
  assert (Hz : forall i j,
             (0 <= i < nx_bin plane_table)%Z ->
             (0 <= j < ny_bin plane_table)%Z ->
             z_arr plane_table i j
             == 1 + 2 * (x_min2 plane_table
                         + x_width2 plane_table * inject_Z i)
                + 3 * (y_min2 plane_table
                       + y_width2 plane_table * inject_Z j)
                + 4 * (x_min2 plane_table
                       + x_width2 plane_table * inject_Z i)
                    * (y_min2 plane_table
                       + y_width2 plane_table * inject_Z j))
    by (intros i j _ _; apply Qeq_refl).
  exact (conj Hi (conj Hj (conj Hi0 (conj Hi1 (conj Hj0 (conj Hj1 (conj Hz
           (EvaluateRGTable2D_bilinear binary64 (3 / 2) (1 / 7) 1 2 3 4
              plane_table 1 0 Hi Hj Hi0 Hi1 Hj0 Hj1 Hz)))))))).
Defined.

End InterpolationExamples.

Section FurtherIonisationBoxExamples.

Import IonisationBox Example FurtherExamples.

Lemma first_setup_runs : first_setup_result = inr first_setup.
Proof.
  unfold first_setup.
  destruct first_setup_result as [e | s] eqn:H;
    [vm_compute in H; discriminate | reflexivity].
Defined.

Lemma first_compute_runs : first_compute_result = inr first_box.
Proof.
  unfold first_box.
  destruct first_compute_result as [e | s] eqn:H;
    [vm_compute in H; discriminate | reflexivity].
Defined.

(** X8, witness: the bubble algorithm [3]. *)
Lemma unknown_bubble_algorithm_is_refused_example :
  FIND_BUBBLE_ALGORITHM (globals 3) <> 1%Z
  /\ FIND_BUBBLE_ALGORITHM (globals 3) <> 2%Z
  /\ compute sphere_flags 3 3 3 3 = inl ValueError.
Proof.
  assert (H1 : FIND_BUBBLE_ALGORITHM (globals 3) <> 1%Z)
    by (intro H; discriminate H).
  assert (H2 : FIND_BUBBLE_ALGORITHM (globals 3) <> 2%Z)
    by (intro H; discriminate H).
  exact (conj H1 (conj H2
           (unknown_bubble_algorithm_is_refused externals macros (globals 3)
              (user 3 true) cosmo (astro 3) sphere_flags indeterminate
              (filtered 3) radii 8 9 no_field no_field previous_box spin
              zeros fresh_box H1 H2))).
Defined.


(** X11, witness: the sphere scenario as a first snapshot (previous redshift
    [0]): cell [0] is fully ionised, the rate and [|dt/dz|] are [1], and
    its count is [(1 + 8) * (1.02 - 1) = 0.18]. *)
Lemma first_snapshot_recombinations_start_from_zero_example :
  first_setup_result = inr first_setup
  /\ first_compute_result = inr first_box
  /\ INHOMO_RECO sphere_flags = true
  /\ Qltb (exp_global_hii first_setup) (HII_ROUND_ERR (globals 1)) = false
  /\ 0 < 1
  /\ (0 < HII_TOT_NUM_PIXELS (user 3 true))%nat
  /\ dNrec_box first_box O == 18 / 100
  /\ 0 <= dNrec_box first_box O.
Proof.
  assert (Hrun : Qltb (exp_global_hii first_setup)
                      (HII_ROUND_ERR (globals 1)) = false)
    by (vm_compute; reflexivity).
  assert (Hfirst : 0 < 1) by q_lt.
  assert (Hc : (0 < HII_TOT_NUM_PIXELS (user 3 true))%nat)
    by (apply Nat.ltb_lt; reflexivity).
  destruct (first_snapshot_recombinations_start_from_zero externals macros
              (globals 1) (user 3 true) cosmo (astro 3) sphere_flags
              indeterminate (filtered 3) radii 8 0 no_field no_field
              previous_box spin zeros fresh_box first_setup first_box O
              first_setup_runs first_compute_runs eq_refl Hrun Hfirst Hc)
    as [Hv Hpos].
  refine (conj first_setup_runs (conj first_compute_runs (conj eq_refl
           (conj Hrun (conj Hfirst (conj Hc (conj _ _))))))).
  - rewrite Hv. q_eq.
  - apply Hpos; [q_le | q_le | q_le | q_le].
Defined.


End FurtherIonisationBoxExamples.
(** ** The rounding of the examples *)

Section RoundingExamples.

Import PerturbHaloField FurtherExamples.

Lemma Qred_int (m : Z) : Qred (inject_Z m) = inject_Z m.
Proof.
  unfold Qred, inject_Z.
  pose proof (Z.ggcd_gcd m 1) as Hg.
  pose proof (Z.ggcd_correct_divisors m 1) as Hd.
  destruct (Z.ggcd m 1) as (g, (r1, r2)). cbn [fst snd] in *.
  rewrite Z.gcd_1_r in Hg. subst g. destruct Hd as [H1 H2].
  replace r1 with m by lia. replace r2 with 1%Z by lia. reflexivity.
Qed.

Lemma nearest_even_int (z : Z) : nearest_even (inject_Z z) = z.
Proof.
  unfold nearest_even.
  assert (Hf : Qfloor (inject_Z z) = z).
  { unfold Qfloor, inject_Z. apply Z.div_1_r. }
  rewrite Hf.
  assert (Hlt : inject_Z z - inject_Z z < 1 / 2).
  { assert (E : inject_Z z - inject_Z z == 0) by ring.
    rewrite E. reflexivity. }
  pose proof (proj1 (Qlt_alt _ _) Hlt) as Hc. now rewrite Hc.
Qed.

Lemma pow2_cancel (z k : Z) :
  (0 <= k)%Z -> inject_Z (z * 2 ^ k) * pow2 (- k) == inject_Z z.
Proof.
  intro Hk. unfold pow2.
  assert (Hp : (0 < 2 ^ k)%Z) by (apply Z.pow_pos_nonneg; lia).
  destruct (0 <=? - k)%Z eqn:Hc.
  - apply Z.leb_le in Hc. assert (k = 0%Z) by lia. subst k.
    cbn. rewrite Z.mul_1_r. ring.
  - rewrite Z.opp_involutive, inject_Z_mult. field.
    intro H. unfold Qeq in H. cbn in H. lia.
Qed.

(** [float] holds every integer of magnitude up to [2^24]. *)
Lemma binary32_integers : exact_on_integers binary32.
Proof.
  intros m Hm. rewrite float_integers in Hm.
  destruct (Z.eq_dec m 0) as [-> | Hm0]; [vm_compute; reflexivity |].
  destruct (Z.eq_dec m 16777216) as [-> | Hhi]; [vm_compute; reflexivity |].
  destruct (Z.eq_dec m (- 16777216)) as [-> | Hlo]; [vm_compute; reflexivity |].
  unfold binary32, round_to.
  assert (Hz : Qeq_bool (inject_Z m) 0 = false).
  { destruct (Qeq_bool (inject_Z m) 0) eqn:H; [| reflexivity].
    apply Qeq_bool_iff in H. unfold Qeq in H. cbn in H. lia. }
  rewrite Hz. change (Qabs (inject_Z m)) with (inject_Z (Z.abs m)).
  cbn [Qnum Qden inject_Z]. change (Z.log2 1) with 0%Z.
  set (A := Z.abs m). assert (HA : (0 < A < 16777216)%Z) by (unfold A; lia).
  set (L := Z.log2 A).
  assert (HL0 : (0 <= L)%Z) by apply Z.log2_nonneg.
  assert (HL1 : (L < 24)%Z).
  { apply Z.log2_lt_pow2; [lia |]. change (2 ^ 24)%Z with 16777216%Z. lia. }
  destruct (Z.log2_spec A) as [Hlow _]; [lia |]. fold L in Hlow.
  replace (L - 0 - (24 - 1))%Z with (- (23 - L))%Z by lia.
  set (k := (23 - L)%Z). assert (Hk : (0 <= k)%Z) by (unfold k; lia).
  rewrite Z.opp_involutive.
  assert (Hpk : pow2 k = inject_Z (2 ^ k)).
  { unfold pow2. apply Z.leb_le in Hk. now rewrite Hk. }
  rewrite Hpk.
  change (A # 1) with (inject_Z A).
  assert (Hprod : inject_Z A * inject_Z (2 ^ k) = inject_Z (A * 2 ^ k))
    by reflexivity.
  rewrite Hprod.
  assert (Hge : Qle_bool (pow2 (24 - 1)) (inject_Z (A * 2 ^ k)) = true).
  { apply Qle_bool_iff. change (pow2 (24 - 1)) with (inject_Z (2 ^ 23)).
    rewrite <- Zle_Qle.
    assert (E : (2 ^ 23 = 2 ^ L * 2 ^ k)%Z).
    { rewrite <- Z.pow_add_r by lia. f_equal. unfold k. lia. }
    rewrite E. apply Z.mul_le_mono_nonneg_r; [| exact Hlow].
    apply Z.pow_nonneg. lia. }
  rewrite Hge, Z.opp_involutive, Hpk, Hprod, nearest_even_int.
  transitivity (Qred (inject_Z m)); [apply Qred_complete | apply Qred_int].
  pose proof (pow2_cancel A k Hk) as Hc.
  destruct (Qle_bool 0 (inject_Z m)) eqn:Hs.
  - apply Qle_bool_iff in Hs. change 0 with (inject_Z 0) in Hs.
    rewrite <- Zle_Qle in Hs. rewrite Hc. unfold A.
    now rewrite Z.abs_eq by lia.
  - assert (Hneg : (m < 0)%Z).
    { destruct (Z.lt_ge_cases m 0) as [H | H]; [exact H |].
      rewrite Zle_Qle in H. apply Qle_bool_iff in H.
      change (inject_Z 0) with 0 in H. congruence. }
    rewrite Hc. unfold A. rewrite Z.abs_neq by lia.
    rewrite inject_Z_opp. ring.
Qed.

End RoundingExamples.

Section IonisationGridsExamples.

Import IonisationBox IonisationGrids Example FurtherExamples.

(** X14, witness: the ramp [-1, 0, 1] clipped to [[0, 1/2]]: the cell [2] is
    [1/2] after one clipping and after two, and the extrema of the clipped
    buffer are within the limits. *)
Lemma clipping_twice_is_clipping_once_example :
  0 <= 1 / 2
  /\ fst (fst (clip_and_get_extrema (user 3 true)
                 (fst (fst (clip_and_get_extrema (user 3 true) ramp 0
                              (1 / 2))))
                 0 (1 / 2))) 2%nat
     == fst (fst (clip_and_get_extrema (user 3 true) ramp 0 (1 / 2))) 2%nat
  /\ fst (fst (clip_and_get_extrema (user 3 true) ramp 0 (1 / 2))) 2%nat
     == 1 / 2.
Proof.
  assert (H : 0 <= 1 / 2) by q_le.
  destruct (clipping_twice_is_clipping_once (user 3 true) ramp 0 (1 / 2)
              2%nat H) as [Hv _].
  refine (conj H (conj Hv _)). q_eq.
Defined.

(** X15, witness: the radii [1/2], [1], [2], [4] between the cell scale and
    half the box; the fourth geometric value, [4], is within
    [FRACT_FLOAT_ERR] of the maximum, so the array ends with it. *)
Lemma setup_radii_stops_at_the_maximum_radius_example :
  0 <= FRACT_FLOAT_ERR macros
  /\ ~ log radii_externals 2 == 0
  /\ ~ minimum_radius (globals 2) plain_flags (1 / 2) (1 / 2) wide_consts
       == 0
  /\ nth_error (snd radii_out) 3 = Some last_radius
  /\ R_index last_radius = 3%nat
  /\ R last_radius
     <= maximum_radius wide_user 50 (1 / 2)
  /\ R last_radius = maximum_radius wide_user 50 (1 / 2)
  /\ 4%nat = length (snd radii_out)
  /\ fst radii_out = Z.of_nat (length (snd radii_out)).
Proof.
  assert (Herr : 0 <= FRACT_FLOAT_ERR macros) by q_le.
  assert (Hlog : ~ log radii_externals 2 == 0) by (intro H; discriminate H).
  assert (Hmin : ~ minimum_radius (globals 2) plain_flags (1 / 2) (1 / 2)
                     wide_consts == 0)
    by (intro H; vm_compute in H; discriminate H).
  assert (Hnth : nth_error (snd radii_out) 3 = Some last_radius)
    by (vm_compute; reflexivity).
  pose proof (setup_radii_stops_at_the_maximum_radius radii_externals macros
                (globals 2) wide_user plain_flags 50 (1 / 2) 2 (1 / 2)
                stale_radii wide_consts 3 last_radius Herr Hlog Hmin Hnth)
    as H.
  cbv zeta in H. destruct H as (A & _ & _ & _ & B & C & D).
  assert (Hcap : Qltb (maximum_radius wide_user 50 (1 / 2)
                       - FRACT_FLOAT_ERR macros)
                      (minimum_radius (globals 2) plain_flags (1 / 2) (1 / 2)
                                      wide_consts
                       * pow radii_externals 2 (Qnat 3)) = true)
    by (vm_compute; reflexivity).
  rewrite Hcap in C. destruct C as [C1 C2].
  exact (conj Herr (conj Hlog (conj Hmin (conj Hnth (conj A (conj B
           (conj C1 (conj C2 D)))))))).
Defined.

End IonisationGridsExamples.

Section PerturbHaloFieldExamples.

Import HaloBox PerturbHaloField Example FurtherExamples.

(** X16, witness: with the rounding of [float], the loops bring [25000] and
    [-25000] to [5000], one iteration beyond [iterations]. *)
Lemma wrap_is_the_residue_modulo_DI_example :
  exact_on_integers binary32
  /\ (Z.abs 25000 <= 2 ^ 24)%Z /\ (Z.abs (- 25000) <= 2 ^ 24)%Z
  /\ wrap_loops binary32 (S (iterations (inject_Z 25000))) (inject_Z 25000)
     = Some (inject_Z 5000)
  /\ wrap (inject_Z 25000) == inject_Z 5000
  /\ wrap_loops binary32 (S (iterations (inject_Z (- 25000))))
       (inject_Z (- 25000))
     = Some (inject_Z 5000).
Proof.
  assert (H1 : (Z.abs 25000 <= 2 ^ 24)%Z) by (vm_compute; discriminate).
  assert (H2 : (Z.abs (- 25000) <= 2 ^ 24)%Z) by (vm_compute; discriminate).
  destruct (wrap_is_the_residue_modulo_DI binary32 25000 binary32_integers H1)
    as (A & B & _).
  destruct (wrap_is_the_residue_modulo_DI binary32 (- 25000)
              binary32_integers H2) as (C & _).
  exact (conj binary32_integers (conj H1 (conj H2
           (conj (A (S (iterations (inject_Z 25000))) (Nat.lt_succ_diag_r _))
              (conj B
                 (C (S (iterations (inject_Z (- 25000))))
                    (Nat.lt_succ_diag_r _))))))).
Defined.

(** X31, witness: the [float] [2^39], which the position of a halo reaches
    with a displacement of a few times [10^7] box lengths: [float] stores
    [2^39 - 10000] as [2^39], and a thousand iterations do not leave the
    loop. *)
Lemma wrap_never_returns_from_a_large_float_example :
  DI <= inject_Z (2 ^ 39)
  /\ binary32 (inject_Z (2 ^ 39) - DI) = inject_Z (2 ^ 39)
  /\ wrap_loops binary32 1000 (inject_Z (2 ^ 39)) = None.
Proof.
  assert (H1 : DI <= inject_Z (2 ^ 39)) by q_le.
  assert (H2 : binary32 (inject_Z (2 ^ 39) - DI) = inject_Z (2 ^ 39))
    by (vm_compute; reflexivity).
  exact (conj H1 (conj H2
           (wrap_never_returns_from_a_large_float binary32
              (inject_Z (2 ^ 39)) 1000 H1 H2))).
Defined.


(** X18, witness: the second halo keeps its mass [6] and its three random
    numbers. *)
Lemma perturbation_keeps_masses_and_random_numbers_example :
  (0 < DIM hires)%nat /\ (0 < D_PARA hires)%nat
  /\ ~ BOX_LEN cube_user == 0 /\ ~ NON_CUBIC_FACTOR hires == 0
  /\ n_halos (snd displaced) = hf_n_halos catalogue
  /\ halo_masses (snd displaced) 1 = hf_halo_masses catalogue 1
  /\ star_rng (snd displaced) 1 = hf_star_rng catalogue 1
  /\ sfr_rng (snd displaced) 1 = hf_sfr_rng catalogue 1
  /\ xray_rng (snd displaced) 1 = hf_xray_rng catalogue 1.
Proof.
  assert (H1 : (0 < DIM hires)%nat) by (apply Nat.ltb_lt; reflexivity).
  assert (H2 : (0 < D_PARA hires)%nat) by (apply Nat.ltb_lt; reflexivity).
  assert (HB : ~ BOX_LEN cube_user == 0) by (intro H; discriminate H).
  assert (HN : ~ NON_CUBIC_FACTOR hires == 0) by (intro H; discriminate H).
  pose proof (perturbation_keeps_masses_and_random_numbers externals
                cube_user hires R_INDEX 8 velocities catalogue massless_halo
                1 H1 H2 HB HN) as H.
  cbv zeta in H. destruct H as [A B].
  change (1 <? hf_n_halos catalogue)%nat with true in B.
  exact (conj H1 (conj H2 (conj HB (conj HN (conj A B))))).
Defined.

(** X19, witness: the third low-resolution grid, [lowres_vz], in cell [0]: it
    is multiplied by [1/2] and divided by [1/2] again. *)
Lemma velocity_grids_are_restored_example :
  (0 < DIM hires)%nat /\ (0 < D_PARA hires)%nat
  /\ ~ dicke externals 8 == 0 /\ ~ BOX_LEN cube_user == 0
  /\ ~ NON_CUBIC_FACTOR hires == 0 /\ (2 < 12)%nat
  /\ lowres_vz (fst displaced) O == lowres_vz velocities O.
Proof.
  assert (H1 : (0 < DIM hires)%nat) by (apply Nat.ltb_lt; reflexivity).
  assert (H2 : (0 < D_PARA hires)%nat) by (apply Nat.ltb_lt; reflexivity).
  assert (Hg : ~ dicke externals 8 == 0) by (intro H; discriminate H).
  assert (HB : ~ BOX_LEN cube_user == 0) by (intro H; discriminate H).
  assert (HN : ~ NON_CUBIC_FACTOR hires == 0) by (intro H; discriminate H).
  assert (Hk : (2 < 12)%nat) by (apply Nat.ltb_lt; reflexivity).
  exact (conj H1 (conj H2 (conj Hg (conj HB (conj HN (conj Hk
           (velocity_grids_are_restored externals cube_user hires R_INDEX 8
              velocities catalogue massless_halo 2 O H1 H2 Hg HB HN
              Hk))))))).
Defined.

End PerturbHaloFieldExamples.

Section HaloModelExamples.

Import HaloBox HaloModel Example FurtherExamples.

(** X20, witness: a halo of mass [100] with [OMb/OMm = 1]. *)
Lemma stellar_mass_is_within_the_baryon_budget_example :
  0 < 100 /\ ~ 1 == 0 /\ 0 <= OMb cosmo /\ 0 < OMm cosmo
  /\ fst stellar_masses <= 100 * (OMb cosmo / OMm cosmo)
  /\ snd stellar_masses <= 100 * (OMb cosmo / OMm cosmo).
Proof.
  assert (Hm : 0 < 100) by q_lt.
  assert (Ht : ~ 1 == 0) by (intro H; discriminate H).
  assert (Hb : 0 <= OMb cosmo) by q_le.
  assert (Ho : 0 < OMm cosmo) by q_lt.
  pose proof (stellar_mass_is_within_the_baryon_budget externals cosmo
                plain_flags exp_to_second_order false 100 1 1 0 halo_consts
                Hm Ht Hb Ho) as H.
  cbv zeta in H. destruct H as (A & B & _).
  exact (conj Hm (conj Ht (conj Hb (conj Ho (conj A B))))).
Defined.

(** X21, witness: the properties of a halo of mass [100] without the
    spin-temperature flag and without mini-halos: no X-ray luminosity, no
    metallicity, no mini-halo component. *)
Lemma set_halo_properties_switches_and_caps_example :
  ~ 100 == 0 /\ ~ 1 == 0 /\ ~ OMm cosmo == 0
  /\ ~ t_star halo_consts * t_h halo_consts == 0
  /\ hp_halo_mass halo_sample = 100
  /\ hp_halo_xray halo_sample = 0 /\ hp_metallicity halo_sample = 0
  /\ hp_stellar_mass_mini halo_sample = 0 /\ hp_sfr_mini halo_sample = 0.
Proof.
  assert (Hm : ~ 100 == 0) by (intro H; discriminate H).
  assert (Ht : ~ 1 == 0) by (intro H; discriminate H).
  assert (Ho : ~ OMm cosmo == 0) by (intro H; discriminate H).
  assert (Hs : ~ t_star halo_consts * t_h halo_consts == 0)
    by (intro H; vm_compute in H; discriminate H).
  pose proof (set_halo_properties_switches_and_caps externals (globals 2)
                cosmo plain_flags exp_to_second_order 1 false 100 1 1
                halo_consts (0, 0, 0) props_0 Hm Ht Ho Hs) as H.
  cbv zeta in H. destruct H as (A & _ & _ & _ & B & C & _).
  destruct (B eq_refl) as [B1 B2]. destruct (C eq_refl) as [C1 C2].
  exact (conj Hm (conj Ht (conj Ho (conj Hs (conj A (conj B1 (conj B2
           (conj C1 C2)))))))).
Defined.

(** X22, witness: the halo-mass grid (the first of the eight) of [used_grids],
    whose lattice mean is [1]: after the call its mean is the expected
    global average. *)
Lemma mean_fix_grids_sets_the_lattice_mean_example :
  (0 < 8)%nat
  /\ ~ hp_halo_mass box_averages == 0
  /\ sum_cells (HII_TOT_NUM_PIXELS (user 1 true)) (halo_mass used_grids)
     / Qnat (HII_TOT_NUM_PIXELS (user 1 true))
     == hp_halo_mass box_averages
  /\ sum_cells (HII_TOT_NUM_PIXELS (user 1 true))
       (halo_mass fixed_to_the_mean)
     / Qnat (HII_TOT_NUM_PIXELS (user 1 true))
     == hp_halo_mass expected_averages.
Proof.
  assert (Hk : (0 < 8)%nat) by (apply Nat.ltb_lt; reflexivity).
  assert (Hmean : sum_cells (HII_TOT_NUM_PIXELS (user 1 true))
                    (halo_mass used_grids)
                  / Qnat (HII_TOT_NUM_PIXELS (user 1 true))
                  == hp_halo_mass box_averages) by q_eq.
  assert (Hnz : ~ hp_halo_mass box_averages == 0)
    by (intro H; discriminate H).
  pose proof (mean_fix_grids_sets_the_lattice_mean externals macros
                (globals 2) (user 1 true) cosmo plain_flags 1 1 1000
                used_grids box_averages halo_consts props_0 O Hk) as H.
  cbv zeta in H. destruct (H Hnz) as [_ H'].
  exact (conj Hk (conj Hnz (conj Hmean (H' Hmean)))).
Defined.

End HaloModelExamples.

Section HaloBoxSumExamples.

Import IonisationBox HaloBox Example FurtherExamples.

(** X23, witness: the halos of masses [5] and [7] on three cells of volume
    [1/3]: the grid holds [0], [15] and [21], and the reported average is
    [12]. *)
Lemma gridded_halo_mass_is_the_mass_of_the_catalogue_example :
  (forall c, (c < HII_TOT_NUM_PIXELS (user 3 true))%nat ->
             halo_mass empty_grids c == 0)
  /\ (forall i, (i < n_halos two_halos)%nat ->
                ~ halo_masses two_halos i == 0 ->
                (HII_R_INDEX externals (user 3 true)
                   (trunc (halo_coords two_halos (0 + 3 * i)))
                   (trunc (halo_coords two_halos (1 + 3 * i)))
                   (trunc (halo_coords two_halos (2 + 3 * i)))
                 < HII_TOT_NUM_PIXELS (user 3 true))%nat)
  /\ ~ VOLUME macros == 0
  /\ (0 < HII_TOT_NUM_PIXELS (user 3 true))%nat
  /\ sum_cells (HII_TOT_NUM_PIXELS (user 3 true)) (halo_mass (fst summed))
     * (VOLUME macros / Qnat (HII_TOT_NUM_PIXELS (user 3 true)))
     == sum_cells (n_halos two_halos) (halo_masses two_halos)
  /\ hp_halo_mass (snd summed) * VOLUME macros
     == sum_cells (n_halos two_halos) (halo_masses two_halos)
  /\ hp_halo_mass (snd summed) == 12.
Proof.
  assert (Hempty : forall c, (c < HII_TOT_NUM_PIXELS (user 3 true))%nat ->
                             halo_mass empty_grids c == 0)
    by (intros c _; apply Qeq_refl).
  assert (Hin : forall i, (i < n_halos two_halos)%nat ->
                  ~ halo_masses two_halos i == 0 ->
                  (HII_R_INDEX externals (user 3 true)
                     (trunc (halo_coords two_halos (0 + 3 * i)))
                     (trunc (halo_coords two_halos (1 + 3 * i)))
                     (trunc (halo_coords two_halos (2 + 3 * i)))
                   < HII_TOT_NUM_PIXELS (user 3 true))%nat).
  { intros i Hi _. cbn [n_halos two_halos] in Hi.
    destruct i as [| [| i]]; [| | lia]; apply Nat.ltb_lt; reflexivity. }
  assert (HV : ~ VOLUME macros == 0) by (intro H; discriminate H).
  assert (Hn : (0 < HII_TOT_NUM_PIXELS (user 3 true))%nat)
    by (apply Nat.ltb_lt; reflexivity).
  pose proof (gridded_halo_mass_is_the_mass_of_the_catalogue externals macros
                (globals 2) (user 3 true) (astro 1) plain_flags
                halo_properties zeros spin previous_box two_halos halo_consts
                props_0 empty_grids props_0 Hempty Hin HV Hn) as H.
  cbv zeta in H. destruct H as (A & B & _).
  refine (conj Hempty (conj Hin (conj HV (conj Hn (conj A (conj B _)))))).
  q_eq.
Defined.

(** X24, witness: with a Lyman-Werner threshold of [1 + vcb] and a constants
    struct that holds [42] in [vcb_norel] on entry, the reported turnover
    mass is [43], although the field is [0] after [set_hbox_constants]. *)
Lemma empty_catalogue_turnover_reads_vcb_norel_before_it_is_set_example :
  USE_MINI_HALOS mini_only = true
  /\ FIXED_HALO_GRIDS mini_only = false
  /\ AVG_BELOW_SAMPLER (user 1 true)
     && Qltb (minimum_source_mass velocity_externals 8 false (astro 1)
                mini_only)
             (SAMPLER_MIN_MASS (user 1 true)) = false
  /\ (forall i, (i < n_halos massless_halo)%nat ->
                halo_masses massless_halo i == 0)
  /\ hp_m_turn_mcg (snd mini_gridded) = 1 + 42
  /\ vcb_norel (set_hbox_constants velocity_externals (globals 2)
                  (user 1 true) (astro 1) mini_only 8 stale_consts)
     = 0.
Proof.
  assert (Hmass : forall i, (i < n_halos massless_halo)%nat ->
                            halo_masses massless_halo i == 0)
    by (intros i _; apply Qeq_refl).
  exact (conj eq_refl (conj eq_refl (conj eq_refl (conj Hmass
           (empty_catalogue_turnover_reads_vcb_norel_before_it_is_set
              velocity_externals macros (globals 2) (user 1 true) (astro 1)
              mini_only halo_properties fixed_grids stale_consts props_0
              props_0 8 zeros no_field massless_halo spin previous_box
              used_grids eq_refl eq_refl eq_refl Hmass))))).
Defined.

End HaloBoxSumExamples.

Section TsFilterExamples.

Import TsFilter Example FurtherExamples.

(** X25, witness: the radius [1] on three cells that hold [-2], [-1], [0]:
    the filter halves them, the floor [-1] and the factor [2] give the row
    [-2], [-1], [0], of minimum [-2], maximum [0] and average [-1]. *)
Lemma fill_Rbox_table_rows_example :
  (1 < 3)%nat /\ (0 < HII_TOT_NUM_PIXELS (user 3 true))%nat
  /\ min_arr filtered_table 1 <= result filtered_table 1 O
  /\ result filtered_table 1 O <= max_arr filtered_table 1
  /\ average_arr filtered_table 1 * Qnat (HII_TOT_NUM_PIXELS (user 3 true))
     == sum_cells (HII_TOT_NUM_PIXELS (user 3 true)) (result filtered_table 1)
  /\ result filtered_table 1 O == - (2)
  /\ average_arr filtered_table 1 == - (1).
Proof.
  assert (HR : (1 < 3)%nat) by (apply Nat.ltb_lt; reflexivity).
  assert (Hc : (0 < HII_TOT_NUM_PIXELS (user 3 true))%nat)
    by (apply Nat.ltb_lt; reflexivity).
  pose proof (fill_Rbox_table_rows (user 3 true) (1 / 2) grid damp
                (fun b => b) empty_table (fun c => Qnat c - 2) Qnat 3
                (- (1)) 2 1%nat O HR Hc) as H.
  cbv zeta in H. destruct H as (_ & A & B & C & _).
  refine (conj HR (conj Hc (conj A (conj B (conj C (conj _ _)))))); q_eq.
Defined.

End TsFilterExamples.

Section ShellBinExamples.

Import SpinTemperature ShellSums ShellExample.

Local Open Scope R_scope.

(** X26, witness: the second of the two shells of [ShellExample]: its bin
    reaches from the lower edge of the first shell down to its own, and
    the two widths add up to [zp] minus the last edge. *)
Lemma redshift_bins_tile_the_range_below_zp_example :
  (forall z, drdz externals z <> 0)
  /\ (1 < NUM_FILTER_STEPS_FOR_Ts params)%nat
  /\ dzpp_list shells 1%nat = zpp_edge shells O - zpp_edge shells 1%nat
  /\ zpp_for_evolve_list shells 1%nat
     = (zpp_edge shells 1%nat + zpp_edge shells O) * (1 / 2)
  /\ sum_array (NUM_FILTER_STEPS_FOR_Ts params) (dzpp_list shells)
     = 8 - zpp_edge shells (NUM_FILTER_STEPS_FOR_Ts params - 1)%nat.
Proof.
  assert (Hk : (1 < NUM_FILTER_STEPS_FOR_Ts params)%nat)
    by (apply Nat.ltb_lt; reflexivity).
  assert (Hd : forall z, drdz externals z <> 0)
    by (intro z; exact R1_neq_R0).
  pose proof (redshift_bins_tile_the_range_below_zp externals params 8 empty
                1%nat Hd Hk) as H.
  cbv zeta in H. destruct H as (_ & A & B & _ & _ & C).
  exact (conj Hd (conj Hk (conj A (conj B C)))).
Defined.

End ShellBinExamples.

Section TsSfrdExamples.

Import IonisationBox TsSfrd Example FurtherExamples.

(** X27, witness: the cell [2], of density contrast [3] above
    [0.99 * 1.686]: its value is [1]. *)
Lemma sfrd_grid_is_zero_or_one_at_the_boundaries_example :
  (2 < HII_TOT_NUM_PIXELS (user 3 true))%nat
  /\ - (1) < sfrd_density 2%nat * ones O
  /\ 1.686 * 0.99 < sfrd_density 2%nat * ones O
  /\ fst (fst (fst sfrd_out)) 2%nat = 1.
Proof.
  assert (Hc : (2 < HII_TOT_NUM_PIXELS (user 3 true))%nat)
    by (apply Nat.ltb_lt; reflexivity).
  assert (H1 : - (1) < sfrd_density 2%nat * ones O) by q_lt.
  assert (H2 : 1.686 * 0.99 < sfrd_density 2%nat * ones O) by q_lt.
  pose proof (sfrd_grid_is_zero_or_one_at_the_boundaries externals
                (user 3 true) plain_flags 1.686 rate rate_mini derivative
                ones ones ones ones ones ones ones 1 1 7 O sfrd_density zeros
                zeros zeros 2%nat Hc) as H.
  cbv zeta in H. destruct H as (_ & H & _).
  exact (conj Hc (conj H1 (conj H2 (proj1 (H H1 H2))))).
Defined.

(** X28, witness: the three cells add [0], [1/2] and [1]: the average is
    [1/2]. *)
Lemma ave_sfrd_is_the_mean_collapse_fraction_example :
  (0 < HII_TOT_NUM_PIXELS (user 3 true))%nat
  /\ snd (fst sfrd_out) * Qnat (HII_TOT_NUM_PIXELS (user 3 true)) == 3 / 2.
Proof.
  assert (Hn : (0 < HII_TOT_NUM_PIXELS (user 3 true))%nat)
    by (apply Nat.ltb_lt; reflexivity).
  pose proof (ave_sfrd_is_the_mean_collapse_fraction externals
                (user 3 true) plain_flags 1.686 rate rate_mini derivative
                ones ones ones ones ones ones ones 1 1 7 O sfrd_density zeros
                zeros zeros Hn) as H.
  cbv zeta in H. destruct H as [H _].
  refine (conj Hn _). rewrite H. q_eq.
Defined.

(** X29, witness: one cell of three lies between the boundaries and the local
    holds [7]: [*ave_sfrd_mini] is [7/3], without mini-halos. *)
Lemma ave_sfrd_mini_sums_the_unassigned_local_example :
  USE_MINI_HALOS plain_flags = false
  /\ (0 < HII_TOT_NUM_PIXELS (user 3 true))%nat
  /\ snd sfrd_out * Qnat (HII_TOT_NUM_PIXELS (user 3 true)) == 1 * 7
  /\ snd sfrd_out == 7 / 3.
Proof.
  assert (Hn : (0 < HII_TOT_NUM_PIXELS (user 3 true))%nat)
    by (apply Nat.ltb_lt; reflexivity).
  pose proof (ave_sfrd_mini_sums_the_unassigned_local externals
                (user 3 true) plain_flags 1.686 rate rate_mini derivative
                ones ones ones ones ones ones ones 1 1 7 O sfrd_density zeros
                zeros zeros eq_refl Hn) as H.
  cbv zeta in H.
  refine (conj eq_refl (conj Hn (conj _ _))).
  - rewrite H. q_eq.
  - q_eq.
Defined.

End TsSfrdExamples.
